(** * memories: sync engine and query guard, embedded in Rocq

    A shallow embedding of the TypeScript sources of the repository:
    the JSONL transform pipeline (classifier, tool extractor, schema
    mapper, parser), the transactional executor over the SQLite schema,
    the foreign-key resolver, the streaming line processor, the connection
    pool, the sliding-window rate limiter and the query validator.

    Layout: the modules below hold the definitions, one module per source
    file; the theorems follow after the last module. *)

From Stdlib Require Import ZArith NArith Lia Bool.
From Stdlib Require Import Strings.String Strings.Ascii Numbers.DecimalString.
From stdpp Require Import base tactics option list strings gmap.

Set Default Proof Using "Type".
Local Open Scope N_scope.

(* ===================================================================== *)
(** ** JavaScript strings and values *)
(* ===================================================================== *)

Module JS.

(** A JavaScript string, as the sequence of its code points. *)
Definition jsstring := list N.

(** A literal of the source text, written as a Rocq string (ASCII). *)
Definition js (s : string) : jsstring :=
  map N_of_ascii (list_ascii_of_string s).
Arguments js : simpl never.

(** [s.length]: UTF-16 code units, two for a code point above U+FFFF. *)
Definition js_length (s : jsstring) : N :=
  fold_right (fun c n => (if 65535 <? c then 2 else 1) + n) 0 s.

(** WhiteSpace and LineTerminator code points of ECMAScript: what
    [String.prototype.trim] strips and what [\s] matches. *)
Definition isWhiteSpace (c : N) : bool :=
  ((9 <=? c) && (c <=? 13)) || (c =? 32) || (c =? 160) || (c =? 5760)
  || ((8192 <=? c) && (c <=? 8202)) || (c =? 8232) || (c =? 8233)
  || (c =? 8239) || (c =? 8287) || (c =? 12288) || (c =? 65279).

Fixpoint trimStart (s : jsstring) : jsstring :=
  match s with
  | [] => []
  | c :: r => if isWhiteSpace c then trimStart r else s
  end.

Definition trimEnd (s : jsstring) : jsstring := rev (trimStart (rev s)).

Definition trim (s : jsstring) : jsstring := trimEnd (trimStart s).

(** Upper-casing of one ASCII code point; every other code point is left
    alone.  This is also the canonicalisation a case-insensitive regular
    expression (flag [i], no flag [u]) applies before comparing with an
    ASCII pattern character: a non-ASCII character never canonicalises to
    an ASCII one. *)
Definition asciiUpper (c : N) : N :=
  if (97 <=? c) && (c <=? 122) then c - 32 else c.

Section CaseMapping.
(** [String.prototype.toUpperCase] maps each code point on its own
    (Unicode default case conversion).  The mapping of the code points
    above U+007F comes from the Unicode tables of the runtime and is a
    parameter here; it may yield several code points, and ASCII ones
    (U+00DF gives "SS", U+017F gives "S"). *)
Variable toUpperNonAscii : N -> list N.

Definition upperCodePoint (c : N) : list N :=
  if c <? 128 then [asciiUpper c] else toUpperNonAscii c.

Definition toUpperCase (s : jsstring) : jsstring :=
  flat_map upperCodePoint s.
End CaseMapping.

(** A case mapping that leaves the non-ASCII code points alone: used to
    run the definitions on ASCII inputs, which never consult it. *)
Definition asciiOnlyCaseMapping (c : N) : list N := [c].

(** [s.startsWith(p)] *)
Fixpoint startsWith (s p : jsstring) : bool :=
  match p, s with
  | [], _ => true
  | _ :: _, [] => false
  | a :: p', b :: s' => (a =? b) && startsWith s' p'
  end.

(** [s.includes(k)] *)
Fixpoint includes (s k : jsstring) : bool :=
  startsWith s k
  || match s with
     | [] => false
     | _ :: s' => includes s' k
     end.

(** [xs.join(sep)] on strings. *)
Fixpoint join (sep : jsstring) (xs : list jsstring) : jsstring :=
  match xs with
  | [] => []
  | [x] => x
  | x :: r => x ++ sep ++ join sep r
  end.

(** A thrown [Error]: its [code] property, when the thrower sets one
    (better-sqlite3 does), and its [message]. *)
Record Error := mkError { code : option jsstring; message : jsstring }.

(** The result of running code that may throw. *)
Inductive outcome (A : Type) :=
| Returned (a : A)
| Thrown (e : Error).
Arguments Returned {A} a.
Arguments Thrown {A} e.

#[global] Instance outcome_ret : MRet outcome := @Returned.
#[global] Instance outcome_bind : MBind outcome := fun A B k m =>
  match m with
  | Returned a => k a
  | Thrown e => Thrown e
  end.

Definition isThrown {A} (m : outcome A) : bool :=
  match m with Thrown _ => true | Returned _ => false end.

(** *** Values

    A JSON value, as [JSON.parse] builds it.  Numbers are the integers; an
    object lists its own properties in enumeration order, each key once. *)
#[warnings="-register-all"]
Inductive json :=
| JNull
| JBool (b : bool)
| JNum (n : Z)
| JStr (s : jsstring)
| JArr (items : list json)
| JObj (props : list (jsstring * json)).

(** A JavaScript value of the pipeline: [None] is [undefined]. *)
Definition value := option json.
Definition undefined : value := None.
Definition null : value := Some JNull.
Definition str (s : string) : value := Some (JStr (js s)).

Definition json_eq_dec : forall a b : json, {a = b} + {a <> b}.
Proof.
  fix IH 1. intros a b.
  assert (Hl : forall l1 l2 : list json, {l1 = l2} + {l1 <> l2}).
  { apply List.list_eq_dec, IH. }
  assert (Hp : forall l1 l2 : list (jsstring * json), {l1 = l2} + {l1 <> l2}).
  { apply List.list_eq_dec. intros [k1 v1] [k2 v2].
    destruct (List.list_eq_dec N.eq_dec k1 k2); [|right; congruence].
    destruct (IH v1 v2); [left|right]; congruence. }
  destruct a, b; try (right; discriminate); try (left; reflexivity).
  - destruct (Bool.bool_dec b b0); [left|right]; congruence.
  - destruct (Z.eq_dec n n0); [left|right]; congruence.
  - destruct (List.list_eq_dec N.eq_dec s s0); [left|right]; congruence.
  - destruct (Hl items items0); [left|right]; congruence.
  - destruct (Hp props props0); [left|right]; congruence.
Defined.

#[global] Instance json_eq_decision : EqDecision json := json_eq_dec.

(** Truthiness: what [!x], [x || y] and [x ? a : b] test. *)
Definition truthy (v : value) : bool :=
  match v with
  | None | Some JNull => false
  | Some (JBool b) => b
  | Some (JNum n) => negb (n =? 0)%Z
  | Some (JStr s) => match s with [] => false | _ => true end
  | Some (JArr _) | Some (JObj _) => true
  end.

(** [a || b] *)
Definition orElse (a b : value) : value := if truthy a then a else b.

(** [v === 'lit'] *)
Definition isStr (v : value) (lit : string) : bool :=
  bool_decide (v = str lit).

(** [typeof v === 'string'] and [Array.isArray(v)] *)
Definition isString (v : value) : bool :=
  match v with Some (JStr _) => true | _ => false end.
Definition isArray (v : value) : bool :=
  match v with Some (JArr _) => true | _ => false end.

Fixpoint assoc (k : jsstring) (props : list (jsstring * json)) : value :=
  match props with
  | [] => None
  | (k', v) :: r => if bool_decide (k = k') then Some v else assoc k r
  end.

Definition TypeError (msg : jsstring) : Error := mkError None msg.

(** [v.k]: reading a property of [null] or [undefined] throws; the keys the
    pipeline reads are own properties of objects only, so every other value
    yields [undefined]. *)
Definition getProp (k : string) (v : value) : outcome value :=
  match v with
  | None =>
      Thrown (TypeError (js "Cannot read properties of undefined (reading '"
                         ++ js k ++ js "')"))
  | Some JNull =>
      Thrown (TypeError (js "Cannot read properties of null (reading '"
                         ++ js k ++ js "')"))
  | Some (JObj props) => Returned (assoc (js k) props)
  | Some _ => Returned None
  end.

(** [v?.k] *)
Definition getPropOpt (k : string) (v : value) : value :=
  match v with
  | Some (JObj props) => assoc (js k) props
  | _ => None
  end.
Arguments getProp : simpl never.
Arguments getPropOpt : simpl never.

Definition decimal (n : Z) : jsstring :=
  js (NilZero.string_of_int (Z.to_int n)).

(** [String(v)], the conversion a template literal and [join] apply. *)
Fixpoint ToStringJson (v : json) : jsstring :=
  match v with
  | JNull => js "null"
  | JBool true => js "true"
  | JBool false => js "false"
  | JNum n => decimal n
  | JStr s => s
  | JArr items =>
      join (js ",")
        (map (fun i => match i with JNull => [] | _ => ToStringJson i end) items)
  | JObj _ => js "[object Object]"
  end.

Definition ToString (v : value) : jsstring :=
  match v with
  | None => js "undefined"
  | Some j => ToStringJson j
  end.

(** [xs.join(sep)] on values: [null] and [undefined] give the empty
    string. *)
Definition joinValues (sep : jsstring) (xs : list value) : jsstring :=
  join sep (map (fun v => match v with
                          | None | Some JNull => []
                          | Some j => ToStringJson j
                          end) xs).

Definition hexDigit (d : N) : N := if d <? 10 then 48 + d else 87 + d.

(** The escape of one code point inside a JSON string literal. *)
Definition escapeCodePoint (c : N) : jsstring :=
  if c =? 8 then js "\b"
  else if c =? 9 then js "\t"
  else if c =? 10 then js "\n"
  else if c =? 12 then js "\f"
  else if c =? 13 then js "\r"
  else if c =? 34 then [92; 34]
  else if c =? 92 then [92; 92]
  else if (c <? 32) || ((55296 <=? c) && (c <=? 57343)) then
    [92; 117; hexDigit (c / 4096 mod 16); hexDigit (c / 256 mod 16);
     hexDigit (c / 16 mod 16); hexDigit (c mod 16)]
  else [c].

Definition quoteJSON (s : jsstring) : jsstring :=
  [34] ++ flat_map escapeCodePoint s ++ [34].

(** [JSON.stringify(v)] without indentation. *)
Fixpoint JSON_stringify (v : json) : jsstring :=
  match v with
  | JNull => js "null"
  | JBool true => js "true"
  | JBool false => js "false"
  | JNum n => decimal n
  | JStr s => quoteJSON s
  | JArr items => js "[" ++ join (js ",") (map JSON_stringify items) ++ js "]"
  | JObj props =>
      js "{"
      ++ join (js ",")
           (map (fun kv => quoteJSON (fst kv) ++ js ":" ++ JSON_stringify (snd kv)) props)
      ++ js "}"
  end.

End JS.

(* ===================================================================== *)
(** ** mcp-server/database/queries.ts *)
(* ===================================================================== *)

Module Query.
Import JS.

Definition FORBIDDEN_KEYWORDS : list jsstring :=
  map js ["INSERT"; "UPDATE"; "DELETE"; "DROP"; "CREATE"; "ALTER"; "REPLACE";
          "PRAGMA"; "ATTACH"; "DETACH"; "VACUUM"; "REINDEX"]%string.

(** Case-insensitive match of the ASCII upper-case word [p] at the start
    of [s], as the flag [i] gives it. *)
Definition startsWithCI (s p : jsstring) : bool :=
  startsWith (map asciiUpper s) p.

(** [/;\s*(INSERT|UPDATE|DELETE|DROP|CREATE|ALTER)/i.test(s)]: no
    alternative starts with white space, so the greedy [\s*] must take all
    of it. *)
Fixpoint test_separator_keyword (s : jsstring) : bool :=
  match s with
  | [] => false
  | c :: r =>
      ((c =? 59)
       && existsb (startsWithCI (trimStart r))
            (map js ["INSERT"; "UPDATE"; "DELETE"; "DROP"; "CREATE"; "ALTER"]%string))
      || test_separator_keyword r
  end.

(** [/UNION\s+SELECT/i.test(s)] *)
Fixpoint test_union_select (s : jsstring) : bool :=
  (startsWithCI s (js "UNION")
   && match drop 5 s with
      | c :: r => isWhiteSpace c && startsWithCI (trimStart r) (js "SELECT")
      | [] => false
      end)
  || match s with
     | [] => false
     | _ :: r => test_union_select r
     end.

(** [/--/.test(s)] and [/\/\*/.test(s)] *)
Definition test_line_comment (s : jsstring) : bool := includes s (js "--").
Definition test_block_comment (s : jsstring) : bool := includes s (js "/*").

Definition suspiciousPatterns : list (jsstring -> bool) :=
  [test_separator_keyword; test_union_select; test_line_comment; test_block_comment].

Section Validate.
Variable toUpperNonAscii : N -> list N.

Definition normalizedSql (sql : jsstring) : jsstring :=
  toUpperCase toUpperNonAscii (trim sql).

(** [validateQuery]: returns, or throws the error of the first check
    that fails. *)
Definition validateQuery (sql : jsstring) : outcome unit :=
  if negb (startsWith (normalizedSql sql) (js "SELECT")) then
    Thrown (mkError None (js "Only SELECT statements are allowed"))
  else
    match find (includes (normalizedSql sql)) FORBIDDEN_KEYWORDS with
    | Some keyword =>
        Thrown (mkError None (js "Forbidden keyword detected: " ++ keyword))
    | None =>
        if existsb (fun pattern => pattern sql) suspiciousPatterns then
          Thrown (mkError None (js "Suspicious SQL pattern detected"))
        else Returned tt
    end.
End Validate.

End Query.


(* ===================================================================== *)
(** ** sync_engine/claude_code/transform/tool_extractor.ts *)
(* ===================================================================== *)

(** [ToolUseData], and the structurally identical [ToolUseRecord] of the
    schema mapper. *)
Module ToolUse.
Record t := mk {
  id : JS.value;
  messageId : JS.value;
  toolId : JS.value;
  toolName : JS.value;
  parameters : JS.value
}.
End ToolUse.

(** [ToolResultData], and the structurally identical [ToolResultRecord]. *)
Module ToolResult.
Record t := mk {
  id : JS.value;
  toolUseId : JS.value;
  messageId : JS.value;
  output : JS.value;
  outputMimeType : JS.value;
  error : JS.value;
  errorType : JS.value
}.
End ToolResult.

Module ToolExtractor.
Import JS.

Record CleanedMessage := mkCleaned {
  originalMessage : json;
  cleanedContent : json;
  hasTools : bool
}.

(** [message.message?.content] *)
Definition messageContent (message : json) : outcome value :=
  m ← getProp "message" (Some message);
  mret (getPropOpt "content" m).

(** [xs.some(f)] for a callback that may throw: stops at the first hit. *)
Fixpoint someM {A} (f : A -> outcome bool) (xs : list A) : outcome bool :=
  match xs with
  | [] => mret false
  | x :: r => b ← f x; if (b : bool) then mret true else someM f r
  end.

(** The loop of [extractToolUses] over the content items: the tool uses
    and the items kept. *)
Fixpoint toolUsesLoop (message : json) (items : list json)
  : outcome (list ToolUse.t * list json) :=
  match items with
  | [] => mret ([], [])
  | contentItem :: rest =>
      ty ← getProp "type" (Some contentItem);
      if isStr ty "tool_use" then
        id ← getProp "id" (Some contentItem);
        uuid ← getProp "uuid" (Some message);
        toolId ← getProp "id" (Some contentItem);
        name ← getProp "name" (Some contentItem);
        input ← getProp "input" (Some contentItem);
        let toolUse :=
          ToolUse.mk id uuid toolId name
            (Some (JStr (JSON_stringify
                           (default (JObj []) (orElse input (Some (JObj [])))))))
        in
        r ← toolUsesLoop message rest;
        mret (toolUse :: r.1, r.2)
      else
        r ← toolUsesLoop message rest;
        mret (r.1, contentItem :: r.2)
  end.

Definition extractToolUses (message : json)
  : outcome (list ToolUse.t * CleanedMessage) :=
  content ← messageContent message;
  match content with
  | Some (JArr items) =>
      r ← toolUsesLoop message items;
      mret (r.1, mkCleaned message (JArr r.2) (negb (bool_decide (r.1 = []))))
  | _ =>
      mret ([], mkCleaned message
                  (default (JArr []) (orElse content (Some (JArr [])))) false)
  end.

(** The text blob of one [tool_result] item: [outputContent]. *)
Definition outputContent (contentItem : json) : outcome value :=
  content ← getProp "content" (Some contentItem);
  if truthy content then
    match content with
    | Some (JStr s) => mret (Some (JStr s))
    | Some (JArr items) =>
        parts ← mapM (fun item =>
                   if isString (Some item) then mret (Some item)
                   else
                     text ← getProp "text" (Some item);
                     mret (orElse text (Some (JStr (JSON_stringify item)))))
                 items;
        mret (Some (JStr (joinValues [10] parts)))
    | Some j => mret (Some (JStr (JSON_stringify j)))
    | None => mret null
    end
  else mret null.

Section Uuid.
(** [uuidv4()]: the identifiers the generator yields, in the order drawn;
    the argument counts the draws so far. *)
Variable uuidv4 : nat -> jsstring.

(** The loop of [extractToolResults]; the counter of draws is threaded
    through and survives a throw. *)
Fixpoint toolResultsLoop (message : json) (items : list json) (n : nat)
  : outcome (list ToolResult.t * list json) * nat :=
  match items with
  | [] => (mret ([], []), n)
  | contentItem :: rest =>
      match getProp "type" (Some contentItem) with
      | Thrown e => (Thrown e, n)
      | Returned ty =>
          if isStr ty "tool_result" then
            match
              out ← outputContent contentItem;
              toolUseId ← getProp "tool_use_id" (Some contentItem);
              uuid ← getProp "uuid" (Some message);
              contentType ← getProp "content_type" (Some contentItem);
              err ← getProp "error" (Some contentItem);
              mret (ToolResult.mk (Some (JStr (uuidv4 n))) toolUseId uuid out
                      (orElse contentType null) (orElse err null)
                      (if truthy err then str "tool_error" else null))
            with
            | Thrown e => (Thrown e, n)
            | Returned toolResult =>
                match toolResultsLoop message rest (S n) with
                | (Returned r, n') => (Returned (toolResult :: r.1, r.2), n')
                | (Thrown e, n') => (Thrown e, n')
                end
            end
          else
            match toolResultsLoop message rest n with
            | (Returned r, n') => (Returned (r.1, contentItem :: r.2), n')
            | (Thrown e, n') => (Thrown e, n')
            end
      end
  end.

Definition extractToolResults (message : json) (n : nat)
  : outcome (list ToolResult.t * CleanedMessage) * nat :=
  match messageContent message with
  | Thrown e => (Thrown e, n)
  | Returned (Some (JArr items)) =>
      match toolResultsLoop message items n with
      | (Returned r, n') =>
          (Returned (r.1, mkCleaned message (JArr r.2)
                            (negb (bool_decide (r.1 = [])))), n')
      | (Thrown e, n') => (Thrown e, n')
      end
  | Returned content =>
      (Returned ([], mkCleaned message
                       (default (JArr []) (orElse content (Some (JArr [])))) false), n)
  end.
End Uuid.

Definition containsTools (message : json) : outcome bool :=
  content ← messageContent message;
  match content with
  | Some (JArr items) =>
      someM (fun item =>
               ty ← getProp "type" (Some item);
               mret (isStr ty "tool_use" || isStr ty "tool_result"))
            items
  | _ => mret false
  end.

End ToolExtractor.

(* ===================================================================== *)
(** ** sync_engine/claude_code/transform/message_classifier.ts *)
(* ===================================================================== *)

Module MessageClassifier.
Import JS.

Inductive MessageType :=
| user_message
| assistant_message
| system_message
| summary_message
| tool_use_message
| tool_result_message
| unknown.

#[global] Instance MessageType_eq_dec : EqDecision MessageType.
Proof. solve_decision. Defined.

Record ClassifiedMessage := mkClassified {
  type : MessageType;
  originalMessage : json;
  isToolMessage : bool;
  hasTextContent : bool;
  sessionId : value;
  messageId : value;
  parentId : value;
  timestamp : value
}.

(** [s.trim().length > 0] *)
Definition nonBlank (s : jsstring) : bool :=
  match trim s with [] => false | _ => true end.

Definition hasNonToolTextContent (entry : json) : outcome bool :=
  content ← ToolExtractor.messageContent entry;
  if negb (truthy content) then mret false
  else
    match content with
    | Some (JStr s) => mret (nonBlank s)
    | Some (JArr items) =>
        ToolExtractor.someM
          (fun item =>
             ty ← getProp "type" (Some item);
             if isStr ty "text" then
               text ← getProp "text" (Some item);
               if truthy text then
                 match text with
                 | Some (JStr s) => mret (nonBlank s)
                 | _ => Thrown (TypeError (js "item.text.trim is not a function"))
                 end
               else mret false
             else mret false)
          items
    | _ => mret false
    end.

(** [classifyMessage]; [now] is [new Date().toISOString()]. *)
Definition classifyMessage (now : jsstring) (entry : json)
  : outcome ClassifiedMessage :=
  uuid ← getProp "uuid" (Some entry);
  let messageId := orElse uuid (str "") in
  sid ← getProp "sessionId" (Some entry);
  let sessionId := orElse sid (str "") in
  parent ← getProp "parentUuid" (Some entry);
  let parentId := orElse parent null in
  ts ← getProp "timestamp" (Some entry);
  let timestamp := orElse ts (Some (JStr now)) in
  isToolMessage ← ToolExtractor.containsTools entry;
  hasTextContent ← hasNonToolTextContent entry;
  ty ← getProp "type" (Some entry);
  let type :=
    if isStr ty "user" then
      if (isToolMessage : bool) then tool_result_message else user_message
    else if isStr ty "assistant" then
      if isToolMessage then tool_use_message else assistant_message
    else if isStr ty "system" then system_message
    else if isStr ty "summary" then summary_message
    else unknown
  in
  mret (mkClassified type entry isToolMessage hasTextContent
          sessionId messageId parentId timestamp).

Definition shouldStoreAsMessage (classified : ClassifiedMessage) : bool :=
  if hasTextContent classified then true
  else if bool_decide (type classified = system_message)
          || bool_decide (type classified = summary_message) then true
  else false.

(** The text items of a content array: those of type [text], their
    [text], the falsy ones dropped. *)
Fixpoint textItems (items : list json) : outcome (list value) :=
  match items with
  | [] => mret []
  | item :: rest =>
      ty ← getProp "type" (Some item);
      r ← textItems rest;
      if isStr ty "text" then
        let text := getPropOpt "text" (Some item) in
        mret (if truthy text then text :: r else r)
      else mret r
  end.

Definition getTextContent (entry : json) : outcome jsstring :=
  content ← ToolExtractor.messageContent entry;
  if negb (truthy content) then mret []
  else
    match content with
    | Some (JStr s) => mret s
    | Some (JArr items) =>
        texts ← textItems items;
        mret (joinValues [10] texts)
    | _ => mret []
    end.

(** [extractMessageText]: the pair [(userText, assistantText)]. *)
Definition extractMessageText (entry : json) (messageType : MessageType)
  : outcome (value * value) :=
  textContent ← getTextContent entry;
  let text := orElse (Some (JStr textContent)) null in
  if bool_decide (messageType = user_message)
     || bool_decide (messageType = tool_result_message) then
    mret (text, null)
  else if bool_decide (messageType = assistant_message)
          || bool_decide (messageType = tool_use_message) then
    mret (null, text)
  else mret (null, null).

End MessageClassifier.

(* ===================================================================== *)
(** ** sync_engine/claude_code/transform/schema_mapper.ts *)
(* ===================================================================== *)

Module SessionRecord.
Record t := mk {
  id : JS.value;
  sessionId : JS.value;
  sessionPath : JS.value
}.
End SessionRecord.

Module MessageRecord.
Record t := mk {
  id : JS.value;
  sessionId : JS.value;
  type : JS.value;
  timestamp : JS.value;
  isSidechain : JS.value;
  projectName : JS.value;
  activeFile : JS.value;
  userText : JS.value;
  userType : JS.value;
  userAttachments : JS.value;
  toolUseResultId : JS.value;
  toolUseResultName : JS.value;
  assistantRole : JS.value;
  assistantText : JS.value;
  assistantModel : JS.value
}.
End MessageRecord.

Module AttachmentRecord.
Record t := mk {
  id : JS.value;
  messageId : JS.value;
  type : JS.value;
  text : JS.value;
  url : JS.value;
  mimeType : JS.value;
  title : JS.value;
  filePath : JS.value
}.
End AttachmentRecord.

Module EnvInfoRecord.
Record t := mk {
  id : JS.value;
  messageId : JS.value;
  workingDirectory : JS.value;
  isGitRepo : JS.value;
  platform : JS.value;
  osVersion : JS.value;
  todaysDate : JS.value
}.
End EnvInfoRecord.

Module SchemaMapper.
Import JS.
Import MessageClassifier.

Definition mapMessageType (type : MessageType) : string :=
  match type with
  | user_message | tool_result_message => "user"
  | assistant_message | tool_use_message => "assistant"
  | system_message => "system"
  | summary_message => "summary"
  | unknown => "unknown"
  end.

Definition mapToMessageRecord (classified : ClassifiedMessage)
    (userText assistantText : value) : outcome MessageRecord.t :=
  let entry := Some (originalMessage classified) in
  isSidechain ← getProp "isSidechain" entry;
  userType ← getProp "userType" entry;
  message ← getProp "message" entry;
  mret (MessageRecord.mk
          (messageId classified)
          (sessionId classified)
          (str (mapMessageType (type classified)))
          (timestamp classified)
          (orElse isSidechain (Some (JBool false)))
          null null
          userText
          (orElse userType null)
          null null null
          (orElse (getPropOpt "role" message) null)
          assistantText
          (orElse (getPropOpt "model" message) null)).

Definition mapToToolUseRecord (toolUse : ToolUse.t) : ToolUse.t :=
  ToolUse.mk (ToolUse.id toolUse) (ToolUse.messageId toolUse)
    (ToolUse.toolId toolUse) (ToolUse.toolName toolUse)
    (ToolUse.parameters toolUse).

Definition mapToToolResultRecord (toolResult : ToolResult.t) : ToolResult.t :=
  ToolResult.mk (ToolResult.id toolResult) (ToolResult.toolUseId toolResult)
    (ToolResult.messageId toolResult) (ToolResult.output toolResult)
    null
    (ToolResult.error toolResult)
    null.

Definition createSessionRecord (classified : ClassifiedMessage)
    (sessionPath : jsstring) : SessionRecord.t :=
  SessionRecord.mk (sessionId classified) (sessionId classified)
    (Some (JStr sessionPath)).

Definition extractAttachments (classified : ClassifiedMessage)
  : list AttachmentRecord.t := [].

(** [extractEnvInfo]: [None] is the [null] it returns. *)
Definition extractEnvInfo (classified : ClassifiedMessage)
  : outcome (option EnvInfoRecord.t) :=
  let entry := Some (originalMessage classified) in
  cwd ← getProp "cwd" entry;
  platform ← getProp "platform" entry;
  gitBranch ← getProp "gitBranch" entry;
  if negb (truthy cwd) && negb (truthy platform) && negb (truthy gitBranch)
  then mret None
  else
    osVersion ← getProp "osVersion" entry;
    mret (Some (EnvInfoRecord.mk
                  (Some (JStr (js "env_" ++ ToString (messageId classified))))
                  (messageId classified)
                  (orElse cwd null)
                  (if truthy gitBranch then Some (JBool true) else null)
                  (orElse platform null)
                  (orElse osVersion null)
                  null)).

(** The names of the fields of [fields] whose value is falsy. *)
Definition missingFields (fields : list (string * value)) : list jsstring :=
  map (fun f => js f.1) (filter (fun f => negb (truthy f.2)) fields).

Definition invalidRecord (kind : string) (id : value)
    (fields : list (string * value)) : list jsstring :=
  match missingFields fields with
  | [] => []
  | missing =>
      [js "Invalid " ++ js kind ++ js " record "
       ++ ToString (orElse id (str "unknown"))
       ++ js ": missing fields [" ++ join (js ", ") missing ++ js "]"]
  end.

(** [validateRecords(...).errors] *)
Definition validateRecords (messages : list MessageRecord.t)
    (toolUses : list ToolUse.t) (toolResults : list ToolResult.t)
  : list jsstring :=
  flat_map (fun msg =>
      invalidRecord "message" (MessageRecord.id msg)
        [("id", MessageRecord.id msg); ("sessionId", MessageRecord.sessionId msg);
         ("type", MessageRecord.type msg);
         ("timestamp", MessageRecord.timestamp msg)]%string) messages
  ++ flat_map (fun tool =>
      invalidRecord "tool use" (ToolUse.id tool)
        [("id", ToolUse.id tool); ("messageId", ToolUse.messageId tool);
         ("toolId", ToolUse.toolId tool);
         ("toolName", ToolUse.toolName tool)]%string) toolUses
  ++ flat_map (fun result =>
      invalidRecord "tool result" (ToolResult.id result)
        [("id", ToolResult.id result); ("toolUseId", ToolResult.toolUseId result);
         ("messageId", ToolResult.messageId result)]%string) toolResults.

End SchemaMapper.

(* ===================================================================== *)
(** ** sync_engine/claude_code/transform/parse.ts *)
(* ===================================================================== *)

Module Parse.
Import JS.

Record ParsedEntry := mkParsed {
  session : SessionRecord.t;
  message : option MessageRecord.t;
  toolUses : list ToolUse.t;
  toolResults : list ToolResult.t;
  attachments : list AttachmentRecord.t;
  envInfo : option EnvInfoRecord.t;
  shouldSkipMessage : bool;
  errors : list jsstring
}.

Section Uuid.
Variable uuidv4 : nat -> jsstring.

(** The body of the [try] block of [parseAndTransform]. *)
Definition parseBody (now : jsstring) (entry : json) (sessionPath : jsstring)
    (n : nat) : outcome ParsedEntry * nat :=
  match
    classified ← MessageClassifier.classifyMessage now entry;
    uses ← ToolExtractor.extractToolUses entry;
    mret (classified, uses.1)
  with
  | Thrown e => (Thrown e, n)
  | Returned (classified, toolUses) =>
      let session := SchemaMapper.createSessionRecord classified sessionPath in
      match ToolExtractor.extractToolResults uuidv4 entry n with
      | (Thrown e, n') => (Thrown e, n')
      | (Returned results, n') =>
          (texts ← MessageClassifier.extractMessageText entry
                     (MessageClassifier.type classified);
           let shouldSkipMessage :=
             negb (MessageClassifier.shouldStoreAsMessage classified) in
           message ← (if shouldSkipMessage then mret None
                      else
                        m ← SchemaMapper.mapToMessageRecord
                              classified texts.1 texts.2;
                        mret (Some m));
           let attachments := SchemaMapper.extractAttachments classified in
           envInfo ← SchemaMapper.extractEnvInfo classified;
           let mappedToolUses := map SchemaMapper.mapToToolUseRecord toolUses in
           let mappedToolResults :=
             map SchemaMapper.mapToToolResultRecord results.1 in
           let errors :=
             SchemaMapper.validateRecords
               (match message with Some m => [m] | None => [] end)
               mappedToolUses mappedToolResults in
           mret (mkParsed session message mappedToolUses mappedToolResults
                   attachments envInfo shouldSkipMessage errors),
           n')
      end
  end.

(** [parseAndTransform]: the [catch] clause reads [entry.sessionId], which
    throws in its turn when the entry is [null]. *)
Definition parseAndTransform (now : jsstring) (entry : json)
    (sessionPath : jsstring) (n : nat) : outcome ParsedEntry * nat :=
  match parseBody now entry sessionPath n with
  | (Returned parsed, n') => (Returned parsed, n')
  | (Thrown error, n') =>
      (sid ← getProp "sessionId" (Some entry);
       let id := orElse sid (str "unknown") in
       mret (mkParsed (SessionRecord.mk id id (Some (JStr sessionPath)))
               None [] [] [] None true
               [js "Parse error: " ++ JS.message error]),
       n')
  end.

Fixpoint parseMultipleEntries (now : jsstring) (entries : list json)
    (sessionPath : jsstring) (n : nat) : outcome (list ParsedEntry) * nat :=
  match entries with
  | [] => (mret [], n)
  | entry :: rest =>
      match parseAndTransform now entry sessionPath n with
      | (Thrown e, n') => (Thrown e, n')
      | (Returned parsed, n') =>
          match parseMultipleEntries now rest sessionPath n' with
          | (Returned ps, n'') => (Returned (parsed :: ps), n'')
          | (Thrown e, n'') => (Thrown e, n'')
          end
      end
  end.
End Uuid.

End Parse.

(* ===================================================================== *)
(** ** The store: SQLite under the schema of sync_engine/execute/schema.ts *)
(* ===================================================================== *)

Module Sqlite.
Import JS.

Inductive sqlval :=
| SNull
| SInt (n : Z)
| SText (s : jsstring).

#[global] Instance sqlval_eq_dec : EqDecision sqlval.
Proof. solve_decision. Defined.

Inductive affinity := TEXT | NUMERIC.

Record Column := mkColumn {
  cname : string;
  ctype : affinity;
  notnull : bool;
  cdefault : sqlval
}.

Record ForeignKey := mkFK {
  fk_column : string;
  fk_parentTable : string;
  fk_parentColumn : string
}.

Record Table := mkTable {
  tname : string;
  columns : list Column;
  primaryKey : string;
  uniques : list string;
  foreignKeys : list ForeignKey
}.

Definition text (name : string) : Column := mkColumn name TEXT false SNull.
Definition textNotNull (name : string) : Column := mkColumn name TEXT true SNull.
Definition boolean (name : string) (dflt : sqlval) : Column :=
  mkColumn name NUMERIC false dflt.
(** [created DATETIME DEFAULT CURRENT_TIMESTAMP]: the time of the insert,
    which nothing reads; a fixed text stands for it. *)
Definition created : Column :=
  mkColumn "created" NUMERIC false (SText (js "CURRENT_TIMESTAMP")).

(** [createTables]: the six tables. *)
Definition schema : list Table := [
  mkTable "sessions"
    [text "id"; textNotNull "sessionId"; textNotNull "sessionPath"; created]
    "id" ["sessionId"] [];
  mkTable "messages"
    [text "id"; textNotNull "sessionId"; textNotNull "type";
     textNotNull "timestamp"; boolean "isSidechain" (SInt 0);
     text "projectName"; text "activeFile";
     text "userText"; text "userType"; text "userAttachments";
     text "toolUseResultId"; text "toolUseResultName";
     text "assistantRole"; text "assistantText"; text "assistantModel"; created]
    "id" [] [mkFK "sessionId" "sessions" "sessionId"];
  mkTable "tool_uses"
    [text "id"; textNotNull "messageId"; textNotNull "toolId";
     textNotNull "toolName"; textNotNull "parameters"; created]
    "id" [] [mkFK "messageId" "messages" "id"];
  mkTable "tool_use_results"
    [text "id"; textNotNull "toolUseId"; textNotNull "messageId";
     text "output"; text "outputMimeType"; text "error"; text "errorType"; created]
    "id" []
    [mkFK "toolUseId" "tool_uses" "id"; mkFK "messageId" "messages" "id"];
  mkTable "attachments"
    [text "id"; textNotNull "messageId"; textNotNull "type"; text "text";
     text "url"; text "mimeType"; text "title"; text "filePath"; created]
    "id" [] [mkFK "messageId" "messages" "id"];
  mkTable "env_info"
    [text "id"; textNotNull "messageId"; text "workingDirectory";
     boolean "isGitRepo" SNull; text "platform"; text "osVersion";
     text "todaysDate"; created]
    "id" [] [mkFK "messageId" "messages" "id"]
]%string.

(** A row holds one value per column of its table, in the order of the
    columns; a store holds the rows of each table, oldest first. *)
Definition row := list sqlval.
Definition DB := gmap string (list row).

Definition rowsOf (table : string) (db : DB) : list row :=
  default [] (db !! table).

Definition findTable (table : string) : option Table :=
  find (fun t => String.eqb (tname t) table) schema.

Fixpoint columnIndex (cols : list Column) (name : string) : option nat :=
  match cols with
  | [] => None
  | c :: r =>
      if String.eqb (cname c) name then Some 0%nat
      else S <$> columnIndex r name
  end.

(** The value of the column [name] in the row [r] of table [t]. *)
Definition field (t : Table) (name : string) (r : row) : sqlval :=
  match columnIndex (columns t) name with
  | Some i => default SNull (r !! i)
  | None => SNull
  end.

(** Column affinity: a TEXT column stores a number as its text. *)
Definition applyAffinity (a : affinity) (v : sqlval) : sqlval :=
  match a, v with
  | TEXT, SInt n => SText (decimal n)
  | _, _ => v
  end.

(** Some row of [table] has the non-NULL value [v] in column [name]. *)
Definition hasKey (t : Table) (name : string) (v : sqlval) (db : DB) : bool :=
  match v with
  | SNull => false
  | _ => existsb (fun r => bool_decide (field t name r = v)) (rowsOf (tname t) db)
  end.

Definition SqliteError (code message : jsstring) : Error :=
  mkError (Some code) message.

(** better-sqlite3 binds numbers, strings and [null]/[undefined], and
    refuses a boolean with this TypeError.  An argument that is an array
    or a plain object is to it a list of parameters or a map of named
    ones, not a value: with one [?] per argument the call then fails on
    the number of parameters.  Here such an argument makes [run] or [get]
    throw like a boolean; an array that spreads to just as many values as
    the [?] it stands for is not told apart. *)
Definition bindValue (v : value) : outcome sqlval :=
  match v with
  | None | Some JNull => mret SNull
  | Some (JNum n) => mret (SInt n)
  | Some (JStr s) => mret (SText s)
  | Some _ =>
      Thrown (TypeError
                (js "SQLite3 can only bind numbers, strings, bigints, buffers, and null"))
  end.

Fixpoint lookupColumn (name : string) (cols : list string) (vals : list sqlval)
  : option sqlval :=
  match cols, vals with
  | c :: cols', v :: vals' =>
      if String.eqb c name then Some v else lookupColumn name cols' vals'
  | _, _ => None
  end.

(** The row an INSERT naming [cols] builds from [vals]. *)
Definition buildRow (t : Table) (cols : list string) (vals : list sqlval) : row :=
  map (fun c =>
         match lookupColumn (cname c) cols vals with
         | Some v => applyAffinity (ctype c) v
         | None => cdefault c
         end)
      (columns t).

(** The first NOT NULL, PRIMARY KEY or UNIQUE constraint the row breaks. *)
Definition conflict (t : Table) (r : row) (db : DB) : option Error :=
  match find (fun c => notnull c && bool_decide (field t (cname c) r = SNull))
             (columns t) with
  | Some c =>
      Some (SqliteError (js "SQLITE_CONSTRAINT_NOTNULL")
              (js "NOT NULL constraint failed: " ++ js (tname t) ++ js "."
               ++ js (cname c)))
  | None =>
      if hasKey t (primaryKey t) (field t (primaryKey t) r) db then
        Some (SqliteError (js "SQLITE_CONSTRAINT_PRIMARYKEY")
                (js "UNIQUE constraint failed: " ++ js (tname t) ++ js "."
                 ++ js (primaryKey t)))
      else
        match find (fun u => hasKey t u (field t u r) db) (uniques t) with
        | Some u =>
            Some (SqliteError (js "SQLITE_CONSTRAINT_UNIQUE")
                    (js "UNIQUE constraint failed: " ++ js (tname t) ++ js "."
                     ++ js u))
        | None => None
        end
  end.

(** Every foreign key of the row is NULL or names a row of its parent. *)
Definition foreignKeysHold (t : Table) (r : row) (db : DB) : bool :=
  forallb (fun fk =>
             match field t (fk_column fk) r, findTable (fk_parentTable fk) with
             | SNull, _ => true
             | v, Some parent => hasKey parent (fk_parentColumn fk) v db
             | _, None => false
             end)
          (foreignKeys t).

(** [db.prepare("INSERT [OR IGNORE] INTO table (cols) VALUES (?...)").run(vals)]
    with foreign keys enforced: the number of rows changed, or the error
    thrown. *)
Definition insertInto (orIgnore : bool) (table : string) (cols : list string)
    (vals : list sqlval) (db : DB) : outcome nat * DB :=
  match findTable table with
  | None =>
      (Thrown (SqliteError (js "SQLITE_ERROR") (js "no such table: " ++ js table)), db)
  | Some t =>
      match find (fun c => bool_decide (columnIndex (columns t) c = None)) cols with
      | Some c =>
          (Thrown (SqliteError (js "SQLITE_ERROR")
                     (js "table " ++ js table ++ js " has no column named " ++ js c)),
           db)
      | None =>
          if negb (length cols =? length vals)%nat then
            (Thrown (mkError None (js "Too few parameter values were provided")), db)
          else
            let r := buildRow t cols vals in
            match conflict t r db with
            | Some e => if orIgnore then (mret 0%nat, db) else (Thrown e, db)
            | None =>
                if foreignKeysHold t r db then
                  (mret 1%nat, <[table := rowsOf table db ++ [r]]> db)
                else
                  (Thrown (SqliteError (js "SQLITE_CONSTRAINT_FOREIGNKEY")
                             (js "FOREIGN KEY constraint failed")), db)
            end
      end
  end.

(** [db.prepare("SELECT id FROM table WHERE id = ?").get(v)] is a row. *)
Definition selectById (table : string) (v : sqlval) (db : DB) : outcome bool :=
  match findTable table with
  | None =>
      Thrown (SqliteError (js "SQLITE_ERROR") (js "no such table: " ++ js table))
  | Some t => mret (hasKey t "id" (applyAffinity TEXT v) db)
  end.

End Sqlite.

(* ===================================================================== *)
(** ** sync_engine/execute/transaction_log.ts and database.ts *)
(* ===================================================================== *)

Module Executor.
Import JS Sqlite.

(** One line of the audit log ([logTransaction]); the time stamp and the
    random [logId] are left out. *)
Record DatabaseTransaction := mkLog {
  table : string;
  sessionId : value;
  messageId : value;
  changes : list (string * value)
}.

Record ExecuteResult := mkResult {
  messagesInserted : nat;
  messagesUpdated : nat;
  toolUsesInserted : nat;
  toolResultsInserted : nat;
  attachmentsInserted : nat;
  envInfoInserted : nat;
  errors : list Error
}.

Definition emptyResult : ExecuteResult := mkResult 0 0 0 0 0 0 [].

(** What a run works on: the store, the audit log, and the [result]
    object it fills in. *)
Record St := mkSt {
  db : DB;
  auditLog : list DatabaseTransaction;
  result : ExecuteResult
}.

(** Code that reads and writes [St] and may throw; the state survives a
    throw, as the statements run before it are not undone. *)
Definition Exec (A : Type) : Type := St -> outcome A * St.

#[global] Instance Exec_ret : MRet Exec := fun A a st => (Returned a, st).
#[global] Instance Exec_bind : MBind Exec := fun A B k m st =>
  match m st with
  | (Returned a, st') => k a st'
  | (Thrown e, st') => (Thrown e, st')
  end.

Definition lift {A} (m : outcome A) : Exec A := fun st => (m, st).

Definition onDb {A} (f : DB -> outcome A * DB) : Exec A := fun st =>
  let '(r, db') := f (db st) in (r, mkSt db' (auditLog st) (result st)).

Definition logTransaction (entry : DatabaseTransaction) : Exec unit := fun st =>
  (Returned tt, mkSt (db st) (auditLog st ++ [entry]) (result st)).

Definition updateResult (f : ExecuteResult -> ExecuteResult) : Exec unit :=
  fun st => (Returned tt, mkSt (db st) (auditLog st) (f (result st))).

(** [try { body } catch (error) { handler(error) }] *)
Definition tryCatch (body : Exec unit) (handler : Error -> Exec unit) : Exec unit :=
  fun st =>
    match body st with
    | (Returned a, st') => (Returned a, st')
    | (Thrown e, st') => handler e st'
    end.

(** [for (const x of xs) body(x)] *)
Fixpoint forEach {A} (xs : list A) (body : A -> Exec unit) : Exec unit :=
  match xs with
  | [] => mret tt
  | x :: r => body x ;; forEach r body
  end.

(** [db.prepare(INSERT ...).run(args)]: the arguments are bound, then the
    statement runs. *)
Definition run (orIgnore : bool) (table : string) (cols : list string)
    (args : list value) : Exec nat :=
  vals ← lift (mapM bindValue args);
  onDb (insertInto orIgnore table cols vals).

(** [db.prepare('SELECT id FROM table WHERE id = ?').get(id)] is truthy. *)
Definition existsById (table : string) (id : value) : Exec bool :=
  v ← lift (bindValue id);
  onDb (fun d => (selectById table v d, d)).

Definition pushError (e : Error) : Exec unit :=
  updateResult (fun r =>
    mkResult (messagesInserted r) (messagesUpdated r) (toolUsesInserted r)
      (toolResultsInserted r) (attachmentsInserted r) (envInfoInserted r)
      (errors r ++ [e])).

Definition ensureSessionRecord (session : SessionRecord.t) : Exec unit :=
  n ← run true "sessions" ["id"; "sessionId"; "sessionPath"]
        [SessionRecord.id session; SessionRecord.sessionId session;
         SessionRecord.sessionPath session];
  if (0 <? n)%nat then
    logTransaction (mkLog "sessions" (SessionRecord.sessionId session) undefined
                      [("sessionPath", SessionRecord.sessionPath session)])
  else mret tt.

Definition insertMessageRecord (message : MessageRecord.t) : Exec unit :=
  run false "messages"
    ["id"; "sessionId"; "type"; "timestamp"; "isSidechain";
     "projectName"; "activeFile"; "userText"; "userType"; "userAttachments";
     "toolUseResultId"; "toolUseResultName"; "assistantRole"; "assistantText";
     "assistantModel"]
    [MessageRecord.id message; MessageRecord.sessionId message;
     MessageRecord.type message; MessageRecord.timestamp message;
     Some (JNum (if truthy (MessageRecord.isSidechain message) then 1 else 0));
     orElse (MessageRecord.projectName message) null;
     orElse (MessageRecord.activeFile message) null;
     orElse (MessageRecord.userText message) null;
     orElse (MessageRecord.userType message) null;
     orElse (MessageRecord.userAttachments message) null;
     orElse (MessageRecord.toolUseResultId message) null;
     orElse (MessageRecord.toolUseResultName message) null;
     orElse (MessageRecord.assistantRole message) null;
     orElse (MessageRecord.assistantText message) null;
     orElse (MessageRecord.assistantModel message) null] ;;
  logTransaction (mkLog "messages" (MessageRecord.sessionId message)
                    (MessageRecord.id message)
                    [("type", MessageRecord.type message)]).

Definition insertToolUseRecord (toolUse : ToolUse.t) (sessionId : value)
  : Exec unit :=
  run false "tool_uses" ["id"; "messageId"; "toolId"; "toolName"; "parameters"]
    [ToolUse.id toolUse; ToolUse.messageId toolUse;
     orElse (ToolUse.toolId toolUse) null;
     orElse (ToolUse.toolName toolUse) null;
     orElse (ToolUse.parameters toolUse) null] ;;
  logTransaction (mkLog "tool_uses" sessionId (ToolUse.messageId toolUse)
                    [("toolId", ToolUse.toolId toolUse);
                     ("toolName", ToolUse.toolName toolUse)]).

Definition insertToolResultRecord (toolResult : ToolResult.t) (sessionId : value)
  : Exec unit :=
  run false "tool_use_results"
    ["id"; "toolUseId"; "messageId"; "output"; "outputMimeType"; "error";
     "errorType"]
    [orElse (ToolResult.id toolResult) null;
     orElse (ToolResult.toolUseId toolResult) null;
     orElse (ToolResult.messageId toolResult) null;
     orElse (ToolResult.output toolResult) null;
     orElse (ToolResult.outputMimeType toolResult) null;
     orElse (ToolResult.error toolResult) null;
     orElse (ToolResult.errorType toolResult) null] ;;
  logTransaction (mkLog "tool_use_results" sessionId
                    (ToolResult.messageId toolResult)
                    [("toolUseId", ToolResult.toolUseId toolResult)]).

Definition insertAttachmentRecord (attachment : AttachmentRecord.t) : Exec unit :=
  run false "attachments"
    ["id"; "messageId"; "type"; "text"; "url"; "mimeType"; "title"; "filePath"]
    [AttachmentRecord.id attachment; AttachmentRecord.messageId attachment;
     orElse (AttachmentRecord.type attachment) null;
     orElse (AttachmentRecord.text attachment) null;
     orElse (AttachmentRecord.url attachment) null;
     orElse (AttachmentRecord.mimeType attachment) null;
     orElse (AttachmentRecord.title attachment) null;
     orElse (AttachmentRecord.filePath attachment) null] ;;
  mret tt.

Definition insertEnvInfoRecord (envInfo : EnvInfoRecord.t) : Exec unit :=
  run false "env_info"
    ["id"; "messageId"; "workingDirectory"; "isGitRepo"; "platform";
     "osVersion"; "todaysDate"]
    [EnvInfoRecord.id envInfo; EnvInfoRecord.messageId envInfo;
     orElse (EnvInfoRecord.workingDirectory envInfo) null;
     Some (JNum (if truthy (EnvInfoRecord.isGitRepo envInfo) then 1 else 0));
     orElse (EnvInfoRecord.platform envInfo) null;
     orElse (EnvInfoRecord.osVersion envInfo) null;
     orElse (EnvInfoRecord.todaysDate envInfo) null] ;;
  mret tt.

Definition bump (which : string) : Exec unit :=
  updateResult (fun r =>
    mkResult
      (messagesInserted r + if String.eqb which "messagesInserted" then 1 else 0)
      (messagesUpdated r + if String.eqb which "messagesUpdated" then 1 else 0)
      (toolUsesInserted r + if String.eqb which "toolUsesInserted" then 1 else 0)
      (toolResultsInserted r
       + if String.eqb which "toolResultsInserted" then 1 else 0)
      (attachmentsInserted r
       + if String.eqb which "attachmentsInserted" then 1 else 0)
      (envInfoInserted r + if String.eqb which "envInfoInserted" then 1 else 0)
      (errors r))%nat.

(** The minimal message record made for tool records to reference. *)
Definition placeholderMessage (now : jsstring) (firstToolId : value)
    (session : SessionRecord.t) : MessageRecord.t :=
  MessageRecord.mk firstToolId (SessionRecord.id session) (str "tool_message")
    (Some (JStr now)) (Some (JBool false))
    (orElse (SessionRecord.sessionPath session) null)
    null null null null null null null null null.

(** The message the executor writes for a parsed entry, if any. *)
Definition messageToInsert (now : jsstring) (parsed : Parse.ParsedEntry)
  : option MessageRecord.t :=
  let hasToolData :=
    negb (bool_decide (Parse.toolUses parsed = []))
    || negb (bool_decide (Parse.toolResults parsed = [])) in
  match Parse.message parsed with
  | Some m => Some m
  | None =>
      if hasToolData then
        let firstToolId :=
          orElse (head (Parse.toolUses parsed) ≫= ToolUse.messageId)
                 (head (Parse.toolResults parsed) ≫= ToolResult.messageId) in
        if truthy firstToolId
        then Some (placeholderMessage now firstToolId (Parse.session parsed))
        else None
      else None
  end.

(** The body of the [try] block run for one parsed entry. *)
Definition executeEntry (now : jsstring) (parsed : Parse.ParsedEntry) : Exec unit :=
  forEach (Parse.errors parsed) (fun error =>
    pushError (mkError None (js "Parse error: " ++ error))) ;;
  ensureSessionRecord (Parse.session parsed) ;;
  match messageToInsert now parsed with
  | Some message =>
      found ← existsById "messages" (MessageRecord.id message);
      if (found : bool) then bump "messagesUpdated"
      else insertMessageRecord message ;; bump "messagesInserted"
  | None => mret tt
  end ;;
  forEach (Parse.toolUses parsed) (fun toolUse =>
    found ← existsById "tool_uses" (ToolUse.id toolUse);
    if (found : bool) then mret tt
    else
      insertToolUseRecord toolUse (SessionRecord.id (Parse.session parsed)) ;;
      bump "toolUsesInserted") ;;
  forEach (Parse.toolResults parsed) (fun toolResult =>
    found ← existsById "tool_use_results" (ToolResult.id toolResult);
    if (found : bool) then mret tt
    else
      insertToolResultRecord toolResult (SessionRecord.id (Parse.session parsed)) ;;
      bump "toolResultsInserted") ;;
  forEach (Parse.attachments parsed) (fun attachment =>
    found ← existsById "attachments" (AttachmentRecord.id attachment);
    if (found : bool) then mret tt
    else insertAttachmentRecord attachment ;; bump "attachmentsInserted") ;;
  match Parse.envInfo parsed with
  | Some envInfo =>
      found ← existsById "env_info" (EnvInfoRecord.id envInfo);
      if (found : bool) then mret tt
      else insertEnvInfoRecord envInfo ;; bump "envInfoInserted"
  | None => mret tt
  end.

(** The summary line logged when the batch inserted something. *)
Definition logBatchSummary : Exec unit := fun st =>
  let r := result st in
  let totalInserted :=
    (messagesInserted r + toolUsesInserted r + toolResultsInserted r)%nat in
  if (0 <? totalInserted)%nat then
    logTransaction
      (mkLog "batch_operation" (str "batch") undefined
         [("operation", str "parsed_entries");
          ("count", Some (JNum (Z.of_nat totalInserted)))]) st
  else (Returned tt, st).

(** The function handed to [db.transaction]. *)
Definition batch (now : jsstring) (parsedEntries : list Parse.ParsedEntry)
  : Exec unit :=
  forEach parsedEntries (fun parsed =>
    tryCatch (executeEntry now parsed) pushError) ;;
  logBatchSummary.

(** [db.transaction(fn)()]: a throw of [fn] rolls the store back and is
    thrown on. *)
Definition transaction (fn : Exec unit) : Exec unit := fun st =>
  match fn st with
  | (Returned a, st') => (Returned a, st')
  | (Thrown e, st') => (Thrown e, mkSt (db st) (auditLog st') (result st'))
  end.

(** The store and the audit log, which outlive a run. *)
Definition World : Type := DB * list DatabaseTransaction.

(** The operation [executeParsedEntries] hands to the retry loop. *)
Definition executeOnce (now : jsstring) (parsedEntries : list Parse.ParsedEntry)
    (w : World) : outcome ExecuteResult * World :=
  let '(_, st) :=
    tryCatch (transaction (batch now parsedEntries)) pushError
      (mkSt w.1 w.2 emptyResult) in
  (Returned (result st), (db st, auditLog st)).

Definition isBusy (error : Error) : bool :=
  bool_decide (code error = Some (js "SQLITE_BUSY"))
  || includes (message error) (js "database is locked").

(** [retryDatabaseOperation]: attempt [attempt] of [maxRetries]; [fuel]
    bounds the attempts left.  The busy wait between attempts only lets
    time pass. *)
Fixpoint retryLoop {T} (operation : World -> outcome T * World)
    (maxRetries attempt : nat) (fuel : nat) (w : World) : outcome T * World :=
  match fuel with
  | O => (Thrown (mkError None (js "undefined")), w)
  | S fuel' =>
      match operation w with
      | (Returned r, w') => (Returned r, w')
      | (Thrown error, w') =>
          if isBusy error && (attempt <? maxRetries)%nat
          then retryLoop operation maxRetries (S attempt) fuel' w'
          else (Thrown error, w')
      end
  end.

Definition retryDatabaseOperation {T} (operation : World -> outcome T * World)
    (maxRetries : nat) : World -> outcome T * World :=
  retryLoop operation maxRetries 1 maxRetries.

Definition executeParsedEntries (now : jsstring)
    (parsedEntries : list Parse.ParsedEntry) : World -> outcome ExecuteResult * World :=
  retryDatabaseOperation (executeOnce now parsedEntries) 5.

End Executor.

(* ===================================================================== *)
(** ** The foreign-key failure handler (sync_engine/validation/schemas.ts) *)
(* ===================================================================== *)

Module FK.
Import JS Sqlite.

Record FKError := mkFKError {
  table : jsstring;
  column : jsstring;
  value : JS.value;
  parentTable : jsstring;
  parentColumn : jsstring
}.

Fixpoint takeWhile (p : N -> bool) (s : jsstring) : jsstring :=
  match s with
  | c :: r => if p c then c :: takeWhile p r else []
  | [] => []
  end.

Fixpoint dropWhile (p : N -> bool) (s : jsstring) : jsstring :=
  match s with
  | c :: r => if p c then dropWhile p r else s
  | [] => []
  end.

(** [\w] and [[:\s]] *)
Definition isWordChar (c : N) : bool :=
  ((48 <=? c) && (c <=? 57)) || ((65 <=? c) && (c <=? 90)) || (c =? 95)
  || ((97 <=? c) && (c <=? 122)).
Definition isColonOrSpace (c : N) : bool := (c =? 58) || isWhiteSpace c.

(** A match of [/FOREIGN KEY constraint failed[:\s]+(\w+)\.(\w+)/] at the
    start of [s]: its two groups.  The character classes that follow one
    another are disjoint, so each greedy repetition takes all it can. *)
Definition matchFKAt (s : jsstring) : option (jsstring * jsstring) :=
  let lit := js "FOREIGN KEY constraint failed" in
  if startsWith s lit then
    let r := drop (length lit) s in
    match takeWhile isColonOrSpace r with
    | [] => None
    | _ =>
        let r2 := dropWhile isColonOrSpace r in
        match takeWhile isWordChar r2, dropWhile isWordChar r2 with
        | (_ :: _) as w1, 46 :: r3 =>
            match takeWhile isWordChar r3 with
            | [] => None
            | w2 => Some (w1, w2)
            end
        | _, _ => None
        end
    end
  else None.

(** [message.match(...)]: the leftmost match. *)
Fixpoint matchFK (s : jsstring) : option (jsstring * jsstring) :=
  match matchFKAt s with
  | Some m => Some m
  | None => match s with [] => None | _ :: r => matchFK r end
  end.

Definition isFKCode (error : Error) : bool :=
  bool_decide (code error = Some (js "SQLITE_CONSTRAINT_FOREIGNKEY")).

(** [parseFKError]: [None] is the [null] it returns. *)
Definition parseFKError (error : Error) : option FKError :=
  if negb (isFKCode error) then None
  else
    match matchFK (message error) with
    | Some (t, c) => Some (mkFKError t c null [] (js "id"))
    | None =>
        Some (mkFKError (js "unknown") (js "unknown") null (js "unknown") (js "id"))
    end.

(** The body of the [try] block of [resolveByCreatingParent]; [now] is
    SQLite's [datetime('now')]. *)
Definition createParent (now : jsstring) (parentTable : jsstring)
    (parentId parentData : JS.value) (db : DB) : outcome bool * DB :=
  let tableName := string_of_list_ascii (map ascii_of_N parentTable) in
  match v ← bindValue parentId; selectById tableName v db with
  | Thrown e => (Thrown e, db)
  | Returned true => (mret true, db)
  | Returned false =>
      let insert cols args :=
        match mapM bindValue args with
        | Thrown e => (Thrown e, db)
        | Returned vals =>
            match insertInto true tableName cols vals db with
            | (Returned _, db') => (mret true, db')
            | (Thrown e, db') => (Thrown e, db')
            end
        end in
      if bool_decide (parentTable = js "sessions") then
        insert ["id"; "path"; "timestamp"]%string
          [parentId; orElse (getPropOpt "path" parentData) (str "unknown");
           Some (JStr now)]
      else if bool_decide (parentTable = js "messages") then
        insert ["id"; "sessionId"; "type"; "timestamp"]%string
          [parentId; orElse (getPropOpt "sessionId" parentData) (str "unknown");
           orElse (getPropOpt "type" parentData) (str "placeholder");
           Some (JStr now)]
      else if bool_decide (parentTable = js "tool_uses") then
        insert ["toolId"; "messageId"; "toolName"]%string
          [parentId; orElse (getPropOpt "messageId" parentData) (str "unknown");
           orElse (getPropOpt "toolName" parentData) (str "unknown")]
      else (mret false, db)
  end.

(** [resolveByCreatingParent]: whatever the body throws makes it answer
    [false]. *)
Definition resolveByCreatingParent (now : jsstring) (parentTable : jsstring)
    (parentId parentData : JS.value) (db : DB) : bool * DB :=
  match createParent now parentTable parentId parentData db with
  | (Returned b, db') => (b, db')
  | (Thrown _, db') => (false, db')
  end.

(** The table [fkRelationships]: the parent table of a child column. *)
Definition fkRelationships : list (jsstring * jsstring) :=
  map (fun kv => (js kv.1, js kv.2))
    [("messages.sessionId", "sessions"); ("tool_uses.messageId", "messages");
     ("tool_use_results.toolUseId", "tool_uses");
     ("attachments.messageId", "messages"); ("env_info.messageId", "messages")]%string.

Definition tryCommonResolutions (now : jsstring) (fkError : FKError) (db : DB)
  : bool * DB :=
  let key := table fkError ++ js "." ++ column fkError in
  match find (fun kv => bool_decide (kv.1 = key)) fkRelationships with
  | Some relationship =>
      resolveByCreatingParent now relationship.2
        (orElse (value fkError) (str "unknown")) undefined db
  | None => (false, db)
  end.

(** The loop of [retryWithFKResolution] from attempt [attempt] on;
    [fuel] bounds the attempts left and [lastError] is the error of the
    attempt before. *)
Fixpoint retryFrom {T} (now : jsstring) (operation : DB -> outcome T * DB)
    (maxRetries attempt fuel : nat) (lastError : Error) (db : DB)
  : outcome T * DB :=
  match fuel with
  | O => (Thrown lastError, db)
  | S fuel' =>
      match operation db with
      | (Returned r, db') => (Returned r, db')
      | (Thrown error, db') =>
          if negb (isFKCode error) then (Thrown error, db')
          else
            match parseFKError error with
            | None => (Thrown error, db')
            | Some fkError =>
                let '(resolved, db'') := tryCommonResolutions now fkError db' in
                if (resolved : bool) then
                  retryFrom now operation maxRetries (S attempt) fuel' error db''
                else if (attempt =? maxRetries)%nat then
                  (Thrown (mkError None
                             (js "FK constraint failure after "
                              ++ decimal (Z.of_nat maxRetries)
                              ++ js " attempts: " ++ message error)), db'')
                else
                  retryFrom now operation maxRetries (S attempt) fuel' error db''
            end
      end
  end.

(** [retryWithFKResolution(operation, maxRetries)]; without an attempt
    the value thrown is [undefined]. *)
Definition retryWithFKResolution {T} (now : jsstring)
    (operation : DB -> outcome T * DB) (maxRetries : nat) (db : DB)
  : outcome T * DB :=
  retryFrom now operation maxRetries 1 maxRetries
    (mkError None (js "undefined")) db.

End FK.

(* ===================================================================== *)
(** ** sync_engine/utils/jsonl_stream.ts *)
(* ===================================================================== *)

Module JSONLStream.
Import JS.

Record JSONLStreamOptions := mkOptions {
  batchSize : option N;
  maxLineLength : option N
}.

Record JSONLEntry := mkEntry {
  data : json;
  lineNumber : nat;
  raw : jsstring
}.

Record ProcessingStats := mkStats {
  totalLines : nat;
  processedLines : nat;
  errorLines : nat
}.

(** What the processor emits; [complete] carries the statistics, here
    with the values they have when it is emitted. *)
Inductive Event :=
| error_line (lineNumber : nat) (error preview : jsstring)
| parse_error (lineNumber : nat) (error line : jsstring)
| progress (processed total errors : nat)
| batch_error (batch : list nat) (error : jsstring)
| complete (stats : ProcessingStats).

(** A line-level error report. *)
Definition isLineError (e : Event) : bool :=
  match e with
  | error_line _ _ _ | parse_error _ _ _ => true
  | _ => false
  end.

(** [s.substring(0, n)]: the first [n] code units; a code point above
    U+FFFF cut in two leaves its high surrogate. *)
Fixpoint substring0 (n : nat) (s : jsstring) : jsstring :=
  match n, s with
  | O, _ | _, [] => []
  | S n', c :: r =>
      if 65535 <? c then
        match n' with
        | O => [55296 + (c - 65536) / 1024]
        | S n'' => c :: substring0 n'' r
        end
      else c :: substring0 n' r
  end.

(** A call of the downstream processor: the batch it was given and its
    promise, pending ([None]) or settled, resolved or rejected. *)
Record Call := mkCall {
  argument : list JSONLEntry;
  settled : option (outcome unit)
}.

(** The ['close'] handler: not entered yet, suspended at
    [await this.processBatch(processor)] for the call it made, or run to
    its end. *)
Inductive CloseHandler :=
| notEntered
| awaiting (call : nat)
| finished.

(** The processor object: its options after the constructor's defaults,
    its statistics and the batch being filled; with them, what it has
    emitted, the calls of [processor] it has made, oldest first, and how
    far the ['close'] handler has run. *)
Record Processor := mkProcessor {
  options : JSONLStreamOptions;
  stats : ProcessingStats;
  currentBatch : list JSONLEntry;
  emitted : list Event;
  calls : list Call;
  closeHandler : CloseHandler
}.

(** The batches handed to [processor], oldest first. *)
Definition delivered (p : Processor) : list (list JSONLEntry) :=
  map argument (calls p).

(** [x || dflt] on an optional number. *)
Definition orDefault (x : option N) (dflt : N) : N :=
  match x with
  | Some 0 | None => dflt
  | Some n => n
  end.

(** [x > y] and [x >= y] for an option [y] that may be [undefined], which
    compares false. *)
Definition greater (x : N) (y : option N) : bool :=
  match y with Some m => m <? x | None => false end.
Definition atLeast (x : N) (y : option N) : bool :=
  match y with Some m => m <=? x | None => false end.

(** [new JSONLStreamProcessor(options)] *)
Definition create (opts : JSONLStreamOptions) : Processor :=
  mkProcessor
    (mkOptions (Some (orDefault (batchSize opts) 100))
               (Some (orDefault (maxLineLength opts) (10 * 1024 * 1024))))
    (mkStats 0 0 0) [] [] [] notEntered.

Definition emit (e : Event) (p : Processor) : Processor :=
  mkProcessor (options p) (stats p) (currentBatch p) (emitted p ++ [e])
    (calls p) (closeHandler p).

(** [processBatch(processor)] as far as its [await]: the batch being
    filled is copied and emptied and [processor] is called with the copy.
    The handlers that call it are not awaited by readline, so the rest of
    [processBatch] runs later, when the promise of the call has settled. *)
Definition processBatch (p : Processor) : Processor :=
  match currentBatch p with
  | [] => p
  | batch =>
      mkProcessor (options p) (stats p) [] (emitted p)
        (calls p ++ [mkCall batch None]) (closeHandler p)
  end.

(** [processBatch] from its [await] on, for the call numbered [i] whose
    promise has settled with [result]: the counters are brought up to
    date and the progress, or the failure of the batch, is emitted.  A
    promise settles once. *)
Definition processBatchResumed (i : nat) (result : outcome unit) (p : Processor)
    : Processor :=
  match calls p !! i with
  | Some (mkCall batch None) =>
      let s := stats p in
      let calls' := <[i := mkCall batch (Some result)]> (calls p) in
      match result with
      | Returned _ =>
          let s' := mkStats (totalLines s) (processedLines s + length batch)
                      (errorLines s) in
          mkProcessor (options p) s' (currentBatch p)
            (emitted p ++ [progress (processedLines s') (totalLines s') (errorLines s')])
            calls' (closeHandler p)
      | Thrown error =>
          mkProcessor (options p)
            (mkStats (totalLines s) (processedLines s) (errorLines s + length batch))
            (currentBatch p)
            (emitted p ++ [batch_error (map lineNumber batch) (message error)])
            calls' (closeHandler p)
      end
  | _ => p
  end.

Section Runtime.
(** [JSON.parse], which returns the value or throws a [SyntaxError]. *)
Variable JSON_parse : jsstring -> outcome json.

(** The ['line'] handler, for the line numbered [n], as far as its
    [await]; nothing but [rl.resume()] follows it. *)
Definition onLine (n : nat) (line : jsstring) (p : Processor) : Processor :=
  let s := stats p in
  let s1 := mkStats (S (totalLines s)) (processedLines s) (errorLines s) in
  let p1 :=
    mkProcessor (options p) s1 (currentBatch p) (emitted p) (calls p)
      (closeHandler p) in
  let failed :=
    mkStats (totalLines s1) (processedLines s1) (S (errorLines s1)) in
  if greater (js_length line) (maxLineLength (options p)) then
    emit (error_line n (js "Line exceeds maximum length")
            (substring0 100 line ++ js "..."))
      (mkProcessor (options p) failed (currentBatch p) (emitted p) (calls p)
         (closeHandler p))
  else
    match trim line with
    | [] => p1
    | _ =>
        match JSON_parse line with
        | Returned data =>
            let p2 :=
              mkProcessor (options p) s1 (currentBatch p ++ [mkEntry data n line])
                (emitted p) (calls p) (closeHandler p) in
            if atLeast (N.of_nat (length (currentBatch p2)))
                 (batchSize (options p))
            then processBatch p2
            else p2
        | Thrown error =>
            emit (parse_error n (message error) (substring0 200 line))
              (mkProcessor (options p) failed (currentBatch p) (emitted p)
                 (calls p) (closeHandler p))
        end
    end.

(** The ['close'] handler as far as its [await]: with nothing left in the
    batch being filled it runs to its end and emits [complete]; otherwise
    it hands the rest over and waits for that call. *)
Definition onClose (p : Processor) : Processor :=
  match currentBatch p with
  | [] =>
      emit (complete (stats p))
        (mkProcessor (options p) (stats p) (currentBatch p) (emitted p)
           (calls p) finished)
  | _ =>
      let p' := processBatch p in
      mkProcessor (options p') (stats p') (currentBatch p') (emitted p')
        (calls p') (awaiting (length (calls p)))
  end.

(** The ['close'] handler from its [await] on, once [processBatch] has
    dealt with the settled call: [complete] is emitted, with the counters
    as they are then. *)
Definition onCloseResumed (p : Processor) : Processor :=
  match closeHandler p with
  | awaiting i =>
      match calls p !! i with
      | Some (mkCall _ (Some _)) =>
          emit (complete (stats p))
            (mkProcessor (options p) (stats p) (currentBatch p) (emitted p)
               (calls p) finished)
      | _ => p
      end
  | _ => p
  end.

(** What the event loop may run between two events of readline: the
    continuation of a call whose promise has settled, or that of the
    ['close'] handler. *)
Inductive Tick :=
| settles (call : nat) (result : outcome unit)
| closeResumes.

Definition tick (p : Processor) (t : Tick) : Processor :=
  match t with
  | settles i result => processBatchResumed i result p
  | closeResumes => onCloseResumed p
  end.

Definition ticks (ts : list Tick) (p : Processor) : Processor :=
  fold_left tick ts p.

(** When the promises of the downstream processor settle: the ticks that
    run after the handler of each line, by line number, and those that
    run after the ['close'] handler.  Every interleaving of the
    continuations with the lines is the run of some timing. *)
Record Timing := mkTiming {
  afterLine : nat -> list Tick;
  afterClose : list Tick
}.

Variable timing : Timing.

(** The lines of the file, in order, numbered from [n]. *)
Fixpoint onLines (n : nat) (lines : list jsstring) (p : Processor) : Processor :=
  match lines with
  | [] => p
  | line :: rest => onLines (S n) rest (ticks (afterLine timing n) (onLine n line p))
  end.

(** [processFile]: the lines readline yields, then the close, and between
    them what has settled. *)
Definition processFile (lines : list jsstring) (p : Processor) : Processor :=
  ticks (afterClose timing) (onClose (onLines 1 lines p)).
End Runtime.

End JSONLStream.

(* ===================================================================== *)
(** ** sync_engine/utils/connection_pool.ts *)
(* ===================================================================== *)

Module Pool.
Import JS.

(** The options object: the fields of [PoolOptions] and the older names
    the class also reads; an absent field is [None]. *)
Record PoolOptions := mkOptions {
  minConnections : option N;
  maxConnections : option N;
  idleTimeoutMs : option N;
  acquireTimeoutMs : option N;
  busyTimeout : option N;
  min : option N;
  max : option N;
  idleTimeout : option N;
  acquireTimeout : option N
}.

Record PooledConnection := mkConn {
  id : nat;
  inUse : bool;
  lastUsed : N;
  created : N
}.

(** A pending [acquire()]: the resolver in the wait queue, named by a
    ticket, and the delay its timer was armed with. *)
Record Waiter := mkWaiter {
  ticket : nat;
  timerDelay : option N
}.

Record DatabasePool := mkPool {
  options : PoolOptions;
  connections : list PooledConnection;
  waitQueue : list Waiter;
  nextId : nat;
  nextTicket : nat;
  closed : bool
}.

(** [a || b] on optional numbers: zero and [undefined] are falsy. *)
Definition orOpt (a b : option N) : option N :=
  match a with
  | Some 0 | None => b
  | Some _ => a
  end.

(** [createConnection()] at time [now]. *)
Definition createConnection (now : N) (p : DatabasePool) : PooledConnection * DatabasePool :=
  let connection := mkConn (nextId p) false now now in
  (connection,
   mkPool (options p) (connections p ++ [connection]) (waitQueue p)
     (S (nextId p)) (nextTicket p) (closed p)).

(** [initializePool()]: [i < this.options.min] is false when [min] is
    [undefined]. *)
Fixpoint createMany (now : N) (k : nat) (p : DatabasePool) : DatabasePool :=
  match k with
  | O => p
  | S k' => createMany now k' (createConnection now p).2
  end.

(** [new DatabasePool(options)] at time [now]: the defaults go to the
    fields of the new names; the older names stay as given. *)
Definition create (now : N) (o : PoolOptions) : DatabasePool :=
  let o' :=
    mkOptions
      (orOpt (orOpt (minConnections o) (min o)) (Some 1))
      (orOpt (orOpt (maxConnections o) (max o)) (Some 10))
      (orOpt (orOpt (idleTimeoutMs o) (idleTimeout o)) (Some 60000))
      (orOpt (orOpt (acquireTimeoutMs o) (acquireTimeout o)) (Some 30000))
      (orOpt (busyTimeout o) (Some 30000))
      (min o) (max o) (idleTimeout o) (acquireTimeout o) in
  createMany now (N.to_nat (default 0 (min o'))) (mkPool o' [] [] 1 1 false).

Definition setConnection (c : PooledConnection) (p : DatabasePool) : DatabasePool :=
  mkPool (options p)
    (map (fun c' => if (id c' =? id c)%nat then c else c') (connections p))
    (waitQueue p) (nextId p) (nextTicket p) (closed p).

(** How a call of [acquire()] ends at once: with a connection, with a
    promise left pending in the wait queue, or with a throw. *)
Inductive Acquired :=
| Connection (c : PooledConnection)
| Pending (w : Waiter)
| Rejected (e : Error).

(** [acquire()] at time [now]. *)
Definition acquire (now : N) (p : DatabasePool) : Acquired * DatabasePool :=
  if closed p then (Rejected (mkError None (js "Connection pool is closed")), p)
  else
    match find (fun c => negb (inUse c)) (connections p) with
    | Some connection =>
        let c := mkConn (id connection) true now (created connection) in
        (Connection c, setConnection c p)
    | None =>
        if match max (options p) with
           | Some m => N.of_nat (length (connections p)) <? m
           | None => false
           end
        then
          let '(connection, p') := createConnection now p in
          let c := mkConn (id connection) true now (created connection) in
          (Connection c, setConnection c p')
        else
          let w := mkWaiter (nextTicket p) (acquireTimeout (options p)) in
          (Pending w,
           mkPool (options p) (connections p) (waitQueue p ++ [w]) (nextId p)
             (S (nextTicket p)) (closed p))
    end.

(** The timer of the waiter [t] fires: its resolver leaves the queue and
    its promise is rejected. *)
Definition timeout (t : nat) (p : DatabasePool) : Error * DatabasePool :=
  (mkError None (js "Connection acquire timeout"),
   mkPool (options p) (connections p)
     (filter (fun w => negb (ticket w =? t)%nat) (waitQueue p))
     (nextId p) (nextTicket p) (closed p)).

(** [release(connection)] at time [now]: the waiter served, if any, with
    the connection it gets. *)
Definition release (now : N) (connection : PooledConnection) (p : DatabasePool)
  : option (Waiter * PooledConnection) * DatabasePool :=
  let freed := mkConn (id connection) false now (created connection) in
  let p1 := setConnection freed p in
  match waitQueue p1 with
  | [] => (None, p1)
  | resolver :: rest =>
      let c := mkConn (id connection) true now (created connection) in
      (Some (resolver, c),
       setConnection c
         (mkPool (options p1) (connections p1) rest (nextId p1) (nextTicket p1)
            (closed p1)))
  end.

End Pool.

(* ===================================================================== *)
(** ** mcp-server/middleware/rate-limit.ts: the sliding window *)
(* ===================================================================== *)

Module RateLimit.
Import JS.
Local Open Scope Z_scope.

Record RateLimitEntry := mkEntry {
  count : Z;
  windowStart : Z;
  blocked : bool;
  blockUntil : option Z
}.

(** The answer of a check; [None] is an absent field. *)
Record Decision := mkDecision {
  allowed : bool;
  retryAfter : option Z;
  remaining : option Z
}.

(** The limiter: the configured budget and the entry of each client. *)
Record RateLimiter := mkLimiter {
  rateLimitPerMinute : Z;
  clients : gmap jsstring RateLimitEntry
}.

(** [Math.ceil(ms / 1000)] *)
Definition ceilSeconds (ms : Z) : Z := - ((- ms) / 1000).

Definition windowSize : Z := 60000.

Definition setEntry (clientId : jsstring) (e : RateLimitEntry) (l : RateLimiter)
  : RateLimiter :=
  mkLimiter (rateLimitPerMinute l) (<[clientId := e]> (clients l)).

(** [checkSlidingWindow(clientId, customLimit)] at time [now]
    ([Date.now()], in milliseconds). *)
Definition checkSlidingWindow (now : Z) (clientId : jsstring)
    (customLimit : option Z) (l : RateLimiter) : Decision * RateLimiter :=
  let limit :=
    match customLimit with
    | Some 0 | None => rateLimitPerMinute l
    | Some c => c
    end in
  let entry :=
    match clients l !! clientId with
    | Some e =>
        if windowSize <? now - windowStart e then mkEntry 0 now false None else e
    | None => mkEntry 0 now false None
    end in
  let blockedNow :=
    blocked entry
    && match blockUntil entry with
       | Some u => negb (u =? 0) && (now <? u)
       | None => false
       end in
  if blockedNow then
    (mkDecision false
       (Some (ceilSeconds (default 0 (blockUntil entry) - now))) (Some 0),
     setEntry clientId entry l)
  else if limit <=? count entry then
    let until := windowStart entry + windowSize in
    (mkDecision false (Some (ceilSeconds (until - now))) (Some 0),
     setEntry clientId
       (mkEntry (count entry) (windowStart entry) true (Some until)) l)
  else
    let n := count entry + 1 in
    (mkDecision true None (Some (limit - n)),
     setEntry clientId
       (mkEntry n (windowStart entry) (blocked entry) (blockUntil entry)) l).

(** The requests of one client at the times [times], in order: the
    decisions, and the limiter after the last. *)
Fixpoint requests (clientId : jsstring) (customLimit : option Z)
    (times : list Z) (l : RateLimiter) : list Decision * RateLimiter :=
  match times with
  | [] => ([], l)
  | now :: rest =>
      let '(d, l') := checkSlidingWindow now clientId customLimit l in
      let '(ds, l'') := requests clientId customLimit rest l' in
      (d :: ds, l'')
  end.

End RateLimit.

(* ===================================================================== *)
(** ** Notions the theorems are stated with *)
(* ===================================================================== *)

Module Props.
Import JS.

(** *** Query validation *)

Definition isUpperLetter (c : N) : Prop := 65 <= c <= 90.


(** [kw] occurs in [sql] in some casing: a stretch of [sql] upper-cases,
    letter by letter, to [kw]. *)
Definition occursInAnyCasing (kw sql : jsstring) : Prop :=
  exists a m b, sql = a ++ m ++ b /\ map asciiUpper m = kw.



(** *** Tool extraction *)

Definition isToolUseItem (item : json) : bool :=
  isStr (getPropOpt "type" (Some item)) "tool_use".

Definition isToolResultItem (item : json) : bool :=
  isStr (getPropOpt "type" (Some item)) "tool_result".

(** The [ToolUseData] the extractor builds for the item [item] of the
    entry [message]. *)
Definition toolUseOf (message item : json) : ToolUse.t :=
  ToolUse.mk (getPropOpt "id" (Some item)) (getPropOpt "uuid" (Some message))
    (getPropOpt "id" (Some item)) (getPropOpt "name" (Some item))
    (Some (JStr (JSON_stringify
                   (default (JObj [])
                      (orElse (getPropOpt "input" (Some item)) (Some (JObj []))))))).

(** The text of one element of an array content. *)
Definition fragmentText (part : json) : value :=
  if isString (Some part) then Some part
  else orElse (getPropOpt "text" (Some part)) (Some (JStr (JSON_stringify part))).

(** The output the extractor computes for a [tool_result] item none of
    whose array elements is [null]. *)
Definition outputOf (item : json) : value :=
  let content := getPropOpt "content" (Some item) in
  if truthy content then
    match content with
    | Some (JStr s) => Some (JStr s)
    | Some (JArr parts) => Some (JStr (joinValues [10] (map fragmentText parts)))
    | Some j => Some (JStr (JSON_stringify j))
    | None => null
    end
  else null.

(** The [ToolResultData] the extractor builds for the item [item] of the
    entry [message] when the generator yields [id]. *)
Definition toolResultOf (message : json) (id : jsstring) (item : json) : ToolResult.t :=
  let err := getPropOpt "error" (Some item) in
  ToolResult.mk (Some (JStr id)) (getPropOpt "tool_use_id" (Some item))
    (getPropOpt "uuid" (Some message)) (outputOf item)
    (orElse (getPropOpt "content_type" (Some item)) null)
    (orElse err null)
    (if truthy err then str "tool_error" else null).

(** The error of a failed [tool_result] item, in the record the extractor
    builds and in the record the schema mapper makes of it: both carry the
    error, the first with the error kind and the second without. *)
Definition errorKindLost (item : json) (r : ToolResult.t) : Prop :=
  let err := getPropOpt "error" (Some item) in
  truthy err = true ->
  ToolResult.error r = err
  /\ ToolResult.errorType r = str "tool_error"
  /\ ToolResult.error (SchemaMapper.mapToToolResultRecord r) = err
  /\ ToolResult.errorType (SchemaMapper.mapToToolResultRecord r) = null.

(** No element of an array content is [null]. *)
Definition partsPresent (item : json) : Prop :=
  forall parts, getPropOpt "content" (Some item) = Some (JArr parts) ->
    Forall (fun part => part <> JNull) parts.

(** The text an element of an array content contributes to the output:
    a string as it is, the [text] of an element that has a truthy one,
    the JSON form of any other element. *)
Definition fragmentString (part : json) : jsstring :=
  match part with
  | JStr s => s
  | _ =>
      let text := getPropOpt "text" (Some part) in
      if truthy text then ToString text else JSON_stringify part
  end.

(** What a ToolResult record holds for the [tool_result] item it was made
    from: the output by the shape of the content, and the error. *)
Definition recordOfFragment (item : json) (record : ToolResult.t) : Prop :=
  let content := getPropOpt "content" (Some item) in
  (forall s, content = Some (JStr s) -> s <> [] ->
     ToolResult.output record = Some (JStr s))
  /\ (forall parts, content = Some (JArr parts) ->
        ToolResult.output record
        = Some (JStr (join [10] (map fragmentString parts))))
  /\ (forall props, content = Some (JObj props) ->
        ToolResult.output record = Some (JStr (JSON_stringify (JObj props))))
  /\ (truthy content = false -> ToolResult.output record = null)
  /\ ToolResult.error record = orElse (getPropOpt "error" (Some item)) null.

(** *** Lines of a file *)

Section Lines.
Variable JSON_parse : jsstring -> outcome json.
Variable options : JSONLStream.JSONLStreamOptions.

Definition tooLong (line : jsstring) : bool :=
  JSONLStream.greater (js_length line) (JSONLStream.maxLineLength options).

Definition isBlank (line : jsstring) : bool :=
  match trim line with [] => true | _ => false end.

(** A malformed line: over the maximum length, or not blank and refused
    by [JSON.parse]. *)
Definition malformed (line : jsstring) : bool :=
  tooLong line || (negb (isBlank line) && isThrown (JSON_parse line)).

(** The entries of the well-formed lines of a file whose first line has
    number [n]: within the length, not blank, decoded. *)
Fixpoint entriesFrom (n : nat) (lines : list jsstring) : list JSONLStream.JSONLEntry :=
  match lines with
  | [] => []
  | line :: rest =>
      match JSON_parse line with
      | Returned data =>
          if tooLong line || isBlank line then entriesFrom (S n) rest
          else JSONLStream.mkEntry data n line :: entriesFrom (S n) rest
      | Thrown _ => entriesFrom (S n) rest
      end
  end.
End Lines.

(** The line-level error reports among the events emitted. *)
Definition lineErrors (events : list JSONLStream.Event) : nat :=
  length (filter JSONLStream.isLineError events).
Arguments lineErrors : simpl never.

(** *** Stores and runs *)

(** [db'] holds the rows of [db], in each table, followed by others. *)
Definition extends (db db' : Sqlite.DB) : Prop :=
  forall table, Sqlite.rowsOf table db `prefix_of` Sqlite.rowsOf table db'.

(** The state of a run has only grown: the store by rows, the result by
    errors. *)
Definition grows (st st' : Executor.St) : Prop :=
  extends (Executor.db st) (Executor.db st')
  /\ Executor.errors (Executor.result st)
     `prefix_of` Executor.errors (Executor.result st').

(** Code that only lets the state grow. *)
Definition growing {A} (m : Executor.Exec A) : Prop :=
  forall st r st', m st = (r, st') -> grows st st'.

(** Code that leaves the rows of [table] alone. *)
Definition keeps (table : string) {A} (m : Executor.Exec A) : Prop :=
  forall st r st', m st = (r, st') ->
    Sqlite.rowsOf table (Executor.db st') = Sqlite.rowsOf table (Executor.db st).

(** The presence check by primary key answers yes for [id]. *)
Definition stored (table : string) (id : value) (db : Sqlite.DB) : Prop :=
  exists v, Sqlite.bindValue id = Returned v
            /\ Sqlite.selectById table v db = Returned true.

(** A primary key that binds to a value other than NULL. *)
Definition keyPresent (id : value) : Prop :=
  forall v, Sqlite.bindValue id = Returned v -> v <> Sqlite.SNull.

(** The INSERT OR IGNORE of the session changes nothing: the row it
    builds breaks a constraint. *)
Definition sessionKnown (session : SessionRecord.t) (db : Sqlite.DB) : Prop :=
  exists vals t,
    mapM Sqlite.bindValue
      [SessionRecord.id session; SessionRecord.sessionId session;
       SessionRecord.sessionPath session] = Returned vals
    /\ Sqlite.findTable "sessions" = Some t
    /\ is_Some (Sqlite.conflict t
                  (Sqlite.buildRow t ["id"; "sessionId"; "sessionPath"]%string vals)
                  db).

(** Every record of the parsed entry has its primary key: the message
    written for it and the tool uses, attachments and environment record
    one that binds to a value other than NULL, the tool results a truthy
    one. *)
Definition keyed (parsed : Parse.ParsedEntry) : Prop :=
  (forall m, Parse.message parsed = Some m -> keyPresent (MessageRecord.id m))
  /\ Forall (fun x => keyPresent (ToolUse.id x)) (Parse.toolUses parsed)
  /\ Forall (fun x => truthy (ToolResult.id x) = true) (Parse.toolResults parsed)
  /\ Forall (fun x => keyPresent (AttachmentRecord.id x)) (Parse.attachments parsed)
  /\ (forall e, Parse.envInfo parsed = Some e -> keyPresent (EnvInfoRecord.id e)).

(** Every record of the parsed entry is in the store, by the presence
    checks of the executor. *)
Definition entryStored (parsed : Parse.ParsedEntry) (db : Sqlite.DB) : Prop :=
  Parse.errors parsed = []
  /\ sessionKnown (Parse.session parsed) db
  /\ (forall now m, Executor.messageToInsert now parsed = Some m ->
        stored "messages" (MessageRecord.id m) db)
  /\ Forall (fun x => stored "tool_uses" (ToolUse.id x) db) (Parse.toolUses parsed)
  /\ Forall (fun x => stored "tool_use_results" (ToolResult.id x) db)
       (Parse.toolResults parsed)
  /\ Forall (fun x => stored "attachments" (AttachmentRecord.id x) db)
       (Parse.attachments parsed)
  /\ (forall e, Parse.envInfo parsed = Some e ->
        stored "env_info" (EnvInfoRecord.id e) db).

(** *** Tool-result carriers *)

(** A [tool_result] item whose content is a string. *)
Definition isResultFragment (item : json) : Prop :=
  isToolResultItem item = true
  /\ exists s, getPropOpt "content" (Some item) = Some (JStr s).

(** What the record made from a fragment of the entry [uuid] carries: the
    [tool_use_id] of the fragment, the id of the entry, and the content
    string as output ([null] for the empty string). *)
Definition carries (uuid : jsstring) (item : json) (record : ToolResult.t) : Prop :=
  ToolResult.toolUseId record = getPropOpt "tool_use_id" (Some item)
  /\ ToolResult.messageId record = Some (JStr uuid)
  /\ forall s, getPropOpt "content" (Some item) = Some (JStr s) ->
       ToolResult.output record
       = if bool_decide (s = []) then null else Some (JStr s).

(** Every row of [sessions] has its [sessionId] as [id], as the rows the
    executor writes have. *)
Definition sessionsConsistent (db : Sqlite.DB) : Prop :=
  forall t, Sqlite.findTable "sessions" = Some t ->
    Forall (fun r => Sqlite.field t "id" r = Sqlite.field t "sessionId" r)
      (Sqlite.rowsOf "sessions" db).

(** No row of [messages] has the id [uuid]. *)
Definition noMessage (uuid : jsstring) (db : Sqlite.DB) : Prop :=
  forall t, Sqlite.findTable "messages" = Some t ->
    Sqlite.hasKey t "id" (Sqlite.SText uuid) db = false.

(** The row of [messages] written for a carrier: the id of the entry, its
    session, the type [tool_message], the time of the run, the path of the
    file as project name, and no text. *)
Definition placeholderRow (uuid sid now sessionPath : jsstring) : Sqlite.row :=
  [Sqlite.SText uuid; Sqlite.SText sid; Sqlite.SText (js "tool_message");
   Sqlite.SText now; Sqlite.SInt 0;
   match sessionPath with [] => Sqlite.SNull | _ => Sqlite.SText sessionPath end;
   Sqlite.SNull; Sqlite.SNull; Sqlite.SNull; Sqlite.SNull; Sqlite.SNull;
   Sqlite.SNull; Sqlite.SNull; Sqlite.SNull; Sqlite.SNull;
   Sqlite.SText (js "CURRENT_TIMESTAMP")].

(** The entry of a client that has been allowed [k] requests in the
    window opened at [start]. *)
Definition counted (start k : Z) : RateLimit.RateLimitEntry :=
  RateLimit.mkEntry k start false None.

(** The entries for which the executor writes or finds a message. *)
Definition withMessage (now : jsstring) (parsedEntries : list Parse.ParsedEntry)
  : list Parse.ParsedEntry :=
  filter (fun parsed => is_Some (Executor.messageToInsert now parsed)) parsedEntries.

End Props.

(* ===================================================================== *)
(** ** The lines of the specification's scenarios *)
(* ===================================================================== *)

Module Scenario.
Import JS.

Definition obj (props : list (string * json)) : json :=
  JObj (map (fun kv => (js kv.1, kv.2)) props).
Definition text (s : string) : json := JStr (js s).


(** A generator of identifiers to run the pipeline with. *)
Definition sequentialIds (n : nat) : jsstring :=
  js "result-" ++ decimal (Z.of_nat n).

(** An assistant turn with a text and a tool invocation. *)
Definition toolUseLine : json :=
  obj [("type", text "assistant"); ("uuid", text "m1"); ("sessionId", text "s1");
       ("timestamp", text "T");
       ("message",
        obj [("role", text "assistant");
             ("content",
              JArr [obj [("type", text "text"); ("text", text "ok")];
                    obj [("type", text "tool_use"); ("id", text "toolu_1");
                         ("name", text "Read");
                         ("input", obj [("file_path", text "/a")])]])])]%string.

(** The user turn that carries the result of that invocation. *)
Definition toolResultLine : json :=
  obj [("type", text "user"); ("uuid", text "m2"); ("sessionId", text "s1");
       ("timestamp", text "T2");
       ("message",
        obj [("role", text "user");
             ("content",
              JArr [obj [("type", text "tool_result");
                         ("tool_use_id", text "toolu_1");
                         ("content", text "file contents")]])])]%string.

(** A result whose content is the empty string, and one that failed. *)
Definition emptyResultLine : json :=
  obj [("type", text "user"); ("uuid", text "m3"); ("sessionId", text "s1");
       ("message",
        obj [("role", text "user");
             ("content",
              JArr [obj [("type", text "tool_result");
                         ("tool_use_id", text "toolu_2");
                         ("content", text "")]])])]%string.

Definition failedResultLine : json :=
  obj [("type", text "user"); ("uuid", text "m4"); ("sessionId", text "s1");
       ("message",
        obj [("role", text "user");
             ("content",
              JArr [obj [("type", text "tool_result");
                         ("tool_use_id", text "toolu_3");
                         ("error", text "File not found")]])])]%string.

(** The parsed entries of a batch of lines read at time [T0] from the
    file [/p], and a store with no row and no audit line. *)
Definition parsedBatch (lines : list json) : list Parse.ParsedEntry :=
  match Parse.parseMultipleEntries sequentialIds (js "T0") lines (js "/p") 0 with
  | (Returned parsedEntries, _) => parsedEntries
  | _ => []
  end.

Definition emptyWorld : Executor.World := (∅, []).

(** The tool invocation and then its result, and the same two lines the
    other way round. *)
Definition inOrderBatch : list Parse.ParsedEntry :=
  parsedBatch [toolUseLine; toolResultLine].

(** A first run over the empty store, the summary it returns and the
    store it leaves. *)
Definition firstRun (parsedEntries : list Parse.ParsedEntry)
  : outcome Executor.ExecuteResult * Executor.World :=
  Executor.executeParsedEntries (js "T0") parsedEntries emptyWorld.

Definition summaryOf (r : outcome Executor.ExecuteResult * Executor.World)
  : Executor.ExecuteResult :=
  match r.1 with
  | Returned summary => summary
  | Thrown _ => Executor.emptyResult
  end.

(** [entry.message.content] of a line that has one. *)
Definition contentOf (entry : json) : list json :=
  match getPropOpt "content" (getPropOpt "message" (Some entry)) with
  | Some (JArr items) => items
  | _ => []
  end.

(** The records the pipeline makes from the [tool_result] items of a
    line. *)
Definition resultRecords (entry : json) : list ToolResult.t :=
  match ToolExtractor.extractToolResults Scenario.sequentialIds entry 0 with
  | (Returned (results, _), _) => map SchemaMapper.mapToToolResultRecord results
  | _ => []
  end.

(** The options [DatabaseConnectionManager.getPool] builds its pool
    with. *)
Definition managerPoolOptions : Pool.PoolOptions :=
  Pool.mkOptions (Some 2) (Some 10) (Some 30000) (Some 5000) None
    None None None None.

(** A store that holds the session [s1] and the message [m2], and no tool
    use. *)
Definition storeWithoutToolUse : Sqlite.DB :=
  (Sqlite.insertInto false "messages" ["id"; "sessionId"; "type"; "timestamp"]
     [Sqlite.SText (js "m2"); Sqlite.SText (js "s1"); Sqlite.SText (js "user");
      Sqlite.SText (js "T2")]
     (Sqlite.insertInto true "sessions" ["id"; "sessionId"; "sessionPath"]
        [Sqlite.SText (js "s1"); Sqlite.SText (js "s1"); Sqlite.SText (js "/p")]
        ∅).2).2.

(** The insert of the result of the tool use [toolu_1], which that store
    does not hold. *)
Definition insertOrphanResult (db : Sqlite.DB) : JS.outcome nat * Sqlite.DB :=
  Sqlite.insertInto false "tool_use_results"
    ["id"; "toolUseId"; "messageId"; "output"]
    [Sqlite.SText (js "r1"); Sqlite.SText (js "toolu_1"); Sqlite.SText (js "m2");
     Sqlite.SText (js "file contents")] db.

End Scenario.
(* ===================================================================== *)
(** ** Notions for the properties of the code beyond the specification *)
(* ===================================================================== *)

Module Laws.
Import JS.

(** Code that keeps the property [I] of the state, whether it returns or
    throws. *)
Definition preserves (I : Executor.St -> Prop) {A} (m : Executor.Exec A) : Prop :=
  forall st r st', I st -> m st = (r, st') -> I st'.

(** The tables the summary has an insert counter for, each with its
    counter. *)
Definition counters : list (string * (Executor.ExecuteResult -> nat)) :=
  [("messages", Executor.messagesInserted);
   ("tool_uses", Executor.toolUsesInserted);
   ("tool_use_results", Executor.toolResultsInserted);
   ("attachments", Executor.attachmentsInserted);
   ("env_info", Executor.envInfoInserted)]%string.

(** The summary counts what the store has gained since it held [base]
    rows in each table. *)
Definition accounted (base : string -> nat) (st : Executor.St) : Prop :=
  Forall (fun tc : string * (Executor.ExecuteResult -> nat) =>
            length (Sqlite.rowsOf tc.1 (Executor.db st))
            = (base tc.1 + tc.2 (Executor.result st))%nat)
    counters.

(** No attachment has been counted, and the rows of the attachments
    table are [rows]. *)
Definition untouched (rows : list Sqlite.row) (st : Executor.St) : Prop :=
  Executor.attachmentsInserted (Executor.result st) = 0%nat
  /\ Sqlite.rowsOf "attachments" (Executor.db st) = rows.

End Laws.

(* ===================================================================== *)
(** ** sync_engine/claude_code/transform/parse.ts: [getParsingStats] *)
(* ===================================================================== *)

Module ParsingStats.
Import JS.

Record t := mk {
  total : nat;
  messages : nat;
  toolUses : nat;
  toolResults : nat;
  errors : nat;
  skipped : nat
}.

(** [parsed.reduce((sum, p) => sum + f(p).length, 0)] *)
Definition sumOf {A} (f : Parse.ParsedEntry -> list A)
    (parsed : list Parse.ParsedEntry) : nat :=
  fold_left (fun sum p => (sum + length (f p))%nat) parsed 0%nat.

Definition getParsingStats (parsed : list Parse.ParsedEntry) : t :=
  mk (length parsed)
     (length (filter (fun p => is_Some (Parse.message p)) parsed))
     (sumOf Parse.toolUses parsed)
     (sumOf Parse.toolResults parsed)
     (sumOf Parse.errors parsed)
     (length (filter (fun p => Parse.shouldSkipMessage p = true) parsed)).

End ParsingStats.

(* ===================================================================== *)
(** ** utils/jsonl_stream.ts: [ClaudeCodeJSONLStream.processClaudeFile] *)
(* ===================================================================== *)

Module ClaudeStream.
Import JS.

(** The filter of [processClaudeFile]:
    [data && (data.type === 'message' || ... )]. *)
Definition isClaudeEntry (data : json) : bool :=
  truthy (Some data)
  && (let ty := getPropOpt "type" (Some data) in
      isStr ty "message" || isStr ty "session" || isStr ty "tool_use"
      || isStr ty "attachment").

(** The processor [processClaudeFile] hands to [processFile], around the
    processor it was given. *)
Definition claudeProcessor (processor : list json -> outcome unit)
    (entries : list JSONLStream.JSONLEntry) : outcome unit :=
  let validEntries := filter (fun data => isClaudeEntry data = true)
                        (map JSONLStream.data entries) in
  match validEntries with
  | [] => mret tt
  | _ => processor validEntries
  end.

End ClaudeStream.

Module Props2.
Import JS.

(** The type the schema mapper writes for an entry: its outward type when
    that is one of the four the classifier knows, [unknown] otherwise. *)
Definition storedType (entry : json) : value :=
  let ty := getPropOpt "type" (Some entry) in
  if isStr ty "user" then str "user"
  else if isStr ty "assistant" then str "assistant"
  else if isStr ty "system" then str "system"
  else if isStr ty "summary" then str "summary"
  else str "unknown".

(** A tool item of either kind. *)
Definition isToolItem (item : json) : bool :=
  Props.isToolUseItem item || Props.isToolResultItem item.

(** Two records made from the same fragment at different times: alike in
    all but the id. *)
Definition sameButId (r r' : ToolResult.t) : Prop :=
  ToolResult.toolUseId r = ToolResult.toolUseId r'
  /\ ToolResult.messageId r = ToolResult.messageId r'
  /\ ToolResult.output r = ToolResult.output r'
  /\ ToolResult.outputMimeType r = ToolResult.outputMimeType r'
  /\ ToolResult.error r = ToolResult.error r'
  /\ ToolResult.errorType r = ToolResult.errorType r'
  /\ ToolResult.id r <> ToolResult.id r'.

(** The required fields of the three kinds of record are all there. *)
Definition messageComplete (m : MessageRecord.t) : Prop :=
  truthy (MessageRecord.id m) = true /\ truthy (MessageRecord.sessionId m) = true
  /\ truthy (MessageRecord.type m) = true
  /\ truthy (MessageRecord.timestamp m) = true.
Definition toolUseComplete (u : ToolUse.t) : Prop :=
  truthy (ToolUse.id u) = true /\ truthy (ToolUse.messageId u) = true
  /\ truthy (ToolUse.toolId u) = true /\ truthy (ToolUse.toolName u) = true.
Definition toolResultComplete (r : ToolResult.t) : Prop :=
  truthy (ToolResult.id r) = true /\ truthy (ToolResult.toolUseId r) = true
  /\ truthy (ToolResult.messageId r) = true.

(** The session record names its session: its [sessionId] and its
    [sessionPath] bind to a value other than NULL. *)
Definition sessionNamed (session : SessionRecord.t) : Prop :=
  Props.keyPresent (SessionRecord.sessionId session)
  /\ Props.keyPresent (SessionRecord.sessionPath session).

(** The session of the record is in the store: a row of [sessions] has
    the [sessionId] of the record, or its [id]. *)
Definition sessionInStore (session : SessionRecord.t) (db : Sqlite.DB) : Prop :=
  exists t row v,
    Sqlite.findTable "sessions" = Some t
    /\ row ∈ Sqlite.rowsOf "sessions" db
    /\ v <> Sqlite.SNull
    /\ ((Sqlite.bindValue (SessionRecord.sessionId session) = Returned v
         /\ Sqlite.field t "sessionId" row = Sqlite.applyAffinity Sqlite.TEXT v)
        \/ (Sqlite.bindValue (SessionRecord.id session) = Returned v
            /\ Sqlite.field t "id" row = Sqlite.applyAffinity Sqlite.TEXT v)).

End Props2.

(** ** Lines and records of the scenarios, continued *)

Module Scenario2.
Import JS.

(** The parsed entry of one line, and the message record in it. *)
Definition parsedLine (line : json) : Parse.ParsedEntry :=
  default (Parse.mkParsed (SessionRecord.mk null null null) None [] [] [] None
             true [])
    (head (Scenario.parsedBatch [line])).

Definition noMessage : MessageRecord.t :=
  MessageRecord.mk null null null null null null null null null null null null
    null null null.

Definition messageOf (line : json) : MessageRecord.t :=
  default noMessage (Parse.message (parsedLine line)).

(** A user turn with a text. *)
Definition userLine : json :=
  Scenario.obj [("type", Scenario.text "user"); ("uuid", Scenario.text "m0");
       ("sessionId", Scenario.text "s1"); ("timestamp", Scenario.text "T");
       ("message",
        Scenario.obj [("role", Scenario.text "user");
             ("content", Scenario.text "read the file")])]%string.

End Scenario2.

(* ===================================================================== *)
(** ** mcp-server/database/queries.ts: [ensureLimit], [executeQuery] *)
(* ===================================================================== *)

Module Queries.
Import JS.

Record QueryArgs := mkArgs {
  sql : jsstring;
  limit : option Z
}.

Record QueryResult := mkResult {
  query : jsstring;
  rowCount : nat;
  results : list json
}.

(** A statement handed to the database: its text and its parameters. *)
Definition Statement : Type := jsstring * list Z.

Section Run.
Variable toUpperNonAscii : N -> list N.
(** [db.prepare(sql).all(...params)]: the rows, or what the database
    throws. *)
Variable all : jsstring -> list Z -> outcome (list json).

(** [ensureLimit(sql, limit)] for an integer [limit]. *)
Definition ensureLimit (sql : jsstring) (limit : Z)
  : outcome (jsstring * list Z) :=
  let normalizedSql := Query.normalizedSql toUpperNonAscii sql in
  if includes normalizedSql (js "LIMIT") then mret (sql, [])
  else if (limit <? 1)%Z || (10000 <? limit)%Z then
    Thrown (mkError None (js "Invalid limit value: " ++ decimal limit))
  else mret (trim sql ++ js " LIMIT ?", [limit]).

(** [executeQuery(args)]; [issued] is the list of the statements handed
    to the database so far. *)
Definition executeQuery (args : QueryArgs) (issued : list Statement)
  : outcome QueryResult * list Statement :=
  let limit := default 100%Z (limit args) in
  let maxLimit := 1000%Z in
  let actualLimit := Z.min (Z.max 1 limit) maxLimit in
  match Query.validateQuery toUpperNonAscii (sql args) with
  | Thrown e => (Thrown e, issued)
  | Returned _ =>
      match ensureLimit (sql args) actualLimit with
      | Thrown e => (Thrown e, issued)
      | Returned (safeSql, params) =>
          (match all safeSql params with
           | Returned rows => Returned (mkResult safeSql (length rows) rows)
           | Thrown error =>
               Thrown (mkError None
                         (js "Query execution failed: " ++ message error))
           end,
           issued ++ [(safeSql, params)])
      end
  end.
End Run.

End Queries.

(* ===================================================================== *)
(** ** mcp-server/middleware/rate-limit.ts: [reset], [cleanup] *)
(* ===================================================================== *)

Module RateLimitOps.
Import JS RateLimit.
Local Open Scope Z_scope.

(** [reset(clientId)], on the entries of the sliding window. *)
Definition reset (clientId : jsstring) (l : RateLimiter) : RateLimiter :=
  mkLimiter (rateLimitPerMinute l) (delete clientId (clients l)).

(** [cleanup()] at time [now]: the entries whose window opened more than
    two windows ago are deleted. *)
Definition cleanup (now : Z) (l : RateLimiter) : RateLimiter :=
  mkLimiter (rateLimitPerMinute l)
    (filter (fun kv : jsstring * RateLimitEntry =>
               ~ (windowSize * 2 < now - windowStart kv.2))
       (clients l)).

(** The entry a check of [clientId] at time [now] works on: the entry of
    the client, or a new one when there is none or its window is over. *)
Definition windowEntry (now : Z) (clientId : jsstring) (l : RateLimiter)
  : RateLimitEntry :=
  match clients l !! clientId with
  | Some e =>
      if windowSize <? now - windowStart e then mkEntry 0 now false None else e
  | None => mkEntry 0 now false None
  end.

Record Status := mkStatus {
  limited : bool;
  requestsMade : Z;
  remainingNow : Z;
  resetAt : option Z
}.

(** [getStatus(clientId)] for a client that has no token bucket; the
    field [requests] is [requestsMade] here, [remaining] is
    [remainingNow], and [resetAt] is in milliseconds. *)
Definition getStatus (clientId : jsstring) (l : RateLimiter) : Status :=
  match clients l !! clientId with
  | None => mkStatus false 0 (rateLimitPerMinute l) None
  | Some entry =>
      mkStatus (blocked entry) (count entry)
        (Z.max 0 (rateLimitPerMinute l - count entry))
        (Some (windowStart entry + 60000))
  end.

(** An entry is blocked only once its count has reached the budget. *)
Definition settled (l : RateLimiter) (clientId : jsstring) : Prop :=
  forall e, clients l !! clientId = Some e ->
    blocked e = true -> rateLimitPerMinute l <= count e.

End RateLimitOps.

(* ===================================================================== *)
(** ** The streaming line processor: what its counters stand for *)
(* ===================================================================== *)

Module StreamLaws.
Import JS.
Import JSONLStream.

(** A call whose promise resolved, was rejected, or is still pending. *)
Definition resolved (c : Call) : bool :=
  match settled c with Some (Returned _) => true | _ => false end.
Definition rejected (c : Call) : bool :=
  match settled c with Some (Thrown _) => true | _ => false end.
Definition pending (c : Call) : bool :=
  match settled c with None => true | _ => false end.

(** The entries of the calls picked out by [which]. *)
Definition entriesOf (which : Call -> bool) (calls : list Call) : list JSONLEntry :=
  concat (map argument (filter which calls)).

(** The entries of the batches the downstream processor took, of those it
    refused, and of those it has not answered for yet. *)
Definition taken : list Call -> list JSONLEntry := entriesOf resolved.
Definition refused : list Call -> list JSONLEntry := entriesOf rejected.
Definition waiting : list Call -> list JSONLEntry := entriesOf pending.

(** The counters stand for the entries taken, and for the lines reported
    and the entries refused. *)
Definition counted (p : Processor) : Prop :=
  processedLines (stats p) = length (taken (calls p))
  /\ errorLines (stats p)
     = (Props.lineErrors (emitted p) + length (refused (calls p)))%nat.

(** Between two lines: the batch being filled is short of [size], the
    batches handed over were full, and the counters are right. *)
Definition tallied (size : N) (p : Processor) : Prop :=
  batchSize (options p) = Some size
  /\ N.of_nat (length (currentBatch p)) < size
  /\ Forall (fun batch => N.of_nat (length batch) = size) (delivered p)
  /\ counted p.

(** A line passed over in silence: within the length and blank. *)
Definition passedOver (options : JSONLStreamOptions) (line : jsstring) : bool :=
  negb (Props.tooLong options line) && Props.isBlank line.

End StreamLaws.

(* ===================================================================== *)
(** ** sync_engine/utils/connection_pool.ts: clean-up, statistics, close *)
(* ===================================================================== *)

Module PoolOps.
Import JS.
Import Pool.

(** [closeConnection(connection)]: [indexOf] finds the handle, [splice]
    takes it out; a handle that is not in the pool changes nothing. *)
Fixpoint removeFirst (i : nat) (l : list PooledConnection) : list PooledConnection :=
  match l with
  | [] => []
  | c :: rest => if (id c =? i)%nat then rest else c :: removeFirst i rest
  end.

Definition closeConnection (connection : PooledConnection) (p : DatabasePool)
  : DatabasePool :=
  mkPool (options p) (removeFirst (id connection) (connections p)) (waitQueue p)
    (nextId p) (nextTicket p) (closed p).

(** The test of the filter in [cleanupIdleConnections]; a comparison with
    an option that is [undefined] is false. *)
Definition idleTooLong (now : N) (p : DatabasePool) (conn : PooledConnection) : bool :=
  negb (inUse conn)
  && match idleTimeout (options p) with
     | Some idle => (Z.of_N idle <? Z.of_N now - Z.of_N (lastUsed conn))%Z
     | None => false
     end
  && match min (options p) with
     | Some m => m <? N.of_nat (length (connections p))
     | None => false
     end.

(** [cleanupIdleConnections()] at time [now]. *)
Definition cleanupIdleConnections (now : N) (p : DatabasePool) : DatabasePool :=
  if match min (options p) with
     | Some m => N.of_nat (length (connections p)) <=? m
     | None => false
     end
  then p
  else
    let toClose := filter (idleTooLong now p) (connections p) in
    fold_left (fun p conn => closeConnection conn p) toClose p.

Record PoolStats := mkStats {
  total : nat;
  active : nat;
  idle : nat;
  waiting : nat
}.

(** [getStats()] *)
Definition getStats (p : DatabasePool) : PoolStats :=
  let active := length (filter (fun c => inUse c) (connections p)) in
  mkStats (length (connections p)) active (length (connections p) - active)
    (length (waitQueue p)).

(** [close()]: the pool is marked closed; the first resolver in the wait
    queue is called with [null] and throws on [conn.inUse = true], which
    ends the call before the queue is emptied and before any handle is
    closed.  With no one waiting, every handle is closed. *)
Definition close (p : DatabasePool) : outcome unit * DatabasePool :=
  match waitQueue p with
  | [] =>
      (Returned tt, mkPool (options p) [] [] (nextId p) (nextTicket p) true)
  | _ :: _ =>
      (Thrown (TypeError (js "Cannot set properties of null (setting 'inUse')")),
       mkPool (options p) (connections p) (waitQueue p) (nextId p)
         (nextTicket p) true)
  end.

(** The calls made on a pool and the timers that fire, one after the
    other. *)
Inductive Op :=
| Acquire (now : N)
| Release (now : N) (connection : PooledConnection)
| Timeout (ticket : nat)
| Cleanup (now : N)
| Close.

Definition step (p : DatabasePool) (op : Op) : DatabasePool :=
  match op with
  | Acquire now => (acquire now p).2
  | Release now connection => (release now connection p).2
  | Timeout t => (timeout t p).2
  | Cleanup now => cleanupIdleConnections now p
  | Close => (close p).2
  end.

Definition run (ops : list Op) (p : DatabasePool) : DatabasePool :=
  fold_left step ops p.

(** What holds of a pool between two calls: the handles have distinct
    ids below the next one, the waiters distinct tickets below the next
    one, and no one waits while a handle is idle. *)
Definition sound (p : DatabasePool) : Prop :=
  NoDup (map id (connections p))
  /\ Forall (fun c => (id c < nextId p)%nat) (connections p)
  /\ NoDup (map ticket (waitQueue p))
  /\ Forall (fun w => (ticket w < nextTicket p)%nat) (waitQueue p)
  /\ (waitQueue p <> [] -> Forall (fun c => inUse c = true) (connections p)).

(** The most handles a pool made with [o] opens: those it starts with
    ([min]) or those [acquire] goes up to ([max]). *)
Definition mostHandles (o : PoolOptions) : nat :=
  Nat.max (N.to_nat (default 0 (min o))) (N.to_nat (default 0 (max o))).

End PoolOps.

(* ===================================================================== *)
(** ** Stores: naming a table of the schema *)
(* ===================================================================== *)

Module StoreProps.
Import JS.

(** The table of the schema called [name]. *)
Definition tableNamed (name : string) : Sqlite.Table :=
  default (Sqlite.mkTable "" [] "" [] []) (Sqlite.findTable name).

(** The store holds a session whose [sessionId] is the text "unknown". *)
Definition hasUnknownSession (db : Sqlite.DB) : bool :=
  Sqlite.hasKey (tableNamed "sessions") "sessionId" (Sqlite.SText (js "unknown")) db.

(** Running [operation] [k] times in a row: the store after it. *)
Fixpoint after {S T} (operation : S -> outcome T * S) (k : nat) (s : S) : S :=
  match k with
  | O => s
  | S k' => after operation k' (operation s).2
  end.

End StoreProps.

(* ===================================================================== *)
(** ** A file synced again: what the store holds and what is new *)
(* ===================================================================== *)

Module Resync.
Import JS.

(** A value that better-sqlite3 binds. *)
Definition binds (v : value) : Prop :=
  exists s, Sqlite.bindValue v = Returned s.

(** The tool use and the message that the result names are in the store,
    and its other fields bind. *)
Definition parentsStored (r : ToolResult.t) (db : Sqlite.DB) : Prop :=
  (exists k, ToolResult.toolUseId r = Some (JStr k) /\ k <> []
             /\ Sqlite.hasKey (StoreProps.tableNamed "tool_uses") "id"
                  (Sqlite.SText k) db = true)
  /\ (exists m, ToolResult.messageId r = Some (JStr m) /\ m <> []
                /\ Sqlite.hasKey (StoreProps.tableNamed "messages") "id"
                     (Sqlite.SText m) db = true)
  /\ binds (orElse (ToolResult.output r) null)
  /\ binds (orElse (ToolResult.outputMimeType r) null)
  /\ binds (orElse (ToolResult.error r) null)
  /\ binds (orElse (ToolResult.errorType r) null).

(** The id of a tool result, when it is a string. *)
Definition idOf (r : ToolResult.t) : jsstring :=
  match ToolResult.id r with
  | Some (JStr s) => s
  | _ => []
  end.

(** The id of the result is a string, not empty, that no row of
    [tool_use_results] has. *)
Definition newId (r : ToolResult.t) (db : Sqlite.DB) : Prop :=
  ToolResult.id r = Some (JStr (idOf r)) /\ idOf r <> []
  /\ Sqlite.hasKey (StoreProps.tableNamed "tool_use_results") "id"
       (Sqlite.SText (idOf r)) db = false.

(** The row of [tool_use_results] written for the result [r]: its id,
    the tool use and the message it names, and its output as a TEXT
    column stores it. *)
Definition rowOf (r : ToolResult.t) (row : Sqlite.row) : Prop :=
  let t := StoreProps.tableNamed "tool_use_results" in
  Sqlite.field t "id" row = Sqlite.SText (idOf r)
  /\ (exists k, ToolResult.toolUseId r = Some (JStr k)
                /\ Sqlite.field t "toolUseId" row = Sqlite.SText k)
  /\ (exists m, ToolResult.messageId r = Some (JStr m)
                /\ Sqlite.field t "messageId" row = Sqlite.SText m)
  /\ (exists o, Sqlite.bindValue (orElse (ToolResult.output r) null) = Returned o
                /\ Sqlite.field t "output" row
                   = Sqlite.applyAffinity Sqlite.TEXT o).

(** Everything of the parsed entry but its tool results is in the store,
    by the presence checks of the executor. *)
Definition storedButResults (parsed : Parse.ParsedEntry) (db : Sqlite.DB) : Prop :=
  Parse.errors parsed = []
  /\ Props.sessionKnown (Parse.session parsed) db
  /\ (forall now m, Executor.messageToInsert now parsed = Some m ->
        Props.stored "messages" (MessageRecord.id m) db)
  /\ Forall (fun x => Props.stored "tool_uses" (ToolUse.id x) db)
       (Parse.toolUses parsed)
  /\ Forall (fun x => Props.stored "attachments" (AttachmentRecord.id x) db)
       (Parse.attachments parsed)
  /\ (forall e, Parse.envInfo parsed = Some e ->
        Props.stored "env_info" (EnvInfoRecord.id e) db).

(** The tool results of a batch, in order. *)
Definition resultsOf (parsedEntries : list Parse.ParsedEntry) : list ToolResult.t :=
  flat_map Parse.toolResults parsedEntries.

(** The summary [r] with [updated] more messages found and [inserted]
    more tool results written. *)
Definition tally (updated inserted : nat) (r : Executor.ExecuteResult)
  : Executor.ExecuteResult :=
  Executor.mkResult (Executor.messagesInserted r)
    (Executor.messagesUpdated r + updated) (Executor.toolUsesInserted r)
    (Executor.toolResultsInserted r + inserted) (Executor.attachmentsInserted r)
    (Executor.envInfoInserted r) (Executor.errors r).

(** [db'] is [db] with [rows] added to [tool_use_results]. *)
Definition adds (rows : list Sqlite.row) (db db' : Sqlite.DB) : Prop :=
  Sqlite.rowsOf "tool_use_results" db'
  = Sqlite.rowsOf "tool_use_results" db ++ rows
  /\ forall table, table <> "tool_use_results"%string ->
       Sqlite.rowsOf table db' = Sqlite.rowsOf table db.

(** The file of the two lines, read a second time: the id generator has
    moved on. *)
Definition secondParse : list Parse.ParsedEntry :=
  match Parse.parseMultipleEntries Scenario.sequentialIds (js "T0")
          [Scenario.toolUseLine; Scenario.toolResultLine] (js "/p") 1 with
  | (Returned parsedEntries, _) => parsedEntries
  | _ => []
  end.

End Resync.

(* ===================================================================== *)
(** ** Tool-result carriers: what the store must hold, and what it gains *)
(* ===================================================================== *)

Module Carrier.
Import JS.

(** The identifiers the generator yields for [len] results, from its
    [n]-th on. *)
Definition idsFrom (uuidv4 : nat -> jsstring) (n len : nat) : list jsstring :=
  map (fun k => uuidv4 (n + k)%nat) (seq 0 len).

(** Identifiers that are new to [tool_use_results]: distinct, not empty,
    and the id of no row. *)
Definition freshIds (ids : list jsstring) (db : Sqlite.DB) : Prop :=
  NoDup ids
  /\ Forall (fun id =>
               id <> []
               /\ Sqlite.hasKey (StoreProps.tableNamed "tool_use_results") "id"
                    (Sqlite.SText id) db = false)
       ids.

(** The fragment answers a tool use that is in the store, and its error,
    if it has one, is a value that binds. *)
Definition answersStoredToolUse (item : json) (db : Sqlite.DB) : Prop :=
  (exists k, getPropOpt "tool_use_id" (Some item) = Some (JStr k) /\ k <> []
             /\ Sqlite.hasKey (StoreProps.tableNamed "tool_uses") "id"
                  (Sqlite.SText k) db = true)
  /\ Resync.binds (orElse (getPropOpt "error" (Some item)) null).

(** The tool use the result names is in the store, and its other fields
    bind. *)
Definition toolUseStored (r : ToolResult.t) (db : Sqlite.DB) : Prop :=
  (exists k, ToolResult.toolUseId r = Some (JStr k) /\ k <> []
             /\ Sqlite.hasKey (StoreProps.tableNamed "tool_uses") "id"
                  (Sqlite.SText k) db = true)
  /\ Resync.binds (orElse (ToolResult.output r) null)
  /\ Resync.binds (orElse (ToolResult.outputMimeType r) null)
  /\ Resync.binds (orElse (ToolResult.error r) null)
  /\ Resync.binds (orElse (ToolResult.errorType r) null).

(** The row of [tool_use_results] for the fragment [item] of the entry
    [uuid]: the [tool_use_id] of the fragment, the id of the entry as
    [messageId], and as output the content string of the fragment, NULL
    for the empty string. *)
Definition resultRow (uuid : jsstring) (item : json) (row : Sqlite.row) : Prop :=
  let t := StoreProps.tableNamed "tool_use_results" in
  (exists k, getPropOpt "tool_use_id" (Some item) = Some (JStr k)
             /\ Sqlite.field t "toolUseId" row = Sqlite.SText k)
  /\ Sqlite.field t "messageId" row = Sqlite.SText uuid
  /\ forall s, getPropOpt "content" (Some item) = Some (JStr s) ->
       Sqlite.field t "output" row
       = if bool_decide (s = []) then Sqlite.SNull else Sqlite.SText s.

(** The store the first line of the scenario leaves: the session, the
    assistant message and its tool use. *)
Definition storeWithToolUse : Executor.World :=
  (Scenario.firstRun (Scenario.parsedBatch [Scenario.toolUseLine])).2.

End Carrier.

(* ===================================================================== *)
(** ** sync_engine/claude_code/index.ts: [processJsonlFile], in memory *)
(* ===================================================================== *)

Module Pipeline.
Import JS.

(** [s.split('\n')] *)
Fixpoint splitLines (s : jsstring) : list jsstring :=
  match s with
  | [] => [[]]
  | c :: r =>
      if c =? 10 then [] :: splitLines r
      else
        match splitLines r with
        | line :: rest => (c :: line) :: rest
        | [] => [[c]]
        end
  end.

(** [content.trim().split('\n').filter(line => line.trim())] *)
Definition linesOf (content : jsstring) : list jsstring :=
  filter (fun line => trim line <> []) (splitLines (trim content)).

Section Run.
Variable uuidv4 : nat -> jsstring.
Variable JSON_parse : jsstring -> outcome json.

(** A line that decodes to something other than [null]. *)
Definition usable (line : jsstring) : bool :=
  match JSON_parse line with
  | Returned JNull | Thrown _ => false
  | Returned _ => true
  end.

(** [processJsonlFile(filePath)] for a file of at most 10 MB, which is
    read whole: [content] is what [readFileSync] returns, [n] the state
    of the id generator and [w] the store with its audit log.  Whatever
    the [try] block throws is caught and logged, and the function
    returns. *)
Definition processJsonlFile (now filePath content : jsstring) (n : nat)
    (w : Executor.World) : Executor.World * nat :=
  let lines := linesOf content in
  match mapM JSON_parse lines with
  | Thrown _ => (w, n)
  | Returned rawMessages =>
      match Parse.parseMultipleEntries uuidv4 now rawMessages filePath n with
      | (Thrown _, n') => (w, n')
      | (Returned parsedEntries, n') =>
          ((Executor.executeParsedEntries now parsedEntries w).2, n')
      end
  end.
End Run.

End Pipeline.
(* ===================================================================== *)
(** * Theorems *)
(* ===================================================================== *)

Import JS.
Import Props.

(** ** Strings *)

Lemma startsWith_spec (s p : jsstring) :
  startsWith s p = true <-> exists r, s = p ++ r.
Proof.
  revert s. induction p as [|a p IH]; intros s.
  - destruct s; simpl; (split; [intros _; by eexists | done]).
  - destruct s as [|b s]; simpl.
    + split; [done | intros [r Hr]; discriminate].
    + rewrite andb_true_iff, N.eqb_eq, IH. split.
      * intros [-> [r ->]]. by exists r.
      * intros [r Hr]. injection Hr as -> ->. eauto.
Qed.

Lemma includes_spec (s k : jsstring) :
  includes s k = true <-> exists a b, s = a ++ k ++ b.
Proof.
  induction s as [|c s IH]; cbn [includes].
  - rewrite orb_false_r, startsWith_spec. split.
    + intros [r Hr]. by exists [], r.
    + intros (a & b & Hab). destruct a; [by exists b|discriminate].
  - rewrite orb_true_iff, IH, startsWith_spec. split.
    + intros [[r Hr]|(a & b & ->)]; [by exists [], r | by exists (c :: a), b].
    + intros (a & b & Hab). destruct a as [|c' a]; simpl in Hab.
      * left. by exists b.
      * right. injection Hab as -> ->. by exists a, b.
Qed.

Lemma trimStart_app (a x : jsstring) :
  (forall c r, x = c :: r -> isWhiteSpace c = false) ->
  trimStart (a ++ x) = trimStart a ++ x.
Proof.
  intros Hx. induction a as [|c a IH]; simpl.
  - destruct x as [|c r]; [done|]. simpl. by rewrite (Hx c r).
  - by destruct (isWhiteSpace c).
Qed.

(** Trimming leaves alone a word that has no white space at its ends,
    wherever it stands. *)
Lemma trim_around (a m b : jsstring) :
  m <> [] -> Forall (fun c => isWhiteSpace c = false) m ->
  trim (a ++ m ++ b) = trimStart a ++ m ++ trimEnd b.
Proof.
  intros Hne Hm. unfold trim, trimEnd.
  rewrite trimStart_app.
  2:{ intros c r Hc. destruct m as [|c' m']; [done|].
      injection Hc as <- _. by inversion Hm. }
  rewrite !rev_app_distr, <- app_assoc.
  rewrite trimStart_app.
  2:{ intros c r Hc. rewrite Forall_forall in Hm. apply Hm.
      apply list_elem_of_In, in_rev.
      destruct (rev m) as [|c' m'] eqn:Hrev.
      - apply (f_equal (@rev N)) in Hrev. rewrite rev_involutive in Hrev. done.
      - simpl in Hc. injection Hc as <- _. by left. }
  by rewrite !rev_app_distr, !rev_involutive, <- app_assoc.
Qed.

Lemma toUpperCase_app up (s t : jsstring) :
  toUpperCase up (s ++ t) = toUpperCase up s ++ toUpperCase up t.
Proof. apply flat_map_app. Qed.


Lemma asciiUpper_letter (c k : N) :
  isUpperLetter k -> asciiUpper c = k ->
  c < 128 /\ isWhiteSpace c = false.
Proof.
  unfold isUpperLetter, asciiUpper, isWhiteSpace. intros Hk Hc.
  destruct ((97 <=? c) && (c <=? 122)) eqn:H.
  - apply andb_true_iff in H as [H1 H2].
    apply N.leb_le in H1, H2.
    split; [lia|].
    rewrite !orb_false_iff, !andb_false_iff, !N.eqb_neq, !N.leb_gt. lia.
  - subst k. split; [lia|].
    rewrite !orb_false_iff, !andb_false_iff, !N.eqb_neq, !N.leb_gt. lia.
Qed.

Lemma toUpperCase_casing up (m kw : jsstring) :
  Forall isUpperLetter kw -> map asciiUpper m = kw ->
  toUpperCase up m = kw /\ Forall (fun c => isWhiteSpace c = false) m.
Proof.
  intros Hkw. revert m. induction Hkw as [|k kw Hk _ IH]; intros m Hm.
  - destruct m; [by split | discriminate].
  - destruct m as [|c m]; [discriminate|].
    simpl in Hm. injection Hm as Hc Hm.
    destruct (asciiUpper_letter c k Hk Hc) as [Hlt Hws].
    destruct (IH m Hm) as [IH1 IH2]. split.
    + unfold toUpperCase in *. simpl. rewrite IH1. unfold upperCodePoint.
      apply N.ltb_lt in Hlt. rewrite Hlt. simpl. by rewrite Hc.
    + by constructor.
Qed.

(** ** Query validation *)




Lemma occurs_includes_normalized up kw sql :
  Forall isUpperLetter kw -> kw <> [] -> occursInAnyCasing kw sql ->
  includes (Query.normalizedSql up sql) kw = true.
Proof.
  intros Hkw Hne (a & m & b & -> & Hm).
  destruct (toUpperCase_casing up m kw Hkw Hm) as [Hup Hws].
  unfold Query.normalizedSql. rewrite trim_around; [|by intros -> |done].
  rewrite !toUpperCase_app, Hup. apply includes_spec. eauto.
Qed.








Lemma line_comment_thrown up sql :
  includes sql (js "--") = true ->
  exists e, Query.validateQuery up sql = Thrown e.
Proof.
  intros Hinc. unfold Query.validateQuery.
  destruct (negb _); [eauto|].
  destruct (find _ _); [eauto|].
  unfold Query.suspiciousPatterns, Query.test_line_comment. cbn [existsb].
  rewrite Hinc, !orb_true_r. eauto.
Qed.

(** C10. Reads that change nothing are thrown out: a SELECT of the column
    [created] of the sessions table, because CREATED contains CREATE, and a
    SELECT that compares a column with the string literal of two dashes,
    because of the comment-marker pattern. *)
Theorem validateQuery_rejects_harmless_selects up :
  Query.validateQuery up (js "SELECT created FROM sessions")
    = Thrown (mkError None (js "Forbidden keyword detected: CREATE"))
  /\ Query.validateQuery up (js "SELECT id FROM messages WHERE userText = '--'")
    = Thrown (mkError None (js "Suspicious SQL pattern detected")).
Proof. split; vm_compute; reflexivity. Qed.

(** ** Tool extraction *)

Section Extraction.
Variable uuidv4 : nat -> jsstring.







Lemma bind_Returned {A B} (a : A) (f : A -> outcome B) :
  (Returned a ≫= f) = f a.
Proof. done. Qed.

Lemma getProp_present k (j : json) :
  j <> JNull -> getProp k (Some j) = Returned (getPropOpt k (Some j)).
Proof. by destruct j. Qed.

Lemma messageContent_present entry content :
  ToolExtractor.messageContent entry = Returned content -> entry <> JNull.
Proof. by intros H ->. Qed.

Lemma toolUsesLoop_returns message items :
  message <> JNull -> Forall (fun item => item <> JNull) items ->
  ToolExtractor.toolUsesLoop message items
  = Returned (map (toolUseOf message) (filter isToolUseItem items),
              filter (fun item => negb (isToolUseItem item)) items).
Proof.
  intros Hm Hitems. induction Hitems as [|item items Hitem _ IH]; [done|].
  cbn [ToolExtractor.toolUsesLoop].
  rewrite !(getProp_present _ item Hitem), (getProp_present _ message Hm).
  cbn [mbind outcome_bind]. fold (isToolUseItem item). rewrite IH.
  destruct (isToolUseItem item) eqn:Htool; cbn [mbind outcome_bind mret outcome_ret fst snd].
  - rewrite filter_cons_True by (cbn beta; rewrite Htool; cbn; tauto).
    rewrite filter_cons_False by (cbn beta; rewrite Htool; cbn; tauto).
    done.
  - rewrite filter_cons_False by (cbn beta; rewrite Htool; cbn; tauto).
    rewrite filter_cons_True by (cbn beta; rewrite Htool; cbn; tauto).
    done.
Qed.

Lemma mapM_fragmentText parts :
  Forall (fun part => part <> JNull) parts ->
  mapM (M := outcome) (fun item : json =>
          if isString (Some item) then mret (Some item)
          else text ← getProp "text" (Some item);
               mret (orElse text (Some (JStr (JSON_stringify item)))))
       parts
  = Returned (map fragmentText parts).
Proof.
  induction 1 as [|part parts Hpart _ IH]; [done|].
  cbn [mapM]. rewrite IH.
  change (map fragmentText (part :: parts))
    with (fragmentText part :: map fragmentText parts).
  unfold fragmentText at 2.
  destruct (isString (Some part)); [done|].
  by rewrite (getProp_present _ part Hpart).
Qed.

Lemma outputContent_returns item :
  item <> JNull -> partsPresent item ->
  ToolExtractor.outputContent item = Returned (outputOf item).
Proof.
  intros Hitem Hparts. unfold ToolExtractor.outputContent, outputOf.
  rewrite (getProp_present _ item Hitem), bind_Returned.
  destruct (truthy _); [|done].
  destruct (getPropOpt "content" (Some item)) as [[| | | |parts|]|] eqn:Hc; try done.
  pose proof (mapM_fragmentText parts (Hparts parts Hc)) as Hmap.
  unfold value in Hmap |- *. by rewrite Hmap.
Qed.

Lemma toolResultsLoop_returns message items n :
  message <> JNull -> Forall (fun item => item <> JNull) items ->
  Forall partsPresent items ->
  ToolExtractor.toolResultsLoop uuidv4 message items n
  = (Returned (imap (fun k => toolResultOf message (uuidv4 (n + k)))
                 (filter isToolResultItem items),
               filter (fun item => negb (isToolResultItem item)) items),
     (n + length (filter isToolResultItem items))%nat).
Proof.
  intros Hm Hitems Hparts. revert n.
  induction Hitems as [|item items Hitem _ IH]; intros n.
  { cbn. by rewrite Nat.add_0_r. }
  apply Forall_cons in Hparts as [Hpart Hparts].
  cbn [ToolExtractor.toolResultsLoop].
  rewrite (getProp_present _ item Hitem). fold (isToolResultItem item).
  destruct (isToolResultItem item) eqn:Hres.
  - rewrite (outputContent_returns item Hitem Hpart).
    rewrite !(getProp_present _ item Hitem), (getProp_present _ message Hm).
    cbn [mbind outcome_bind mret outcome_ret].
    rewrite (IH Hparts (S n)). cbn [fst snd].
    rewrite filter_cons_True by (cbn beta; rewrite Hres; cbn; tauto).
    rewrite filter_cons_False by (cbn beta; rewrite Hres; cbn; tauto).
    cbn [imap length]. rewrite Nat.add_0_r, Nat.add_succ_r.
    rewrite (imap_ext (fun k => toolResultOf message (uuidv4 (S n + k)))
               ((fun k => toolResultOf message (uuidv4 (n + k))) ∘ S))
      by (intros k x _; cbn; by rewrite Nat.add_succ_r).
    done.
  - rewrite (IH Hparts n). cbn [fst snd].
    rewrite filter_cons_False by (cbn beta; rewrite Hres; cbn; tauto).
    rewrite filter_cons_True by (cbn beta; rewrite Hres; cbn; tauto).
    done.
Qed.

Lemma extractToolUses_returns entry items :
  ToolExtractor.messageContent entry = Returned (Some (JArr items)) ->
  Forall (fun item => item <> JNull) items ->
  exists cleaned,
    ToolExtractor.extractToolUses entry
    = Returned (map (toolUseOf entry) (filter isToolUseItem items), cleaned).
Proof.
  intros Hc Hitems. unfold ToolExtractor.extractToolUses. rewrite Hc.
  cbn [mbind outcome_bind].
  rewrite toolUsesLoop_returns; [|by eapply messageContent_present|done].
  cbn. eauto.
Qed.

Lemma extractToolResults_returns entry items n :
  ToolExtractor.messageContent entry = Returned (Some (JArr items)) ->
  Forall (fun item => item <> JNull) items ->
  Forall partsPresent items ->
  exists cleaned,
    ToolExtractor.extractToolResults uuidv4 entry n
    = (Returned (imap (fun k => toolResultOf entry (uuidv4 (n + k)))
                   (filter isToolResultItem items), cleaned),
       (n + length (filter isToolResultItem items))%nat).
Proof.
  intros Hc Hitems Hparts. unfold ToolExtractor.extractToolResults. rewrite Hc.
  rewrite toolResultsLoop_returns; [|by eapply messageContent_present|done..].
  cbn. eauto.
Qed.

Lemma toolResult_ids message (g : nat -> jsstring) (l : list json) :
  map (fun r => ToolResult.toolUseId (SchemaMapper.mapToToolResultRecord r))
    (imap (fun k => toolResultOf message (g k)) l)
  = map (fun item => getPropOpt "tool_use_id" (Some item)) l.
Proof.
  revert g. induction l as [|item l IH]; intros g; [done|].
  cbn [imap map]. f_equal. apply (IH (g ∘ S)).
Qed.

(** C1. For an entry whose content list is [items] (no item [null], no
    [null] inside an array content), extraction returns, and after schema
    mapping the ids of the ToolUse records are the [id]s of the
    [tool_use] items, one for one and in order, and the [toolUseId]s of
    the ToolResult records are the [tool_use_id]s of the [tool_result]
    items. *)
Theorem tool_ids_preserved entry items n :
  ToolExtractor.messageContent entry = Returned (Some (JArr items)) ->
  Forall (fun item => item <> JNull) items ->
  Forall partsPresent items ->
  exists uses cleaned results cleaned' n',
    ToolExtractor.extractToolUses entry = Returned (uses, cleaned)
    /\ map ToolUse.id (map SchemaMapper.mapToToolUseRecord uses)
       = map (fun item => getPropOpt "id" (Some item)) (filter isToolUseItem items)
    /\ ToolExtractor.extractToolResults uuidv4 entry n
       = (Returned (results, cleaned'), n')
    /\ map ToolResult.toolUseId (map SchemaMapper.mapToToolResultRecord results)
       = map (fun item => getPropOpt "tool_use_id" (Some item))
           (filter isToolResultItem items).
Proof.
  intros Hc Hitems Hparts.
  destruct (extractToolUses_returns entry items Hc Hitems) as [cleaned Huses].
  destruct (extractToolResults_returns entry items n Hc Hitems Hparts)
    as [cleaned' Hres].
  eexists _, _, _, _, _. split; [exact Huses|]. split; [|split; [exact Hres|]].
  - rewrite !map_map. done.
  - rewrite map_map.
    apply (toolResult_ids entry (fun k => uuidv4 (n + k)%nat)).
Qed.
End Extraction.

Lemma tool_ids_preserved_example :
  exists uses cleaned results cleaned' n',
    ToolExtractor.extractToolUses Scenario.toolUseLine = Returned (uses, cleaned)
    /\ map ToolUse.id (map SchemaMapper.mapToToolUseRecord uses)
       = map (fun item => getPropOpt "id" (Some item))
           (filter isToolUseItem (Scenario.contentOf Scenario.toolUseLine))
    /\ ToolExtractor.extractToolResults Scenario.sequentialIds Scenario.toolUseLine 0
       = (Returned (results, cleaned'), n')
    /\ map ToolResult.toolUseId (map SchemaMapper.mapToToolResultRecord results)
       = map (fun item => getPropOpt "tool_use_id" (Some item))
           (filter isToolResultItem (Scenario.contentOf Scenario.toolUseLine)).
Proof.
  apply (tool_ids_preserved Scenario.sequentialIds Scenario.toolUseLine
           (Scenario.contentOf Scenario.toolUseLine) 0).
  - reflexivity.
  - repeat constructor; discriminate.
  - repeat constructor; intros parts H; vm_compute in H; discriminate.
Defined.

(** ** Output normalisation *)

Lemma fragmentText_string part :
  part <> JNull ->
  match fragmentText part with
  | None | Some JNull => []
  | Some j => ToStringJson j
  end = fragmentString part.
Proof.
  intros Hpart. unfold fragmentText, fragmentString.
  destruct part as [| | | |items|props]; try done; cbn [isString];
    unfold orElse; (destruct (truthy (getPropOpt "text" _)) eqn:Ht; [|done]);
    by destruct (getPropOpt "text" _) as [[]|].
Qed.

Lemma joinValues_fragments parts :
  Forall (fun part => part <> JNull) parts ->
  joinValues [10] (map fragmentText parts) = join [10] (map fragmentString parts).
Proof.
  intros Hparts. unfold joinValues. rewrite map_map. f_equal.
  apply map_ext_Forall. eapply Forall_impl; [exact Hparts|].
  intros part Hpart. by apply fragmentText_string.
Qed.

Lemma toolResultOf_recordOfFragment message id item :
  partsPresent item ->
  recordOfFragment item
    (SchemaMapper.mapToToolResultRecord (toolResultOf message id item)).
Proof.
  intros Hparts. unfold recordOfFragment, toolResultOf.
  cbn [SchemaMapper.mapToToolResultRecord ToolResult.output ToolResult.error].
  unfold outputOf. repeat split.
  - intros s -> Hs. by destruct s.
  - intros parts Hc. rewrite Hc. cbn. by rewrite joinValues_fragments; [|apply Hparts].
  - by intros props ->.
  - by intros ->.
Qed.

Lemma records_of_fragments message (g : nat -> jsstring) l :
  Forall partsPresent l ->
  Forall2 recordOfFragment l
    (map SchemaMapper.mapToToolResultRecord
       (imap (fun k => toolResultOf message (g k)) l)).
Proof.
  intros Hl. revert g.
  induction Hl as [|item l Hitem _ IH]; intros g; [constructor|].
  cbn [imap map]. constructor.
  - by apply toolResultOf_recordOfFragment.
  - apply (IH (g ∘ S)).
Qed.

Section Normalisation.
Variable uuidv4 : nat -> jsstring.

(** Tool results, the output.  For an entry whose content list is
    [items] (no item [null], no [null] inside an array content),
    extraction returns one
    record per [tool_result] item, in order, and after schema mapping the
    record's output is: a non-empty string content as it is; for an array
    content, its elements joined with a newline, where a string element
    stands for itself, an element with a truthy [text] for that text and
    any other element for its JSON form; the JSON form of an object
    content; [null] for an absent or falsy content (the empty string
    included).  The record's error is the item's [error] when that is
    truthy and [null] otherwise. *)
Theorem tool_result_output_normalized entry items n :
  ToolExtractor.messageContent entry = Returned (Some (JArr items)) ->
  Forall (fun item => item <> JNull) items ->
  Forall partsPresent items ->
  exists results cleaned n',
    ToolExtractor.extractToolResults uuidv4 entry n
    = (Returned (results, cleaned), n')
    /\ Forall2 recordOfFragment (filter isToolResultItem items)
         (map SchemaMapper.mapToToolResultRecord results).
Proof.
  intros Hc Hitems Hparts.
  destruct (extractToolResults_returns uuidv4 entry items n Hc Hitems Hparts)
    as [cleaned Hres].
  eexists _, _, _. split; [exact Hres|].
  assert (Hsub : Forall partsPresent (filter isToolResultItem items)).
  { apply Forall_forall. intros item Hin. rewrite Forall_forall in Hparts.
    apply Hparts. by apply list_elem_of_filter in Hin as [_ Hin]. }
  by apply (records_of_fragments entry (fun k => uuidv4 (n + k)%nat)).
Qed.
End Normalisation.

Lemma tool_result_output_normalized_example :
  exists results cleaned n',
    ToolExtractor.extractToolResults Scenario.sequentialIds Scenario.toolResultLine 0
    = (Returned (results, cleaned), n')
    /\ Forall2 recordOfFragment
         (filter isToolResultItem (Scenario.contentOf Scenario.toolResultLine))
         (map SchemaMapper.mapToToolResultRecord results).
Proof.
  apply (tool_result_output_normalized Scenario.sequentialIds
           Scenario.toolResultLine (Scenario.contentOf Scenario.toolResultLine) 0).
  - reflexivity.
  - repeat constructor; discriminate.
  - repeat constructor; intros parts H; vm_compute in H; discriminate.
Defined.

(** A content that is the empty string is not taken as it is: the output
    of the record is [null]. *)
Lemma empty_string_content_gives_null_output :
  map (fun item => getPropOpt "content" (Some item))
    (Scenario.contentOf Scenario.emptyResultLine) = [Some (JStr [])]
  /\ map ToolResult.output (Scenario.resultRecords Scenario.emptyResultLine) = [null].
Proof. split; vm_compute; reflexivity. Qed.

Lemma errors_of_fragments message (g : nat -> jsstring) l :
  Forall2 errorKindLost l (imap (fun k => toolResultOf message (g k)) l).
Proof.
  revert g. induction l as [|item l IH]; intros g; [constructor|].
  cbn [imap]. constructor; [|apply (IH (g ∘ S))].
  unfold errorKindLost, toolResultOf.
  cbn [SchemaMapper.mapToToolResultRecord ToolResult.error ToolResult.errorType].
  intros Herr. unfold orElse. by rewrite Herr.
Qed.

(** C5. The error kind of a failed tool result is lost.  For an entry
    whose content list is [items] (no item [null], no [null] inside an
    array content), extraction returns one record per [tool_result] item,
    in order; for an item with a truthy [error] the record holds that
    error and the error kind [tool_error], and the record the schema
    mapper makes of it, which is the one the parser returns and the
    executor stores, holds the error and [null] for the error kind. *)
Theorem error_kind_of_failed_result_is_lost
    (uuidv4 : nat -> jsstring) entry items n :
  ToolExtractor.messageContent entry = Returned (Some (JArr items)) ->
  Forall (fun item => item <> JNull) items ->
  Forall partsPresent items ->
  exists results cleaned n',
    ToolExtractor.extractToolResults uuidv4 entry n
    = (Returned (results, cleaned), n')
    /\ Forall2 errorKindLost (filter isToolResultItem items) results.
Proof.
  intros Hc Hitems Hparts.
  destruct (extractToolResults_returns uuidv4 entry items n Hc Hitems Hparts)
    as [cleaned Hres].
  eexists _, _, _. split; [exact Hres|].
  apply (errors_of_fragments entry (fun k => uuidv4 (n + k)%nat)).
Qed.

(** The line of a result that failed with "File not found". *)
Lemma error_kind_lost_for_file_not_found :
  (exists results cleaned n',
     ToolExtractor.extractToolResults Scenario.sequentialIds
       Scenario.failedResultLine 0
     = (Returned (results, cleaned), n')
     /\ Forall2 errorKindLost
          (filter isToolResultItem (Scenario.contentOf Scenario.failedResultLine))
          results)
  /\ map (fun item => truthy (getPropOpt "error" (Some item)))
       (Scenario.contentOf Scenario.failedResultLine) = [true]
  /\ map (fun r => (ToolResult.error r, ToolResult.errorType r))
       (Scenario.resultRecords Scenario.failedResultLine)
     = [(str "File not found", null)].
Proof.
  split; [|split; vm_compute; reflexivity].
  apply (error_kind_of_failed_result_is_lost Scenario.sequentialIds
           Scenario.failedResultLine
           (Scenario.contentOf Scenario.failedResultLine) 0).
  - reflexivity.
  - repeat constructor; discriminate.
  - repeat constructor; intros parts H; vm_compute in H; discriminate.
Defined.

(** The extractor marks a failed result with the error kind, and the
    schema mapper writes [null] over the mark. *)
Lemma error_kind_dropped_by_mapper :
  (forall r, ToolResult.errorType (SchemaMapper.mapToToolResultRecord r) = null)
  /\ (exists r cleaned n,
        ToolExtractor.extractToolResults Scenario.sequentialIds
          Scenario.failedResultLine 0 = (Returned ([r], cleaned), n)
        /\ ToolResult.error r = str "File not found"
        /\ ToolResult.errorType r = str "tool_error"
        /\ ToolResult.error (SchemaMapper.mapToToolResultRecord r)
           = str "File not found").
Proof.
  split; [done|]. eexists _, _, _. split; [vm_compute; reflexivity|].
  by vm_compute.
Qed.

(** ** The sliding window *)

Section SlidingWindow.
Local Open Scope Z_scope.
Import RateLimit.

Lemma ceilSeconds_pos (ms : Z) : 0 < ms -> 1 <= ceilSeconds ms.
Proof.
  intros H. unfold ceilSeconds.
  assert ((- ms) / 1000 < 0) by (apply Z.div_lt_upper_bound; lia). lia.
Qed.

Lemma ceilSeconds_le (ms : Z) : ms <= 60000 -> ceilSeconds ms <= 60.
Proof.
  intros H. unfold ceilSeconds.
  assert (-60 <= (- ms) / 1000) by (apply Z.div_le_lower_bound; lia). lia.
Qed.

Lemma check_allows l c custom now start k limit :
  clients l !! c = Some (counted start k) ->
  limit = match custom with Some 0 | None => rateLimitPerMinute l | Some x => x end ->
  now - start <= windowSize -> k < limit ->
  checkSlidingWindow now c custom l
  = (mkDecision true None (Some (limit - (k + 1))),
     setEntry c (counted start (k + 1)) l).
Proof.
  intros Hc -> Hnow Hk. unfold checkSlidingWindow. rewrite Hc.
  cbn [windowStart counted blocked blockUntil count].
  destruct (Z.ltb_spec windowSize (now - start)); [lia|].
  cbn [windowStart counted blocked blockUntil count andb].
  set (limit := match custom with Some 0 | None => _ | Some x => x end) in *.
  destruct (Z.leb_spec limit k); [lia|]. done.
Qed.

Lemma check_first l c custom now limit :
  clients l !! c = None ->
  limit = match custom with Some 0 | None => rateLimitPerMinute l | Some x => x end ->
  0 < limit ->
  checkSlidingWindow now c custom l
  = (mkDecision true None (Some (limit - 1)), setEntry c (counted now 1) l).
Proof.
  intros Hc -> Hk. unfold checkSlidingWindow. rewrite Hc.
  cbn [windowStart counted blocked blockUntil count andb].
  set (limit := match custom with Some 0 | None => _ | Some x => x end) in *.
  destruct (Z.leb_spec limit 0); [lia|]. done.
Qed.

Lemma check_denies l c custom now start k limit :
  clients l !! c = Some (counted start k) ->
  limit = match custom with Some 0 | None => rateLimitPerMinute l | Some x => x end ->
  now - start <= windowSize -> limit <= k ->
  checkSlidingWindow now c custom l
  = (mkDecision false (Some (ceilSeconds (start + windowSize - now))) (Some 0),
     setEntry c (mkEntry k start true (Some (start + windowSize))) l).
Proof.
  intros Hc -> Hnow Hk. unfold checkSlidingWindow. rewrite Hc.
  cbn [windowStart counted blocked blockUntil count].
  destruct (Z.ltb_spec windowSize (now - start)); [lia|].
  cbn [windowStart counted blocked blockUntil count andb].
  set (limit := match custom with Some 0 | None => _ | Some x => x end) in *.
  destruct (Z.leb_spec limit k); [|lia]. done.
Qed.

Lemma check_after_window l c custom now e limit :
  clients l !! c = Some e ->
  limit = match custom with Some 0 | None => rateLimitPerMinute l | Some x => x end ->
  windowSize < now - windowStart e -> 0 < limit ->
  checkSlidingWindow now c custom l
  = (mkDecision true None (Some (limit - 1)), setEntry c (counted now 1) l).
Proof.
  intros Hc -> Hnow Hk. unfold checkSlidingWindow. rewrite Hc.
  destruct (Z.ltb_spec windowSize (now - windowStart e)); [|lia].
  cbn [windowStart counted blocked blockUntil count andb].
  set (limit := match custom with Some 0 | None => _ | Some x => x end) in *.
  destruct (Z.leb_spec limit 0); [lia|]. done.
Qed.

Lemma clients_setEntry c e l : clients (setEntry c e l) !! c = Some e.
Proof. unfold setEntry. cbn. apply lookup_insert_eq. Qed.

Lemma requests_allowed c custom limit start times : forall l k,
  clients l !! c = Some (counted start k) ->
  limit = match custom with Some 0 | None => rateLimitPerMinute l | Some x => x end ->
  k + Z.of_nat (length times) <= limit ->
  Forall (fun t => t - start <= windowSize) times ->
  exists ds l',
    requests c custom times l = (ds, l')
    /\ length ds = length times
    /\ Forall (fun d => allowed d = true) ds
    /\ clients l' !! c = Some (counted start (k + Z.of_nat (length times)))
    /\ rateLimitPerMinute l' = rateLimitPerMinute l.
Proof.
  induction times as [|t times IH]; intros l k Hc Hlimit Hk Hin.
  - exists [], l. cbn. rewrite Z.add_0_r. by repeat split.
  - apply Forall_cons in Hin as [Ht Hin]. cbn [length] in Hk.
    cbn [requests].
    rewrite (check_allows l c custom t start k limit Hc Hlimit Ht) by lia.
    destruct (IH (setEntry c (counted start (k + 1)) l) (k + 1))
      as (ds & l' & Hreq & Hlen & Hall & Hc' & Hrate);
      [apply clients_setEntry|done|lia|done|].
    rewrite Hreq. eexists _, _. split; [done|].
    cbn [length]. repeat split; [by rewrite Hlen|by constructor| |done].
    rewrite Hc'. do 2 f_equal. lia.
Qed.

(** Inside the window and after it, the limiter does what is asked of
    it: a client with no entry and a budget of [limit] requests a minute
    is allowed [limit] requests that fall within a minute of the first;
    one more request made before the minute is over is denied with a
    retry-after between 1 and 60 seconds; a request made more than a
    minute after the first is allowed again. *)
Theorem sliding_window_budget l c custom limit start times t t' :
  clients l !! c = None ->
  limit = match custom with Some 0 | None => rateLimitPerMinute l | Some x => x end ->
  1 + Z.of_nat (length times) = limit ->
  Forall (fun t => t - start <= windowSize) times ->
  0 <= t - start < windowSize ->
  windowSize < t' - start ->
  exists ds r l1 l2,
    requests c custom (start :: times) l = (ds, l1)
    /\ length ds = S (length times)
    /\ Forall (fun d => allowed d = true) ds
    /\ checkSlidingWindow t c custom l1
       = (mkDecision false (Some r) (Some 0), l2)
    /\ 1 <= r <= 60
    /\ allowed (checkSlidingWindow t' c custom l2).1 = true.
Proof.
  intros Hc Hlimit Hlen Hin Ht Ht'.
  cbn [requests]. rewrite (check_first l c custom start limit Hc Hlimit) by lia.
  destruct (requests_allowed c custom limit start times
              (setEntry c (counted start 1) l) 1)
    as (ds & l1 & Hreq & Hlen' & Hall & Hc1 & Hrate);
    [apply clients_setEntry|done|lia|done|].
  rewrite Hreq.
  assert (Hlimit1 : limit = match custom with
                            | Some 0 | None => rateLimitPerMinute l1
                            | Some x => x end).
  { rewrite Hlimit. destruct custom as [[]|]; try done; by rewrite Hrate. }
  pose proof (check_denies l1 c custom t start _ limit Hc1 Hlimit1) as Hdeny.
  eexists _, _, _, _. split; [done|].
  split; [cbn; by rewrite Hlen'|]. split; [by constructor|].
  split; [apply Hdeny; lia|]. split.
  { split; [apply ceilSeconds_pos|apply ceilSeconds_le]; unfold windowSize in *; lia. }
  erewrite check_after_window with (limit := limit);
    [reflexivity|apply clients_setEntry|done|cbn; lia|lia].
Qed.

Lemma sliding_window_budget_example :
  exists ds r l1 l2,
    requests (js "client") None [1700000000000; 1700000030000] (mkLimiter 2 ∅)
    = (ds, l1)
    /\ length ds = 2%nat
    /\ Forall (fun d => allowed d = true) ds
    /\ checkSlidingWindow 1700000059999 (js "client") None l1
       = (mkDecision false (Some r) (Some 0), l2)
    /\ 1 <= r <= 60
    /\ allowed (checkSlidingWindow 1700000060001 (js "client") None l2).1 = true.
Proof.
  apply (sliding_window_budget (mkLimiter 2 ∅) (js "client") None 2
           1700000000000 [1700000030000] 1700000059999 1700000060001);
    try reflexivity; unfold windowSize; try lia.
  repeat constructor. lia.
Defined.

(** C9, at the end of the window. With a budget of two requests a minute,
    a client whose window opened at [1700000000000] is allowed twice; its
    third request, made exactly one minute after the first, is denied
    with a retry-after of zero seconds, and the window is not reset. *)
Theorem sliding_window_denial_at_window_end_has_zero_retry_after :
  (requests (js "client") None
     [1700000000000; 1700000030000; 1700000060000]
     (mkLimiter 2 ∅)).1
  = [mkDecision true None (Some 1); mkDecision true None (Some 0);
     mkDecision false (Some 0) (Some 0)].
Proof. vm_compute. reflexivity. Qed.

End SlidingWindow.

(** ** The foreign-key resolver *)

(** What [parseFKError] returns never names the missing key: its [value]
    is [null], so the resolver can only ask for a parent whose id is the
    text "unknown". *)
Lemma parseFKError_value error fkError :
  FK.parseFKError error = Some fkError -> FK.value fkError = null.
Proof.
  unfold FK.parseFKError. destruct (negb _); [done|].
  destruct (FK.matchFK _) as [[t c]|]; by intros [= <-].
Qed.

(** A foreign-key failure as SQLite words it names no table and no column;
    the resolver then knows no relationship and creates nothing. *)
Lemma sqlite_fk_failure_unresolved now error db :
  FK.isFKCode error = true ->
  message error = js "FOREIGN KEY constraint failed" ->
  exists fkError,
    FK.parseFKError error = Some fkError
    /\ FK.tryCommonResolutions now fkError db = (false, db).
Proof.
  intros Hcode Hmsg. unfold FK.parseFKError. rewrite Hcode, Hmsg.
  eexists. split; [vm_compute; reflexivity|]. by vm_compute.
Qed.

(** C3, on a result whose tool use is missing. The store holds the message
    of the result and no tool use; the insert of the result fails on its
    foreign key.  Under [retryWithFKResolution] with a bound of three the
    insert is tried three times, no tool use is created, the store is left
    as it was, and the wrapper throws. *)
Theorem fk_retry_does_not_create_missing_tool_use :
  Sqlite.rowsOf "tool_uses" Scenario.storeWithoutToolUse = []
  /\ (exists row, Sqlite.rowsOf "messages" Scenario.storeWithoutToolUse = [row]
                  /\ Sqlite.field (default (Sqlite.mkTable "" [] "" [] [])
                                     (Sqlite.findTable "messages")) "id" row
                     = Sqlite.SText (js "m2"))
  /\ FK.retryWithFKResolution (js "NOW") Scenario.insertOrphanResult 3
       Scenario.storeWithoutToolUse
     = (Thrown (mkError None
                  (js "FK constraint failure after 3 attempts: FOREIGN KEY constraint failed")),
        Scenario.storeWithoutToolUse).
Proof.
  split; [by vm_compute|]. split; [eexists; split; by vm_compute|].
  vm_compute. reflexivity.
Qed.

(** ** The connection pool *)

(** C8, on the pool of the connection manager. The pool is built with
    [minConnections = 2], [maxConnections = 10] and
    [acquireTimeoutMs = 5000]; it opens no handle, and the first
    [acquire()] opens none either: it is left pending in the wait queue,
    its timer armed with an undefined delay. *)
Theorem pool_built_with_maxConnections_opens_no_handle :
  let p := Pool.create 0 Scenario.managerPoolOptions in
  Pool.maxConnections (Pool.options p) = Some 10
  /\ Pool.connections p = []
  /\ (Pool.acquire 1 p).1 = Pool.Pending (Pool.mkWaiter 1 None)
  /\ Pool.connections (Pool.acquire 1 p).2 = [].
Proof. by vm_compute. Qed.

(** With the maximum and the timeout under the names the class reads
    ([max], [acquireTimeout]), an open pool does what is asked of it:
    [acquire()] takes the first idle handle; failing that it opens a
    handle while fewer than [max] are open; failing that it waits at the
    end of the queue with a timer of [acquireTimeout]; and [release()]
    hands the handle to the head of the queue. *)
Theorem pool_acquire_release now (p : Pool.DatabasePool) m :
  Pool.closed p = false ->
  Pool.max (Pool.options p) = Some m ->
  (forall c, find (fun c => negb (Pool.inUse c)) (Pool.connections p) = Some c ->
     (Pool.acquire now p).1
     = Pool.Connection (Pool.mkConn (Pool.id c) true now (Pool.created c)))
  /\ (find (fun c => negb (Pool.inUse c)) (Pool.connections p) = None ->
      N.of_nat (length (Pool.connections p)) < m ->
      (Pool.acquire now p).1
      = Pool.Connection (Pool.mkConn (Pool.nextId p) true now now)
      /\ length (Pool.connections (Pool.acquire now p).2)
         = S (length (Pool.connections p)))
  /\ (find (fun c => negb (Pool.inUse c)) (Pool.connections p) = None ->
      m <= N.of_nat (length (Pool.connections p)) ->
      exists w,
        (Pool.acquire now p).1 = Pool.Pending w
        /\ Pool.timerDelay w = Pool.acquireTimeout (Pool.options p)
        /\ Pool.waitQueue (Pool.acquire now p).2 = Pool.waitQueue p ++ [w]
        /\ Pool.connections (Pool.acquire now p).2 = Pool.connections p)
  /\ (forall c w rest, Pool.waitQueue p = w :: rest ->
      (Pool.release now c p).1
      = Some (w, Pool.mkConn (Pool.id c) true now (Pool.created c))
      /\ Pool.waitQueue (Pool.release now c p).2 = rest)
  /\ (forall c, Pool.waitQueue p = [] ->
      (Pool.release now c p).1 = None
      /\ Pool.connections (Pool.release now c p).2
         = map (fun c' => if (Pool.id c' =? Pool.id c)%nat
                          then Pool.mkConn (Pool.id c) false now (Pool.created c)
                          else c') (Pool.connections p)).
Proof.
  intros Hopen Hmax. unfold Pool.acquire, Pool.release. rewrite Hopen, Hmax.
  repeat split.
  - intros c ->. done.
  - rewrite H. apply N.ltb_lt in H0. rewrite H0. done.
  - rewrite H. apply N.ltb_lt in H0. rewrite H0. cbn.
    rewrite length_map, length_app. cbn. lia.
  - intros Hnone Hfull. rewrite Hnone.
    destruct (N.ltb_spec (N.of_nat (length (Pool.connections p))) m); [lia|].
    eexists. by repeat split.
  - cbn. by rewrite H.
  - cbn. by rewrite H.
  - cbn. by rewrite H.
  - cbn. by rewrite H.
Qed.
(** ** The streaming line processor *)

Section Stream.
Import JSONLStream.
Variable JSON_parse : jsstring -> outcome json.
Variable timing : Timing.

Lemma lineErrors_app es es' : lineErrors (es ++ es') = (lineErrors es + lineErrors es')%nat.
Proof. unfold lineErrors. by rewrite filter_app, length_app. Qed.

Lemma lineErrors_singleton e :
  lineErrors [e] = if isLineError e then 1%nat else 0%nat.
Proof.
  unfold lineErrors. destruct (isLineError e) eqn:He.
  - by rewrite filter_cons_True by (cbn beta; rewrite He; cbn; tauto).
  - by rewrite filter_cons_False by (cbn beta; rewrite He; cbn; tauto).
Qed.

(** Handing a batch over moves it from the batch being filled to the
    batches delivered, and reports no line. *)
Lemma processBatch_spec p :
  let p' := processBatch p in
  options p' = options p
  /\ currentBatch p' = []
  /\ concat (delivered p') = concat (delivered p) ++ currentBatch p
  /\ lineErrors (emitted p') = lineErrors (emitted p)
  /\ totalLines (stats p') = totalLines (stats p).
Proof.
  unfold processBatch, delivered. destruct (currentBatch p) as [|e batch] eqn:Hb.
  - cbn zeta. rewrite Hb, app_nil_r. done.
  - cbn [options currentBatch calls emitted stats totalLines].
    rewrite map_app, concat_app. cbn [map argument concat].
    rewrite app_nil_r. done.
Qed.

(** The rest of [processBatch], whenever it runs and however the call
    has settled, hands nothing over and reports no line. *)
Lemma processBatchResumed_spec i result p :
  let p' := processBatchResumed i result p in
  options p' = options p
  /\ currentBatch p' = currentBatch p
  /\ delivered p' = delivered p
  /\ lineErrors (emitted p') = lineErrors (emitted p)
  /\ totalLines (stats p') = totalLines (stats p)
  /\ closeHandler p' = closeHandler p.
Proof.
  unfold processBatchResumed, delivered.
  destruct (calls p !! i) as [[batch [?|]]|] eqn:Hi; [done| |done].
  assert (Hsame : map argument (<[i:=mkCall batch (Some result)]> (calls p))
                  = map argument (calls p)).
  { change (map argument) with (fmap (M:=list) argument).
    rewrite list_fmap_insert. cbn [argument].
    apply list_insert_id. by rewrite list_lookup_fmap, Hi. }
  destruct result;
    cbn [options currentBatch calls emitted stats totalLines closeHandler];
    rewrite Hsame, lineErrors_app, lineErrors_singleton;
    cbn [isLineError]; rewrite Nat.add_0_r; done.
Qed.

Lemma onCloseResumed_spec p :
  let p' := onCloseResumed p in
  options p' = options p
  /\ currentBatch p' = currentBatch p
  /\ delivered p' = delivered p
  /\ lineErrors (emitted p') = lineErrors (emitted p)
  /\ totalLines (stats p') = totalLines (stats p).
Proof.
  unfold onCloseResumed.
  destruct (closeHandler p); [done| |done].
  destruct (calls p !! call) as [[batch [?|]]|]; [|done..].
  cbn [emit options currentBatch delivered calls emitted stats totalLines].
  unfold delivered. cbn [calls].
  rewrite lineErrors_app, lineErrors_singleton. cbn [isLineError].
  rewrite Nat.add_0_r. done.
Qed.

(** Whatever settles between two events, nothing is handed over and no
    line is reported. *)
Lemma ticks_spec ts : forall p,
  let p' := ticks ts p in
  options p' = options p
  /\ currentBatch p' = currentBatch p
  /\ delivered p' = delivered p
  /\ lineErrors (emitted p') = lineErrors (emitted p)
  /\ totalLines (stats p') = totalLines (stats p).
Proof.
  induction ts as [|t ts IH]; intros p; [done|].
  unfold ticks. cbn [fold_left]. fold (ticks ts (tick p t)).
  destruct (IH (tick p t)) as (Ho & Hb & Hd & He & Ht). cbn zeta in *.
  rewrite Ho, Hb, Hd, He, Ht.
  destruct t as [i result|]; cbn [tick].
  - destruct (processBatchResumed_spec i result p) as (? & ? & ? & ? & ? & _).
    done.
  - apply onCloseResumed_spec.
Qed.

Lemma onLine_spec n line p :
  let p' := onLine JSON_parse n line p in
  options p' = options p
  /\ concat (delivered p') ++ currentBatch p'
     = concat (delivered p) ++ currentBatch p
       ++ entriesFrom JSON_parse (options p) n [line]
  /\ lineErrors (emitted p')
     = (lineErrors (emitted p)
        + if malformed JSON_parse (options p) line then 1 else 0)%nat
  /\ totalLines (stats p') = S (totalLines (stats p)).
Proof.
  unfold onLine, malformed, entriesFrom, tooLong, isBlank.
  destruct (greater _ _) eqn:Hlong.
  { cbn [emit options currentBatch delivered emitted stats totalLines orb].
    rewrite lineErrors_app, lineErrors_singleton. cbn [isLineError].
    destruct (JSON_parse line); by rewrite app_nil_r. }
  destruct (trim line) as [|c r] eqn:Htrim.
  { cbn [options currentBatch delivered emitted stats totalLines orb negb andb].
    rewrite Nat.add_0_r. destruct (JSON_parse line); by rewrite app_nil_r. }
  destruct (JSON_parse line) as [data|error] eqn:Hparse.
  - cbn [orb negb andb isThrown].
    match goal with |- context [processBatch ?q] => set (p2 := q) end.
    destruct (atLeast _ _).
    + destruct (processBatch_spec p2) as (Ho & Hb & Hd & He & Ht).
      cbn zeta in *.
      rewrite Ho, Hb, Hd, He, Ht. subst p2.
      cbn [options currentBatch emitted stats totalLines].
      rewrite app_nil_r, Nat.add_0_r. done.
    + subst p2. cbn [options currentBatch emitted stats totalLines].
      rewrite Nat.add_0_r. done.
  - cbn [emit options currentBatch emitted stats totalLines orb negb
           andb isThrown].
    rewrite lineErrors_app, lineErrors_singleton, app_nil_r. done.
Qed.

Lemma entriesFrom_cons n line rest opts :
  entriesFrom JSON_parse opts n (line :: rest)
  = entriesFrom JSON_parse opts n [line] ++ entriesFrom JSON_parse opts (S n) rest.
Proof.
  cbn [entriesFrom]. destruct (JSON_parse line); [|done].
  by destruct (tooLong opts line || isBlank line).
Qed.

Lemma onLines_spec lines : forall n p,
  let p' := onLines JSON_parse timing n lines p in
  options p' = options p
  /\ concat (delivered p') ++ currentBatch p'
     = concat (delivered p) ++ currentBatch p
       ++ entriesFrom JSON_parse (options p) n lines
  /\ lineErrors (emitted p')
     = (lineErrors (emitted p)
        + length (filter (malformed JSON_parse (options p)) lines))%nat
  /\ totalLines (stats p') = (totalLines (stats p) + length lines)%nat.
Proof.
  induction lines as [|line rest IH]; intros n p.
  - cbn [onLines entriesFrom filter length list_filter]. cbn zeta.
    rewrite !app_nil_r, !Nat.add_0_r. done.
  - cbn [onLines].
    destruct (onLine_spec n line p) as (Ho & Hd & He & Ht).
    destruct (ticks_spec (afterLine timing n) (onLine JSON_parse n line p))
      as (Ho1 & Hb1 & Hd1 & He1 & Ht1).
    destruct (IH (S n) (ticks (afterLine timing n) (onLine JSON_parse n line p)))
      as (Ho' & Hd' & He' & Ht').
    cbn zeta in *.
    rewrite Ho', Hd', He', Ht', Ho1, Hb1, Hd1, He1, Ht1, Ho, He, Ht.
    rewrite (app_assoc (concat _)), Hd.
    rewrite (entriesFrom_cons n line rest), <- !app_assoc.
    repeat split; [|cbn [length]; lia].
    destruct (malformed JSON_parse (options p) line) eqn:Hm.
    + rewrite filter_cons_True by (cbn beta; rewrite Hm; cbn; tauto).
      cbn [length]. lia.
    + rewrite filter_cons_False by (cbn beta; rewrite Hm; cbn; tauto). lia.
Qed.

(** The ['close'] handler hands over what is left and reports no line. *)
Lemma onClose_spec p :
  let p' := onClose p in
  options p' = options p
  /\ currentBatch p' = []
  /\ concat (delivered p') = concat (delivered p) ++ currentBatch p
  /\ lineErrors (emitted p') = lineErrors (emitted p)
  /\ totalLines (stats p') = totalLines (stats p).
Proof.
  unfold onClose. destruct (currentBatch p) as [|e batch] eqn:Hb.
  - cbn [emit options currentBatch emitted stats totalLines]. unfold delivered.
    cbn [calls]. rewrite lineErrors_app, lineErrors_singleton, app_nil_r.
    cbn [isLineError]. rewrite Nat.add_0_r. done.
  - destruct (processBatch_spec p) as (Ho & Hb' & Hd & He & Ht).
    cbn zeta in *. rewrite Hb in Hd.
    cbn [options currentBatch emitted stats totalLines].
    unfold delivered in *. cbn [calls]. done.
Qed.

(** A whole run, from any state of the processor between two files. *)
Lemma processFile_spec lines p :
  let p' := processFile JSON_parse timing lines p in
  options p' = options p
  /\ currentBatch p' = []
  /\ concat (delivered p')
     = concat (delivered p) ++ currentBatch p
       ++ entriesFrom JSON_parse (options p) 1 lines
  /\ lineErrors (emitted p')
     = (lineErrors (emitted p)
        + length (filter (malformed JSON_parse (options p)) lines))%nat
  /\ totalLines (stats p') = (totalLines (stats p) + length lines)%nat.
Proof.
  unfold processFile.
  destruct (onLines_spec lines 1 p) as (Ho & Hd & He & Ht).
  destruct (onClose_spec (onLines JSON_parse timing 1 lines p))
    as (Ho' & Hb' & Hd' & He' & Ht').
  destruct (ticks_spec (afterClose timing)
              (onClose (onLines JSON_parse timing 1 lines p)))
    as (Ho2 & Hb2 & Hd2 & He2 & Ht2).
  cbn zeta in *.
  rewrite Ho2, He2, Hd2, Hb2, Ht2, Ho', He', He, Hd', Hd, Hb', Ht', Ht, Ho.
  done.
Qed.

(** C7. Whatever the lines of the file, and whenever and however the
    calls of the downstream processor settle, a fresh stream processor
    emits one line-level error report for each malformed line (over the
    maximum length, or not blank and refused by the JSON decoder) and no
    other, hands the processor the entries of all the well-formed lines,
    in file order and with their line numbers, and counts every line: a
    malformed line is skipped and the lines after it are read. *)
Theorem stream_reports_malformed_and_delivers_well_formed opts lines :
  let p := processFile JSON_parse timing lines (create opts) in
  lineErrors (emitted p)
  = length (filter (malformed JSON_parse (options (create opts))) lines)
  /\ concat (delivered p) = entriesFrom JSON_parse (options (create opts)) 1 lines
  /\ currentBatch p = []
  /\ totalLines (stats p) = length lines.
Proof.
  destruct (processFile_spec lines (create opts)) as (_ & Hb & Hd & He & Ht).
  cbn zeta in *. rewrite He, Hd, Hb, Ht. done.
Qed.
End Stream.

(** ** The store *)

Section Store.
Import Sqlite.

Lemma extends_refl db : extends db db.
Proof. by intros table. Qed.

Lemma extends_trans db1 db2 db3 :
  extends db1 db2 -> extends db2 db3 -> extends db1 db3.
Proof. intros H1 H2 table. etrans; [apply H1|apply H2]. Qed.

Lemma rowsOf_insert table rows (db : DB) :
  rowsOf table (<[table := rows]> db) = rows.
Proof. unfold rowsOf, DB in *. by rewrite lookup_insert_eq. Qed.

Lemma rowsOf_insert_ne table table' rows (db : DB) :
  table <> table' -> rowsOf table' (<[table := rows]> db) = rowsOf table' db.
Proof. intros Hne. unfold rowsOf, DB in *. by rewrite lookup_insert_ne. Qed.

Lemma extends_append table r (db : DB) :
  extends db (<[table := rowsOf table db ++ [r]]> db).
Proof.
  intros table'. destruct (decide (table = table')) as [<-|Hne].
  - rewrite rowsOf_insert. by apply prefix_app_r.
  - by rewrite rowsOf_insert_ne.
Qed.

Lemma hasKey_mono t c v db db' :
  extends db db' -> hasKey t c v db = true -> hasKey t c v db' = true.
Proof.
  intros Hext. unfold hasKey. destruct v; [done| |];
    rewrite !existsb_exists; intros (r & Hin & Hr);
    destruct (Hext (tname t)) as [k ->]; exists r;
    (split; [apply in_or_app; by left|done]).
Qed.

Lemma hasKey_append t c v r (db : DB) :
  v <> SNull -> field t c r = v ->
  hasKey t c v (<[tname t := rowsOf (tname t) db ++ [r]]> db) = true.
Proof.
  intros Hv Hr. unfold hasKey. rewrite rowsOf_insert.
  destruct v; [done| |]; rewrite existsb_app; cbn;
    rewrite Hr, bool_decide_eq_true_2 by done; by rewrite orb_true_r.
Qed.

Lemma conflict_mono t r db db' :
  extends db db' -> is_Some (conflict t r db) -> is_Some (conflict t r db').
Proof.
  intros Hext. unfold conflict.
  destruct (find _ (columns t)); [done|].
  destruct (hasKey t (primaryKey t) _ db) eqn:Hpk.
  { by rewrite (hasKey_mono _ _ _ _ _ Hext Hpk). }
  destruct (hasKey t (primaryKey t) _ db'); [done|].
  destruct (find _ (uniques t)) as [u|] eqn:Hu; [|by intros [? ?]].
  intros _. apply find_some in Hu as [Hin Hu].
  destruct (find (fun u => hasKey t u (field t u r) db') (uniques t)) eqn:Hu';
    [done|].
  pose proof (hasKey_mono _ _ _ _ _ Hext Hu) as Hk.
  by rewrite (find_none _ _ Hu' u Hin) in Hk.
Qed.

(** What an INSERT does to the store: nothing, or one row more in its
    table. *)
Lemma insertInto_inv orIgnore table cols vals db res db' :
  insertInto orIgnore table cols vals db = (res, db') ->
  (db' = db
   /\ (forall n, res = Returned n ->
         n = 0%nat /\ orIgnore = true
         /\ exists t, findTable table = Some t
                      /\ is_Some (conflict t (buildRow t cols vals) db)))
  \/ (exists t, findTable table = Some t
        /\ res = Returned 1%nat
        /\ conflict t (buildRow t cols vals) db = None
        /\ foreignKeysHold t (buildRow t cols vals) db = true
        /\ db' = <[table := rowsOf table db ++ [buildRow t cols vals]]> db).
Proof.
  unfold insertInto. destruct (findTable table) as [t|]; [|intros [= <- <-]; left; by split].
  destruct (find _ cols); [intros [= <- <-]; left; by split|].
  destruct (negb _); [intros [= <- <-]; left; by split|].
  destruct (conflict t _ db) as [e|] eqn:Hconf.
  - destruct orIgnore; intros [= <- <-]; left; (split; [done|]); [|done].
    intros n [= <-]. repeat split. exists t. by rewrite Hconf.
  - destruct (foreignKeysHold _ _ _) eqn:Hfk; intros [= <- <-].
    + right. by exists t.
    + left. by split.
Qed.

Lemma insertInto_ignored table t cols vals db e :
  findTable table = Some t ->
  find (fun c => bool_decide (columnIndex (columns t) c = None)) cols = None ->
  length cols = length vals ->
  conflict t (buildRow t cols vals) db = Some e ->
  insertInto true table cols vals db = (Returned 0%nat, db).
Proof.
  intros Ht Hcols Hlen Hconf. unfold insertInto.
  rewrite Ht, Hcols, Hlen, Nat.eqb_refl, Hconf. done.
Qed.

Lemma insertInto_extends orIgnore table cols vals db res db' :
  insertInto orIgnore table cols vals db = (res, db') -> extends db db'.
Proof.
  intros H. apply insertInto_inv in H as [[-> _]|(t & _ & _ & _ & _ & ->)].
  - apply extends_refl.
  - apply extends_append.
Qed.

Lemma insertInto_keeps orIgnore table table' cols vals db res db' :
  table <> table' ->
  insertInto orIgnore table cols vals db = (res, db') ->
  rowsOf table' db' = rowsOf table' db.
Proof.
  intros Hne H. apply insertInto_inv in H as [[-> _]|(t & _ & _ & _ & _ & ->)];
    [done|by apply rowsOf_insert_ne].
Qed.

Lemma notnull_field t r db c :
  conflict t r db = None -> In c (columns t) -> notnull c = true ->
  field t (cname c) r <> SNull.
Proof.
  unfold conflict. intros Hconf Hin Hnn Hnull.
  destruct (find _ (columns t)) eqn:Hfind; [done|].
  pose proof (find_none _ _ Hfind c Hin) as Hc. cbn beta in Hc.
  by rewrite Hnn, Hnull, bool_decide_eq_true_2 in Hc.
Qed.

(** Once a row is in its table, inserting it again breaks the primary
    key or a unique column, whichever of them is not NULL. *)
Lemma conflict_after_insert t r (db : DB) u :
  conflict t r db = None -> In u (primaryKey t :: uniques t) ->
  field t u r <> SNull ->
  is_Some (conflict t r (<[tname t := rowsOf (tname t) db ++ [r]]> db)).
Proof.
  intros Hconf Hin Hu. unfold conflict in *.
  destruct (find _ (columns t)); [done|].
  pose proof (hasKey_append t u (field t u r) r db Hu eq_refl) as Hkey.
  destruct Hin as [<-|Hin]; [by rewrite Hkey|].
  destruct (hasKey t (primaryKey t) _ (<[_ := _]> db)); [done|].
  destruct (find (fun u => hasKey t u (field t u r) (<[_ := _]> db)) (uniques t))
    eqn:Hfind; [done|].
  by rewrite (find_none _ _ Hfind u Hin) in Hkey.
Qed.

Lemma findTable_name table t : findTable table = Some t -> tname t = table.
Proof.
  unfold findTable. intros H. apply find_some in H as [_ H].
  by apply String.eqb_eq in H.
Qed.

Lemma stored_mono table id db db' :
  extends db db' -> stored table id db -> stored table id db'.
Proof.
  intros Hext (v & Hv & Hsel). exists v. split; [done|].
  unfold selectById in *. destruct (findTable table); [|done].
  injection Hsel as Hsel. unfold mret, outcome_ret. f_equal.
  by eapply hasKey_mono.
Qed.
End Store.

(** ** Runs of the executor *)

Section Runs.
Import Sqlite Executor.

Lemma grows_refl st : grows st st.
Proof. split; [apply extends_refl|done]. Qed.

Lemma grows_trans st1 st2 st3 : grows st1 st2 -> grows st2 st3 -> grows st1 st3.
Proof.
  intros [H1 H1'] [H2 H2']. split; [by eapply extends_trans|by etrans].
Qed.

Lemma bind_run {A B} (m : Exec A) (k : A -> Exec B) st :
  (m ≫= k) st
  = match m st with
    | (Returned a, st') => k a st'
    | (Thrown e, st') => (Thrown e, st')
    end.
Proof. done. Qed.

Lemma bind_inv {A B} (m : Exec A) (k : A -> Exec B) st b st2 :
  (m ≫= k) st = (Returned b, st2) ->
  exists a st1, m st = (Returned a, st1) /\ k a st1 = (Returned b, st2).
Proof. rewrite bind_run. destruct (m st) as [[a|e] st1]; [eauto|done]. Qed.

Create HintDb exec.

Lemma growing_ret {A} (a : A) : growing (mret a : Exec A).
Proof. intros st r st' [= <- <-]. apply grows_refl. Qed.

Lemma growing_bind {A B} (m : Exec A) (k : A -> Exec B) :
  growing m -> (forall a, growing (k a)) -> growing (m ≫= k).
Proof.
  intros Hm Hk st r st'. rewrite bind_run.
  destruct (m st) as [[a|e] st1] eqn:Hrun.
  - intros H. eapply grows_trans; [by eapply Hm|by eapply Hk].
  - intros [= <- <-]. by eapply Hm.
Qed.

Lemma growing_lift {A} (o : outcome A) : growing (lift o).
Proof. intros st r st' [= <- <-]. apply grows_refl. Qed.

Lemma growing_insert orIgnore table cols vals :
  growing (onDb (insertInto orIgnore table cols vals)).
Proof.
  intros st r st'. unfold onDb.
  destruct (insertInto _ _ _ _ _) as [res db'] eqn:Hins. intros [= <- <-].
  split; [by eapply insertInto_extends|done].
Qed.

Lemma growing_select table v :
  growing (onDb (fun d => (selectById table v d, d))).
Proof. intros [d l res] r st' [= <- <-]. apply grows_refl. Qed.

Lemma growing_log entry : growing (logTransaction entry).
Proof. intros st r st' [= <- <-]. split; [apply extends_refl|done]. Qed.

Lemma growing_pushError e : growing (pushError e).
Proof.
  intros st r st' [= <- <-]. split; [apply extends_refl|]. by apply prefix_app_r.
Qed.

Lemma growing_bump which : growing (bump which).
Proof. intros st r st' [= <- <-]. split; [apply extends_refl|done]. Qed.

Lemma growing_forEach {A} (xs : list A) body :
  (forall x, growing (body x)) -> growing (forEach xs body).
Proof.
  intros Hbody. induction xs as [|x xs IH]; cbn [forEach].
  - apply growing_ret.
  - apply growing_bind; [apply Hbody|by intros _].
Qed.

Lemma growing_tryCatch body handler :
  growing body -> (forall e, growing (handler e)) -> growing (tryCatch body handler).
Proof.
  intros Hb Hh st r st'. unfold tryCatch.
  destruct (body st) as [[a|e] st1] eqn:Hrun.
  - intros [= <- <-]. by eapply Hb.
  - intros H. eapply grows_trans; [by eapply Hb|by eapply Hh].
Qed.

Hint Resolve growing_ret growing_lift growing_insert growing_select growing_log
  growing_pushError growing_bump : exec.

Ltac growing_step :=
  first
    [ apply growing_bind; [|intros ?]
    | apply growing_forEach; intros ?
    | apply growing_tryCatch; [|intros ?]
    | match goal with
      | |- growing (if ?b then _ else _) => destruct b
      | |- growing (match ?o with Some _ => _ | None => _ end) => destruct o
      end
    | solve [auto with exec] ].

Lemma growing_run orIgnore table cols args : growing (run orIgnore table cols args).
Proof. unfold run. repeat growing_step. Qed.

Lemma growing_existsById table id : growing (existsById table id).
Proof. unfold existsById. repeat growing_step. Qed.

Hint Resolve growing_run growing_existsById : exec.

Lemma growing_executeEntry now parsed : growing (executeEntry now parsed).
Proof.
  unfold executeEntry, ensureSessionRecord, insertMessageRecord,
    insertToolUseRecord, insertToolResultRecord, insertAttachmentRecord,
    insertEnvInfoRecord.
  repeat growing_step.
Qed.

Lemma growing_batch now parsedEntries : growing (batch now parsedEntries).
Proof.
  unfold batch. apply growing_bind; [|intros _].
  - apply growing_forEach. intros parsed.
    apply growing_tryCatch; [apply growing_executeEntry|auto with exec].
  - intros st r st'. unfold logBatchSummary. destruct (_ <? _)%nat.
    + apply growing_log.
    + intros [= <- <-]. apply grows_refl.
Qed.

Lemma mapM_Returned_inv {A B} (f : A -> outcome B) l ks :
  mapM f l = Returned ks -> Forall2 (fun x y => f x = Returned y) l ks.
Proof.
  revert ks. induction l as [|x l IH]; intros ks; cbn [mapM].
  - intros [= <-]. constructor.
  - destruct (f x) as [y|e] eqn:Hx; [|done]. rewrite bind_Returned.
    destruct (mapM f l) as [k|e]; [|done]. intros [= <-]. constructor; auto.
Qed.

Lemma st_eta st : mkSt (db st) (auditLog st) (result st) = st.
Proof. by destruct st. Qed.

Lemma existsById_inv table id st b st' :
  existsById table id st = (Returned b, st') ->
  st' = st /\ exists v, bindValue id = Returned v
                        /\ selectById table v (db st) = Returned b.
Proof.
  unfold existsById, lift, onDb. rewrite bind_run.
  destruct (bindValue id) as [v|e]; [|done].
  destruct (selectById table v (db st)) as [b'|e] eqn:Hsel; [|done].
  intros [= <- <-]. rewrite st_eta. eauto.
Qed.

Lemma existsById_stored table id st :
  stored table id (db st) -> existsById table id st = (Returned true, st).
Proof.
  intros (v & Hv & Hsel). unfold existsById, lift, onDb.
  by rewrite bind_run, Hv, Hsel, st_eta.
Qed.

(** A plain INSERT that returns has put its row in the table, under the
    id it was given. *)
Lemma run_stores table t cols idArg args st n st' :
  findTable table = Some t ->
  (forall v vals,
     field t "id" (buildRow t ("id" :: cols)%string (v :: vals)) = applyAffinity TEXT v) ->
  run false table ("id" :: cols)%string (idArg :: args) st = (Returned n, st') ->
  keyPresent idArg ->
  stored table idArg (db st').
Proof.
  intros Ht Hfield Hrun Hkey. unfold run, lift in Hrun.
  rewrite bind_run in Hrun. cbn [mapM] in Hrun.
  destruct (bindValue idArg) as [v|e] eqn:Hv; [|done].
  pose proof (Hkey v Hv) as Hnn. exists v. split; [done|].
  rewrite bind_Returned in Hrun.
  destruct (mapM bindValue args) as [vals|e]; [|done].
  rewrite bind_Returned in Hrun. cbn [mret outcome_ret] in Hrun.
  unfold onDb in Hrun.
  destruct (insertInto _ _ _ _ _) as [res db'] eqn:Hins.
  injection Hrun as -> <-. cbn [db].
  apply insertInto_inv in Hins as [[_ Hign]|(t' & Ht' & _ & _ & _ & ->)].
  { by destruct (Hign n eq_refl) as (_ & [=] & _). }
  rewrite Ht in Ht'. injection Ht' as <-.
  unfold selectById. rewrite Ht. f_equal.
  rewrite <- (findTable_name _ _ Ht).
  apply hasKey_append; [by destruct v|]. apply Hfield.
Qed.

Lemma sessionKnown_mono session db db' :
  extends db db' -> sessionKnown session db -> sessionKnown session db'.
Proof.
  intros Hext (vals & t & Hvals & Ht & Hconf). exists vals, t.
  repeat split; [done..|]. by eapply conflict_mono.
Qed.

Lemma ensureSessionRecord_known session st :
  sessionKnown session (db st) ->
  ensureSessionRecord session st = (Returned tt, st).
Proof.
  intros (vals & t & Hvals & Ht & [e Hconf]).
  unfold ensureSessionRecord, run, lift, onDb. rewrite !bind_run, Hvals.
  apply mapM_Returned_inv in Hvals.
  repeat match goal with H : Forall2 _ _ _ |- _ => inversion H; clear H; subst end.
  rewrite (insertInto_ignored _ t _ _ _ e Ht); [by rewrite st_eta| |done|done].
  vm_compute in Ht. by injection Ht as <-.
Qed.

Lemma ensureSessionRecord_returns session st st' :
  ensureSessionRecord session st = (Returned tt, st') ->
  sessionKnown session (db st').
Proof.
  unfold ensureSessionRecord, run, lift. intros Hrun.
  apply bind_inv in Hrun as (n & s1 & Hrun & Hlog).
  rewrite bind_run in Hrun.
  destruct (mapM bindValue _) as [vals|e] eqn:Hvals; [|done].
  unfold onDb in Hrun. destruct (insertInto _ _ _ _ _) as [res db1] eqn:Hins.
  injection Hrun as -> <-.
  assert (db st' = db1) as ->.
  { destruct (0 <? n)%nat; by injection Hlog as <-. }
  apply insertInto_inv in Hins as [[-> Hign]|(t & Ht & _ & Hconf & _ & ->)].
  - destruct (Hign n eq_refl) as (_ & _ & t & Ht & Hconf). by exists vals, t.
  - exists vals, t. repeat split; [done..|].
    rewrite <- (findTable_name _ _ Ht).
    apply (conflict_after_insert t _ _ "sessionId" Hconf).
    + assert (t = default t (findTable "sessions")) as -> by (by rewrite Ht).
      cbn. tauto.
    + assert (Hc : In (textNotNull "sessionId") (columns t)).
      { assert (t = default t (findTable "sessions")) as -> by (by rewrite Ht).
        cbn. tauto. }
      apply (notnull_field t _ _ _ Hconf Hc eq_refl).
Qed.

Lemma keyPresent_truthy id : truthy id = true -> orElse id null = id /\ keyPresent id.
Proof.
  intros Hid. unfold orElse. rewrite Hid. split; [done|].
  intros v Hv ->. by destruct id as [[]|].
Qed.

Ltac table_facts :=
  first [ reflexivity | intros; reflexivity ].

Lemma insertMessageRecord_stores message st st' :
  insertMessageRecord message st = (Returned tt, st') ->
  keyPresent (MessageRecord.id message) ->
  stored "messages" (MessageRecord.id message) (db st').
Proof.
  unfold insertMessageRecord. intros Hrun Hkey.
  apply bind_inv in Hrun as (n & s1 & Hrun & Hlog). injection Hlog as <-.
  cbn [db]. eapply run_stores; [| |exact Hrun|exact Hkey]; table_facts.
Qed.

Lemma insertToolUseRecord_stores toolUse sid st st' :
  insertToolUseRecord toolUse sid st = (Returned tt, st') ->
  keyPresent (ToolUse.id toolUse) ->
  stored "tool_uses" (ToolUse.id toolUse) (db st').
Proof.
  unfold insertToolUseRecord. intros Hrun Hkey.
  apply bind_inv in Hrun as (n & s1 & Hrun & Hlog). injection Hlog as <-.
  cbn [db]. eapply run_stores; [| |exact Hrun|exact Hkey]; table_facts.
Qed.

Lemma insertToolResultRecord_stores toolResult sid st st' :
  insertToolResultRecord toolResult sid st = (Returned tt, st') ->
  truthy (ToolResult.id toolResult) = true ->
  stored "tool_use_results" (ToolResult.id toolResult) (db st').
Proof.
  unfold insertToolResultRecord. intros Hrun Hid.
  destruct (keyPresent_truthy _ Hid) as [Heq Hkey]. rewrite Heq in Hrun.
  apply bind_inv in Hrun as (n & s1 & Hrun & Hlog). injection Hlog as <-.
  cbn [db]. eapply run_stores; [| |exact Hrun|exact Hkey]; table_facts.
Qed.

Lemma insertAttachmentRecord_stores attachment st st' :
  insertAttachmentRecord attachment st = (Returned tt, st') ->
  keyPresent (AttachmentRecord.id attachment) ->
  stored "attachments" (AttachmentRecord.id attachment) (db st').
Proof.
  unfold insertAttachmentRecord. intros Hrun Hkey.
  apply bind_inv in Hrun as (n & s1 & Hrun & Hret). injection Hret as <-.
  eapply run_stores; [| |exact Hrun|exact Hkey]; table_facts.
Qed.

Lemma insertEnvInfoRecord_stores envInfo st st' :
  insertEnvInfoRecord envInfo st = (Returned tt, st') ->
  keyPresent (EnvInfoRecord.id envInfo) ->
  stored "env_info" (EnvInfoRecord.id envInfo) (db st').
Proof.
  unfold insertEnvInfoRecord. intros Hrun Hkey.
  apply bind_inv in Hrun as (n & s1 & Hrun & Hret). injection Hret as <-.
  eapply run_stores; [| |exact Hrun|exact Hkey]; table_facts.
Qed.

(** The presence check followed by the insert leaves the record in the
    store either way. *)
Lemma checked_insert_stored table id (onFound ins after : Exec unit) st st' :
  (found ← existsById table id;
   if (found : bool) then onFound else ins ;; after) st = (Returned tt, st') ->
  growing onFound -> growing after ->
  (forall s s', ins s = (Returned tt, s') -> stored table id (db s')) ->
  stored table id (db st').
Proof.
  intros Hrun Hfound Hafter Hins.
  apply bind_inv in Hrun as (found & s1 & Hex & Hrun).
  apply existsById_inv in Hex as (-> & v & Hv & Hsel).
  destruct found.
  - apply (stored_mono _ _ (db st)); [by apply (Hfound _ _ _ Hrun)|by exists v].
  - apply bind_inv in Hrun as ([] & s2 & Hrun & Hrest).
    apply (stored_mono _ _ (db s2)); [by apply (Hafter _ _ _ Hrest)|by eapply Hins].
Qed.

Lemma forEach_stored {A} (xs : list A) (body : A -> Exec unit)
    (P : A -> DB -> Prop) :
  (forall x, growing (body x)) ->
  (forall x d d', extends d d' -> P x d -> P x d') ->
  (forall x s s', x ∈ xs -> body x s = (Returned tt, s') -> P x (db s')) ->
  forall st st', forEach xs body st = (Returned tt, st') ->
    Forall (fun x => P x (db st')) xs.
Proof.
  intros Hgrow Hmono. induction xs as [|x xs IH]; intros Hbody st st' Hrun;
    [constructor|].
  cbn [forEach] in Hrun. apply bind_inv in Hrun as ([] & s1 & Hx & Hrest).
  constructor.
  - apply (Hmono x (db s1)).
    + by apply (growing_forEach xs body Hgrow _ _ _ Hrest).
    + apply (Hbody x st s1); [constructor|done].
  - apply (IH (fun y s s' Hin => Hbody y s s' (list_elem_of_further _ _ _ Hin))
             s1 st' Hrest).
Qed.

Lemma forEach_pushError {A} (xs : list A) (f : A -> Error) st :
  forEach xs (fun x => pushError (f x)) st
  = (Returned tt,
     mkSt (db st) (auditLog st)
       (mkResult (messagesInserted (result st)) (messagesUpdated (result st))
          (toolUsesInserted (result st)) (toolResultsInserted (result st))
          (attachmentsInserted (result st)) (envInfoInserted (result st))
          (errors (result st) ++ map f xs))).
Proof.
  revert st. induction xs as [|x xs IH]; intros [d l []]; cbn [forEach].
  - cbn. by rewrite app_nil_r.
  - rewrite bind_run. cbn [pushError updateResult]. rewrite IH. cbn.
    by rewrite <- app_assoc.
Qed.

Lemma messageToInsert_id now now' parsed m' :
  messageToInsert now' parsed = Some m' ->
  exists m, messageToInsert now parsed = Some m
            /\ MessageRecord.id m = MessageRecord.id m'.
Proof.
  unfold messageToInsert. destruct (Parse.message parsed); [eauto|].
  destruct (_ || _); [|done]. destruct (truthy _); [|done].
  intros [= <-]. eauto.
Qed.

Lemma messageToInsert_keyPresent now parsed m :
  (forall m, Parse.message parsed = Some m -> keyPresent (MessageRecord.id m)) ->
  messageToInsert now parsed = Some m -> keyPresent (MessageRecord.id m).
Proof.
  unfold messageToInsert. intros Hkey.
  destruct (Parse.message parsed) as [m0|]; [intros [= <-]; by apply Hkey|].
  destruct (_ || _); [|done]. destruct (truthy _) eqn:Hid; [|done].
  intros [= <-]. cbn. by apply keyPresent_truthy.
Qed.

Lemma prefix_antisym_eq {A} (l1 l2 l3 : list A) :
  l1 `prefix_of` l2 -> l2 `prefix_of` l3 -> l3 = l1 -> l2 = l1.
Proof.
  intros H12 H23 ->. symmetry. apply prefix_length_eq; [done|].
  by apply prefix_length.
Qed.

Ltac grown H :=
  match type of H with
  | ?m ?s = (_, ?s') =>
      let G := fresh "G" in
      assert (G : grows s s')
        by (apply (fun Hg : growing m => Hg _ _ _ H);
            unfold ensureSessionRecord, insertMessageRecord, insertToolUseRecord,
              insertToolResultRecord, insertAttachmentRecord, insertEnvInfoRecord;
            repeat growing_step)
  end.

(** A run of the executor on an entry that returns and reports no error
    leaves every record of the entry in the store. *)
Lemma executeEntry_returns_stored now parsed st st' :
  executeEntry now parsed st = (Returned tt, st') ->
  errors (result st') = errors (result st) ->
  keyed parsed ->
  entryStored parsed (db st').
Proof.
  intros Hrun Herr (Kmsg & Kuses & Kres & Katt & Kenv).
  unfold executeEntry in Hrun.
  apply bind_inv in Hrun as ([] & s1 & H1 & Hrun).
  apply bind_inv in Hrun as ([] & s2 & H2 & Hrun).
  apply bind_inv in Hrun as ([] & s3 & H3 & Hrun).
  apply bind_inv in Hrun as ([] & s4 & H4 & Hrun).
  apply bind_inv in Hrun as ([] & s5 & H5 & Hrun).
  apply bind_inv in Hrun as ([] & s6 & H6 & H7).
  grown H1. grown H2. grown H3. grown H4. grown H5. grown H6. grown H7.
  assert (E67 : grows s6 st') by done.
  assert (E57 : grows s5 st') by (by eapply grows_trans).
  assert (E47 : grows s4 st') by (by eapply grows_trans).
  assert (E37 : grows s3 st') by (by eapply grows_trans).
  assert (E27 : grows s2 st') by (by eapply grows_trans).
  assert (E17 : grows s1 st') by (by eapply grows_trans).
  repeat split.
  - rewrite forEach_pushError in H1. injection H1 as <-.
    destruct E17 as [_ Hpre]. cbn [result errors] in Hpre.
    apply prefix_length in Hpre.
    rewrite Herr, length_app, length_map in Hpre.
    destruct (Parse.errors parsed); [done|cbn in Hpre; lia].
  - apply (sessionKnown_mono _ (db s2)); [apply E27|].
    by apply (ensureSessionRecord_returns _ s1).
  - intros now' m' Hm'.
    destruct (messageToInsert_id now now' parsed m' Hm') as (m & Hm & <-).
    rewrite Hm in H3. apply (stored_mono _ _ (db s3)); [apply E37|].
    apply (checked_insert_stored _ _ _ _ _ _ _ H3); auto with exec.
    intros s s' Hins. apply (insertMessageRecord_stores _ _ _ Hins).
    by apply (messageToInsert_keyPresent now parsed).
  - eapply Forall_impl;
      [|intros x Hx; apply (stored_mono _ _ (db s4)); [apply E47|exact Hx]].
    refine (forEach_stored _ _ (fun x d => stored "tool_uses" (ToolUse.id x) d)
              _ _ _ s3 s4 H4).
    + intros x. unfold insertToolUseRecord. repeat growing_step.
    + intros x d d'. apply stored_mono.
    + intros x s s' Hin Hx.
      apply (checked_insert_stored _ _ _ _ _ _ _ Hx); auto with exec.
      intros u u' Hins. apply (insertToolUseRecord_stores _ _ _ _ Hins).
      by apply (proj1 (Forall_forall _ _) Kuses).
  - eapply Forall_impl;
      [|intros x Hx; apply (stored_mono _ _ (db s5)); [apply E57|exact Hx]].
    refine (forEach_stored _ _
              (fun x d => stored "tool_use_results" (ToolResult.id x) d)
              _ _ _ s4 s5 H5).
    + intros x. unfold insertToolResultRecord. repeat growing_step.
    + intros x d d'. apply stored_mono.
    + intros x s s' Hin Hx.
      apply (checked_insert_stored _ _ _ _ _ _ _ Hx); auto with exec.
      intros u u' Hins. apply (insertToolResultRecord_stores _ _ _ _ Hins).
      by apply (proj1 (Forall_forall _ _) Kres).
  - eapply Forall_impl;
      [|intros x Hx; apply (stored_mono _ _ (db s6)); [apply E67|exact Hx]].
    refine (forEach_stored _ _
              (fun x d => stored "attachments" (AttachmentRecord.id x) d)
              _ _ _ s5 s6 H6).
    + intros x. unfold insertAttachmentRecord. repeat growing_step.
    + intros x d d'. apply stored_mono.
    + intros x s s' Hin Hx.
      apply (checked_insert_stored _ _ _ _ _ _ _ Hx); auto with exec.
      intros u u' Hins. apply (insertAttachmentRecord_stores _ _ _ Hins).
      by apply (proj1 (Forall_forall _ _) Katt).
  - intros e He. rewrite He in H7.
    apply (checked_insert_stored _ _ _ _ _ _ _ H7); auto with exec.
    intros u u' Hins. apply (insertEnvInfoRecord_stores _ _ _ Hins).
    by apply Kenv.
Qed.
Lemma entryStored_mono parsed db db' :
  extends db db' -> entryStored parsed db -> entryStored parsed db'.
Proof.
  intros Hext (He & Hs & Hm & Hu & Hr & Ha & Hv). repeat split.
  - done.
  - by eapply sessionKnown_mono.
  - intros now m Hmsg. eapply stored_mono; [done|by eapply Hm].
  - eapply Forall_impl; [exact Hu|]. intros x. by apply stored_mono.
  - eapply Forall_impl; [exact Hr|]. intros x. by apply stored_mono.
  - eapply Forall_impl; [exact Ha|]. intros x. by apply stored_mono.
  - intros e He'. eapply stored_mono; [done|by apply Hv].
Qed.

Lemma ret_run {A} (a : A) st : (mret a : Exec A) st = (Returned a, st).
Proof. done. Qed.

Lemma checked_skip table id (k : Exec unit) st :
  stored table id (db st) ->
  (found ← existsById table id; if (found : bool) then mret tt else k) st
  = (Returned tt, st).
Proof. intros H. by rewrite bind_run, (existsById_stored _ _ _ H). Qed.

Lemma forEach_skips {A} (P : A -> DB -> Prop) (body : A -> Exec unit) xs st :
  (forall x s, P x (db s) -> body x s = (Returned tt, s)) ->
  Forall (fun x => P x (db st)) xs -> forEach xs body st = (Returned tt, st).
Proof.
  intros Hbody. induction 1 as [|x xs Hx _ IH]; cbn [forEach]; [done|].
  by rewrite bind_run, (Hbody _ _ Hx).
Qed.



Lemma executeParsedEntries_once now parsedEntries w :
  executeParsedEntries now parsedEntries w = executeOnce now parsedEntries w.
Proof.
  unfold executeParsedEntries, retryDatabaseOperation. cbn [retryLoop].
  unfold executeOnce. by destruct (tryCatch _ _ _).
Qed.


(** The loop of the batch, when it adds no error to the result, has run
    every entry to its end. *)
Lemma batch_entries_returned now parsedEntries st r st' :
  forEach parsedEntries (fun parsed => tryCatch (executeEntry now parsed) pushError)
    st = (r, st') ->
  errors (result st') = errors (result st) ->
  Forall keyed parsedEntries ->
  r = Returned tt
  /\ Forall (fun parsed => entryStored parsed (db st')) parsedEntries.
Proof.
  revert st. induction parsedEntries as [|parsed rest IH]; intros st Hrun Herr Hkeyed.
  { injection Hrun as <- <-. by split. }
  apply Forall_cons in Hkeyed as [Hk Hkeyed]. cbn [forEach] in Hrun.
  rewrite bind_run in Hrun.
  destruct (tryCatch _ _ st) as [o s1] eqn:Htry.
  assert (Grest : forall o', forEach rest
            (fun parsed => tryCatch (executeEntry now parsed) pushError) s1
            = (o', st') -> grows s1 st').
  { intros o'. apply growing_forEach. intros x.
    apply growing_tryCatch; [apply growing_executeEntry|auto with exec]. }
  unfold tryCatch in Htry.
  destruct (executeEntry now parsed st) as [[[]|e] s0] eqn:Hentry.
  - injection Htry as <- <-.
    pose proof (growing_executeEntry _ _ _ _ _ Hentry) as [_ G0].
    pose proof (Grest _ Hrun) as [E1 G1].
    assert (Hs0 : errors (result s0) = errors (result st)).
    { apply (prefix_antisym_eq _ _ (errors (result st'))); done. }
    destruct (IH s0 Hrun) as [-> Hall]; [congruence|done|].
    split; [done|]. constructor; [|done].
    apply (entryStored_mono _ (db s0)); [done|].
    by apply (executeEntry_returns_stored now _ st).
  - exfalso. injection Htry as <- <-.
    pose proof (growing_executeEntry _ _ _ _ _ Hentry) as [_ G0].
    pose proof (Grest _ Hrun) as [_ G1]. cbn [result errors] in G1.
    apply prefix_length in G0, G1. rewrite Herr, length_app in G1. cbn in G1. lia.
Qed.

(** A first run that reports no error has put every record of every
    entry in the store. *)
Lemma executeParsedEntries_stores now parsedEntries w r w' :
  executeParsedEntries now parsedEntries w = (Returned r, w') ->
  errors r = [] ->
  Forall keyed parsedEntries ->
  Forall (fun parsed => entryStored parsed w'.1) parsedEntries.
Proof.
  rewrite executeParsedEntries_once. unfold executeOnce. intros Hrun Herr Hkeyed.
  destruct (tryCatch _ _ _) as [o st] eqn:Htry. injection Hrun as <- <-.
  unfold tryCatch, transaction in Htry.
  destruct (batch now parsedEntries _) as [[[]|e] s1] eqn:Hbatch.
  - injection Htry as <- <-. unfold batch in Hbatch. rewrite bind_run in Hbatch.
    destruct (forEach _ _ _) as [[[]|e] s2] eqn:Hloop; [|done].
    assert (db s1 = db s2 /\ errors (result s1) = errors (result s2)) as [Hd He].
    { unfold logBatchSummary in Hbatch.
      destruct (_ <? _)%nat; by injection Hbatch as <-. }
    cbn [fst]. rewrite Hd.
    apply (batch_entries_returned now _ _ _ _ Hloop); [|done].
    by rewrite <- He, Herr.
  - exfalso. injection Htry as <- <-. cbn in Herr. by destruct (errors _).
Qed.

End Runs.

(** ** Two runs over the same entries *)

Lemma keyPresent_string s : keyPresent (Some (JStr s)).
Proof. intros v [= <-]. discriminate. Qed.

Ltac keyed_records :=
  repeat first [apply Forall_nil_2 | apply Forall_cons_2];
  unfold keyed;
  cbn [Parse.message Parse.toolUses Parse.toolResults Parse.attachments
       Parse.envInfo];
  repeat split;
  repeat first [apply Forall_nil_2 | apply Forall_cons_2];
  first [ reflexivity
        | apply keyPresent_string
        | intros ? [= <-]; apply keyPresent_string
        | intros ? [=] ].


(** ** Tool-result carriers *)

Lemma fragment_present item : isResultFragment item -> item <> JNull.
Proof. by intros [H _] ->. Qed.

Lemma fragment_type item :
  isResultFragment item -> getPropOpt "type" (Some item) = str "tool_result".
Proof.
  intros [H _]. unfold isToolResultItem, isStr in H.
  by apply bool_decide_eq_true in H.
Qed.

Lemma fragments_present items :
  Forall isResultFragment items -> Forall (fun item => item <> JNull) items.
Proof. intros H. eapply Forall_impl; [exact H|]. apply fragment_present. Qed.

Lemma fragments_parts items :
  Forall isResultFragment items -> Forall partsPresent items.
Proof.
  intros H. eapply Forall_impl; [exact H|].
  intros item [_ [s Hs]] parts Hp. congruence.
Qed.

Lemma fragments_results items :
  Forall isResultFragment items -> filter isToolResultItem items = items.
Proof.
  induction 1 as [|item l [Hitem _] _ IH]; [done|].
  rewrite filter_cons_True by (cbn beta; rewrite Hitem; cbn; tauto).
  by rewrite IH.
Qed.

Lemma fragments_uses items :
  Forall isResultFragment items -> filter isToolUseItem items = [].
Proof.
  induction 1 as [|item l Hitem _ IH]; [done|].
  rewrite filter_cons_False; [done|].
  unfold isToolUseItem. rewrite (fragment_type _ Hitem). vm_compute. tauto.
Qed.

Lemma someM_false {A} (f : A -> outcome bool) xs :
  Forall (fun x => f x = Returned false) xs ->
  ToolExtractor.someM f xs = Returned false.
Proof.
  induction 1 as [|x l Hx _ IH]; [done|].
  cbn [ToolExtractor.someM]. by rewrite Hx, bind_Returned.
Qed.

Lemma someM_returns {A} (f : A -> outcome bool) xs :
  Forall (fun x => exists b, f x = Returned b) xs ->
  exists b, ToolExtractor.someM f xs = Returned b.
Proof.
  induction 1 as [|x l [b Hx] _ [b' IH]]; [by exists false|].
  cbn [ToolExtractor.someM]. rewrite Hx, bind_Returned.
  destruct b; [by exists true|by exists b'].
Qed.

Lemma textItems_fragments items :
  Forall isResultFragment items ->
  MessageClassifier.textItems items = Returned [].
Proof.
  induction 1 as [|item l Hitem _ IH]; [done|].
  cbn [MessageClassifier.textItems].
  rewrite (getProp_present _ item (fragment_present _ Hitem)), bind_Returned.
  rewrite IH, bind_Returned, (fragment_type _ Hitem). by vm_compute.
Qed.

Lemma carries_fragments entry uuid (g : nat -> jsstring) items :
  getPropOpt "uuid" (Some entry) = Some (JStr uuid) ->
  Forall2 (carries uuid) items
    (map SchemaMapper.mapToToolResultRecord
       (imap (fun k => toolResultOf entry (g k)) items)).
Proof.
  intros Huuid. revert g. induction items as [|item l IH]; intros g; [constructor|].
  cbn [imap map]. constructor; [|apply (IH (g ∘ S))].
  repeat split; [done|].
  intros s Hs. cbn. unfold outputOf. rewrite Hs. by destruct s.
Qed.

Section Carrier.
Variable uuidv4 : nat -> jsstring.
Variables (now : jsstring) (entry : json) (sessionPath : jsstring).
Variables (uuid sid : jsstring) (items : list json).
Hypothesis Htype : getPropOpt "type" (Some entry) = str "user".
Hypothesis Huuid : getPropOpt "uuid" (Some entry) = Some (JStr uuid).
Hypothesis Hfilled : uuid <> [].
Hypothesis Hsid : getPropOpt "sessionId" (Some entry) = Some (JStr sid).
Hypothesis Hcontent :
  ToolExtractor.messageContent entry = Returned (Some (JArr items)).
Hypothesis Hitems : Forall isResultFragment items.

Lemma carrier_getProp k :
  getProp k (Some entry) = Returned (getPropOpt k (Some entry)).
Proof using Hcontent. by eapply getProp_present, messageContent_present. Qed.

Lemma carrier_containsTools :
  exists b, ToolExtractor.containsTools entry = Returned b.
Proof using Hcontent Hitems.
  unfold ToolExtractor.containsTools. rewrite Hcontent, bind_Returned.
  apply someM_returns. eapply Forall_impl; [exact Hitems|].
  intros item Hitem. rewrite (getProp_present _ item (fragment_present _ Hitem)).
  rewrite bind_Returned. eauto.
Qed.

Lemma carrier_hasNonToolTextContent :
  MessageClassifier.hasNonToolTextContent entry = Returned false.
Proof using Hcontent Hitems.
  unfold MessageClassifier.hasNonToolTextContent.
  rewrite Hcontent, bind_Returned. cbn [truthy negb].
  apply someM_false. eapply Forall_impl; [exact Hitems|].
  intros item Hitem.
  rewrite (getProp_present "type" item (fragment_present _ Hitem)).
  rewrite bind_Returned, (fragment_type _ Hitem). by vm_compute.
Qed.

Lemma carrier_classified :
  exists ty b parentId timestamp,
    MessageClassifier.classifyMessage now entry
    = Returned (MessageClassifier.mkClassified ty entry b false
                  (Some (JStr sid)) (Some (JStr uuid)) parentId timestamp)
    /\ (ty = MessageClassifier.user_message
        \/ ty = MessageClassifier.tool_result_message).
Proof using All.
  destruct carrier_containsTools as [b Hb].
  unfold MessageClassifier.classifyMessage.
  rewrite !carrier_getProp, Hb, carrier_hasNonToolTextContent, Htype, Huuid, Hsid.
  cbn [mbind outcome_bind mret outcome_ret].
  eexists _, b, _, _. split.
  - do 2 f_equal.
    + by destruct sid.
    + by destruct uuid.
  - change (isStr (str "user") "user") with true. destruct b; auto.
Qed.

Lemma carrier_getTextContent :
  MessageClassifier.getTextContent entry = Returned [].
Proof using Hcontent Hitems.
  unfold MessageClassifier.getTextContent. rewrite Hcontent, bind_Returned.
  cbn [truthy negb]. by rewrite (textItems_fragments _ Hitems).
Qed.

Lemma carrier_extractMessageText ty :
  ty = MessageClassifier.user_message
  \/ ty = MessageClassifier.tool_result_message ->
  MessageClassifier.extractMessageText entry ty = Returned (null, null).
Proof using Hcontent Hitems.
  unfold MessageClassifier.extractMessageText.
  rewrite carrier_getTextContent, bind_Returned. by intros [-> | ->].
Qed.

Lemma carrier_extractEnvInfo classified :
  MessageClassifier.originalMessage classified = entry ->
  exists env, SchemaMapper.extractEnvInfo classified = Returned env.
Proof using Hcontent.
  intros Horig. unfold SchemaMapper.extractEnvInfo.
  rewrite Horig, !carrier_getProp. cbn [mbind outcome_bind].
  destruct (_ && _); eauto.
Qed.

(** What the parser makes of a carrier: no message, no tool use, and one
    tool result per fragment. *)
Lemma carrier_parsed n :
  exists env errors,
    Parse.parseAndTransform uuidv4 now entry sessionPath n
    = (Returned
         (Parse.mkParsed
            (SessionRecord.mk (Some (JStr sid)) (Some (JStr sid))
               (Some (JStr sessionPath)))
            None []
            (map SchemaMapper.mapToToolResultRecord
               (imap (fun k => toolResultOf entry (uuidv4 (n + k))) items))
            [] env true errors),
       (n + length items)%nat).
Proof using All.
  destruct carrier_classified as (ty & b & parentId & timestamp & Hclass & Hty).
  destruct (extractToolUses_returns entry items Hcontent
              (fragments_present _ Hitems)) as [cleaned Huses].
  destruct (extractToolResults_returns uuidv4 entry items n Hcontent
              (fragments_present _ Hitems) (fragments_parts _ Hitems))
    as [cleaned' Hres].
  rewrite (fragments_uses _ Hitems) in Huses.
  rewrite (fragments_results _ Hitems) in Hres.
  destruct (carrier_extractEnvInfo
              (MessageClassifier.mkClassified ty entry b false
                 (Some (JStr sid)) (Some (JStr uuid)) parentId timestamp) eq_refl)
    as [env Henv].
  exists env. eexists.
  unfold Parse.parseAndTransform, Parse.parseBody.
  rewrite Hclass, Huses, !bind_Returned. cbn [mret outcome_ret fst].
  rewrite Hres.
  cbn [MessageClassifier.type MessageClassifier.hasTextContent
       MessageClassifier.shouldStoreAsMessage].
  rewrite (carrier_extractMessageText _ Hty), bind_Returned.
  unfold MessageClassifier.shouldStoreAsMessage.
  cbn [MessageClassifier.type MessageClassifier.hasTextContent].
  assert (bool_decide (ty = MessageClassifier.system_message)
          || bool_decide (ty = MessageClassifier.summary_message) = false) as ->
    by (by destruct Hty as [-> | ->]).
  cbn [negb]. rewrite bind_Returned, Henv, bind_Returned. reflexivity.
Qed.
End Carrier.

(** ** Code that leaves a table alone *)

Section Frames.
Import Sqlite Executor.
Variable table : string.

Lemma keeps_ret {A} (a : A) : keeps table (mret a : Exec A).
Proof. by intros st r st' [= <- <-]. Qed.

Lemma keeps_bind {A B} (m : Exec A) (k : A -> Exec B) :
  keeps table m -> (forall a, keeps table (k a)) -> keeps table (m ≫= k).
Proof.
  intros Hm Hk st r st'. rewrite bind_run.
  destruct (m st) as [[a|e] st1] eqn:Hrun.
  - intros H. rewrite (Hk _ _ _ _ H). by eapply Hm.
  - intros [= <- <-]. by eapply Hm.
Qed.

Lemma keeps_lift {A} (o : outcome A) : keeps table (lift o).
Proof. by intros st r st' [= <- <-]. Qed.

Lemma keeps_log entry : keeps table (logTransaction entry).
Proof. by intros st r st' [= <- <-]. Qed.

Lemma keeps_updateResult f : keeps table (updateResult f).
Proof. by intros st r st' [= <- <-]. Qed.

Lemma keeps_forEach {A} (xs : list A) body :
  (forall x, keeps table (body x)) -> keeps table (forEach xs body).
Proof.
  intros Hbody. induction xs as [|x xs IH]; cbn [forEach].
  - apply keeps_ret.
  - apply keeps_bind; [apply Hbody|by intros _].
Qed.

Lemma keeps_tryCatch body handler :
  keeps table body -> (forall e, keeps table (handler e)) ->
  keeps table (tryCatch body handler).
Proof.
  intros Hb Hh st r st'. unfold tryCatch.
  destruct (body st) as [[a|e] st1] eqn:Hrun.
  - intros [= <- <-]. by eapply Hb.
  - intros H. rewrite (Hh _ _ _ _ H). by eapply Hb.
Qed.

Lemma keeps_existsById table' id : keeps table (existsById table' id).
Proof.
  unfold existsById. apply keeps_bind; [apply keeps_lift|]. intros v.
  intros [d l res] r st' [= <- <-]. done.
Qed.

Lemma keeps_run orIgnore table' cols args :
  table' <> table -> keeps table (run orIgnore table' cols args).
Proof.
  intros Hne. unfold run. apply keeps_bind; [apply keeps_lift|]. intros vals.
  intros st r st'. unfold onDb.
  destruct (insertInto _ _ _ _ _) as [res db'] eqn:Hins. intros [= <- <-].
  by apply (insertInto_keeps _ _ _ _ _ _ _ _ Hne Hins).
Qed.

(** A presence check followed by an insert into another table. *)
Lemma keeps_checked table' id (ins after : Exec unit) :
  keeps table ins -> keeps table after ->
  keeps table (found ← existsById table' id;
               if (found : bool) then mret tt else ins ;; after).
Proof.
  intros Hins Hafter. apply keeps_bind; [apply keeps_existsById|].
  intros []; [apply keeps_ret|]. apply keeps_bind; [done|by intros _].
Qed.
End Frames.

Section Placeholder.
Import Sqlite Executor.

Lemma keeps_messages_toolUses sid xs :
  keeps "messages" (forEach xs (fun toolUse =>
    found ← existsById "tool_uses" (ToolUse.id toolUse);
    if (found : bool) then mret tt
    else insertToolUseRecord toolUse sid ;; bump "toolUsesInserted")).
Proof.
  apply keeps_forEach. intros x. apply keeps_checked; [|apply keeps_updateResult].
  unfold insertToolUseRecord. apply keeps_bind; [by apply keeps_run|].
  intros _. apply keeps_log.
Qed.

Lemma keeps_messages_toolResults sid xs :
  keeps "messages" (forEach xs (fun toolResult =>
    found ← existsById "tool_use_results" (ToolResult.id toolResult);
    if (found : bool) then mret tt
    else insertToolResultRecord toolResult sid ;; bump "toolResultsInserted")).
Proof.
  apply keeps_forEach. intros x. apply keeps_checked; [|apply keeps_updateResult].
  unfold insertToolResultRecord. apply keeps_bind; [by apply keeps_run|].
  intros _. apply keeps_log.
Qed.

Lemma keeps_messages_attachments xs :
  keeps "messages" (forEach xs (fun attachment =>
    found ← existsById "attachments" (AttachmentRecord.id attachment);
    if (found : bool) then mret tt
    else insertAttachmentRecord attachment ;; bump "attachmentsInserted")).
Proof.
  apply keeps_forEach. intros x. apply keeps_checked; [|apply keeps_updateResult].
  unfold insertAttachmentRecord. apply keeps_bind; [by apply keeps_run|].
  intros _. apply keeps_ret.
Qed.

Lemma keeps_messages_envInfo env :
  keeps "messages"
    match env with
    | Some envInfo =>
        found ← existsById "env_info" (EnvInfoRecord.id envInfo);
        if (found : bool) then mret tt
        else insertEnvInfoRecord envInfo ;; bump "envInfoInserted"
    | None => mret tt
    end.
Proof.
  destruct env; [|apply keeps_ret].
  apply keeps_checked; [|apply keeps_updateResult].
  unfold insertEnvInfoRecord. apply keeps_bind; [by apply keeps_run|].
  intros _. apply keeps_ret.
Qed.
Lemma insertInto_run orIgnore table t cols vals db :
  findTable table = Some t ->
  find (fun c => bool_decide (columnIndex (columns t) c = None)) cols = None ->
  length cols = length vals ->
  insertInto orIgnore table cols vals db
  = match conflict t (buildRow t cols vals) db with
    | Some e => if orIgnore then (Returned 0%nat, db) else (Thrown e, db)
    | None =>
        if foreignKeysHold t (buildRow t cols vals) db then
          (Returned 1%nat, <[table := rowsOf table db ++ [buildRow t cols vals]]> db)
        else
          (Thrown (SqliteError (js "SQLITE_CONSTRAINT_FOREIGNKEY")
                     (js "FOREIGN KEY constraint failed")), db)
    end.
Proof.
  intros Ht Hcols Hlen. unfold insertInto.
  by rewrite Ht, Hcols, Hlen, Nat.eqb_refl.
Qed.

Lemma hasKey_rows t c v db db' :
  rowsOf (tname t) db' = rowsOf (tname t) db -> hasKey t c v db' = hasKey t c v db.
Proof. intros H. unfold hasKey. by rewrite H. Qed.

(** In a store whose session rows are consistent, a session row with the
    id [sid] is one with the [sessionId] [sid]. *)
Lemma hasKey_session t sid db :
  findTable "sessions" = Some t -> sessionsConsistent db ->
  hasKey t "id" (SText sid) db = true -> hasKey t "sessionId" (SText sid) db = true.
Proof.
  intros Ht Hcons. specialize (Hcons t Ht). unfold hasKey.
  rewrite (findTable_name _ _ Ht), !existsb_exists.
  intros (r & Hin & Hr). exists r. split; [done|].
  apply bool_decide_eq_true in Hr. apply bool_decide_eq_true.
  rewrite <- Hr. symmetry.
  apply (proj1 (Forall_forall _ _) Hcons r). by apply list_elem_of_In.
Qed.

(** Ensuring the session of an entry returns, leaves the messages alone,
    and leaves a session row for the messages of the entry to refer to. *)
Lemma ensureSessionRecord_session sid path st :
  sessionsConsistent (db st) ->
  exists st',
    ensureSessionRecord
      (SessionRecord.mk (Some (JStr sid)) (Some (JStr sid)) (Some (JStr path))) st
    = (Returned tt, st')
    /\ rowsOf "messages" (db st') = rowsOf "messages" (db st)
    /\ forall t, findTable "sessions" = Some t ->
         hasKey t "sessionId" (SText sid) (db st') = true.
Proof.
  intros Hcons.
  destruct (findTable "sessions") as [t|] eqn:Ht; [|by vm_compute in Ht].
  pose proof Ht as Ht'. vm_compute in Ht'. injection Ht' as Ht'.
  unfold ensureSessionRecord, run, lift, onDb. rewrite !bind_run.
  cbn [SessionRecord.id SessionRecord.sessionId SessionRecord.sessionPath].
  change (mapM bindValue [Some (JStr sid); Some (JStr sid); Some (JStr path)])
    with (Returned [SText sid; SText sid; SText path]).
  cbv beta iota.
  rewrite (insertInto_run _ _ t _ _ _ Ht); [|by subst t..].
  assert (Hrow : buildRow t ["id"; "sessionId"; "sessionPath"]
                   [SText sid; SText sid; SText path]
                 = [SText sid; SText sid; SText path;
                    SText (js "CURRENT_TIMESTAMP")]) by (by subst t).
  rewrite Hrow.
  assert (Hid : forall r, field t "id" r = default SNull (r !! 0%nat))
    by (by subst t).
  assert (Hsession : forall r, field t "sessionId" r = default SNull (r !! 1%nat))
    by (by subst t).
  assert (Hfree : forall r d, foreignKeysHold t r d = true) by (by subst t).
  assert (Hname : tname t = "sessions") by (by subst t).
  assert (Hpk : primaryKey t = "id") by (by subst t).
  assert (Huniq : uniques t = ["sessionId"]) by (by subst t).
  destruct (conflict t _ (db st)) as [e|] eqn:Hconf.
  - eexists. split; [reflexivity|]. split; [done|].
    intros t0 [= <-]. cbn [db].
    unfold conflict in Hconf.
    destruct (find _ (columns t)) eqn:Hnn; [by subst t|].
    rewrite Hpk, Huniq, Hid in Hconf. cbn [find] in Hconf.
    rewrite Hsession in Hconf. cbn [lookup list_lookup default] in Hconf.
    destruct (hasKey t "id" _ (db st)) eqn:Hkey;
      [by apply (hasKey_session _ _ _ Ht Hcons)|].
    by destruct (hasKey t "sessionId" _ (db st)).
  - rewrite Hfree. eexists. split; [reflexivity|]. cbn [db]. split.
    + by apply rowsOf_insert_ne.
    + intros t0 [= <-]. rewrite <- Hname.
      apply hasKey_append; [done|]. by rewrite Hsession.
Qed.
(** The presence check and the insert of the placeholder message, in a
    store that has the session and no message of that id. *)
Lemma insert_placeholder now uuid sid path st :
  noMessage uuid (db st) ->
  (forall t, findTable "sessions" = Some t ->
     hasKey t "sessionId" (SText sid) (db st) = true) ->
  exists st',
    (found ← existsById "messages"
               (MessageRecord.id
                  (placeholderMessage now (Some (JStr uuid))
                     (SessionRecord.mk (Some (JStr sid)) (Some (JStr sid))
                        (Some (JStr path)))));
     if (found : bool) then bump "messagesUpdated"
     else
       insertMessageRecord
         (placeholderMessage now (Some (JStr uuid))
            (SessionRecord.mk (Some (JStr sid)) (Some (JStr sid))
               (Some (JStr path)))) ;;
       bump "messagesInserted") st
    = (Returned tt, st')
    /\ rowsOf "messages" (db st')
       = rowsOf "messages" (db st) ++ [placeholderRow uuid sid now path].
Proof.
  intros Hnone Hsession.
  destruct (findTable "messages") as [t|] eqn:Ht; [|by vm_compute in Ht].
  pose proof Ht as Ht'. vm_compute in Ht'. injection Ht' as Ht'.
  destruct (findTable "sessions") as [ts|] eqn:Hts; [|by vm_compute in Hts].
  specialize (Hnone t Ht). specialize (Hsession ts eq_refl).
  change (MessageRecord.id (placeholderMessage now (Some (JStr uuid)) _))
    with (Some (JStr uuid)).
  rewrite bind_run. unfold existsById at 1, lift, onDb. rewrite bind_run.
  change (bindValue (Some (JStr uuid))) with (Returned (SText uuid)).
  cbv beta iota. unfold selectById. rewrite Ht.
  change (applyAffinity TEXT (SText uuid)) with (SText uuid).
  rewrite Hnone. cbn [mret outcome_ret]. rewrite st_eta.
  unfold insertMessageRecord, run, lift, onDb. rewrite !bind_run.
  destruct (mapM bindValue _) as [vals|e] eqn:Hvals;
    [|destruct path; by vm_compute in Hvals].
  cbv beta iota.
  assert (Hrow : buildRow t
            ["id"; "sessionId"; "type"; "timestamp"; "isSidechain";
             "projectName"; "activeFile"; "userText"; "userType";
             "userAttachments"; "toolUseResultId"; "toolUseResultName";
             "assistantRole"; "assistantText"; "assistantModel"] vals
          = placeholderRow uuid sid now path).
  { subst t. destruct path; vm_compute in Hvals; injection Hvals as <-;
      reflexivity. }
  assert (Hlen : length vals = 15%nat).
  { destruct path; vm_compute in Hvals; by injection Hvals as <-. }
  rewrite (insertInto_run _ _ t _ _ _ Ht); [|by subst t|by rewrite Hlen].
  rewrite Hrow.
  assert (Hconf : conflict t (placeholderRow uuid sid now path) (db st) = None).
  { unfold conflict.
    assert (find (fun c => notnull c
                    && bool_decide (field t (cname c)
                                      (placeholderRow uuid sid now path) = SNull))
              (columns t) = None) as -> by (by subst t).
    assert (primaryKey t = "id") as -> by (by subst t).
    assert (field t "id" (placeholderRow uuid sid now path) = SText uuid) as ->
      by (by subst t).
    rewrite Hnone. by assert (uniques t = []) as -> by (by subst t). }
  rewrite Hconf.
  assert (Hfk : foreignKeysHold t (placeholderRow uuid sid now path) (db st)
                = true).
  { unfold foreignKeysHold.
    assert (foreignKeys t = [mkFK "sessionId" "sessions" "sessionId"]) as ->
      by (by subst t).
    cbn [forallb fk_column fk_parentTable fk_parentColumn].
    assert (field t "sessionId" (placeholderRow uuid sid now path) = SText sid)
      as -> by (by subst t).
    by rewrite Hts, Hsession. }
  rewrite Hfk. eexists. split; [reflexivity|]. cbn [db].
  by rewrite rowsOf_insert.
Qed.
(** The run of the executor on a parsed carrier adds the placeholder row
    to the messages, whether its tool results can be inserted or not. *)
Lemma executeEntry_carrier now sid path uuid record rest env errs st r st' :
  ToolResult.messageId record = Some (JStr uuid) -> uuid <> [] ->
  sessionsConsistent (db st) -> noMessage uuid (db st) ->
  executeEntry now
    (Parse.mkParsed
       (SessionRecord.mk (Some (JStr sid)) (Some (JStr sid)) (Some (JStr path)))
       None [] (record :: rest) [] env true errs) st = (r, st') ->
  rowsOf "messages" (db st')
  = rowsOf "messages" (db st) ++ [placeholderRow uuid sid now path].
Proof.
  intros Hid Hfilled Hcons Hnone. unfold executeEntry.
  cbn [Parse.errors Parse.session Parse.toolUses Parse.toolResults
       Parse.attachments Parse.envInfo].
  rewrite bind_run, forEach_pushError. rewrite bind_run.
  match goal with |- context [ensureSessionRecord _ ?s] => set (s1 := s) end.
  destruct (ensureSessionRecord_session sid path s1 Hcons)
    as (s2 & Hens & Hkeep & Hsession).
  rewrite Hens.
  assert (messageToInsert now
            (Parse.mkParsed
               (SessionRecord.mk (Some (JStr sid)) (Some (JStr sid))
                  (Some (JStr path)))
               None [] (record :: rest) [] env true errs)
          = Some (placeholderMessage now (Some (JStr uuid))
                    (SessionRecord.mk (Some (JStr sid)) (Some (JStr sid))
                       (Some (JStr path))))) as ->.
  { unfold messageToInsert. cbn. rewrite Hid. by destruct uuid. }
  assert (Hnone2 : noMessage uuid (db s2)).
  { intros t Ht. etrans; [|exact (Hnone t Ht)]. apply hasKey_rows.
    by rewrite (findTable_name _ _ Ht). }
  destruct (insert_placeholder now uuid sid path s2 Hnone2 Hsession)
    as (s3 & Hins & Hrows).
  rewrite bind_run, Hins. rewrite Hkeep in Hrows. cbn [db s1] in Hrows.
  cbv beta iota.
  intros Hrest. rewrite <- Hrows.
  revert Hrest. apply (fun H => H s3 r st').
  change (keeps "messages"
    (forEach [] (fun toolUse : ToolUse.t =>
       found ← existsById "tool_uses" (ToolUse.id toolUse);
       if (found : bool) then mret tt
       else insertToolUseRecord toolUse (Some (JStr sid)) ;;
            bump "toolUsesInserted") ;;
     forEach (record :: rest) (fun toolResult =>
       found ← existsById "tool_use_results" (ToolResult.id toolResult);
       if (found : bool) then mret tt
       else insertToolResultRecord toolResult (Some (JStr sid)) ;;
            bump "toolResultsInserted") ;;
     forEach [] (fun attachment : AttachmentRecord.t =>
       found ← existsById "attachments" (AttachmentRecord.id attachment);
       if (found : bool) then mret tt
       else insertAttachmentRecord attachment ;; bump "attachmentsInserted") ;;
     match env with
     | Some envInfo =>
         found ← existsById "env_info" (EnvInfoRecord.id envInfo);
         if (found : bool) then mret tt
         else insertEnvInfoRecord envInfo ;; bump "envInfoInserted"
     | None => mret tt
     end)).
  apply keeps_bind; [apply keeps_messages_toolUses|intros _].
  apply keeps_bind; [apply keeps_messages_toolResults|intros _].
  apply keeps_bind; [apply keeps_messages_attachments|intros _].
  apply keeps_messages_envInfo.
Qed.

(** The loop of the batch catches what an entry throws: it returns. *)
Lemma batch_entries_return now parsedEntries st :
  exists st',
    forEach parsedEntries
      (fun parsed => tryCatch (executeEntry now parsed) pushError) st
    = (Returned tt, st').
Proof.
  revert st. induction parsedEntries as [|parsed rest IH]; intros st;
    [by exists st|].
  cbn [forEach]. rewrite bind_run. unfold tryCatch at 1.
  destruct (executeEntry now parsed st) as [[[]|e] s1]; [apply IH|].
  cbn [pushError updateResult]. apply IH.
Qed.

Lemma batch_returns now parsedEntries st :
  exists st', batch now parsedEntries st = (Returned tt, st').
Proof.
  unfold batch. rewrite bind_run.
  destruct (batch_entries_return now parsedEntries st) as [s1 ->].
  unfold logBatchSummary. destruct (_ <? _)%nat; eauto.
Qed.

Lemma executeParsedEntries_batch now parsedEntries w st' :
  batch now parsedEntries (mkSt w.1 w.2 emptyResult) = (Returned tt, st') ->
  executeParsedEntries now parsedEntries w
  = (Returned (result st'), (db st', auditLog st')).
Proof.
  intros H. rewrite executeParsedEntries_once.
  unfold executeOnce, tryCatch, transaction. by rewrite H.
Qed.

(** What a batch of one entry does to a table is what the run of the
    entry does to it. *)
Lemma batch_single now parsed table st st' :
  batch now [parsed] st = (Returned tt, st') ->
  exists r s1,
    executeEntry now parsed st = (r, s1)
    /\ rowsOf table (db st') = rowsOf table (db s1).
Proof.
  unfold batch. cbn [forEach]. rewrite !bind_run. unfold tryCatch.
  destruct (executeEntry now parsed st) as [[[]|e] s1]; cbn [pushError updateResult];
    rewrite ret_run; unfold logBatchSummary; destruct (_ <? _)%nat;
    intros [= <-]; eauto.
Qed.
End Placeholder.
(* ===================================================================== *)
(** * Further properties of the code *)
(* ===================================================================== *)

(** ** The executor: what a run keeps *)

Section Invariants.
Import Sqlite Executor Laws.
Variable I : St -> Prop.

Lemma preserves_ret {A} (a : A) : preserves I (mret a : Exec A).
Proof. by intros st r st' HI [= <- <-]. Qed.

Lemma preserves_bind {A B} (m : Exec A) (k : A -> Exec B) :
  preserves I m -> (forall a, preserves I (k a)) -> preserves I (m ≫= k).
Proof.
  intros Hm Hk st r st' HI. rewrite bind_run.
  destruct (m st) as [[a|e] st1] eqn:Hrun.
  - apply Hk. by eapply Hm.
  - intros [= <- <-]. by eapply Hm.
Qed.

Lemma preserves_forEach {A} (xs : list A) body :
  (forall x, preserves I (body x)) -> preserves I (forEach xs body).
Proof.
  intros Hbody. induction xs as [|x xs IH]; cbn [forEach].
  - apply preserves_ret.
  - apply preserves_bind; [apply Hbody|by intros _].
Qed.

Lemma preserves_tryCatch body handler :
  preserves I body -> (forall e, preserves I (handler e)) ->
  preserves I (tryCatch body handler).
Proof.
  intros Hb Hh st r st' HI. unfold tryCatch.
  destruct (body st) as [[a|e] st1] eqn:Hrun.
  - intros [= <- <-]. by eapply Hb.
  - apply Hh. by eapply Hb.
Qed.

Lemma preserves_transaction fn :
  preserves I fn ->
  (forall st st', I st -> I st' ->
     I (mkSt (db st) (auditLog st') (result st'))) ->
  preserves I (transaction fn).
Proof.
  intros Hfn Hback st r st' HI. unfold transaction.
  destruct (fn st) as [[a|e] st1] eqn:Hrun; intros [= <- <-].
  - by eapply Hfn.
  - apply Hback; [done|by eapply Hfn].
Qed.
End Invariants.

Section Appends.
Import Sqlite Executor Laws.

(** What a statement run does to the state: nothing, or one row more
    in its table; the audit log and the summary are as they were. *)
Lemma run_inv orIgnore table cols args st r st' :
  run orIgnore table cols args st = (r, st') ->
  auditLog st' = auditLog st /\ result st' = result st
  /\ ((db st' = db st
       /\ forall n, r = Returned n -> n = 0%nat /\ orIgnore = true)
      \/ (r = Returned 1%nat
          /\ exists row, db st' = <[table := rowsOf table (db st) ++ [row]]> (db st))).
Proof.
  unfold run, lift, onDb. rewrite bind_run.
  destruct (mapM bindValue args) as [vals|e];
    [|intros [= <- <-]; do 2 (split; [done|]); left; by split].
  destruct (insertInto _ _ _ _ _) as [res db'] eqn:Hins. intros [= <- <-].
  cbn [auditLog result db]. do 2 (split; [done|]).
  apply insertInto_inv in Hins as [[-> Hign]|(t & _ & -> & _ & _ & ->)].
  - left. split; [done|]. intros n Hn. by destruct (Hign n Hn) as (? & ? & _).
  - right. eauto.
Qed.

(** The audit log only grows. *)
Lemma logged_run l orIgnore table cols args :
  preserves (fun st => l `prefix_of` auditLog st) (run orIgnore table cols args).
Proof.
  intros st r st' HI Hrun. apply run_inv in Hrun as (-> & _). done.
Qed.

Lemma logged_existsById l table id :
  preserves (fun st => l `prefix_of` auditLog st) (existsById table id).
Proof.
  intros st r st' HI. unfold existsById, lift, onDb. rewrite bind_run.
  destruct (bindValue id); intros [= <- <-]; done.
Qed.

Lemma logged_log l entry :
  preserves (fun st => l `prefix_of` auditLog st) (logTransaction entry).
Proof. intros st r st' HI [= <- <-]. cbn. by apply prefix_app_r. Qed.

Lemma logged_updateResult l f :
  preserves (fun st => l `prefix_of` auditLog st) (updateResult f).
Proof. by intros st r st' HI [= <- <-]. Qed.

Lemma logged_checked l table id (onFound ins after : Exec unit) :
  preserves (fun st => l `prefix_of` auditLog st) onFound ->
  preserves (fun st => l `prefix_of` auditLog st) ins ->
  preserves (fun st => l `prefix_of` auditLog st) after ->
  preserves (fun st => l `prefix_of` auditLog st)
    (found ← existsById table id;
     if (found : bool) then onFound else ins ;; after).
Proof.
  intros Hf Hi Ha. apply preserves_bind; [apply logged_existsById|].
  intros []; [done|]. apply preserves_bind; [done|by intros _].
Qed.

Lemma logged_executeEntry l now parsed :
  preserves (fun st => l `prefix_of` auditLog st) (executeEntry now parsed).
Proof.
  unfold executeEntry.
  apply preserves_bind; [|intros _].
  { apply preserves_forEach. intros x. apply logged_updateResult. }
  apply preserves_bind; [|intros _].
  { unfold ensureSessionRecord. apply preserves_bind; [apply logged_run|].
    intros n. destruct (0 <? n)%nat; [apply logged_log|apply preserves_ret]. }
  apply preserves_bind; [|intros _].
  { destruct (messageToInsert now parsed); [|apply preserves_ret].
    apply logged_checked; [apply logged_updateResult| |apply logged_updateResult].
    unfold insertMessageRecord.
    apply preserves_bind; [apply logged_run|intros _; apply logged_log]. }
  apply preserves_bind; [|intros _].
  { apply preserves_forEach. intros x.
    apply logged_checked; [apply preserves_ret| |apply logged_updateResult].
    unfold insertToolUseRecord.
    apply preserves_bind; [apply logged_run|intros _; apply logged_log]. }
  apply preserves_bind; [|intros _].
  { apply preserves_forEach. intros x.
    apply logged_checked; [apply preserves_ret| |apply logged_updateResult].
    unfold insertToolResultRecord.
    apply preserves_bind; [apply logged_run|intros _; apply logged_log]. }
  apply preserves_bind; [|intros _].
  { apply preserves_forEach. intros x.
    apply logged_checked; [apply preserves_ret| |apply logged_updateResult].
    unfold insertAttachmentRecord.
    apply preserves_bind; [apply logged_run|intros _; apply preserves_ret]. }
  destruct (Parse.envInfo parsed); [|apply preserves_ret].
  apply logged_checked; [apply preserves_ret| |apply logged_updateResult].
  unfold insertEnvInfoRecord.
  apply preserves_bind; [apply logged_run|intros _; apply preserves_ret].
Qed.

Lemma logged_batch l now parsedEntries :
  preserves (fun st => l `prefix_of` auditLog st) (batch now parsedEntries).
Proof.
  unfold batch. apply preserves_bind; [|intros _].
  - apply preserves_forEach. intros parsed.
    apply preserves_tryCatch; [apply logged_executeEntry|].
    intros e. apply logged_updateResult.
  - intros st r st' HI. unfold logBatchSummary. destruct (_ <? _)%nat.
    + by apply logged_log.
    + by intros [= <- <-].
Qed.
End Appends.

(** The executor returns a summary whatever the entries and the store,
    and it only adds: in every table the rows that were there are still
    there, in their order and unchanged, followed by the new ones, and so
    are the lines of the audit log. *)
Theorem executeParsedEntries_returns_and_only_appends now parsedEntries w :
  exists r w',
    Executor.executeParsedEntries now parsedEntries w = (Returned r, w')
    /\ extends w.1 w'.1
    /\ w.2 `prefix_of` w'.2.
Proof.
  destruct (batch_returns now parsedEntries
              (Executor.mkSt w.1 w.2 Executor.emptyResult)) as [st' Hbatch].
  exists (Executor.result st'), (Executor.db st', Executor.auditLog st').
  split; [by apply executeParsedEntries_batch|]. split.
  - apply (growing_batch _ _ _ _ _ Hbatch).
  - refine (logged_batch w.2 _ _ _ _ _ _ Hbatch). done.
Qed.

Section Accounting.
Import Sqlite Executor Laws.
Variable base : string -> nat.

Lemma accounted_same st st' :
  db st' = db st ->
  Forall (fun tc : string * (ExecuteResult -> nat) =>
            tc.2 (result st') = tc.2 (result st)) counters ->
  accounted base st -> accounted base st'.
Proof.
  intros Hdb Hres Hacc. unfold accounted in *. rewrite Hdb.
  pose proof (proj2 (Forall_and _ _) (conj Hres Hacc)) as Hboth.
  eapply Forall_impl; [exact Hboth|]. intros tc [-> H]. done.
Qed.

Lemma accounted_inserted st st' table row :
  db st' = <[table := rowsOf table (db st) ++ [row]]> (db st) ->
  Forall (fun tc : string * (ExecuteResult -> nat) =>
            tc.2 (result st')
            = (tc.2 (result st) + if String.eqb tc.1 table then 1 else 0)%nat)
    counters ->
  accounted base st -> accounted base st'.
Proof.
  intros Hdb Hres Hacc. unfold accounted in *. rewrite Hdb.
  pose proof (proj2 (Forall_and _ _) (conj Hres Hacc)) as Hboth.
  eapply Forall_impl; [exact Hboth|]. intros tc [-> H]. cbn beta. destruct (String.eqb_spec tc.1 table) as [Heq|Hne].
  - rewrite Heq in *. rewrite rowsOf_insert, length_app. cbn. lia.
  - rewrite rowsOf_insert_ne by done. lia.
Qed.
Lemma existsById_state table id st r st' :
  existsById table id st = (r, st') -> st' = st.
Proof.
  unfold existsById, lift, onDb. rewrite bind_run.
  destruct (bindValue id); intros [= <- <-]; [by rewrite st_eta|done].
Qed.

Ltac counters_by_computation :=
  repeat constructor; cbn; lia.

Lemma accounted_quiet (m : Exec unit) :
  (forall st r st', m st = (r, st') ->
     db st' = db st
     /\ Forall (fun tc : string * (ExecuteResult -> nat) =>
                  tc.2 (result st') = tc.2 (result st)) counters) ->
  preserves (accounted base) m.
Proof.
  intros Hm st r st' Hacc Hrun. destruct (Hm _ _ _ Hrun) as [Hdb Hres].
  by apply (accounted_same st).
Qed.

Lemma accounted_updateResult f :
  (forall r, Forall (fun tc : string * (ExecuteResult -> nat) =>
                       tc.2 (f r) = tc.2 r) counters) ->
  preserves (accounted base) (updateResult f).
Proof.
  intros Hf. apply accounted_quiet. intros st r st' [= <- <-]. split; [done|].
  apply Hf.
Qed.

Lemma accounted_pushError e : preserves (accounted base) (pushError e).
Proof. apply accounted_updateResult. intros []. counters_by_computation. Qed.

Lemma accounted_updated : preserves (accounted base) (bump "messagesUpdated").
Proof. apply accounted_updateResult. intros []. counters_by_computation. Qed.

Lemma accounted_ensureSessionRecord session :
  preserves (accounted base) (ensureSessionRecord session).
Proof.
  unfold ensureSessionRecord. apply preserves_bind.
  - intros st r st' Hacc Hrun.
    apply run_inv in Hrun as (_ & Hres & [[Hdb _]|(_ & row & Hdb)]).
    + apply (accounted_same st); [done| |done]. rewrite Hres.
      counters_by_computation.
    + apply (accounted_inserted st st' _ row Hdb); [|done]. rewrite Hres.
      counters_by_computation.
  - intros n. destruct (0 <? n)%nat; [|apply preserves_ret].
    apply accounted_quiet. intros st r st' [= <- <-]. split; [done|].
    counters_by_computation.
Qed.

(** A presence check and, for a record not found, its insert and the
    count of it: one row more, counted once, or nothing. *)
Lemma accounted_checked table' id table cols args (onFound logged : Exec unit)
    counter :
  preserves (accounted base) onFound ->
  (forall st r st', logged st = (r, st') ->
     r = Returned tt /\ db st' = db st /\ result st' = result st) ->
  (forall st, Forall (fun tc : string * (ExecuteResult -> nat) =>
                        tc.2 (result (bump counter st).2)
                        = (tc.2 (result st)
                           + if String.eqb tc.1 table then 1 else 0)%nat)
                counters) ->
  preserves (accounted base)
    (found ← existsById table' id;
     if (found : bool) then onFound
     else (run false table cols args ;; logged) ;; bump counter).
Proof.
  intros Hfound Hlogged Hcount st r st' Hacc. rewrite bind_run.
  destruct (existsById table' id st) as [[found|e] s1] eqn:Hex;
    apply existsById_state in Hex as ->; [|by intros [= <- <-]].
  destruct found; [by apply Hfound|]. rewrite !bind_run.
  destruct (run false table cols args st) as [[n|e] s2] eqn:Hrun;
    apply run_inv in Hrun as (_ & Hres & [[Hdb Hign]|(Hn & row & Hdb)]);
    try discriminate.
  - by destruct (Hign n eq_refl) as [_ [=]].
  - destruct (logged s2) as [o s3] eqn:Hlog.
    destruct (Hlogged _ _ _ Hlog) as (-> & Hdb3 & Hres3).
    intros [= <- <-].
    apply (accounted_inserted st _ table row); [by rewrite <- Hdb, <- Hdb3| |done].
    specialize (Hcount s3). by rewrite Hres3, Hres in Hcount.
  - intros [= <- <-]. apply (accounted_same st); [done| |done]. rewrite Hres.
    counters_by_computation.
Qed.

Lemma quiet_log entry st r st' :
  logTransaction entry st = (r, st') ->
  r = Returned tt /\ db st' = db st /\ result st' = result st.
Proof. by intros [= <- <-]. Qed.

Lemma quiet_ret st r st' :
  (mret tt : Exec unit) st = (r, st') ->
  r = Returned tt /\ db st' = db st /\ result st' = result st.
Proof. by intros [= <- <-]. Qed.

Lemma accounted_executeEntry now parsed :
  preserves (accounted base) (executeEntry now parsed).
Proof.
  unfold executeEntry.
  apply preserves_bind; [|intros _].
  { apply preserves_forEach. intros x. apply accounted_pushError. }
  apply preserves_bind; [apply accounted_ensureSessionRecord|intros _].
  apply preserves_bind; [|intros _].
  { destruct (messageToInsert now parsed); [|apply preserves_ret].
    apply accounted_checked; [apply accounted_updated|apply quiet_log|].
    intros [d l []]. counters_by_computation. }
  apply preserves_bind; [|intros _].
  { apply preserves_forEach. intros x.
    apply accounted_checked; [apply preserves_ret|apply quiet_log|].
    intros [d l []]. counters_by_computation. }
  apply preserves_bind; [|intros _].
  { apply preserves_forEach. intros x.
    apply accounted_checked; [apply preserves_ret|apply quiet_log|].
    intros [d l []]. counters_by_computation. }
  apply preserves_bind; [|intros _].
  { apply preserves_forEach. intros x.
    apply accounted_checked; [apply preserves_ret|apply quiet_ret|].
    intros [d l []]. counters_by_computation. }
  destruct (Parse.envInfo parsed); [|apply preserves_ret].
  apply accounted_checked; [apply preserves_ret|apply quiet_ret|].
  intros [d l []]. counters_by_computation.
Qed.

Lemma accounted_batch now parsedEntries :
  preserves (accounted base) (batch now parsedEntries).
Proof.
  unfold batch. apply preserves_bind; [|intros _].
  - apply preserves_forEach. intros parsed.
    apply preserves_tryCatch; [apply accounted_executeEntry|].
    intros e. apply accounted_pushError.
  - intros st r st' Hacc. unfold logBatchSummary. destruct (_ <? _)%nat.
    + intros [= <- <-]. apply (accounted_same st); [done| |done].
      counters_by_computation.
    + by intros [= <- <-].
Qed.
End Accounting.

(** The summary counts exactly the rows written: after any run, each of
    the five record tables holds as many rows more as the summary reports
    inserts for it, whatever failed on the way. *)
Theorem summary_counts_the_rows_written now parsedEntries w :
  exists r w',
    Executor.executeParsedEntries now parsedEntries w = (Returned r, w')
    /\ Forall (fun tc : string * (Executor.ExecuteResult -> nat) =>
                 length (Sqlite.rowsOf tc.1 w'.1)
                 = (length (Sqlite.rowsOf tc.1 w.1) + tc.2 r)%nat)
         [("messages", Executor.messagesInserted);
          ("tool_uses", Executor.toolUsesInserted);
          ("tool_use_results", Executor.toolResultsInserted);
          ("attachments", Executor.attachmentsInserted);
          ("env_info", Executor.envInfoInserted)]%string.
Proof.
  destruct (batch_returns now parsedEntries
              (Executor.mkSt w.1 w.2 Executor.emptyResult)) as [st' Hbatch].
  exists (Executor.result st'), (Executor.db st', Executor.auditLog st').
  split; [by apply executeParsedEntries_batch|].
  assert (Hstart : Laws.accounted (fun table => length (Sqlite.rowsOf table w.1))
                     (Executor.mkSt w.1 w.2 Executor.emptyResult)).
  { unfold Laws.accounted. repeat constructor; cbn; lia. }
  exact (accounted_batch _ now parsedEntries _ _ _ Hstart Hbatch).
Qed.

(** An INSERT OR IGNORE of a session with its [sessionId] and its
    [sessionPath] is ignored only when a row has its [id] or its
    [sessionId]. *)
Lemma sessionKnown_inStore session db :
  sessionKnown session db -> Props2.sessionNamed session ->
  Props2.sessionInStore session db.
Proof.
  intros (vals & t & Hvals & Ht & Hconf) [Hid Hpath].
  apply mapM_Returned_inv in Hvals.
  repeat match goal with H : Forall2 _ _ _ |- _ => inversion H; clear H; subst end.
  match goal with
  | H1 : Sqlite.bindValue (SessionRecord.id session) = Returned ?a,
    H2 : Sqlite.bindValue (SessionRecord.sessionId session) = Returned ?b,
    H3 : Sqlite.bindValue (SessionRecord.sessionPath session) = Returned ?c |- _ =>
      rename H1 into Ha, H2 into Hb, H3 into Hc;
      pose proof (Hid b Hb) as Hb'; pose proof (Hpath c Hc) as Hc'
  end.
  assert (Haff : forall v, v <> Sqlite.SNull ->
                   Sqlite.applyAffinity Sqlite.TEXT v <> Sqlite.SNull).
  { by intros []. }
  pose proof Ht as Ht'. vm_compute in Ht. injection Ht as <-.
  unfold Sqlite.conflict in Hconf.
  match type of Hconf with
  | is_Some (match find ?f ?l with _ => _ end) =>
      assert (Hnone : find f l = None)
  end.
  { cbn [Sqlite.columns find Sqlite.notnull Sqlite.text Sqlite.textNotNull
           Sqlite.created Sqlite.cname andb].
    match goal with |- context [Sqlite.field ?t "sessionId" ?r] =>
      change (Sqlite.field t "sessionId" r) with (Sqlite.applyAffinity Sqlite.TEXT y0)
    end.
    match goal with |- context [Sqlite.field ?t "sessionPath" ?r] =>
      change (Sqlite.field t "sessionPath" r) with (Sqlite.applyAffinity Sqlite.TEXT y1)
    end.
    rewrite !bool_decide_eq_false_2 by by apply Haff. done. }
  rewrite Hnone in Hconf. clear Hnone.
  cbn [Sqlite.primaryKey Sqlite.uniques find] in Hconf.
  match type of Hconf with
  | context [Sqlite.field ?t "id" ?r] =>
      change (Sqlite.field t "id" r) with (Sqlite.applyAffinity Sqlite.TEXT y) in Hconf
  end.
  match type of Hconf with
  | context [Sqlite.field ?t "sessionId" ?r] =>
      change (Sqlite.field t "sessionId" r)
        with (Sqlite.applyAffinity Sqlite.TEXT y0) in Hconf
  end.
  assert (Hkey : forall t name v,
            Sqlite.hasKey t name (Sqlite.applyAffinity Sqlite.TEXT v) db = true ->
            v <> Sqlite.SNull
            /\ exists row, row ∈ Sqlite.rowsOf (Sqlite.tname t) db
                 /\ Sqlite.field t name row = Sqlite.applyAffinity Sqlite.TEXT v).
  { intros t name v Hk. split; [by intros ->|].
    unfold Sqlite.hasKey in Hk.
    destruct (Sqlite.applyAffinity Sqlite.TEXT v); [done|..];
      apply existsb_exists in Hk as (row & Hin & Hrow);
      apply bool_decide_eq_true in Hrow; exists row;
      (split; [by apply list_elem_of_In|done]). }
  destruct (Sqlite.hasKey _ "id" _ db) eqn:Hpk.
  - apply Hkey in Hpk as (Hne & row & Hin & Hrow).
    eexists _, row, y. split; [exact Ht'|]. split; [exact Hin|].
    split; [exact Hne|]. right. by split.
  - destruct (Sqlite.hasKey _ "sessionId" _ db) eqn:Hun.
    + apply Hkey in Hun as (Hne & row & Hin & Hrow).
      eexists _, row, y0. split; [exact Ht'|]. split; [exact Hin|].
      split; [exact Hne|]. left. by split.
    + by destruct Hconf.
Qed.

(** A run that reports no error has written what it was given: every
    record of every entry (with its primary key) is found afterwards by
    the presence check of its table, and the session of the entry, when
    its record names it, is in the store: a row of [sessions] has its
    [sessionId] or its [id]. *)
Theorem run_without_errors_stores_every_record now parsedEntries w r w' :
  Executor.executeParsedEntries now parsedEntries w = (Returned r, w') ->
  Executor.errors r = [] ->
  Forall keyed parsedEntries ->
  Forall (fun parsed =>
            entryStored parsed w'.1
            /\ (Props2.sessionNamed (Parse.session parsed) ->
                Props2.sessionInStore (Parse.session parsed) w'.1))
    parsedEntries.
Proof.
  intros Hrun Herr Hkeyed.
  pose proof (executeParsedEntries_stores now parsedEntries w r w' Hrun Herr Hkeyed)
    as Hstored.
  eapply Forall_impl; [exact Hstored|].
  intros parsed Hp. split; [done|].
  destruct Hp as (_ & Hknown & _). by apply sessionKnown_inStore.
Qed.

(** The tool-use line and its result line, run on the empty store: every
    record is stored, and the session [s1] is there. *)
Lemma tool_use_and_result_are_stored :
  Forall (fun parsed =>
            entryStored parsed (Scenario.firstRun Scenario.inOrderBatch).2.1
            /\ Props2.sessionInStore (Parse.session parsed)
                 (Scenario.firstRun Scenario.inOrderBatch).2.1)
    Scenario.inOrderBatch.
Proof.
  assert (Hnamed : Forall (fun parsed => Props2.sessionNamed (Parse.session parsed))
                     Scenario.inOrderBatch).
  { let b := eval vm_compute in Scenario.inOrderBatch in
    change Scenario.inOrderBatch with b.
    repeat constructor; intros v Hv; vm_compute in Hv; by injection Hv as <-. }
  assert (Hstored :
    Forall (fun parsed =>
              entryStored parsed (Scenario.firstRun Scenario.inOrderBatch).2.1
              /\ (Props2.sessionNamed (Parse.session parsed) ->
                  Props2.sessionInStore (Parse.session parsed)
                    (Scenario.firstRun Scenario.inOrderBatch).2.1))
      Scenario.inOrderBatch).
  { apply (run_without_errors_stores_every_record (js "T0") Scenario.inOrderBatch
             Scenario.emptyWorld
             (Scenario.summaryOf (Scenario.firstRun Scenario.inOrderBatch))).
    - vm_compute. reflexivity.
    - vm_compute. reflexivity.
    - let b := eval vm_compute in Scenario.inOrderBatch in
      change Scenario.inOrderBatch with b.
      keyed_records. }
  pose proof (proj2 (Forall_and _ _) (conj Hstored Hnamed)) as Hboth.
  eapply Forall_impl; [exact Hboth|].
  intros parsed [[Hentry Hsession] Hn]. split; [exact Hentry|exact (Hsession Hn)].
Defined.

(** ** The transform pipeline: what the parser returns *)

Section Parser.
Import Props2.
Variable uuidv4 : nat -> jsstring.

Lemma bind_Returned_inv {A B} (m : outcome A) (k : A -> outcome B) b :
  m ≫= k = Returned b -> exists a, m = Returned a /\ k a = Returned b.
Proof. destruct m as [a|e]; [eauto|done]. Qed.

(** What a [try] block of the parser that returns has gone through. *)
Lemma parseBody_inv now entry sessionPath n parsed n' :
  Parse.parseBody uuidv4 now entry sessionPath n = (Returned parsed, n') ->
  exists classified uses results texts env,
    MessageClassifier.classifyMessage now entry = Returned classified
    /\ ToolExtractor.extractToolUses entry = Returned uses
    /\ ToolExtractor.extractToolResults uuidv4 entry n = (Returned results, n')
    /\ MessageClassifier.extractMessageText entry
         (MessageClassifier.type classified) = Returned texts
    /\ SchemaMapper.extractEnvInfo classified = Returned env
    /\ Parse.session parsed = SchemaMapper.createSessionRecord classified sessionPath
    /\ Parse.toolUses parsed = map SchemaMapper.mapToToolUseRecord uses.1
    /\ Parse.toolResults parsed = map SchemaMapper.mapToToolResultRecord results.1
    /\ Parse.attachments parsed = []
    /\ Parse.envInfo parsed = env
    /\ Parse.shouldSkipMessage parsed
       = negb (MessageClassifier.shouldStoreAsMessage classified)
    /\ (if Parse.shouldSkipMessage parsed then Parse.message parsed = None
        else exists m,
               SchemaMapper.mapToMessageRecord classified texts.1 texts.2
               = Returned m
               /\ Parse.message parsed = Some m).
Proof.
  unfold Parse.parseBody.
  destruct (MessageClassifier.classifyMessage now entry) as [classified|e];
    [|done].
  rewrite bind_Returned.
  destruct (ToolExtractor.extractToolUses entry) as [uses|e]; [|done].
  rewrite bind_Returned. cbn [mret outcome_ret].
  destruct (ToolExtractor.extractToolResults uuidv4 entry n) as [[results|e] m];
    [|done].
  destruct (MessageClassifier.extractMessageText _ _) as [texts|e] eqn:Htexts;
    [|done].
  rewrite bind_Returned.
  destruct (negb (MessageClassifier.shouldStoreAsMessage classified)) eqn:Hskip.
  - rewrite bind_Returned.
    destruct (SchemaMapper.extractEnvInfo classified) as [env|e] eqn:Henv; [|done].
    rewrite bind_Returned. intros [= <- <-].
    exists classified, uses, results, texts, env. cbn. rewrite Hskip.
    by repeat split.
  - destruct (SchemaMapper.mapToMessageRecord _ _ _) as [msg|e] eqn:Hmsg; [|done].
    rewrite !bind_Returned.
    destruct (SchemaMapper.extractEnvInfo classified) as [env|e] eqn:Henv; [|done].
    rewrite bind_Returned. intros [= <- <-].
    exists classified, uses, results, texts, env. cbn. rewrite Hskip.
    repeat split; try done. by exists msg.
Qed.

(** What the parser returns is the result of its [try] block or the
    entry of its [catch] clause. *)
Lemma parseAndTransform_inv now entry sessionPath n parsed n' :
  Parse.parseAndTransform uuidv4 now entry sessionPath n = (Returned parsed, n') ->
  Parse.parseBody uuidv4 now entry sessionPath n = (Returned parsed, n')
  \/ exists error id,
       Parse.parseBody uuidv4 now entry sessionPath n = (Thrown error, n')
       /\ parsed = Parse.mkParsed (SessionRecord.mk id id (Some (JStr sessionPath)))
                     None [] [] [] None true
                     [js "Parse error: " ++ JS.message error].
Proof.
  unfold Parse.parseAndTransform.
  destruct (Parse.parseBody uuidv4 now entry sessionPath n) as [[p|e] m].
  - intros [= <- <-]. by left.
  - destruct (getProp "sessionId" (Some entry)) as [sid|e']; [|done].
    rewrite bind_Returned. intros [= <- <-]. right. eauto.
Qed.
Lemma classifyMessage_inv now entry classified :
  MessageClassifier.classifyMessage now entry = Returned classified ->
  entry <> JNull
  /\ MessageClassifier.originalMessage classified = entry
  /\ MessageClassifier.messageId classified
     = orElse (getPropOpt "uuid" (Some entry)) (str "")
  /\ MessageClassifier.sessionId classified
     = orElse (getPropOpt "sessionId" (Some entry)) (str "")
  /\ str (SchemaMapper.mapMessageType (MessageClassifier.type classified))
     = storedType entry
  /\ ToolExtractor.containsTools entry
     = Returned (MessageClassifier.isToolMessage classified)
  /\ MessageClassifier.hasNonToolTextContent entry
     = Returned (MessageClassifier.hasTextContent classified).
Proof.
  intros Hclass.
  assert (Hentry : entry <> JNull) by (by intros ->).
  split; [done|]. revert Hclass. unfold MessageClassifier.classifyMessage.
  rewrite !(getProp_present _ entry Hentry).
  cbn [mbind outcome_bind mret outcome_ret].
  destruct (ToolExtractor.containsTools entry) as [b|e]; [|done].
  destruct (MessageClassifier.hasNonToolTextContent entry) as [b'|e]; [|done].
  intros [= <-]. cbn. repeat split. unfold storedType.
  destruct (isStr _ "user"); [by destruct b|].
  destruct (isStr _ "assistant"); [by destruct b|].
  destruct (isStr _ "system"); [done|].
  by destruct (isStr _ "summary").
Qed.
Lemma parseAndTransform_present now entry sessionPath n :
  entry <> JNull ->
  exists parsed n',
    Parse.parseAndTransform uuidv4 now entry sessionPath n = (Returned parsed, n').
Proof.
  intros Hentry. unfold Parse.parseAndTransform.
  destruct (Parse.parseBody uuidv4 now entry sessionPath n) as [[p|e] m];
    [eauto|].
  rewrite (getProp_present _ entry Hentry), bind_Returned. eauto.
Qed.

Lemma parseAndTransform_null now sessionPath n :
  exists e, Parse.parseAndTransform uuidv4 now JNull sessionPath n = (Thrown e, n).
Proof. eexists. reflexivity. Qed.

Lemma parseAndTransform_skip now entry sessionPath n parsed n' :
  Parse.parseAndTransform uuidv4 now entry sessionPath n = (Returned parsed, n') ->
  Parse.message parsed = None <-> Parse.shouldSkipMessage parsed = true.
Proof.
  intros H. apply parseAndTransform_inv in H as [H|(e & id & _ & ->)]; [|done].
  apply parseBody_inv in H
    as (c & u & r & t & env & _ & _ & _ & _ & _ & _ & _ & _ & _ & _ & _ & Hm).
  destruct (Parse.shouldSkipMessage parsed); [done|].
  destruct Hm as (m & _ & ->). done.
Qed.

Lemma parseMultipleEntries_inv now entries sessionPath n ps n' :
  Parse.parseMultipleEntries uuidv4 now entries sessionPath n = (Returned ps, n') ->
  Forall2 (fun entry parsed =>
             exists k k',
               Parse.parseAndTransform uuidv4 now entry sessionPath k
               = (Returned parsed, k'))
    entries ps.
Proof.
  revert n ps. induction entries as [|entry rest IH]; intros n ps;
    cbn [Parse.parseMultipleEntries].
  - intros [= <- <-]. constructor.
  - destruct (Parse.parseAndTransform uuidv4 now entry sessionPath n)
      as [[p|e] m] eqn:Hp; [|done].
    destruct (Parse.parseMultipleEntries uuidv4 now rest sessionPath m)
      as [[ps'|e] m'] eqn:Hrest; [|done].
    intros [= <- <-]. constructor; [eauto|by eapply IH].
Qed.
End Parser.

(** The parser returns an entry for everything but [null]: whatever goes
    wrong inside its [try] block is turned into an entry that carries the
    error, and only for the entry [null] does the [catch] clause throw in
    its turn.  A batch is parsed, entry for entry, exactly when it holds
    no [null]. *)
Theorem parser_returns_unless_null (uuidv4 : nat -> jsstring) now sessionPath
    entries n :
  (exists parsedEntries n',
     Parse.parseMultipleEntries uuidv4 now entries sessionPath n
     = (Returned parsedEntries, n')
     /\ length parsedEntries = length entries)
  <-> Forall (fun entry => entry <> JNull) entries.
Proof.
  split.
  - intros (ps & n' & Hps & _). apply parseMultipleEntries_inv in Hps.
    induction Hps as [|entry parsed l l' (k & k' & Hp) _ IH]; constructor; [|done].
    intros ->.
    destruct (parseAndTransform_null uuidv4 now sessionPath k) as [e He].
    congruence.
  - intros Hall. revert n.
    induction Hall as [|entry rest Hentry _ IH]; intros n;
      cbn [Parse.parseMultipleEntries]; [by exists [], n|].
    destruct (parseAndTransform_present uuidv4 now entry sessionPath n Hentry)
      as (p & m & ->).
    destruct (IH m) as (ps & n' & -> & Hlen). exists (p :: ps), n'.
    split; [done|]. cbn. by rewrite Hlen.
Qed.

(** In the statistics of a parsed batch every entry is counted once, as
    one with a message or as one skipped. *)
Theorem parsing_stats_messages_and_skipped_add_up (uuidv4 : nat -> jsstring)
    now sessionPath entries n :
  forall parsedEntries n',
    Parse.parseMultipleEntries uuidv4 now entries sessionPath n
    = (Returned parsedEntries, n') ->
    let stats := ParsingStats.getParsingStats parsedEntries in
    ParsingStats.total stats = length entries
    /\ (ParsingStats.messages stats + ParsingStats.skipped stats)%nat
       = ParsingStats.total stats.
Proof.
  intros ps n' Hps. apply parseMultipleEntries_inv in Hps. cbn.
  induction Hps as [|entry parsed l l' (k & k' & Hp) _ [IH1 IH2]]; [done|].
  split; [cbn; by rewrite IH1|].
  apply parseAndTransform_skip in Hp. cbn [length].
  destruct (Parse.message parsed) as [m|] eqn:Hm.
  - rewrite filter_cons_True by (rewrite Hm; eauto).
    rewrite filter_cons_False; [cbn; lia|].
    intros Hskip. apply Hp in Hskip. done.
  - rewrite filter_cons_False by (rewrite Hm; by intros [? ?]).
    rewrite filter_cons_True by (by apply Hp). cbn. lia.
Qed.

Lemma parsing_stats_of_two_lines :
  ParsingStats.total (ParsingStats.getParsingStats Scenario.inOrderBatch) = 2%nat
  /\ (ParsingStats.messages (ParsingStats.getParsingStats Scenario.inOrderBatch)
      + ParsingStats.skipped (ParsingStats.getParsingStats Scenario.inOrderBatch))%nat
     = ParsingStats.total (ParsingStats.getParsingStats Scenario.inOrderBatch).
Proof.
  apply (parsing_stats_messages_and_skipped_add_up Scenario.sequentialIds
           (js "T0") (js "/p") [Scenario.toolUseLine; Scenario.toolResultLine] 0
           Scenario.inOrderBatch 1).
  vm_compute. reflexivity.
Defined.

(** The message the parser makes for an entry has the outward type of
    the entry when that is user, assistant, system or summary, and the
    type unknown otherwise, whether the entry carries tools or not; its
    id and session are those of the entry, and its text is on the side of
    its type only. *)
Theorem stored_message_has_the_outward_type (uuidv4 : nat -> jsstring) now entry
    sessionPath n parsed n' m :
  Parse.parseAndTransform uuidv4 now entry sessionPath n = (Returned parsed, n') ->
  Parse.message parsed = Some m ->
  MessageRecord.type m = Props2.storedType entry
  /\ MessageRecord.id m = orElse (getPropOpt "uuid" (Some entry)) (str "")
  /\ MessageRecord.sessionId m
     = orElse (getPropOpt "sessionId" (Some entry)) (str "")
  /\ (MessageRecord.userText m = null \/ MessageRecord.assistantText m = null).
Proof.
  intros Hparse Hm.
  apply parseAndTransform_inv in Hparse as [H|(e & id & _ & ->)]; [|done].
  apply parseBody_inv in H
    as (c & u & r & t & env & Hc & _ & _ & Ht & _ & _ & _ & _ & _ & _ & _ & Hmsg).
  destruct (Parse.shouldSkipMessage parsed); [congruence|].
  destruct Hmsg as (m' & Hmap & Hm'). rewrite Hm in Hm'. injection Hm' as <-.
  apply classifyMessage_inv in Hc as (Hentry & Horig & Hid & Hsid & Hty & _).
  unfold SchemaMapper.mapToMessageRecord in Hmap. rewrite Horig in Hmap.
  rewrite !(getProp_present _ entry Hentry) in Hmap.
  cbn [mbind outcome_bind mret outcome_ret] in Hmap. injection Hmap as <-.
  cbn [MessageRecord.type MessageRecord.id MessageRecord.sessionId
       MessageRecord.userText MessageRecord.assistantText].
  repeat split; try done.
  unfold MessageClassifier.extractMessageText in Ht.
  destruct (MessageClassifier.getTextContent entry) as [text|e']; [|done].
  rewrite bind_Returned in Ht.
  destruct (_ || _); [injection Ht as <-; by right|].
  destruct (_ || _); injection Ht as <-; by left.
Qed.

Lemma assistant_line_is_stored_as_assistant :
  MessageRecord.type (Scenario2.messageOf Scenario.toolUseLine)
  = Props2.storedType Scenario.toolUseLine
  /\ MessageRecord.id (Scenario2.messageOf Scenario.toolUseLine)
     = orElse (getPropOpt "uuid" (Some Scenario.toolUseLine)) (str "")
  /\ MessageRecord.sessionId (Scenario2.messageOf Scenario.toolUseLine)
     = orElse (getPropOpt "sessionId" (Some Scenario.toolUseLine)) (str "")
  /\ (MessageRecord.userText (Scenario2.messageOf Scenario.toolUseLine) = null
      \/ MessageRecord.assistantText (Scenario2.messageOf Scenario.toolUseLine)
         = null).
Proof.
  apply (stored_message_has_the_outward_type Scenario.sequentialIds (js "T0")
           Scenario.toolUseLine (js "/p") 0
           (Scenario2.parsedLine Scenario.toolUseLine) 0).
  - vm_compute. reflexivity.
  - vm_compute. reflexivity.
Defined.

(** What the parser never fills: it makes no attachment record, the tool
    results it returns have no MIME type and no error kind, and the
    message it returns has no project name, active file, attachments or
    tool-result reference. *)
Theorem parser_leaves_these_fields_empty (uuidv4 : nat -> jsstring) now entry
    sessionPath n :
  forall parsed n',
    Parse.parseAndTransform uuidv4 now entry sessionPath n = (Returned parsed, n') ->
    Parse.attachments parsed = []
    /\ Forall (fun r => ToolResult.outputMimeType r = null
                        /\ ToolResult.errorType r = null)
         (Parse.toolResults parsed)
    /\ forall m, Parse.message parsed = Some m ->
         MessageRecord.projectName m = null
         /\ MessageRecord.activeFile m = null
         /\ MessageRecord.userAttachments m = null
         /\ MessageRecord.toolUseResultId m = null
         /\ MessageRecord.toolUseResultName m = null.
Proof.
  intros parsed n' Hparse.
  apply parseAndTransform_inv in Hparse as [H|(e & id & _ & ->)];
    [|by repeat split].
  apply parseBody_inv in H
    as (c & u & r & t & env & Hc & _ & _ & _ & _ & _ & _ & Hres & Hatt & _ & _
        & Hmsg).
  split; [done|]. split.
  - rewrite Hres. apply Forall_map, Forall_true. done.
  - intros m Hm. destruct (Parse.shouldSkipMessage parsed); [congruence|].
    destruct Hmsg as (m' & Hmap & Hm'). rewrite Hm in Hm'. injection Hm' as <-.
    apply classifyMessage_inv in Hc as (Hentry & Horig & _).
    unfold SchemaMapper.mapToMessageRecord in Hmap. rewrite Horig in Hmap.
    rewrite !(getProp_present _ entry Hentry) in Hmap.
    cbn [mbind outcome_bind mret outcome_ret] in Hmap. by injection Hmap as <-.
Qed.

Lemma failed_result_line_keeps_no_error_kind :
  Parse.attachments (Scenario2.parsedLine Scenario.failedResultLine) = []
  /\ Forall (fun r => ToolResult.outputMimeType r = null
                      /\ ToolResult.errorType r = null)
       (Parse.toolResults (Scenario2.parsedLine Scenario.failedResultLine))
  /\ forall m, Parse.message (Scenario2.parsedLine Scenario.failedResultLine)
               = Some m ->
       MessageRecord.projectName m = null
       /\ MessageRecord.activeFile m = null
       /\ MessageRecord.userAttachments m = null
       /\ MessageRecord.toolUseResultId m = null
       /\ MessageRecord.toolUseResultName m = null.
Proof.
  apply (parser_leaves_these_fields_empty Scenario.sequentialIds (js "T0")
           Scenario.failedResultLine (js "/p") 0
           (Scenario2.parsedLine Scenario.failedResultLine) 1).
  vm_compute. reflexivity.
Defined.

(** ** Tool extraction: ids of results, kept content *)

(** Extracting the results of the same entry a second time gives records
    alike in every field but the id, and none of the new ids is one of
    the first: the id of a result is drawn anew each time, so the
    presence check by id cannot recognise a result seen before. *)
Theorem reextraction_draws_new_ids (uuidv4 : nat -> jsstring) entry items n :
  ToolExtractor.messageContent entry = Returned (Some (JArr items)) ->
  Forall (fun item => item <> JNull) items ->
  Forall partsPresent items ->
  let k := length (filter isToolResultItem items) in
  (forall i j, (n <= i < j)%nat -> (j < n + 2 * k)%nat -> uuidv4 i <> uuidv4 j) ->
  exists first cleaned again cleaned',
    ToolExtractor.extractToolResults uuidv4 entry n
    = (Returned (first, cleaned), (n + k)%nat)
    /\ ToolExtractor.extractToolResults uuidv4 entry (n + k)
       = (Returned (again, cleaned'), (n + k + k)%nat)
    /\ Forall2 Props2.sameButId first again
    /\ forall r r', r ∈ first -> r' ∈ again -> ToolResult.id r <> ToolResult.id r'.
Proof.
  intros Hc Hitems Hparts k Hfresh.
  destruct (extractToolResults_returns uuidv4 entry items n Hc Hitems Hparts)
    as [cleaned Hfirst].
  destruct (extractToolResults_returns uuidv4 entry items (n + k) Hc Hitems Hparts)
    as [cleaned' Hagain].
  eexists _, _, _, _. split; [exact Hfirst|]. split; [exact Hagain|].
  fold k. split.
  - apply Forall2_same_length_lookup_2; [by rewrite !length_imap|].
    intros i x y [a [Ha ->]]%list_lookup_imap_Some
      [b [Hb ->]]%list_lookup_imap_Some.
    rewrite Ha in Hb. injection Hb as <-.
    apply lookup_lt_Some in Ha. fold k in Ha.
    repeat split. cbn. intros [= Heq]. revert Heq. apply Hfresh; lia.
  - intros r r' (i & a & -> & Ha)%elem_of_lookup_imap_1
      (j & b & -> & Hb)%elem_of_lookup_imap_1.
    apply lookup_lt_Some in Ha, Hb. fold k in Ha, Hb.
    cbn. intros [= Heq]. revert Heq. apply Hfresh; lia.
Qed.

Lemma reextraction_of_result_line_draws_new_id :
  exists first cleaned again cleaned',
    ToolExtractor.extractToolResults Scenario.sequentialIds
      Scenario.toolResultLine 0
    = (Returned (first, cleaned), (0 + 1)%nat)
    /\ ToolExtractor.extractToolResults Scenario.sequentialIds
         Scenario.toolResultLine (0 + 1)
       = (Returned (again, cleaned'), (0 + 1 + 1)%nat)
    /\ Forall2 Props2.sameButId first again
    /\ forall r r', r ∈ first -> r' ∈ again -> ToolResult.id r <> ToolResult.id r'.
Proof.
  apply (reextraction_draws_new_ids Scenario.sequentialIds Scenario.toolResultLine
           (Scenario.contentOf Scenario.toolResultLine) 0).
  - reflexivity.
  - repeat constructor; discriminate.
  - repeat constructor; intros parts H; vm_compute in H; discriminate.
  - intros i j Hij Hj. vm_compute in Hj.
    assert (i = 0%nat) as -> by lia. assert (j = 1%nat) as -> by lia.
    vm_compute. discriminate.
Defined.

Section Kept.
Variable uuidv4 : nat -> jsstring.

Lemma someM_existsb {A} (f : A -> outcome bool) (g : A -> bool) xs :
  Forall (fun x => f x = Returned (g x)) xs ->
  ToolExtractor.someM f xs = Returned (existsb g xs).
Proof.
  induction 1 as [|x l Hx _ IH]; [done|].
  cbn [ToolExtractor.someM existsb]. rewrite Hx, bind_Returned.
  by destruct (g x).
Qed.

Lemma filter_nil_existsb {A} (p : A -> bool) l :
  negb (bool_decide (filter p l = [])) = existsb p l.
Proof.
  induction l as [|x l IH]; [done|]. cbn [existsb].
  destruct (p x) eqn:Hp.
  - by rewrite filter_cons_True by (cbn beta; rewrite Hp; cbn; tauto).
  - rewrite filter_cons_False by (cbn beta; rewrite Hp; cbn; tauto). done.
Qed.

Lemma nil_length_inv_bool {A B} (l : list A) (l' : list B) :
  length l = length l' -> bool_decide (l = []) = bool_decide (l' = []).
Proof. by destruct l, l'. Qed.

Lemma existsb_orb {A} (p q : A -> bool) l :
  existsb (fun x => p x || q x) l = existsb p l || existsb q l.
Proof.
  induction l as [|x l IH]; [done|]. cbn [existsb]. rewrite IH.
  destruct (p x), (q x), (existsb p l), (existsb q l); done.
Qed.

Lemma filter_negb_length {A} (p : A -> bool) l :
  (length (filter p l) + length (filter (fun x => negb (p x)) l))%nat = length l.
Proof.
  induction l as [|x l IH]; [done|]. destruct (p x) eqn:Hp.
  - rewrite filter_cons_True by (cbn beta; rewrite Hp; cbn; tauto).
    rewrite filter_cons_False by (cbn beta; rewrite Hp; cbn; tauto). cbn. lia.
  - rewrite filter_cons_False by (cbn beta; rewrite Hp; cbn; tauto).
    rewrite filter_cons_True by (cbn beta; rewrite Hp; cbn; tauto). cbn. lia.
Qed.
End Kept.

(** Extraction parts the content list of an entry: the tool uses are
    made from its [tool_use] items and the cleaned content is the other
    items, in their order, and likewise for the results; nothing is lost
    or doubled.  The flags say what was found: [hasTools] of each cleaned
    message, and [containsTools] of the entry, which is true exactly when
    one of the two extractions finds something. *)
Theorem extraction_parts_the_content (uuidv4 : nat -> jsstring) entry items n :
  ToolExtractor.messageContent entry = Returned (Some (JArr items)) ->
  Forall (fun item => item <> JNull) items ->
  Forall partsPresent items ->
  exists uses results n',
    ToolExtractor.extractToolUses entry
    = Returned (uses,
                ToolExtractor.mkCleaned entry
                  (JArr (filter (fun item => negb (isToolUseItem item)) items))
                  (negb (bool_decide (uses = []))))
    /\ ToolExtractor.extractToolResults uuidv4 entry n
       = (Returned (results,
                    ToolExtractor.mkCleaned entry
                      (JArr (filter (fun item => negb (isToolResultItem item))
                               items))
                      (negb (bool_decide (results = [])))), n')
    /\ length uses = length (filter isToolUseItem items)
    /\ length results = length (filter isToolResultItem items)
    /\ (length uses
        + length (filter (fun item => negb (isToolUseItem item)) items))%nat
       = length items
    /\ ToolExtractor.containsTools entry
       = Returned (negb (bool_decide (uses = []))
                   || negb (bool_decide (results = []))).
Proof.
  intros Hc Hitems Hparts.
  pose proof (messageContent_present _ _ Hc) as Hentry.
  eexists _, _, _. split; [|split].
  - unfold ToolExtractor.extractToolUses. rewrite Hc, bind_Returned.
    rewrite (toolUsesLoop_returns entry items Hentry Hitems), bind_Returned.
    reflexivity.
  - unfold ToolExtractor.extractToolResults. rewrite Hc.
    rewrite (toolResultsLoop_returns uuidv4 entry items n Hentry Hitems Hparts).
    reflexivity.
  - cbn [fst]. rewrite length_map, length_imap.
    split; [done|]. split; [done|]. split; [apply filter_negb_length|].
    unfold ToolExtractor.containsTools. rewrite Hc, bind_Returned.
    rewrite (someM_existsb _ Props2.isToolItem).
    + unfold Props2.isToolItem. rewrite existsb_orb, <- !filter_nil_existsb.
      do 2 f_equal.
      * f_equal. apply nil_length_inv_bool. by rewrite length_map.
      * f_equal. apply nil_length_inv_bool. by rewrite length_imap.
    + eapply Forall_impl; [exact Hitems|]. intros item Hitem.
      by rewrite (getProp_present _ item Hitem), bind_Returned.
Qed.

Lemma extraction_parts_the_tool_use_line :
  exists uses results n',
    ToolExtractor.extractToolUses Scenario.toolUseLine
    = Returned (uses,
                ToolExtractor.mkCleaned Scenario.toolUseLine
                  (JArr (filter (fun item => negb (isToolUseItem item))
                           (Scenario.contentOf Scenario.toolUseLine)))
                  (negb (bool_decide (uses = []))))
    /\ ToolExtractor.extractToolResults Scenario.sequentialIds
         Scenario.toolUseLine 0
       = (Returned (results,
                    ToolExtractor.mkCleaned Scenario.toolUseLine
                      (JArr (filter (fun item => negb (isToolResultItem item))
                               (Scenario.contentOf Scenario.toolUseLine)))
                      (negb (bool_decide (results = [])))), n')
    /\ length uses
       = length (filter isToolUseItem (Scenario.contentOf Scenario.toolUseLine))
    /\ length results
       = length (filter isToolResultItem
                   (Scenario.contentOf Scenario.toolUseLine))
    /\ (length uses
        + length (filter (fun item => negb (isToolUseItem item))
                    (Scenario.contentOf Scenario.toolUseLine)))%nat
       = length (Scenario.contentOf Scenario.toolUseLine)
    /\ ToolExtractor.containsTools Scenario.toolUseLine
       = Returned (negb (bool_decide (uses = []))
                   || negb (bool_decide (results = []))).
Proof.
  apply (extraction_parts_the_content Scenario.sequentialIds Scenario.toolUseLine
           (Scenario.contentOf Scenario.toolUseLine) 0).
  - reflexivity.
  - repeat constructor; discriminate.
  - repeat constructor; intros parts H; vm_compute in H; discriminate.
Defined.

(** ** Record validation *)

Lemma flat_map_nil_iff {A B} (f : A -> list B) l :
  flat_map f l = [] <-> Forall (fun x => f x = []) l.
Proof.
  induction l as [|x l IH]; cbn [flat_map]; [by split; [constructor|]|].
  split.
  - intros [Hx Hl]%app_eq_nil. constructor; [done|by apply IH].
  - intros [Hx Hl]%Forall_cons. rewrite Hx. by apply IH.
Qed.

Lemma invalidRecord_nil kind id fields :
  SchemaMapper.invalidRecord kind id fields = []
  <-> Forall (fun f : string * value => truthy f.2 = true) fields.
Proof.
  unfold SchemaMapper.invalidRecord, SchemaMapper.missingFields.
  assert (Hiff : filter (fun f : string * value => negb (truthy f.2)) fields = []
                 <-> Forall (fun f : string * value => truthy f.2 = true) fields).
  { induction fields as [|f fields IH]; [by split; [constructor|]|].
    destruct (truthy f.2) eqn:Hf.
    - rewrite filter_cons_False by (cbn beta; rewrite Hf; cbn; tauto).
      rewrite IH. split; [by constructor|by intros [_ ?]%Forall_cons].
    - rewrite filter_cons_True by (cbn beta; rewrite Hf; cbn; tauto).
      split; [done|]. intros [H _]%Forall_cons. congruence. }
  rewrite <- Hiff.
  destruct (filter _ fields) as [|f l]; [done|]. cbn [map]. split; done.
Qed.

(** Validation finds nothing to report exactly when every record has
    all its required fields: id, session, type and time stamp for a
    message; id, message, tool id and tool name for a tool use; id, tool
    use and message for a tool result. *)
Theorem validateRecords_reports_nothing_iff_complete messages toolUses toolResults :
  SchemaMapper.validateRecords messages toolUses toolResults = []
  <-> Forall Props2.messageComplete messages
      /\ Forall Props2.toolUseComplete toolUses
      /\ Forall Props2.toolResultComplete toolResults.
Proof.
  unfold SchemaMapper.validateRecords.
  rewrite !app_nil, !flat_map_nil_iff.
  assert (Hm : forall m : MessageRecord.t,
             SchemaMapper.invalidRecord "message" (MessageRecord.id m)
               [("id", MessageRecord.id m); ("sessionId", MessageRecord.sessionId m);
                ("type", MessageRecord.type m);
                ("timestamp", MessageRecord.timestamp m)]%string = []
             <-> Props2.messageComplete m).
  { intros m. rewrite invalidRecord_nil. unfold Props2.messageComplete.
    rewrite !Forall_cons, Forall_nil. cbn [snd]. tauto. }
  assert (Hu : forall u : ToolUse.t,
             SchemaMapper.invalidRecord "tool use" (ToolUse.id u)
               [("id", ToolUse.id u); ("messageId", ToolUse.messageId u);
                ("toolId", ToolUse.toolId u);
                ("toolName", ToolUse.toolName u)]%string = []
             <-> Props2.toolUseComplete u).
  { intros u. rewrite invalidRecord_nil. unfold Props2.toolUseComplete.
    rewrite !Forall_cons, Forall_nil. cbn [snd]. tauto. }
  assert (Hr : forall r : ToolResult.t,
             SchemaMapper.invalidRecord "tool result" (ToolResult.id r)
               [("id", ToolResult.id r); ("toolUseId", ToolResult.toolUseId r);
                ("messageId", ToolResult.messageId r)]%string = []
             <-> Props2.toolResultComplete r).
  { intros r. rewrite invalidRecord_nil. unfold Props2.toolResultComplete.
    rewrite !Forall_cons, Forall_nil. cbn [snd]. tauto. }
  split.
  - intros (H1 & H2 & H3). repeat split.
    + eapply Forall_impl; [exact H1|]. intros m. apply Hm.
    + eapply Forall_impl; [exact H2|]. intros u. apply Hu.
    + eapply Forall_impl; [exact H3|]. intros r. apply Hr.
  - intros (H1 & H2 & H3). repeat split.
    + eapply Forall_impl; [exact H1|]. intros m. apply Hm.
    + eapply Forall_impl; [exact H2|]. intros u. apply Hu.
    + eapply Forall_impl; [exact H3|]. intros r. apply Hr.
Qed.

(** ** The stream of Claude Code files and the classifier *)

Lemma isClaudeEntry_storedType data :
  ClaudeStream.isClaudeEntry data = true -> Props2.storedType data = str "unknown".
Proof.
  unfold ClaudeStream.isClaudeEntry, Props2.storedType, isStr.
  intros [_ H]%andb_prop. revert H.
  destruct (getPropOpt "type" (Some data)) as [ty|]; [|done].
  rewrite !orb_true_iff, !bool_decide_eq_true.
  intros [[[->| ->]| ->]| ->]; by vm_compute.
Qed.

(** The filter of [processClaudeFile] and the classifier know different
    types: an entry the filter lets through is classified as unknown, and
    a batch of entries of the types user, assistant, system and summary is
    dropped whole, the processor behind the filter not being called. *)
Theorem claude_stream_passes_no_entry_the_classifier_knows now
    (processor : list json -> outcome unit) :
  (forall data classified,
     ClaudeStream.isClaudeEntry data = true ->
     MessageClassifier.classifyMessage now data = Returned classified ->
     MessageClassifier.type classified = MessageClassifier.unknown)
  /\ (forall entries,
        Forall (fun entry => Props2.storedType (JSONLStream.data entry)
                             <> str "unknown") entries ->
        ClaudeStream.claudeProcessor processor entries = Returned tt).
Proof.
  split.
  - intros data c Hpass Hc. apply isClaudeEntry_storedType in Hpass.
    apply classifyMessage_inv in Hc as (_ & _ & _ & _ & Hty & _).
    rewrite Hpass in Hty. by destruct (MessageClassifier.type c).
  - intros entries Hall. unfold ClaudeStream.claudeProcessor.
    assert (filter (fun data => ClaudeStream.isClaudeEntry data = true)
              (map JSONLStream.data entries) = []) as ->; [|done].
    induction Hall as [|entry l Hentry _ IH]; [done|]. cbn [map].
    rewrite filter_cons_False; [done|].
    intros Hpass. by apply Hentry, isClaudeEntry_storedType.
Qed.

(** ** Attachments *)

Section NoAttachments.
Import Sqlite Executor Laws.
Variable rows : list row.

Lemma untouched_updateResult f :
  (forall r, attachmentsInserted (f r) = attachmentsInserted r) ->
  preserves (untouched rows) (updateResult f).
Proof.
  intros Hf st r st' [H1 H2] [= <- <-]. split; [cbn; by rewrite Hf|done].
Qed.

Lemma untouched_log entry : preserves (untouched rows) (logTransaction entry).
Proof. by intros st r st' H [= <- <-]. Qed.

Lemma untouched_existsById table id : preserves (untouched rows) (existsById table id).
Proof. intros st r st' H Hrun. by apply existsById_state in Hrun as ->. Qed.

Lemma untouched_run orIgnore table cols args :
  table <> "attachments" -> preserves (untouched rows) (run orIgnore table cols args).
Proof.
  intros Hne st r st' [H1 H2] Hrun.
  apply run_inv in Hrun as (_ & Hres & [[Hdb _]|(_ & row & Hdb)]);
    (split; [by rewrite Hres|]); rewrite Hdb; [done|].
  by rewrite rowsOf_insert_ne.
Qed.

Lemma untouched_checked table id (onFound ins after : Exec unit) :
  preserves (untouched rows) onFound -> preserves (untouched rows) ins ->
  preserves (untouched rows) after ->
  preserves (untouched rows)
    (found ← existsById table id;
     if (found : bool) then onFound else ins ;; after).
Proof.
  intros Hf Hi Ha. apply preserves_bind; [apply untouched_existsById|].
  intros []; [done|]. apply preserves_bind; [done|by intros _].
Qed.

Lemma untouched_executeEntry now parsed :
  Parse.attachments parsed = [] -> preserves (untouched rows) (executeEntry now parsed).
Proof.
  intros Hnone. unfold executeEntry. rewrite Hnone.
  apply preserves_bind; [|intros _].
  { apply preserves_forEach. intros x. by apply untouched_updateResult. }
  apply preserves_bind; [|intros _].
  { unfold ensureSessionRecord. apply preserves_bind; [by apply untouched_run|].
    intros n. destruct (0 <? n)%nat; [apply untouched_log|apply preserves_ret]. }
  apply preserves_bind; [|intros _].
  { destruct (messageToInsert now parsed); [|apply preserves_ret].
    apply untouched_checked; try (apply untouched_updateResult; by intros []).
    unfold insertMessageRecord.
    apply preserves_bind; [by apply untouched_run|intros _; apply untouched_log]. }
  apply preserves_bind; [|intros _].
  { apply preserves_forEach. intros x.
    apply untouched_checked;
      [apply preserves_ret| |apply untouched_updateResult; by intros []].
    unfold insertToolUseRecord.
    apply preserves_bind; [by apply untouched_run|intros _; apply untouched_log]. }
  apply preserves_bind; [|intros _].
  { apply preserves_forEach. intros x.
    apply untouched_checked;
      [apply preserves_ret| |apply untouched_updateResult; by intros []].
    unfold insertToolResultRecord.
    apply preserves_bind; [by apply untouched_run|intros _; apply untouched_log]. }
  apply preserves_bind; [apply preserves_ret|intros _].
  destruct (Parse.envInfo parsed); [|apply preserves_ret].
  apply untouched_checked;
    [apply preserves_ret| |apply untouched_updateResult; by intros []].
  unfold insertEnvInfoRecord.
  apply preserves_bind; [by apply untouched_run|intros _; apply preserves_ret].
Qed.

Lemma untouched_batch now parsedEntries :
  Forall (fun parsed => Parse.attachments parsed = []) parsedEntries ->
  preserves (untouched rows) (batch now parsedEntries).
Proof.
  intros Hall. unfold batch. apply preserves_bind; [|intros _].
  - induction Hall as [|parsed l Hp _ IH]; cbn [forEach]; [apply preserves_ret|].
    apply preserves_bind; [|by intros _].
    apply preserves_tryCatch; [by apply untouched_executeEntry|].
    intros e. by apply untouched_updateResult.
  - intros st r st' H. unfold logBatchSummary. destruct (_ <? _)%nat.
    + by apply untouched_log.
    + by intros [= <- <-].
Qed.
End NoAttachments.

Lemma parseAndTransform_attachments (uuidv4 : nat -> jsstring) now entry
    sessionPath n parsed n' :
  Parse.parseAndTransform uuidv4 now entry sessionPath n = (Returned parsed, n') ->
  Parse.attachments parsed = [].
Proof.
  intros H. apply parseAndTransform_inv in H as [H|(e & id & _ & ->)]; [|done].
  by apply parseBody_inv in H
    as (c & u & r & t & env & _ & _ & _ & _ & _ & _ & _ & _ & Hatt & _).
Qed.

(** The pipeline never writes an attachment: whatever the entries, the
    parsed batch run by the executor leaves the attachments table as it
    was and counts no attachment. *)
Theorem pipeline_never_writes_attachments (uuidv4 : nat -> jsstring) now now'
    sessionPath entries n w :
  forall parsedEntries n',
    Parse.parseMultipleEntries uuidv4 now entries sessionPath n
    = (Returned parsedEntries, n') ->
    exists r w',
      Executor.executeParsedEntries now' parsedEntries w = (Returned r, w')
      /\ Executor.attachmentsInserted r = 0%nat
      /\ Sqlite.rowsOf "attachments" w'.1 = Sqlite.rowsOf "attachments" w.1.
Proof.
  intros ps n' Hps. apply parseMultipleEntries_inv in Hps.
  assert (Hall : Forall (fun parsed => Parse.attachments parsed = []) ps).
  { induction Hps as [|entry parsed l l' (k & k' & Hp) _ IH]; constructor; [|done].
    by eapply parseAndTransform_attachments. }
  destruct (batch_returns now' ps (Executor.mkSt w.1 w.2 Executor.emptyResult))
    as [st' Hbatch].
  exists (Executor.result st'), (Executor.db st', Executor.auditLog st').
  split; [by apply executeParsedEntries_batch|].
  refine (untouched_batch (Sqlite.rowsOf "attachments" w.1) now' ps Hall _ _ _ _
            Hbatch).
  by split.
Qed.

Lemma two_lines_write_no_attachment :
  exists r w',
    Executor.executeParsedEntries (js "T1") Scenario.inOrderBatch
      Scenario.emptyWorld = (Returned r, w')
    /\ Executor.attachmentsInserted r = 0%nat
    /\ Sqlite.rowsOf "attachments" w'.1
       = Sqlite.rowsOf "attachments" Scenario.emptyWorld.1.
Proof.
  apply (pipeline_never_writes_attachments Scenario.sequentialIds (js "T0")
           (js "T1") (js "/p") [Scenario.toolUseLine; Scenario.toolResultLine] 0
           Scenario.emptyWorld Scenario.inOrderBatch 1).
  vm_compute. reflexivity.
Defined.

(** ** The query tool: what reaches the database *)

Section QueryTool.
Variable up : N -> list N.
Variable all : jsstring -> list Z -> outcome (list json).

Lemma limit_word_upper : Forall isUpperLetter (js "LIMIT") /\ js "LIMIT" <> [].
Proof.
  split; [|discriminate].
  unfold js; simpl; repeat constructor; unfold isUpperLetter; lia.
Qed.

Lemma appended_limit_included sql :
  includes (Query.normalizedSql up (trim sql ++ js " LIMIT ?")) (js "LIMIT") = true.
Proof.
  destruct limit_word_upper as [Hup Hne].
  apply occurs_includes_normalized; [done..|].
  exists (trim sql ++ js " "), (js "LIMIT"), (js " ?").
  split; [by rewrite <- app_assoc|reflexivity].
Qed.
End QueryTool.

(** What executeQuery hands to the database, for an integer limit (or
    none).  A statement that fails
    validation is thrown out with the error of the validation and nothing
    is issued.  For one that passes, exactly one statement is issued:
    the statement itself, without parameter, when LIMIT occurs in it, and
    otherwise the trimmed statement followed by [LIMIT ?] with the limit
    asked for, cut to the range from 1 to 1000 (100 by default); either
    way LIMIT occurs in what is issued.  The rows come back with their
    count, and an error of the database comes back wrapped. *)
Theorem executeQuery_issues_one_validated_capped_statement
    (up : N -> list N) (all : jsstring -> list Z -> outcome (list json))
    args issued :
  match Query.validateQuery up (Queries.sql args) with
  | Thrown e => Queries.executeQuery up all args issued = (Thrown e, issued)
  | Returned _ =>
      exists stmt params,
        (Queries.executeQuery up all args issued).2 = issued ++ [(stmt, params)]
        /\ ((stmt = Queries.sql args /\ params = []
             /\ includes (Query.normalizedSql up (Queries.sql args)) (js "LIMIT")
                = true)
            \/ (stmt = trim (Queries.sql args) ++ js " LIMIT ?"
                /\ exists l, params = [l] /\ (1 <= l <= 1000)%Z
                   /\ l = Z.min (Z.max 1 (default 100%Z (Queries.limit args)))
                          1000))
        /\ includes (Query.normalizedSql up stmt) (js "LIMIT") = true
        /\ (Queries.executeQuery up all args issued).1
           = match all stmt params with
             | Returned rows =>
                 Returned (Queries.mkResult stmt (length rows) rows)
             | Thrown error =>
                 Thrown (mkError None
                           (js "Query execution failed: " ++ message error))
             end
  end.
Proof.
  unfold Queries.executeQuery.
  destruct (Query.validateQuery up (Queries.sql args)) as [[]|e]; [|done].
  unfold Queries.ensureLimit.
  destruct (includes (Query.normalizedSql up (Queries.sql args)) (js "LIMIT"))
    eqn:Hlimit.
  - eexists _, _. cbn [mret outcome_ret fst snd].
    split; [done|]. split; [by left|]. by split.
  - set (l := Z.min (Z.max 1 (default 100%Z (Queries.limit args))) 1000).
    assert (Hl : (1 <= l <= 1000)%Z) by (unfold l; lia).
    assert (((l <? 1)%Z || (10000 <? l)%Z) = false) as ->.
    { apply orb_false_iff. split; apply Z.ltb_ge; lia. }
    eexists _, _. cbn [mret outcome_ret fst snd].
    split; [done|]. split; [right; split; [done|]; by exists l|].
    split; [apply appended_limit_included|done].
Qed.

(** The row cap is not applied to a statement in which the word LIMIT
    occurs anywhere, in any casing, be it inside the name of a column: a
    statement that passes validation and mentions [limit] is issued as it
    is, with no parameter. *)
Theorem word_limit_anywhere_disables_the_row_cap
    (up : N -> list N) (all : jsstring -> list Z -> outcome (list json))
    args issued :
  Query.validateQuery up (Queries.sql args) = Returned tt ->
  occursInAnyCasing (js "LIMIT") (Queries.sql args) ->
  (Queries.executeQuery up all args issued).2 = issued ++ [(Queries.sql args, [])].
Proof.
  intros Hvalid Hocc. destruct limit_word_upper as [Hup Hne].
  unfold Queries.executeQuery, Queries.ensureLimit. rewrite Hvalid.
  by rewrite (occurs_includes_normalized up _ _ Hup Hne Hocc).
Qed.

Lemma column_rate_limit_disables_the_row_cap :
  (Queries.executeQuery asciiOnlyCaseMapping (fun _ _ => Returned [])
     (Queries.mkArgs (js "SELECT rate_limit FROM sessions") (Some 10%Z)) []).2
  = [] ++ [(js "SELECT rate_limit FROM sessions", [])].
Proof.
  apply (word_limit_anywhere_disables_the_row_cap asciiOnlyCaseMapping
           (fun _ _ => Returned [])
           (Queries.mkArgs (js "SELECT rate_limit FROM sessions") (Some 10%Z)) []).
  - vm_compute. reflexivity.
  - exists (js "SELECT rate_"), (js "limit"), (js " FROM sessions").
    split; reflexivity.
Defined.

(** ** The rate limiter: forgetting clients *)

Section Forgetting.
Local Open Scope Z_scope.
Import RateLimit RateLimitOps.

(** A check reads the budget and the entry of its client, and writes
    that entry. *)
Lemma check_reads_window_entry t c custom l1 l2 :
  rateLimitPerMinute l1 = rateLimitPerMinute l2 ->
  windowEntry t c l1 = windowEntry t c l2 ->
  (checkSlidingWindow t c custom l1).1 = (checkSlidingWindow t c custom l2).1
  /\ rateLimitPerMinute (checkSlidingWindow t c custom l1).2
     = rateLimitPerMinute (checkSlidingWindow t c custom l2).2
  /\ clients (checkSlidingWindow t c custom l1).2 !! c
     = clients (checkSlidingWindow t c custom l2).2 !! c.
Proof.
  intros Hrate Hentry. unfold checkSlidingWindow.
  fold (windowEntry t c l1). fold (windowEntry t c l2). rewrite Hrate, Hentry.
  set (e := windowEntry t c l2). clearbody e.
  destruct (blocked e && _).
  { cbn [fst snd setEntry clients rateLimitPerMinute].
    by rewrite !lookup_insert_eq. }
  destruct (_ <=? count e);
    cbn [fst snd setEntry clients rateLimitPerMinute];
    by rewrite !lookup_insert_eq.
Qed.

Lemma check_reads_own_entry t c custom l1 l2 :
  rateLimitPerMinute l1 = rateLimitPerMinute l2 ->
  clients l1 !! c = clients l2 !! c ->
  (checkSlidingWindow t c custom l1).1 = (checkSlidingWindow t c custom l2).1
  /\ rateLimitPerMinute (checkSlidingWindow t c custom l1).2
     = rateLimitPerMinute (checkSlidingWindow t c custom l2).2
  /\ clients (checkSlidingWindow t c custom l1).2 !! c
     = clients (checkSlidingWindow t c custom l2).2 !! c.
Proof.
  intros Hrate Hentry. apply check_reads_window_entry; [done|].
  unfold windowEntry. by rewrite Hentry.
Qed.

Lemma check_keeps_rate t c custom l :
  rateLimitPerMinute (checkSlidingWindow t c custom l).2 = rateLimitPerMinute l.
Proof.
  unfold checkSlidingWindow.
  repeat match goal with
         | |- context [if ?b then _ else _] => destruct b
         end; done.
Qed.

Lemma requests_read_own_entry c custom times l1 l2 :
  rateLimitPerMinute l1 = rateLimitPerMinute l2 ->
  clients l1 !! c = clients l2 !! c ->
  (requests c custom times l1).1 = (requests c custom times l2).1.
Proof.
  revert l1 l2. induction times as [|t times IH]; intros l1 l2 Hrate Hentry;
    [done|].
  cbn [requests].
  destruct (check_reads_own_entry t c custom l1 l2 Hrate Hentry)
    as (Hd & Hr & He).
  destruct (checkSlidingWindow t c custom l1) as [d1 l1'].
  destruct (checkSlidingWindow t c custom l2) as [d2 l2'].
  cbn [fst snd] in *. specialize (IH l1' l2' Hr He).
  destruct (requests c custom times l1') as [ds1 l1''].
  destruct (requests c custom times l2') as [ds2 l2''].
  cbn [fst] in *. by rewrite Hd, IH.
Qed.

(** After a clean-up, a check works on the entry it would have worked
    on. *)
Lemma windowEntry_cleanup now t c l :
  now <= t -> windowEntry t c (cleanup now l) = windowEntry t c l.
Proof.
  intros Hnow. unfold windowEntry.
  destruct (clients (cleanup now l) !! c) as [e|] eqn:Hkept.
  - apply map_lookup_filter_Some in Hkept as [-> _]. done.
  - destruct (clients l !! c) as [e|] eqn:He; [|done].
    apply map_lookup_filter_None in Hkept as [Hnone|Hstale]; [congruence|].
    specialize (Hstale e He). cbn [snd] in Hstale.
    assert (windowSize * 2 < now - windowStart e)
      by (destruct (decide (windowSize * 2 < now - windowStart e)); tauto).
    assert ((windowSize <? t - windowStart e) = true) as ->
      by (apply Z.ltb_lt; unfold windowSize in *; lia).
    done.
Qed.
End Forgetting.

(** The clean-up of the limiter cannot be observed: whatever the
    entries, the requests a client makes after a clean-up are answered as
    they would have been without it.  The entries deleted are those a
    check would have replaced anyway. *)
Theorem cleanup_changes_no_decision now c custom times l :
  Forall (fun t => (now <= t)%Z) times ->
  (RateLimit.requests c custom times (RateLimitOps.cleanup now l)).1
  = (RateLimit.requests c custom times l).1.
Proof.
  intros Htimes. destruct Htimes as [|t times Ht Htimes]; [done|].
  cbn [RateLimit.requests].
  destruct (check_reads_window_entry t c custom (RateLimitOps.cleanup now l) l
              eq_refl (windowEntry_cleanup now t c l Ht)) as (Hd & Hr & He).
  destruct (RateLimit.checkSlidingWindow t c custom (RateLimitOps.cleanup now l))
    as [d1 l1].
  destruct (RateLimit.checkSlidingWindow t c custom l) as [d2 l2].
  cbn [fst snd] in *.
  pose proof (requests_read_own_entry c custom times l1 l2 Hr He) as Hrest.
  destruct (RateLimit.requests c custom times l1) as [ds1 l1'].
  destruct (RateLimit.requests c custom times l2) as [ds2 l2'].
  cbn [fst] in *. by rewrite Hd, Hrest.
Qed.

Lemma cleanup_changes_no_decision_example :
  (RateLimit.requests (js "client") None [200000; 200001]%Z
     (RateLimitOps.cleanup 200000
        (RateLimit.mkLimiter 1 {[ js "client" := RateLimit.mkEntry 1 0 true (Some 60000%Z) ]}))).1
  = (RateLimit.requests (js "client") None [200000; 200001]%Z
       (RateLimit.mkLimiter 1 {[ js "client" := RateLimit.mkEntry 1 0 true (Some 60000%Z) ]})).1.
Proof.
  apply (cleanup_changes_no_decision 200000%Z (js "client") None
           [200000; 200001]%Z).
  repeat constructor; lia.
Defined.

(** A reset forgets the client: its next request is answered as that of
    a client never seen, and the entries of the other clients are as they
    were. *)
Theorem reset_forgets_the_client t c custom l :
  (RateLimit.checkSlidingWindow t c custom (RateLimitOps.reset c l)).1
  = (RateLimit.checkSlidingWindow t c custom
       (RateLimit.mkLimiter (RateLimit.rateLimitPerMinute l) ∅)).1
  /\ forall c', c' <> c ->
       RateLimit.clients (RateLimitOps.reset c l) !! c' = RateLimit.clients l !! c'.
Proof.
  split.
  - apply check_reads_own_entry; [done|]. cbn.
    by rewrite lookup_delete_eq, lookup_empty.
  - intros c' Hne. cbn. by rewrite lookup_delete_ne.
Qed.
(** ** The streaming line processor: batches and counters *)

Section Tally.
Import JSONLStream.
Import StreamLaws.
Variable JSON_parse : jsstring -> outcome json.
Variable timing : Timing.

Lemma entriesOf_cons which c cs :
  entriesOf which (c :: cs)
  = (if which c then argument c else []) ++ entriesOf which cs.
Proof.
  unfold entriesOf. destruct (which c) eqn:Hc.
  - by rewrite filter_cons_True by (cbn beta; rewrite Hc; cbn; tauto).
  - by rewrite filter_cons_False by (cbn beta; rewrite Hc; cbn; tauto).
Qed.

Lemma entriesOf_snoc which cs c :
  entriesOf which (cs ++ [c])
  = entriesOf which cs ++ (if which c then argument c else []).
Proof.
  induction cs as [|c' cs IH].
  - rewrite app_nil_l, entriesOf_cons. unfold entriesOf.
    rewrite filter_nil. cbn [map concat]. by rewrite app_nil_r.
  - rewrite <- app_comm_cons, !entriesOf_cons, IH. by rewrite app_assoc.
Qed.

(** Every entry handed over is taken, refused or waited for. *)
Lemma entries_sorted cs :
  (length (taken cs) + length (refused cs) + length (waiting cs))%nat
  = length (concat (map argument cs)).
Proof.
  unfold taken, refused, waiting.
  induction cs as [|c cs IH]; [done|].
  rewrite !entriesOf_cons. cbn [map concat]. rewrite !length_app, <- IH.
  unfold resolved, rejected, pending.
  destruct (settled c) as [[]|]; cbn [length]; lia.
Qed.

(** A pending call that settles moves its entries from those waited for
    to those taken, or to those refused. *)
Lemma entries_settled cs : forall i batch result,
  cs !! i = Some (mkCall batch None) ->
  let cs' := <[i := mkCall batch (Some result)]> cs in
  length (taken cs')
  = (length (taken cs) + if isThrown result then 0 else length batch)%nat
  /\ length (refused cs')
     = (length (refused cs) + if isThrown result then length batch else 0)%nat
  /\ (length (waiting cs') + length batch)%nat = length (waiting cs).
Proof.
  unfold taken, refused, waiting.
  induction cs as [|c cs IH]; intros i batch result Hi; [done|].
  destruct i as [|i].
  - cbn in Hi. injection Hi as ->. cbn [insert list_insert].
    rewrite !entriesOf_cons. unfold resolved, rejected, pending.
    cbn [settled argument]. rewrite !length_app.
    clear IH. destruct result; cbn [isThrown length]; repeat split; lia.
  - cbn in Hi.
    destruct (IH i batch result Hi) as (Ht & Hr & Hw). cbn zeta in *.
    change (<[S i:=?x]> (c :: cs)) with (c :: <[i:=x]> cs).
    rewrite !entriesOf_cons, !length_app. clear IH.
    repeat split; [rewrite Ht|rewrite Hr|rewrite <- Hw]; lia.
Qed.

Lemma counted_processBatch p : counted p -> counted (processBatch p).
Proof.
  intros [Hdone Herr]. unfold counted, processBatch.
  destruct (currentBatch p) as [|e batch]; [done|].
  cbn [stats calls emitted processedLines errorLines].
  unfold taken, refused. rewrite !entriesOf_snoc.
  unfold resolved, rejected. cbn [settled]. by rewrite !app_nil_r.
Qed.

Lemma counted_processBatchResumed i result p :
  counted p -> counted (processBatchResumed i result p).
Proof.
  intros [Hdone Herr]. unfold counted, processBatchResumed.
  destruct (calls p !! i) as [[batch [?|]]|] eqn:Hi; [done| |done].
  destruct (entries_settled (calls p) i batch result Hi) as (Ht & Hr & _).
  cbn zeta in *.
  destruct result;
    cbn [stats calls emitted processedLines errorLines isThrown] in *;
    rewrite Ht, Hr, lineErrors_app, lineErrors_singleton;
    cbn [isLineError]; lia.
Qed.

Lemma counted_onCloseResumed p : counted p -> counted (onCloseResumed p).
Proof.
  intros [Hdone Herr]. unfold counted, onCloseResumed.
  destruct (closeHandler p); [done| |done].
  destruct (calls p !! call) as [[batch [?|]]|]; [|done..].
  cbn [emit stats calls emitted processedLines errorLines].
  rewrite lineErrors_app, lineErrors_singleton. cbn [isLineError]. lia.
Qed.

Lemma counted_ticks ts : forall p, counted p -> counted (ticks ts p).
Proof.
  induction ts as [|t ts IH]; intros p Hp; [done|].
  unfold ticks. cbn [fold_left]. apply IH.
  destruct t; cbn [tick];
    [by apply counted_processBatchResumed|by apply counted_onCloseResumed].
Qed.

Lemma counted_onClose p : counted p -> counted (onClose p).
Proof.
  intros Hp. unfold onClose.
  destruct (currentBatch p) as [|e batch] eqn:Hb.
  - destruct Hp as [Hdone Herr]. unfold counted.
    cbn [emit stats calls emitted processedLines errorLines].
    rewrite lineErrors_app, lineErrors_singleton. cbn [isLineError]. lia.
  - apply counted_processBatch in Hp. exact Hp.
Qed.

(** Handing over the batch being filled adds it to the batches
    delivered. *)
Lemma processBatch_delivered p :
  currentBatch p <> [] ->
  delivered (processBatch p) = delivered p ++ [currentBatch p].
Proof.
  intros Hne. unfold processBatch, delivered.
  destruct (currentBatch p) as [|e batch] eqn:Hb; [done|].
  cbn [calls]. by rewrite map_app.
Qed.

Lemma tallied_onLine size n line p :
  tallied size p -> tallied size (onLine JSON_parse n line p).
Proof.
  intros (Hsize & Hshort & Hfull & Hdone & Herr).
  unfold tallied, counted, onLine.
  destruct (greater _ _).
  { cbn [emit options currentBatch emitted stats processedLines errorLines calls].
    rewrite lineErrors_app, lineErrors_singleton. cbn [isLineError].
    repeat split; try done. lia. }
  destruct (trim line) as [|c r]; [done|].
  destruct (JSON_parse line) as [data|error].
  - match goal with |- context [processBatch ?q] => set (p2 := q) end.
    assert (Hlen : length (currentBatch p2) = S (length (currentBatch p))).
    { subst p2. cbn [currentBatch]. rewrite length_app. cbn [length]. lia. }
    assert (Hp2 : counted p2) by done.
    cbn [options]. rewrite Hsize. cbn [atLeast].
    destruct (N.leb_spec size (N.of_nat (length (currentBatch p2)))) as [Hge|Hlt].
    + destruct (processBatch_spec p2) as (Ho & Hb & _).
      cbn zeta in *. rewrite Ho, Hb, processBatch_delivered.
      2:{ intros Hnil. by rewrite Hnil in Hlen. }
      split; [done|]. split; [cbn; lia|]. split.
      * apply Forall_app. split; [done|]. constructor; [|done]. lia.
      * by apply counted_processBatch.
    + repeat split; [done|lia|done..].
  - cbn [emit options currentBatch emitted stats processedLines errorLines calls].
    rewrite lineErrors_app, lineErrors_singleton. cbn [isLineError].
    repeat split; try done. lia.
Qed.

Lemma tallied_ticks size ts p : tallied size p -> tallied size (ticks ts p).
Proof.
  intros (Hsize & Hshort & Hfull & Hcount).
  destruct (ticks_spec ts p) as (Ho & Hb & Hd & _). cbn zeta in *.
  unfold tallied. rewrite Ho, Hb, Hd. repeat split; try done.
  all: by apply counted_ticks.
Qed.

Lemma tallied_onLines size lines : forall n p,
  tallied size p -> tallied size (onLines JSON_parse timing n lines p).
Proof.
  induction lines as [|line rest IH]; intros n p Hp; [done|].
  cbn [onLines]. by apply IH, tallied_ticks, tallied_onLine.
Qed.

Lemma tallied_create opts :
  tallied (orDefault (batchSize opts) 100) (create opts).
Proof.
  repeat split; try done.
  cbn. destruct (batchSize opts) as [[]|]; cbn; lia.
Qed.

(** The lines of a file are the entries made, the lines reported and the
    lines passed over. *)
Lemma lines_accounted opts lines : forall n,
  (length (entriesFrom JSON_parse opts n lines)
   + length (filter (malformed JSON_parse opts) lines)
   + length (filter (passedOver opts) lines))%nat
  = length lines.
Proof.
  induction lines as [|line rest IH]; intros n; [done|].
  specialize (IH (S n)). cbn [entriesFrom length].
  unfold malformed, passedOver in *.
  destruct (tooLong opts line) eqn:Hlong, (isBlank line) eqn:Hblank,
    (JSON_parse line) as [data|error] eqn:Hparse;
    cbn [orb andb negb isThrown];
    repeat first
      [ rewrite filter_cons_True
          by (cbn beta; rewrite ?Hlong, ?Hblank, ?Hparse; cbn; tauto)
      | rewrite filter_cons_False
          by (cbn beta; rewrite ?Hlong, ?Hblank, ?Hparse; cbn; tauto) ];
    cbn [length]; lia.
Qed.
End Tally.

(** The batches handed to the downstream processor are full, the last
    one apart: whenever the calls of the processor settle, a fresh stream
    processor hands over batches of exactly [batchSize] entries (100 when
    none or zero is given), and when the file ends one more batch with
    what is left, which is never empty. *)
Theorem stream_batches_are_full_but_the_last
    (JSON_parse : jsstring -> outcome json)
    (timing : JSONLStream.Timing) opts lines :
  let p := JSONLStream.processFile JSON_parse timing lines
             (JSONLStream.create opts) in
  let size := JSONLStream.orDefault (JSONLStream.batchSize opts) 100 in
  exists full rest,
    JSONLStream.delivered p = full ++ rest
    /\ Forall (fun batch => N.of_nat (length batch) = size) full
    /\ (rest = []
        \/ exists batch, rest = [batch] /\ batch <> []
             /\ N.of_nat (length batch) < size).
Proof.
  cbn zeta. unfold JSONLStream.processFile.
  pose proof (tallied_onLines JSON_parse timing _ lines 1 _
                (tallied_create opts)) as (_ & Hshort & Hfull & _).
  set (q := JSONLStream.onLines JSON_parse timing 1 lines
              (JSONLStream.create opts)) in *.
  destruct (ticks_spec (JSONLStream.afterClose timing) (JSONLStream.onClose q))
    as (_ & _ & -> & _).
  unfold JSONLStream.onClose.
  destruct (JSONLStream.currentBatch q) as [|e batch] eqn:Hb.
  - exists (JSONLStream.delivered q), [].
    unfold JSONLStream.delivered, JSONLStream.emit. cbn [JSONLStream.calls].
    rewrite app_nil_r. by repeat split; [|left].
  - pose proof (processBatch_delivered q) as Hd. rewrite Hb in Hd.
    unfold JSONLStream.delivered in *. cbn [JSONLStream.calls].
    rewrite Hd by done.
    exists (map JSONLStream.argument (JSONLStream.calls q)), [e :: batch].
    repeat split; [done|]. right. by exists (e :: batch).
Qed.

(** The counters of the stream account for every line of the file,
    whenever the calls of the downstream processor settle.  At the end of
    a run [processedLines] is the number of entries in the batches whose
    call resolved, [errorLines] is the number of malformed lines plus the
    number of entries in the batches whose call was rejected, and with the
    blank lines passed over and the entries of the batches whose call is
    still pending they add up to [totalLines], the number of lines. *)
Theorem stream_counters_account_for_every_line
    (JSON_parse : jsstring -> outcome json)
    (timing : JSONLStream.Timing) opts lines :
  let p := JSONLStream.processFile JSON_parse timing lines
             (JSONLStream.create opts) in
  let options := JSONLStream.options (JSONLStream.create opts) in
  let stats := JSONLStream.stats p in
  JSONLStream.processedLines stats
  = length (StreamLaws.taken (JSONLStream.calls p))
  /\ JSONLStream.errorLines stats
     = (length (filter (malformed JSON_parse options) lines)
        + length (StreamLaws.refused (JSONLStream.calls p)))%nat
  /\ (JSONLStream.processedLines stats + JSONLStream.errorLines stats
      + length (filter (StreamLaws.passedOver options) lines)
      + length (StreamLaws.waiting (JSONLStream.calls p)))%nat
     = JSONLStream.totalLines stats
  /\ JSONLStream.totalLines stats = length lines.
Proof.
  cbn zeta.
  destruct (processFile_spec JSON_parse timing lines (JSONLStream.create opts))
    as (_ & _ & Hd & He & Ht).
  pose proof (tallied_onLines JSON_parse timing _ lines 1 _
                (tallied_create opts)) as (_ & _ & _ & Hcount).
  apply counted_onClose, (counted_ticks (JSONLStream.afterClose timing))
    in Hcount.
  fold (JSONLStream.processFile JSON_parse timing lines
          (JSONLStream.create opts)) in Hcount.
  destruct Hcount as [Hdone Herr].
  pose proof (entries_sorted
                (JSONLStream.calls
                   (JSONLStream.processFile JSON_parse timing lines
                      (JSONLStream.create opts)))) as Hsum.
  pose proof (lines_accounted JSON_parse
                (JSONLStream.options (JSONLStream.create opts)) lines 1) as Hall.
  unfold JSONLStream.delivered in Hd. rewrite Hd in Hsum.
  change (concat (map JSONLStream.argument
                    (JSONLStream.calls (JSONLStream.create opts)))
          ++ JSONLStream.currentBatch (JSONLStream.create opts) ++ ?l)
    with l in Hsum.
  change (lineErrors (JSONLStream.emitted (JSONLStream.create opts)))
    with 0%nat in He.
  change (JSONLStream.totalLines (JSONLStream.stats (JSONLStream.create opts)))
    with 0%nat in Ht.
  rewrite Hdone, Herr, He, Ht. repeat split; lia.
Qed.

(** The counters need not be final when [complete] is emitted: with
    batches of one entry and two lines whose calls settle after the file
    has closed, the ['close'] handler finds nothing left to hand over and
    emits [complete] at once, before either progress report. *)
Lemma complete_may_precede_progress :
  JSONLStream.emitted
    (JSONLStream.processFile (fun _ => Returned JNull)
       (JSONLStream.mkTiming (fun _ => [])
          [JSONLStream.settles 0 (Returned tt);
           JSONLStream.settles 1 (Returned tt)])
       [js "1"; js "2"]
       (JSONLStream.create (JSONLStream.mkOptions (Some 1) None)))
  = [JSONLStream.complete (JSONLStream.mkStats 2 0 0);
     JSONLStream.progress 1 2 0; JSONLStream.progress 2 2 0].
Proof. by vm_compute. Qed.

(** ** The connection pool: what holds between two calls *)

Section PoolSound.
Import Pool.
Import PoolOps.

Lemma setConnection_ids c p :
  map id (connections (setConnection c p)) = map id (connections p).
Proof.
  cbn. induction (connections p) as [|c' l IH]; [done|].
  cbn. rewrite IH. f_equal. destruct (Nat.eqb_spec (id c') (id c)); congruence.
Qed.

Lemma setConnection_length c p :
  length (connections (setConnection c p)) = length (connections p).
Proof. cbn. by rewrite length_map. Qed.

Lemma setConnection_Forall (P : PooledConnection -> Prop) c p :
  P c ->
  Forall P (connections p) -> Forall P (connections (setConnection c p)).
Proof.
  intros Hc Hp. cbn. apply Forall_fmap. eapply Forall_impl; [exact Hp|].
  intros c' Hc'. cbn in Hc' |- *. by destruct (id c' =? id c)%nat.
Qed.

Lemma setConnection_below c p :
  Forall (fun c' => (id c' < nextId p)%nat) (connections p) ->
  Forall (fun c' => (id c' < nextId p)%nat) (connections (setConnection c p)).
Proof.
  intros Hp. cbn. apply Forall_fmap. eapply Forall_impl; [exact Hp|].
  intros c' Hc'. cbn in Hc' |- *. destruct (Nat.eqb_spec (id c') (id c)) as [<-|]; done.
Qed.

(** Taking a handle in use keeps in use what was. *)
Lemma setConnection_inUse c p :
  inUse c = true ->
  Forall (fun c' => inUse c' = true) (connections p) ->
  Forall (fun c' => inUse c' = true) (connections (setConnection c p)).
Proof. intros. by apply setConnection_Forall. Qed.

Lemma find_idle_none l :
  find (fun c => negb (inUse c)) l = None -> Forall (fun c => inUse c = true) l.
Proof.
  induction l as [|c l IH]; [done|]. cbn.
  destruct (inUse c) eqn:Hc; [|done]. cbn. intros H. constructor; auto.
Qed.

Lemma sublist_all {A} (P : A -> Prop) (l1 l2 : list A) :
  l1 `sublist_of` l2 -> Forall P l2 -> Forall P l1.
Proof.
  induction 1 as [|x l1 l2 _ IH|x l1 l2 _ IH]; intros H; [done|..].
  - apply Forall_cons in H as [Hx H]. constructor; auto.
  - apply Forall_cons in H as [_ H]. auto.
Qed.

Lemma sublist_distinct {A B} (f : A -> B) (l1 l2 : list A) :
  l1 `sublist_of` l2 -> NoDup (map f l2) -> NoDup (map f l1).
Proof.
  intros Hs H. eapply sublist_NoDup; [exact H|]. clear H.
  induction Hs; cbn; by constructor.
Qed.

Lemma removeFirst_sublist i l : removeFirst i l `sublist_of` l.
Proof.
  induction l as [|c l IH]; [done|]. cbn.
  destruct (id c =? i)%nat; [by apply sublist_cons|by apply sublist_skip].
Qed.

Lemma closing_sublist toClose : forall p,
  connections (fold_left (fun p conn => closeConnection conn p) toClose p)
    `sublist_of` connections p
  /\ waitQueue (fold_left (fun p conn => closeConnection conn p) toClose p)
     = waitQueue p
  /\ nextId (fold_left (fun p conn => closeConnection conn p) toClose p)
     = nextId p
  /\ nextTicket (fold_left (fun p conn => closeConnection conn p) toClose p)
     = nextTicket p
  /\ options (fold_left (fun p conn => closeConnection conn p) toClose p)
     = options p.
Proof.
  induction toClose as [|c l IH]; intros p; [done|].
  cbn [fold_left]. destruct (IH (closeConnection c p)) as (Hs & Hw & Hn & Ht & Ho).
  repeat split; try done.
  etrans; [exact Hs|]. apply removeFirst_sublist.
Qed.

Lemma cleanup_sublist now p :
  connections (cleanupIdleConnections now p) `sublist_of` connections p
  /\ waitQueue (cleanupIdleConnections now p) = waitQueue p
  /\ nextId (cleanupIdleConnections now p) = nextId p
  /\ nextTicket (cleanupIdleConnections now p) = nextTicket p
  /\ options (cleanupIdleConnections now p) = options p.
Proof.
  unfold cleanupIdleConnections.
  destruct (match min (options p) with Some _ => _ | None => _ end); [done|].
  apply closing_sublist.
Qed.

Lemma sound_step p op : sound p -> sound (step p op).
Proof.
  intros (Hids & Hbelow & Htickets & Htbelow & Hbusy).
  destruct op as [now|now c|t|now|]; cbn [step].
  - unfold acquire. destruct (closed p); [done|].
    destruct (find _ (connections p)) as [c|] eqn:Hfind.
    + cbn [snd]. unfold sound. rewrite setConnection_ids.
      repeat split; try done; [by apply (setConnection_below _ p)|].
      intros Hq. apply (setConnection_inUse _ p); [done|]. by apply Hbusy.
    + pose proof (find_idle_none _ Hfind) as Hall.
      destruct (match max (options p) with Some _ => _ | None => _ end).
      * cbn [createConnection snd]. unfold sound. rewrite setConnection_ids.
        cbn [connections waitQueue nextId nextTicket setConnection id].
        rewrite map_app. cbn [map id]. repeat split; try done.
        -- apply NoDup_app. repeat split; [done| |apply NoDup_singleton].
           intros i Hi Hi'. apply list_elem_of_singleton in Hi'. subst i.
           apply list_elem_of_fmap in Hi as (c' & Hc' & Hin).
           rewrite Forall_forall in Hbelow. specialize (Hbelow _ Hin). lia.
        -- apply Forall_fmap, Forall_app. split.
           ++ eapply Forall_impl; [exact Hbelow|]. intros c' Hc'. cbn in Hc' |- *.
              destruct (Nat.eqb_spec (id c') (nextId p)); cbn; lia.
           ++ constructor; [|done]. cbn. rewrite Nat.eqb_refl. cbn. lia.
        -- intros _. apply Forall_fmap, Forall_app. split.
           ++ eapply Forall_impl; [exact Hall|]. intros c' Hc'. cbn in Hc' |- *.
              by destruct (id c' =? nextId p)%nat.
           ++ constructor; [|done]. cbn. by rewrite Nat.eqb_refl.
      * cbn [snd]. unfold sound.
        cbn [connections waitQueue nextId nextTicket].
        rewrite map_app. cbn [map ticket]. repeat split; try done.
        -- apply NoDup_app. repeat split; [done| |apply NoDup_singleton].
           intros i Hi Hi'. apply list_elem_of_singleton in Hi'. subst i.
           apply list_elem_of_fmap in Hi as (w & Hw & Hin).
           rewrite Forall_forall in Htbelow. specialize (Htbelow _ Hin). lia.
        -- apply Forall_app. split.
           ++ eapply Forall_impl; [exact Htbelow|]. intros w Hw. cbn in *. lia.
           ++ constructor; [|done]. cbn. lia.
  - unfold release.
    set (freed := mkConn (id c) false now (created c)).
    set (taken := mkConn (id c) true now (created c)).
    change (waitQueue (setConnection freed p)) with (waitQueue p).
    destruct (waitQueue p) as [|w rest] eqn:Hq.
    + cbn [snd]. unfold sound. rewrite (setConnection_ids freed p).
      change (waitQueue (setConnection freed p)) with (waitQueue p).
      rewrite Hq. repeat split; try done. exact (setConnection_below freed p Hbelow).
    + cbn [snd]. unfold sound. rewrite setConnection_ids.
      cbn [connections waitQueue nextId nextTicket setConnection].
      change (map id (map _ (connections p)))
        with (map id (connections (setConnection freed p))).
      rewrite (setConnection_ids freed p).
      cbn [map] in Htickets. apply NoDup_cons in Htickets as [_ Htickets].
      apply Forall_cons in Htbelow as [_ Htbelow].
      repeat split; try done.
      * apply Forall_fmap, Forall_fmap. eapply Forall_impl; [exact Hbelow|].
        intros c' Hc'. cbn in Hc' |- *.
        destruct (Nat.eqb_spec (id c') (id c)) as [Heq|Hne];
          subst freed taken; cbn [id].
        -- rewrite Nat.eqb_refl. cbn [id]. lia.
        -- by destruct (Nat.eqb_spec (id c') (id c)).
      * intros _. apply Forall_fmap, Forall_fmap.
        eapply Forall_impl; [exact (Hbusy ltac:(done))|].
        intros c' Hc'. cbn in Hc' |- *.
        destruct (Nat.eqb_spec (id c') (id c)) as [Heq|Hne];
          subst freed taken; cbn [id].
        -- by rewrite Nat.eqb_refl.
        -- by destruct (Nat.eqb_spec (id c') (id c)).
  - cbn [timeout snd]. unfold sound.
    cbn [connections waitQueue nextId nextTicket].
    assert (Hsub : filter (fun w => negb (ticket w =? t)%nat) (waitQueue p)
                     `sublist_of` waitQueue p) by apply sublist_filter.
    repeat split; try done.
    + exact (sublist_distinct _ _ _ Hsub Htickets).
    + exact (sublist_all _ _ _ Hsub Htbelow).
    + intros Hq. apply Hbusy. intros Hnil. by rewrite Hnil in Hq.
  - destruct (cleanup_sublist now p) as (Hs & Hw & Hn & Ht & _).
    unfold sound. rewrite Hw, Hn, Ht. repeat split; try done.
    + exact (sublist_distinct _ _ _ Hs Hids).
    + exact (sublist_all _ _ _ Hs Hbelow).
    + intros Hq. exact (sublist_all _ _ _ Hs (Hbusy Hq)).
  - unfold close. destruct (waitQueue p) eqn:Hq; cbn [snd]; unfold sound;
      cbn [connections waitQueue nextId nextTicket]; rewrite ?Hq.
    + repeat split; try done; constructor.
    + by repeat split.
Qed.

Lemma sound_run ops : forall p, sound p -> sound (run ops p).
Proof.
  induction ops as [|op ops IH]; intros p Hp; [done|].
  apply IH. by apply sound_step.
Qed.

Lemma createMany_spec now k : forall p,
  sound p -> waitQueue p = [] ->
  sound (createMany now k p)
  /\ waitQueue (createMany now k p) = []
  /\ length (connections (createMany now k p)) = (length (connections p) + k)%nat
  /\ options (createMany now k p) = options p.
Proof.
  induction k as [|k IH]; intros p Hp Hq.
  { cbn [createMany]. rewrite Nat.add_0_r. split; [exact Hp|by repeat split]. }
  cbn [createMany createConnection snd].
  destruct Hp as (Hids & Hbelow & Htickets & Htbelow & Hbusy).
  match goal with |- context [createMany now k ?q] =>
    destruct (IH q) as (Hs & Hw & Hl & Ho) end.
  - unfold sound. cbn [connections waitQueue nextId nextTicket].
    rewrite map_app, Hq. cbn [map]. repeat split; try done; try constructor.
    + apply NoDup_app. repeat split; [done| |apply NoDup_singleton].
      intros i Hi Hi'. apply list_elem_of_singleton in Hi'. subst i.
      apply list_elem_of_fmap in Hi as (c' & Hc' & Hin).
      rewrite Forall_forall in Hbelow. specialize (Hbelow _ Hin). cbn in Hc'. lia.
    + apply Forall_app. split.
      * eapply Forall_impl; [exact Hbelow|]. intros c' Hc'. cbn in *. lia.
      * constructor; [|done]. cbn. lia.
  - done.
  - split; [exact Hs|]. split; [done|]. split; [|done].
    rewrite Hl. cbn [connections]. rewrite length_app. cbn. lia.
Qed.

Lemma create_spec now o :
  sound (create now o)
  /\ length (connections (create now o)) = N.to_nat (default 0 (min o))
  /\ min (options (create now o)) = min o
  /\ max (options (create now o)) = max o.
Proof.
  unfold create.
  match goal with |- context [createMany now ?k ?q] =>
    destruct (createMany_spec now k q) as (Hs & _ & Hl & Ho) end.
  - unfold sound. cbn. repeat split; try done; constructor.
  - done.
  - split; [exact Hs|]. rewrite Ho. cbn [options min max connections length] in *.
    by repeat split.
Qed.

(** No call opens a handle beyond the bound. *)
Lemma step_bound bound p op :
  (length (connections p) <= bound)%nat ->
  (N.to_nat (default 0%N (max (options p))) <= bound)%nat ->
  (length (connections (step p op)) <= bound)%nat
  /\ max (options (step p op)) = max (options p).
Proof.
  intros Hlen Hmax. destruct op as [now|now c|t|now|]; cbn [step].
  - unfold acquire. destruct (closed p); [done|].
    destruct (find _ (connections p)) as [c|].
    + cbn [snd]. by rewrite setConnection_length.
    + destruct (max (options p)) as [m|] eqn:Hm; [|done].
      destruct (N.ltb_spec (N.of_nat (length (connections p))) m); [|done].
      cbn [createConnection snd]. rewrite setConnection_length.
      cbn [connections options setConnection]. rewrite length_app.
      cbn in Hmax |- *. split; [lia|done].
  - unfold release. destruct (waitQueue (setConnection _ p)); cbn [snd].
    + by rewrite setConnection_length.
    + rewrite setConnection_length. cbn [connections options setConnection].
      by rewrite length_map.
  - done.
  - destruct (cleanup_sublist now p) as (Hs & _ & _ & _ & Ho).
    rewrite Ho. split; [|done]. apply sublist_length in Hs. lia.
  - unfold close. destruct (waitQueue p); cbn [snd connections options length];
      split; try done; lia.
Qed.

Lemma run_bound bound ops : forall p,
  (length (connections p) <= bound)%nat ->
  (N.to_nat (default 0%N (max (options p))) <= bound)%nat ->
  (length (connections (run ops p)) <= bound)%nat.
Proof.
  induction ops as [|op ops IH]; intros p Hlen Hmax; [done|].
  destruct (step_bound bound p op Hlen Hmax) as [Hlen' Hmax'].
  apply IH; [done|]. by rewrite Hmax'.
Qed.
End PoolSound.

(** What a pool keeps through any sequence of calls ([acquire],
    [release] of any handle, the timers of the waiters, the clean-up of
    idle handles, [close]), from its construction on: the handles have
    distinct ids and the waiters distinct tickets; no one waits in the
    queue while a handle is idle; and there are never more handles open
    than the pool started with or [acquire] goes up to ([min] and [max],
    under the names the class reads). *)
Theorem pool_keeps_its_invariants now o ops :
  let p := PoolOps.run ops (Pool.create now o) in
  NoDup (map Pool.id (Pool.connections p))
  /\ NoDup (map Pool.ticket (Pool.waitQueue p))
  /\ (Pool.waitQueue p <> [] ->
      Forall (fun c => Pool.inUse c = true) (Pool.connections p))
  /\ (length (Pool.connections p) <= PoolOps.mostHandles o)%nat.
Proof.
  cbn zeta. destruct (create_spec now o) as (Hs & Hl & Hmin & Hmax).
  destruct (sound_run ops _ Hs) as (Hids & _ & Htickets & _ & Hbusy).
  repeat split; try done.
  apply run_bound; unfold PoolOps.mostHandles; [rewrite Hl|rewrite Hmax]; lia.
Qed.

(** ** The connection pool: clean-up, close, and a handle's round trip *)

Section PoolCalls.
Import Pool.
Import PoolOps.

Lemma removeFirst_middle kept c rest :
  id c ∉ map id kept ->
  removeFirst (id c) (kept ++ c :: rest) = kept ++ rest.
Proof.
  induction kept as [|k kept IH]; intros Hnot; cbn.
  - by rewrite Nat.eqb_refl.
  - destruct (Nat.eqb_spec (id k) (id c)) as [Heq|Hne].
    + exfalso. apply Hnot. cbn. rewrite Heq. apply list_elem_of_here.
    + rewrite IH; [done|]. intros Hin. apply Hnot. cbn.
      by apply list_elem_of_further.
Qed.

(** Closing the handles a test picks, one after the other, leaves the
    others, in their order. *)
Lemma closing_filter (P : PooledConnection -> bool) o q n t b cs : forall kept,
  NoDup (map id (kept ++ cs)) ->
  connections
    (fold_left (fun p conn => closeConnection conn p) (filter P cs)
       (mkPool o (kept ++ cs) q n t b))
  = kept ++ filter (fun c => negb (P c)) cs.
Proof.
  induction cs as [|c cs IH]; intros kept Hids; [done|].
  destruct (P c) eqn:Hc.
  - rewrite filter_cons_True by (cbn beta; rewrite Hc; cbn; tauto).
    rewrite filter_cons_False by (cbn beta; rewrite Hc; cbn; tauto).
    cbn [fold_left]. unfold closeConnection at 2.
    cbn [connections options waitQueue nextId nextTicket closed].
    rewrite removeFirst_middle.
    + apply IH. rewrite map_app in *. cbn [map] in Hids.
      apply NoDup_app in Hids as (Hk & Hdis & Hcs).
      apply NoDup_cons in Hcs as [_ Hcs].
      apply NoDup_app. repeat split; [done| |done].
      intros i Hi Hi'. apply (Hdis i Hi). by apply list_elem_of_further.
    + rewrite map_app in Hids. cbn [map] in Hids.
      apply NoDup_app in Hids as (_ & Hdis & _).
      intros Hin. apply (Hdis _ Hin). apply list_elem_of_here.
  - rewrite filter_cons_False by (cbn beta; rewrite Hc; cbn; tauto).
    rewrite filter_cons_True by (cbn beta; rewrite Hc; cbn; tauto).
    replace (kept ++ c :: cs) with ((kept ++ [c]) ++ cs)
      by (by rewrite <- app_assoc).
    rewrite IH by (by rewrite <- app_assoc).
    by rewrite <- app_assoc.
Qed.

Lemma cleanup_filter now p :
  NoDup (map id (connections p)) ->
  connections (cleanupIdleConnections now p)
  = if match min (options p) with
       | Some m => N.of_nat (length (connections p)) <=? m
       | None => false
       end
    then connections p
    else filter (fun c => negb (idleTooLong now p c)) (connections p).
Proof.
  intros Hids. unfold cleanupIdleConnections.
  destruct (match min (options p) with Some _ => _ | None => _ end); [done|].
  destruct p as [o cs q n t b]. cbn [connections] in *.
  exact (closing_filter _ o q n t b cs [] Hids).
Qed.

(** The handles in use. *)
Lemma active_setConnection c l :
  NoDup (map id l) ->
  forall c0, c0 ∈ l -> id c0 = id c ->
  (length (filter (fun c' => inUse c')
             (map (fun c' => if (id c' =? id c)%nat then c else c') l))
   + (if inUse c0 then 1 else 0))%nat
  = (length (filter (fun c' => inUse c') l) + (if inUse c then 1 else 0))%nat.
Proof.
  intros Hids c0 Hin Hid.
  induction l as [|x l IH]; [by apply elem_of_nil in Hin|].
  cbn [map] in *. apply NoDup_cons in Hids as [Hx Hids].
  apply elem_of_cons in Hin as [<-|Hin].
  - rewrite Hid, Nat.eqb_refl.
    assert (Hsame : map (fun c' => if (id c' =? id c)%nat then c else c') l = l).
    { clear IH. induction l as [|y l IHl]; [done|]. cbn [map] in *.
      apply not_elem_of_cons in Hx as [Hne Hx].
      apply NoDup_cons in Hids as [_ Hids].
      rewrite (IHl Hx Hids). destruct (Nat.eqb_spec (id y) (id c)); congruence. }
    rewrite Hsame.
    destruct (inUse c) eqn:Hc, (inUse c0) eqn:Hc0;
      repeat first
        [ rewrite filter_cons_True by (cbn beta; rewrite ?Hc, ?Hc0; cbn; tauto)
        | rewrite filter_cons_False by (cbn beta; rewrite ?Hc, ?Hc0; cbn; tauto) ];
      cbn [length]; lia.
  - destruct (Nat.eqb_spec (id x) (id c)) as [Heq|Hne].
    { exfalso. apply Hx. rewrite Heq, <- Hid. by apply list_elem_of_fmap_2. }
    specialize (IH Hids Hin).
    destruct (inUse x) eqn:Hxu;
      repeat first
        [ rewrite filter_cons_True by (cbn beta; rewrite ?Hxu; cbn; tauto)
        | rewrite filter_cons_False by (cbn beta; rewrite ?Hxu; cbn; tauto) ];
      cbn [length]; lia.
Qed.

Lemma find_idle_some l c :
  find (fun c => negb (inUse c)) l = Some c -> c ∈ l /\ inUse c = false.
Proof.
  intros H. apply find_some in H as [Hin Hc].
  split; [by apply list_elem_of_In|]. by destruct (inUse c).
Qed.

Lemma same_id_same_handle l x y :
  NoDup (map id l) -> x ∈ l -> y ∈ l -> id x = id y -> x = y.
Proof.
  induction l as [|z l IH]; intros Hids Hx Hy Hid; [by apply elem_of_nil in Hx|].
  cbn [map] in Hids. apply NoDup_cons in Hids as [Hz Hids].
  apply elem_of_cons in Hx as [->|Hx], Hy as [->|Hy]; [done|..|by apply IH].
  - exfalso. apply Hz. rewrite Hid. by apply list_elem_of_fmap_2.
  - exfalso. apply Hz. rewrite <- Hid. by apply list_elem_of_fmap_2.
Qed.

(** An idle handle of the pool taken in use, and released. *)
Lemma handed_out p0 c0 now now' :
  NoDup (map id (connections p0)) ->
  waitQueue p0 = [] ->
  c0 ∈ connections p0 ->
  inUse c0 = false ->
  let c := mkConn (id c0) true now (created c0) in
  let p1 := setConnection c p0 in
  c ∈ connections p1
  /\ (forall x, x ∈ connections p0 -> id x = id c -> inUse x = false)
  /\ active (getStats p1) = S (active (getStats p0))
  /\ active (getStats (release now' c p1).2) = active (getStats p0)
  /\ map id (connections (release now' c p1).2) = map id (connections p1).
Proof.
  intros Hids Hq Hin Hidle c p1.
  assert (Hc : c ∈ connections p1).
  { subst p1. cbn [setConnection connections].
    eapply list_elem_of_fmap_2'; [exact Hin|]. subst c. cbn [id].
    by rewrite Nat.eqb_refl. }
  split; [done|]. split.
  { intros x Hx Hid. by rewrite (same_id_same_handle _ x c0 Hids Hx Hin Hid). }
  pose proof (active_setConnection c _ Hids c0 Hin eq_refl) as Hup.
  rewrite Hidle in Hup. cbn [inUse c] in Hup.
  assert (Hact : active (getStats p1) = S (active (getStats p0))).
  { subst p1. cbn [getStats active setConnection connections]. lia. }
  split; [done|].
  unfold release. change (waitQueue (setConnection _ p1)) with (waitQueue p0).
  rewrite Hq. cbn [snd]. split; [|apply setConnection_ids].
  assert (Hids1 : NoDup (map id (connections p1)))
    by (subst p1; by rewrite setConnection_ids).
  pose proof (active_setConnection (mkConn (id c) false now' (created c)) _
                Hids1 c Hc eq_refl) as Hdown.
  cbn [inUse c] in Hdown.
  cbn [getStats active setConnection connections] in Hact |- *. lia.
Qed.
End PoolCalls.

(** The clean-up looks at [min] only to decide whether to run.  Once the
    pool holds more than [min] handles, it closes every idle handle not
    used for longer than [idleTimeout], all of them at once, however few
    remain: the pool can be left with fewer than [min] handles, or with
    none. *)
Theorem cleanup_closes_every_stale_handle now0 o ops now m idle :
  let p := PoolOps.run ops (Pool.create now0 o) in
  Pool.min o = Some m ->
  Pool.idleTimeout o = Some idle ->
  m < N.of_nat (length (Pool.connections p)) ->
  Pool.connections (PoolOps.cleanupIdleConnections now p)
  = filter (fun c => Pool.inUse c
                     || negb (Z.of_N idle <? Z.of_N now - Z.of_N (Pool.lastUsed c))%Z)
      (Pool.connections p).
Proof.
  cbn zeta. intros Hmin Hidle Hmore.
  destruct (create_spec now0 o) as (Hs & _).
  destruct (sound_run ops _ Hs) as (Hids & _).
  rewrite (cleanup_filter now _ Hids).
  assert (Hopts : forall ops p, Pool.options (PoolOps.run ops p) = Pool.options p).
  { clear. induction ops as [|op ops IH]; intros p; [done|].
    cbn [PoolOps.run fold_left]. etrans; [apply IH|].
    destruct op as [t|t c|t|t|]; cbn [PoolOps.step].
    - unfold Pool.acquire. destruct (Pool.closed p); [done|].
      destruct (find _ _); [done|].
      by destruct (match Pool.max (Pool.options p) with Some _ => _ | None => _ end).
    - unfold Pool.release. by destruct (Pool.waitQueue _).
    - done.
    - by destruct (cleanup_sublist t p) as (_ & _ & _ & _ & Ho).
    - unfold PoolOps.close. by destruct (Pool.waitQueue p). }
  assert (Hcreate : Pool.min (Pool.options (Pool.create now0 o)) = Pool.min o
                    /\ Pool.idleTimeout (Pool.options (Pool.create now0 o))
                       = Pool.idleTimeout o).
  { unfold Pool.create.
    match goal with |- context [Pool.createMany now0 ?k ?q] =>
      destruct (createMany_spec now0 k q) as (_ & _ & _ & Ho) end;
      [|done|by rewrite Ho].
    unfold PoolOps.sound. cbn. repeat split; try done; constructor. }
  destruct Hcreate as [Hmin' Hidle'].
  unfold PoolOps.idleTooLong. rewrite !Hopts, Hmin', Hidle', Hmin, Hidle.
  destruct (N.leb_spec (N.of_nat (length (Pool.connections
              (PoolOps.run ops (Pool.create now0 o))))) m); [lia|].
  apply N.ltb_lt in Hmore. rewrite Hmore.
  apply list_filter_iff. intros c. rewrite andb_true_r.
  destruct (Pool.inUse c), (Z.of_N idle <? _)%Z; cbn; tauto.
Qed.

Lemma cleanup_leaves_no_handle_of_three :
  let p := PoolOps.run [PoolOps.Acquire 10; PoolOps.Acquire 20; PoolOps.Acquire 30;
                        PoolOps.Release 40 (Pool.mkConn 1 true 10 0);
                        PoolOps.Release 50 (Pool.mkConn 2 true 20 0);
                        PoolOps.Release 60 (Pool.mkConn 3 true 30 30)]
             (Pool.create 0
                (Pool.mkOptions None None None None None
                   (Some 2) (Some 3) (Some 60000) (Some 30000))) in
  Pool.connections (PoolOps.cleanupIdleConnections 100000 p)
  = filter (fun c => Pool.inUse c
                     || negb (Z.of_N 60000 <? Z.of_N 100000 - Z.of_N (Pool.lastUsed c))%Z)
      (Pool.connections p)
  /\ length (Pool.connections p) = 3%nat
  /\ Pool.connections (PoolOps.cleanupIdleConnections 100000 p) = [].
Proof.
  cbn zeta. split.
  - apply (cleanup_closes_every_stale_handle 0 _ _ 100000 2 60000);
      [reflexivity..|vm_compute; reflexivity].
  - split; vm_compute; reflexivity.
Defined.

(** Closing a pool while someone waits for a handle fails and closes
    nothing: the call throws a [TypeError] out of the first resolver, the
    handles stay open and the queue stays as it was.  The pool is marked
    closed all the same, so [acquire] is refused from then on, while
    [release] still hands its handle to the first waiter. *)
Theorem close_with_a_waiter_throws_and_closes_no_handle p w rest now c :
  Pool.waitQueue p = w :: rest ->
  (exists e, (PoolOps.close p).1 = Thrown e
             /\ message e = js "Cannot set properties of null (setting 'inUse')")
  /\ Pool.connections (PoolOps.close p).2 = Pool.connections p
  /\ Pool.waitQueue (PoolOps.close p).2 = Pool.waitQueue p
  /\ (Pool.acquire now (PoolOps.close p).2).1
     = Pool.Rejected (mkError None (js "Connection pool is closed"))
  /\ (Pool.release now c (PoolOps.close p).2).1
     = Some (w, Pool.mkConn (Pool.id c) true now (Pool.created c)).
Proof.
  intros Hq. unfold PoolOps.close. rewrite Hq. cbn [fst snd].
  split; [by eexists|]. split; [done|]. split; [done|]. split; [done|].
  unfold Pool.release. cbn [Pool.setConnection Pool.waitQueue]. done.
Qed.

Lemma close_of_a_full_pool_with_one_waiter :
  let p := PoolOps.run [PoolOps.Acquire 10; PoolOps.Acquire 20]
             (Pool.create 0
                (Pool.mkOptions None None None None None
                   (Some 1) (Some 1) (Some 60000) (Some 30000))) in
  (exists e, (PoolOps.close p).1 = Thrown e
             /\ message e = js "Cannot set properties of null (setting 'inUse')")
  /\ Pool.connections (PoolOps.close p).2 = Pool.connections p
  /\ Pool.waitQueue (PoolOps.close p).2 = Pool.waitQueue p
  /\ (Pool.acquire 30 (PoolOps.close p).2).1
     = Pool.Rejected (mkError None (js "Connection pool is closed"))
  /\ (Pool.release 30 (Pool.mkConn 1 true 10 0) (PoolOps.close p).2).1
     = Some (Pool.mkWaiter 1 (Some 30000), Pool.mkConn 1 true 30 0).
Proof.
  cbn zeta.
  apply (close_with_a_waiter_throws_and_closes_no_handle _
           (Pool.mkWaiter 1 (Some 30000)) [] 30 (Pool.mkConn 1 true 10 0)).
  vm_compute. reflexivity.
Defined.

(** A handle's round trip.  On a pool where no one waits, a handle that
    [acquire] hands out was idle or is new, and is in use afterwards: the
    number of handles in use goes up by one; releasing it brings the
    number back to what it was, and no handle is closed by either call. *)
Theorem acquire_then_release_keeps_the_active_count now0 o ops now now' c p1 :
  let p := PoolOps.run ops (Pool.create now0 o) in
  Pool.waitQueue p = [] ->
  Pool.acquire now p = (Pool.Connection c, p1) ->
  Pool.inUse c = true
  /\ c ∈ Pool.connections p1
  /\ (forall c0, c0 ∈ Pool.connections p -> Pool.id c0 = Pool.id c ->
        Pool.inUse c0 = false)
  /\ PoolOps.active (PoolOps.getStats p1) = S (PoolOps.active (PoolOps.getStats p))
  /\ PoolOps.active (PoolOps.getStats (Pool.release now' c p1).2)
     = PoolOps.active (PoolOps.getStats p)
  /\ map Pool.id (Pool.connections (Pool.release now' c p1).2)
     = map Pool.id (Pool.connections p1).
Proof.
  cbn zeta. intros Hq Hacq.
  destruct (create_spec now0 o) as (Hs & _).
  destruct (sound_run ops _ Hs) as (Hids & Hbelow & _).
  set (p := PoolOps.run ops (Pool.create now0 o)) in *.
  unfold Pool.acquire in Hacq. destruct (Pool.closed p); [done|].
  destruct (find _ (Pool.connections p)) as [c0|] eqn:Hfind.
  - injection Hacq as <- <-.
    apply find_idle_some in Hfind as [Hin Hidle].
    split; [done|]. exact (handed_out p c0 now now' Hids Hq Hin Hidle).
  - destruct (match Pool.max (Pool.options p) with Some _ => _ | None => _ end);
      [|done].
    cbn [Pool.createConnection Pool.id Pool.created] in Hacq.
    injection Hacq as <- <-.
    set (c0 := Pool.mkConn (Pool.nextId p) false now now).
    set (p0 := Pool.mkPool (Pool.options p) (Pool.connections p ++ [c0])
                 (Pool.waitQueue p) (S (Pool.nextId p)) (Pool.nextTicket p)
                 (Pool.closed p)).
    assert (Hnew : Pool.nextId p ∉ map Pool.id (Pool.connections p)).
    { intros Hi. apply list_elem_of_fmap in Hi as (x & Hx & Hin).
      rewrite Forall_forall in Hbelow. specialize (Hbelow _ Hin). cbn in Hbelow.
      lia. }
    destruct (handed_out p0 c0 now now') as (Hc & _ & Hup & Hdown & Hsame).
    + subst p0. cbn [Pool.connections]. rewrite map_app. cbn [map].
      apply NoDup_app. repeat split; [done| |apply NoDup_singleton].
      intros i Hi Hi'. apply list_elem_of_singleton in Hi'. by subst i.
    + done.
    + subst p0. cbn [Pool.connections]. apply elem_of_app. right.
      apply list_elem_of_here.
    + done.
    + assert (Hsame0 : PoolOps.active (PoolOps.getStats p0)
                       = PoolOps.active (PoolOps.getStats p)).
      { subst p0. cbn [PoolOps.getStats PoolOps.active Pool.connections].
        rewrite filter_app.
        rewrite (filter_cons_False _ c0) by (subst c0; cbn; tauto).
        by rewrite filter_nil, app_nil_r. }
      cbn zeta in *. cbn [Pool.id Pool.created c0] in *.
      rewrite Hsame0 in *. split; [done|]. split; [done|]. split; [|done].
      intros x Hx Hid. exfalso. apply Hnew. cbn [Pool.id] in Hid.
      rewrite <- Hid. by apply list_elem_of_fmap_2.
Qed.

Lemma acquire_then_release_on_a_new_pool :
  let p := PoolOps.run []
             (Pool.create 0
                (Pool.mkOptions None None None None None
                   (Some 1) (Some 2) (Some 60000) (Some 30000))) in
  let c := Pool.mkConn 1 true 10 0 in
  let p1 := (Pool.acquire 10 p).2 in
  Pool.inUse c = true
  /\ c ∈ Pool.connections p1
  /\ (forall c0, c0 ∈ Pool.connections p -> Pool.id c0 = Pool.id c ->
        Pool.inUse c0 = false)
  /\ PoolOps.active (PoolOps.getStats p1) = S (PoolOps.active (PoolOps.getStats p))
  /\ PoolOps.active (PoolOps.getStats (Pool.release 20 c p1).2)
     = PoolOps.active (PoolOps.getStats p)
  /\ map Pool.id (Pool.connections (Pool.release 20 c p1).2)
     = map Pool.id (Pool.connections p1).
Proof.
  cbn zeta.
  apply (acquire_then_release_keeps_the_active_count 0 _ [] 10 20);
    vm_compute; reflexivity.
Defined.

(** ** The foreign-key resolver: what it can create *)

Section Resolver.
Import Sqlite.
Import FK.
Import StoreProps.

Lemma mapM_bind3 a b c vals :
  mapM bindValue [a; b; c] = Returned vals ->
  exists x y z, vals = [x; y; z] /\ bindValue b = Returned y /\ bindValue c = Returned z.
Proof.
  intros H. apply mapM_Returned_inv in H.
  apply Forall2_cons_inv_l in H as (x & r1 & _ & H & ->).
  apply Forall2_cons_inv_l in H as (y & r2 & Hy & H & ->).
  apply Forall2_cons_inv_l in H as (z & r3 & Hz & H & ->).
  apply Forall2_nil_inv_l in H as ->. by exists x, y, z.
Qed.

Lemma mapM_bind4 a b c d vals :
  mapM bindValue [a; b; c; d] = Returned vals ->
  exists x y z u, vals = [x; y; z; u] /\ bindValue b = Returned y.
Proof.
  intros H. apply mapM_Returned_inv in H.
  apply Forall2_cons_inv_l in H as (x & r1 & _ & H & ->).
  apply Forall2_cons_inv_l in H as (y & r2 & Hy & H & ->).
  apply Forall2_cons_inv_l in H as (z & r3 & Hz & H & ->).
  apply Forall2_cons_inv_l in H as (u & r4 & Hu & H & ->).
  apply Forall2_nil_inv_l in H as ->. by exists x, y, z, u.
Qed.

(** The table [sessions] has no column [path]: the statement is refused. *)
Lemma insert_session_refused vals db :
  (insertInto true "sessions" ["id"; "path"; "timestamp"] vals db).2 = db.
Proof. reflexivity. Qed.

(** The row lacks [parameters], which may not be NULL: the INSERT OR
    IGNORE passes it over. *)
Lemma insert_tool_use_ignored x y z db :
  insertInto true "tool_uses" ["toolId"; "messageId"; "toolName"] [x; y; z] db
  = (Returned 0%nat, db).
Proof.
  unfold insertInto.
  change (findTable "tool_uses") with (Some (tableNamed "tool_uses")).
  cbv beta iota.
  change (find _ ["toolId"; "messageId"; "toolName"]%string) with (@None string).
  cbv beta iota. cbn [length Nat.eqb negb].
  destruct (conflict _ _ db) eqn:Hc; [done|].
  exfalso. unfold conflict in Hc.
  destruct (find _ (columns (tableNamed "tool_uses"))) eqn:Hf; [done|].
  eapply find_none in Hf.
  - instantiate (1 := textNotNull "parameters") in Hf. by vm_compute in Hf.
  - vm_compute. tauto.
Qed.

(** A message made by the resolver hangs under the session "unknown". *)
Lemma insert_message_under_unknown x z u db res db' :
  insertInto true "messages" ["id"; "sessionId"; "type"; "timestamp"]
    [x; SText (js "unknown"); z; u] db = (res, db') ->
  db' = db
  \/ (hasUnknownSession db = true
      /\ exists row, db' = <["messages" := rowsOf "messages" db ++ [row]]> db
           /\ field (tableNamed "messages") "sessionId" row
              = SText (js "unknown")).
Proof.
  intros H. apply insertInto_inv in H as [[-> _]|(t & Ht & _ & _ & Hfk & ->)];
    [by left|right].
  change (findTable "messages") with (Some (tableNamed "messages")) in Ht.
  injection Ht as <-. split.
  - unfold foreignKeysHold in Hfk.
    change (foreignKeys (tableNamed "messages"))
      with [mkFK "sessionId" "sessions" "sessionId"] in Hfk.
    cbn [forallb fk_column fk_parentTable fk_parentColumn] in Hfk.
    change (field (tableNamed "messages") "sessionId"
              (buildRow (tableNamed "messages")
                 ["id"; "sessionId"; "type"; "timestamp"]
                 [x; SText (js "unknown"); z; u]))
      with (SText (js "unknown")) in Hfk.
    change (findTable "sessions") with (Some (tableNamed "sessions")) in Hfk.
    by rewrite andb_true_r in Hfk.
  - eexists. split; [done|]. reflexivity.
Qed.

Lemma createParent_store now parentTable parentId db :
  parentTable ∈ [js "sessions"; js "messages"; js "tool_uses"] ->
  let db' := (createParent now parentTable parentId undefined db).2 in
  db' = db
  \/ (hasUnknownSession db = true
      /\ exists row, db' = <["messages" := rowsOf "messages" db ++ [row]]> db
           /\ field (tableNamed "messages") "sessionId" row
              = SText (js "unknown")).
Proof.
  intros Hin. cbn zeta. unfold createParent.
  destruct (_ ← bindValue parentId; _) as [[]|]; [by left| |by left].
  change (getPropOpt _ undefined) with undefined.
  change (orElse undefined ?d) with d.
  rewrite !elem_of_cons in Hin.
  destruct Hin as [->|[->|[->|Hin]]]; [..|by apply elem_of_nil in Hin].
  - change (bool_decide (js "sessions" = js "sessions")) with true. cbv iota.
    change (string_of_list_ascii (map ascii_of_N (js "sessions")))
      with "sessions"%string.
    destruct (mapM bindValue _) as [vals|]; [|by left].
    pose proof (insert_session_refused vals db) as Hs.
    destruct (insertInto _ _ _ _ _) as [[] db']; cbn [snd] in *; by left.
  - change (bool_decide (js "messages" = js "sessions")) with false.
    change (bool_decide (js "messages" = js "messages")) with true. cbv iota.
    change (string_of_list_ascii (map ascii_of_N (js "messages")))
      with "messages"%string.
    destruct (mapM bindValue _) as [vals|] eqn:Hvals; [|by left].
    apply mapM_bind4 in Hvals as (x & y & z & u & -> & Hy).
    injection Hy as <-.
    destruct (insertInto _ _ _ _ _) as [res db'] eqn:Hins.
    apply insert_message_under_unknown in Hins.
    by destruct res.
  - change (bool_decide (js "tool_uses" = js "sessions")) with false.
    change (bool_decide (js "tool_uses" = js "messages")) with false.
    change (bool_decide (js "tool_uses" = js "tool_uses")) with true. cbv iota.
    change (string_of_list_ascii (map ascii_of_N (js "tool_uses")))
      with "tool_uses"%string.
    destruct (mapM bindValue _) as [vals|] eqn:Hvals; [|by left].
    apply mapM_bind3 in Hvals as (x & y & z & -> & _).
    rewrite insert_tool_use_ignored. by left.
Qed.

Lemma relationship_parent key relationship :
  find (fun kv : jsstring * jsstring => bool_decide (kv.1 = key)) fkRelationships
  = Some relationship ->
  relationship.2 ∈ [js "sessions"; js "messages"; js "tool_uses"].
Proof.
  intros H. apply find_some in H as [Hin _].
  apply list_elem_of_In in Hin. unfold fkRelationships in Hin.
  apply list_elem_of_fmap in Hin as ([a b] & -> & Hin). cbn [snd].
  rewrite !elem_of_cons in Hin. rewrite !elem_of_cons.
  destruct Hin as [[= _ <-]|[[= _ <-]|[[= _ <-]|[[= _ <-]|[[= _ <-]|Hin]]]]];
    auto.
  by apply elem_of_nil in Hin.
Qed.

Lemma tryCommonResolutions_store now fkError db :
  let db' := (tryCommonResolutions now fkError db).2 in
  db' = db
  \/ (hasUnknownSession db = true
      /\ exists row, db' = <["messages" := rowsOf "messages" db ++ [row]]> db
           /\ field (tableNamed "messages") "sessionId" row
              = SText (js "unknown")).
Proof.
  cbn zeta. unfold tryCommonResolutions. cbv zeta.
  match goal with |- context [find ?f fkRelationships] =>
    destruct (find f fkRelationships) as [relationship|] eqn:Hfind end;
    [|by left].
  apply relationship_parent in Hfind. unfold resolveByCreatingParent.
  pose proof (createParent_store now relationship.2
                (orElse (value fkError) (str "unknown")) db Hfind) as H.
  cbn zeta in H.
  by destruct (createParent _ _ _ _ _) as [[] db'].
Qed.

Lemma tryCommonResolutions_unchanged now fkError db :
  hasUnknownSession db = false ->
  (tryCommonResolutions now fkError db).2 = db.
Proof.
  intros Hno. destruct (tryCommonResolutions_store now fkError db) as [H|[H _]];
    [done|congruence].
Qed.

Lemma retryFrom_fails {T} now (operation : DB -> outcome T * DB) maxRetries db e :
  hasUnknownSession db = false ->
  operation db = (Thrown e, db) ->
  forall fuel attempt lastError,
  exists e',
    retryFrom now operation maxRetries attempt fuel lastError db = (Thrown e', db)
    /\ ((fuel = 0%nat /\ e' = lastError) \/ e' = e
        \/ e' = mkError None
                  (js "FK constraint failure after "
                   ++ decimal (Z.of_nat maxRetries) ++ js " attempts: "
                   ++ message e)).
Proof.
  intros Hno Hop. induction fuel as [|fuel IH]; intros attempt lastError.
  { eexists. split; [done|]. by left. }
  cbn [retryFrom]. rewrite Hop.
  destruct (negb (isFKCode e)); [eexists; split; [done|]; right; by left|].
  destruct (parseFKError e) as [fkError|];
    [|eexists; split; [done|]; right; by left].
  pose proof (tryCommonResolutions_unchanged now fkError db Hno) as Hsame.
  destruct (tryCommonResolutions now fkError db) as [resolved db'].
  cbn [snd] in Hsame. subst db'.
  assert (Hnext : exists e',
    retryFrom now operation maxRetries (S attempt) fuel e db = (Thrown e', db)
    /\ (e' = e
        \/ e' = mkError None
                  (js "FK constraint failure after "
                   ++ decimal (Z.of_nat maxRetries) ++ js " attempts: "
                   ++ message e))).
  { destruct (IH (S attempt) e) as (e' & Hr & [[_ ->]|H]); eauto. }
  destruct Hnext as (e' & Hr & He').
  destruct resolved; [exists e'; split; [done|by right]|].
  destruct (attempt =? maxRetries)%nat.
  - eexists. split; [done|]. right. by right.
  - exists e'. split; [done|by right].
Qed.
End Resolver.

(** The resolver of foreign-key failures can create one thing only.
    Whatever failure it is given, [tryCommonResolutions] leaves the store
    as it was, or adds one row to [messages] under the session whose
    [sessionId] is the text "unknown", which must be there already: it
    never creates a session or a tool use. *)
Theorem fk_resolver_creates_at_most_a_message_under_unknown now fkError db :
  let db' := (FK.tryCommonResolutions now fkError db).2 in
  db' = db
  \/ (StoreProps.hasUnknownSession db = true
      /\ exists row,
           db' = <["messages" := Sqlite.rowsOf "messages" db ++ [row]]> db
           /\ Sqlite.field (StoreProps.tableNamed "messages") "sessionId" row
              = Sqlite.SText (js "unknown")).
Proof.
  cbn zeta.
  destruct (tryCommonResolutions_store now fkError db) as [Hsame|[Hs Hrow]];
    [by left|right]. by split.
Qed.

(** The retry with resolution never rescues an operation.  On a store
    with no session called "unknown", an operation that fails and leaves
    the store as it was makes [retryWithFKResolution] throw, whatever the
    number of attempts, with the store as it was: the error of the
    operation, or that error under "FK constraint failure after N
    attempts". *)
Theorem fk_retry_never_rescues_a_failing_operation {T} now
    (operation : Sqlite.DB -> outcome T * Sqlite.DB) maxRetries db e :
  StoreProps.hasUnknownSession db = false ->
  operation db = (Thrown e, db) ->
  (1 <= maxRetries)%nat ->
  exists e',
    FK.retryWithFKResolution now operation maxRetries db = (Thrown e', db)
    /\ (e' = e
        \/ e' = mkError None
                  (js "FK constraint failure after "
                   ++ decimal (Z.of_nat maxRetries) ++ js " attempts: "
                   ++ message e)).
Proof.
  intros Hno Hop Hmax. unfold FK.retryWithFKResolution.
  destruct (retryFrom_fails now operation maxRetries db e Hno Hop maxRetries 1%nat
              (mkError None (js "undefined"))) as (e' & Hr & [[Hz _]|He']).
  - lia.
  - by exists e'.
Qed.

Lemma fk_retry_of_orphan_result_fails :
  exists e',
    FK.retryWithFKResolution (js "NOW") Scenario.insertOrphanResult 3
      Scenario.storeWithoutToolUse
    = (Thrown e', Scenario.storeWithoutToolUse)
    /\ (e' = Sqlite.SqliteError (js "SQLITE_CONSTRAINT_FOREIGNKEY")
               (js "FOREIGN KEY constraint failed")
        \/ e' = mkError None
                  (js "FK constraint failure after "
                   ++ decimal (Z.of_nat 3) ++ js " attempts: "
                   ++ message (Sqlite.SqliteError (js "SQLITE_CONSTRAINT_FOREIGNKEY")
                                 (js "FOREIGN KEY constraint failed")))).
Proof.
  apply (fk_retry_never_rescues_a_failing_operation (js "NOW")
           Scenario.insertOrphanResult 3 Scenario.storeWithoutToolUse).
  - vm_compute. reflexivity.
  - vm_compute. reflexivity.
  - lia.
Defined.

(** ** The retry on a busy database *)

Section Busy.
Import Executor.
Import StoreProps.

Lemma retryLoop_attempts {T} (operation : World -> outcome T * World) maxRetries :
  forall fuel attempt w,
  (attempt + fuel = S maxRetries)%nat -> (1 <= fuel)%nat ->
  exists k,
    (k < fuel)%nat
    /\ retryLoop operation maxRetries attempt fuel w
       = operation (after operation k w)
    /\ (forall j, (j < k)%nat ->
          exists e, (operation (after operation j w)).1 = Thrown e
                    /\ isBusy e = true)
    /\ ((k + attempt = maxRetries)%nat
        \/ match (operation (after operation k w)).1 with
           | Thrown e => isBusy e = false
           | Returned _ => True
           end).
Proof.
  induction fuel as [|fuel IH]; intros attempt w Hsum Hfuel; [lia|].
  cbn [retryLoop]. destruct (operation w) as [[r|e] w'] eqn:Hop.
  { exists 0%nat. cbn [after]. rewrite Hop. repeat split; [lia|lia|by right]. }
  destruct (isBusy e) eqn:Hbusy; cbn [andb].
  - destruct (Nat.ltb_spec attempt maxRetries) as [Hlt|Hge].
    + destruct (IH (S attempt) w') as (k & Hk & Hrun & Hearlier & Hlast); [lia..|].
      exists (S k). cbn [after]. rewrite Hop. cbn [snd].
      repeat split; [lia|done| |].
      * intros [|j] Hj.
        -- exists e. cbn [after]. by rewrite Hop.
        -- cbn [after]. rewrite Hop. apply Hearlier. lia.
      * destruct Hlast as [Hlast|Hlast]; [left; lia|by right].
    + exists 0%nat. cbn [after]. rewrite Hop. repeat split; [lia|lia|left; lia].
  - exists 0%nat. cbn [after]. rewrite Hop. cbn [fst].
    repeat split; [lia|lia|by right].
Qed.
End Busy.

(** What the retry on a busy database returns.  With a bound of at least
    one, [retryDatabaseOperation] runs the operation again and again,
    each attempt on the store the attempt before left, for as long as it
    fails with SQLITE_BUSY or with "database is locked"; its outcome is
    that of the first attempt that returns or fails otherwise, or that of
    attempt [maxRetries] when all before it were busy.  The operation is
    never run more than [maxRetries] times. *)
Theorem retry_ends_with_the_first_attempt_that_is_not_busy {T}
    (operation : Executor.World -> outcome T * Executor.World) maxRetries w :
  (1 <= maxRetries)%nat ->
  exists k,
    (k < maxRetries)%nat
    /\ Executor.retryDatabaseOperation operation maxRetries w
       = operation (StoreProps.after operation k w)
    /\ (forall j, (j < k)%nat ->
          exists e, (operation (StoreProps.after operation j w)).1 = Thrown e
                    /\ Executor.isBusy e = true)
    /\ (S k = maxRetries
        \/ match (operation (StoreProps.after operation k w)).1 with
           | Thrown e => Executor.isBusy e = false
           | Returned _ => True
           end).
Proof.
  intros Hmax. unfold Executor.retryDatabaseOperation.
  destruct (retryLoop_attempts operation maxRetries maxRetries 1%nat w)
    as (k & Hk & Hrun & Hearlier & Hlast); [lia..|].
  exists k. repeat split; [done..|].
  destruct Hlast as [Hlast|Hlast]; [left; lia|by right].
Qed.

Lemma retry_of_an_operation_busy_twice :
  let operation := fun w : Executor.World =>
    if (length w.2 <? 2)%nat
    then (Thrown (Sqlite.SqliteError (js "SQLITE_BUSY") (js "database is locked")),
          (w.1, w.2 ++ [Executor.mkLog "attempt" undefined undefined []]))
    else (Returned (length w.2), w) in
  exists k,
    (k < 5)%nat
    /\ Executor.retryDatabaseOperation operation 5 (∅, [])
       = operation (StoreProps.after operation k (∅, []))
    /\ (forall j, (j < k)%nat ->
          exists e, (operation (StoreProps.after operation j (∅, []))).1 = Thrown e
                    /\ Executor.isBusy e = true)
    /\ (S k = 5%nat
        \/ match (operation (StoreProps.after operation k (∅, []))).1 with
           | Thrown e => Executor.isBusy e = false
           | Returned _ => True
           end).
Proof.
  cbn zeta.
  apply (retry_ends_with_the_first_attempt_that_is_not_busy
           (fun w : Executor.World =>
              if (length w.2 <? 2)%nat
              then (Thrown (Sqlite.SqliteError (js "SQLITE_BUSY")
                              (js "database is locked")),
                    (w.1, w.2 ++ [Executor.mkLog "attempt" undefined undefined []]))
              else (Returned (length w.2), w)) 5 (∅, [])).
  lia.
Defined.

(** ** A file synced again *)

Section Again.
Import Sqlite.
Import Executor.
Import StoreProps.
Import Resync.

Lemma tally_tally a b a' b' r :
  tally a' b' (tally a b r) = tally (a + a') (b + b') r.
Proof. unfold tally. cbn. f_equal; lia. Qed.

Lemma tally_none r : tally 0 0 r = r.
Proof. destruct r. unfold tally. cbn. f_equal; lia. Qed.

Lemma adds_none db : adds [] db db.
Proof. split; [by rewrite app_nil_r|done]. Qed.

Lemma adds_trans rows rows' db1 db2 db3 :
  adds rows db1 db2 -> adds rows' db2 db3 -> adds (rows ++ rows') db1 db3.
Proof.
  intros [H1 H1'] [H2 H2']. split.
  - by rewrite H2, H1, <- app_assoc.
  - intros table Hne. by rewrite H2', H1'.
Qed.

Lemma adds_extends rows db db' : adds rows db db' -> extends db db'.
Proof.
  intros [H H'] table. destruct (String.eqb_spec table "tool_use_results") as [->|Hne].
  - rewrite H. by apply prefix_app_r.
  - by rewrite H'.
Qed.

Lemma adds_hasKey rows db db' t c v :
  adds rows db db' -> tname t <> "tool_use_results"%string ->
  hasKey t c v db' = hasKey t c v db.
Proof. intros [_ H] Hne. apply hasKey_rows. by apply H. Qed.

Lemma existsb_none {A} (f : A -> bool) xs :
  Forall (fun x => f x = false) xs -> existsb f xs = false.
Proof. induction 1 as [|x xs Hx _ IH]; [done|]. cbn. by rewrite Hx, IH. Qed.

(** A key that none of the new rows has is as absent as before. *)
Lemma adds_fresh rows db db' v :
  adds rows db db' ->
  Forall (fun row => field (tableNamed "tool_use_results") "id" row <> v) rows ->
  hasKey (tableNamed "tool_use_results") "id" v db'
  = hasKey (tableNamed "tool_use_results") "id" v db.
Proof.
  intros [H _] Hrows. unfold hasKey. destruct v; [done|..];
    change (tname (tableNamed "tool_use_results")) with "tool_use_results"%string;
    rewrite H, existsb_app;
    (rewrite (existsb_none _ rows); [by rewrite orb_false_r|]);
    (eapply Forall_impl; [exact Hrows|]); intros row Hrow;
    by apply bool_decide_eq_false.
Qed.

Lemma orElse_string s : s <> [] -> orElse (Some (JStr s)) null = Some (JStr s).
Proof. by destruct s. Qed.

(** A result with a new id whose parents are in the store is written. *)
Lemma insert_result_row r sid st :
  newId r (db st) -> parentsStored r (db st) ->
  exists row,
    rowOf r row
    /\ (found ← existsById "tool_use_results" (ToolResult.id r);
        if (found : bool) then mret tt
        else insertToolResultRecord r sid ;; bump "toolResultsInserted") st
       = (Returned tt,
          mkSt (<["tool_use_results"
                  := rowsOf "tool_use_results" (db st) ++ [row]]> (db st))
            (auditLog st
             ++ [mkLog "tool_use_results" sid (ToolResult.messageId r)
                   [("toolUseId", ToolResult.toolUseId r)]])
            (tally 0 1 (result st))).
Proof.
  intros (Hid & Hs & Hfresh)
    ((k & Hk & Hkne & Hku) & (m & Hm & Hmne & Hmu)
     & (o & Ho) & (mt & Hmt) & (e & He) & (et & Het)).
  set (s := idOf r) in *.
  set (t := tableNamed "tool_use_results") in *.
  set (cols := ["id"; "toolUseId"; "messageId"; "output"; "outputMimeType";
                "error"; "errorType"]%string).
  set (vals := [SText s; SText k; SText m; o; mt; e; et]).
  exists (buildRow t cols vals). split.
  { split; [reflexivity|]. split; [by exists k|]. split; [by exists m|].
    by exists o. }
  rewrite bind_run. unfold existsById at 1, lift, onDb. rewrite bind_run.
  rewrite Hid. change (bindValue (Some (JStr s))) with (Returned (SText s)).
  cbv beta iota. unfold selectById.
  change (findTable "tool_use_results") with (Some t).
  change (applyAffinity TEXT (SText s)) with (SText s).
  cbv beta iota. rewrite Hfresh. cbn [mret outcome_ret]. rewrite st_eta.
  unfold insertToolResultRecord, run, lift, onDb. rewrite !bind_run.
  rewrite Hid, Hk, Hm, !orElse_string by done.
  match goal with |- context [mapM bindValue ?args] =>
    assert (Hvals : mapM bindValue args = Returned vals)
      by (cbn [mapM]; rewrite Ho, Hmt, He, Het; reflexivity);
    rewrite Hvals
  end.
  cbv beta iota.
  change (insertInto false "tool_use_results" _ vals (db st))
    with (insertInto false "tool_use_results" cols vals (db st)).
  rewrite (insertInto_run false "tool_use_results" t cols vals (db st));
    [|reflexivity..].
  assert (Hconf : conflict t (buildRow t cols vals) (db st) = None).
  { unfold conflict.
    assert (find (fun c => notnull c
                    && bool_decide (field t (cname c) (buildRow t cols vals)
                                    = SNull))
              (columns t) = None) as -> by (by vm_compute).
    change (primaryKey t) with "id"%string.
    change (field t "id" (buildRow t cols vals)) with (SText s).
    rewrite Hfresh. reflexivity. }
  rewrite Hconf.
  assert (Hfk : foreignKeysHold t (buildRow t cols vals) (db st) = true).
  { unfold foreignKeysHold.
    change (foreignKeys t)
      with [mkFK "toolUseId" "tool_uses" "id"; mkFK "messageId" "messages" "id"].
    cbn [forallb fk_column fk_parentTable fk_parentColumn].
    change (field t "toolUseId" (buildRow t cols vals)) with (SText k).
    change (field t "messageId" (buildRow t cols vals)) with (SText m).
    change (findTable "tool_uses") with (Some (tableNamed "tool_uses")).
    change (findTable "messages") with (Some (tableNamed "messages")).
    cbv beta iota. by rewrite Hku, Hmu. }
  rewrite Hfk. cbv beta iota. cbn [db auditLog result].
  unfold logTransaction, bump, updateResult. cbn [db auditLog result].
  unfold tally. do 2 f_equal.
  f_equal; cbn; lia.
Qed.

Lemma insert_result r sid st :
  newId r (db st) -> parentsStored r (db st) ->
  exists row,
    field (tableNamed "tool_use_results") "id" row = SText (idOf r)
    /\ (found ← existsById "tool_use_results" (ToolResult.id r);
        if (found : bool) then mret tt
        else insertToolResultRecord r sid ;; bump "toolResultsInserted") st
       = (Returned tt,
          mkSt (<["tool_use_results"
                  := rowsOf "tool_use_results" (db st) ++ [row]]> (db st))
            (auditLog st
             ++ [mkLog "tool_use_results" sid (ToolResult.messageId r)
                   [("toolUseId", ToolResult.toolUseId r)]])
            (tally 0 1 (result st))).
Proof.
  intros Hn Hp. destruct (insert_result_row r sid st Hn Hp) as (row & [Hid _] & Hrun).
  by exists row.
Qed.

Lemma adds_one row (db : DB) :
  adds [row] db
    (<["tool_use_results" := rowsOf "tool_use_results" db ++ [row]]> db).
Proof.
  split; [by rewrite rowsOf_insert|].
  intros table Hne. by rewrite rowsOf_insert_ne.
Qed.

Lemma parentsStored_adds rows db db' r :
  adds rows db db' -> parentsStored r db -> parentsStored r db'.
Proof.
  intros Hadds ((k & Hk & Hkne & Hku) & (m & Hm & Hmne & Hmu) & Hrest).
  split; [exists k|split; [exists m|done]]; repeat split; try done.
  - by rewrite (adds_hasKey _ _ _ _ _ _ Hadds).
  - by rewrite (adds_hasKey _ _ _ _ _ _ Hadds).
Qed.

Lemma newId_adds rows db db' r :
  adds rows db db' ->
  Forall (fun row => field (tableNamed "tool_use_results") "id" row
                     <> SText (idOf r)) rows ->
  newId r db -> newId r db'.
Proof.
  intros Hadds Hrows (Hid & Hs & Hfresh). repeat split; [done..|].
  by rewrite (adds_fresh _ _ _ _ Hadds Hrows).
Qed.

Lemma storedButResults_extends parsed db db' :
  extends db db' -> storedButResults parsed db -> storedButResults parsed db'.
Proof.
  intros Hext (He & Hs & Hm & Hu & Ha & Hv). repeat split; [done|..].
  - by eapply sessionKnown_mono.
  - intros now m Hmsg. eapply stored_mono; [done|]. by eapply Hm.
  - eapply Forall_impl; [exact Hu|]. intros x Hx. by eapply stored_mono.
  - eapply Forall_impl; [exact Ha|]. intros x Hx. by eapply stored_mono.
  - intros e Henv. eapply stored_mono; [done|]. by apply Hv.
Qed.

(** The loop over the tool results of an entry writes them all. *)
Lemma results_inserted_rows sid rs : forall st,
  Forall (fun r => parentsStored r (db st)) rs ->
  Forall (fun r => newId r (db st)) rs ->
  NoDup (map idOf rs) ->
  exists rows st',
    forEach rs (fun toolResult =>
      found ← existsById "tool_use_results" (ToolResult.id toolResult);
      if (found : bool) then mret tt
      else insertToolResultRecord toolResult sid ;; bump "toolResultsInserted") st
    = (Returned tt, st')
    /\ Forall2 rowOf rs rows
    /\ adds rows (db st) (db st')
    /\ result st' = tally 0 (length rs) (result st).
Proof.
  induction rs as [|r rs IH]; intros st Hparents Hnew Hids.
  { exists [], st. cbn [forEach]. rewrite ret_run, tally_none.
    repeat split; try done. by rewrite app_nil_r. }
  apply Forall_cons in Hparents as [Hp Hparents].
  apply Forall_cons in Hnew as [Hn Hnew].
  cbn [map] in Hids. apply NoDup_cons in Hids as [Hr Hids].
  destruct (insert_result_row r sid st Hn Hp) as (row & Hrowof & Hrun).
  pose proof (proj1 Hrowof) as Hrow.
  cbn [forEach]. rewrite bind_run, Hrun.
  match goal with |- context [forEach rs _ ?s] => set (st1 := s) end.
  pose proof (adds_one row (db st)) as Hone.
  destruct (IH st1) as (rows & st' & Hloop & Hrows & Hadds & Hres).
  - eapply Forall_impl; [exact Hparents|]. intros x Hx.
    by apply (parentsStored_adds [row] (db st)).
  - apply Forall_forall. intros x Hx.
    apply (newId_adds [row] (db st)); [done| |].
    + constructor; [|done]. rewrite Hrow. intros [= Heq]. apply Hr.
      rewrite Heq. by apply list_elem_of_fmap_2.
    + rewrite Forall_forall in Hnew. by apply Hnew.
  - done.
  - exists (row :: rows), st'. rewrite Hloop. split; [done|].
    split; [by constructor|].
    split; [exact (adds_trans [row] rows _ _ _ Hone Hadds)|].
    rewrite Hres. subst st1. cbn [result length]. rewrite tally_tally.
    f_equal.
Qed.

Lemma results_inserted sid rs : forall st,
  Forall (fun r => parentsStored r (db st)) rs ->
  Forall (fun r => newId r (db st)) rs ->
  NoDup (map idOf rs) ->
  exists rows st',
    forEach rs (fun toolResult =>
      found ← existsById "tool_use_results" (ToolResult.id toolResult);
      if (found : bool) then mret tt
      else insertToolResultRecord toolResult sid ;; bump "toolResultsInserted") st
    = (Returned tt, st')
    /\ map (field (tableNamed "tool_use_results") "id") rows
       = map (fun r => SText (idOf r)) rs
    /\ adds rows (db st) (db st')
    /\ result st' = tally 0 (length rs) (result st).
Proof.
  intros st Hparents Hnew Hids.
  destruct (results_inserted_rows sid rs st Hparents Hnew Hids)
    as (rows & st' & Hloop & Hrows & Hadds & Hres).
  exists rows, st'. repeat split; try done; try apply Hadds.
  clear -Hrows. induction Hrows as [|r row rs rows [Hid _] _ IH]; [done|].
  cbn [map]. by rewrite Hid, IH.
Qed.

(** The run on an entry of which everything but the results is in the
    store: what is there is passed over, the results are written. *)
Lemma executeEntry_reparsed now parsed st :
  storedButResults parsed (db st) ->
  Forall (fun r => parentsStored r (db st)) (Parse.toolResults parsed) ->
  Forall (fun r => newId r (db st)) (Parse.toolResults parsed) ->
  NoDup (map idOf (Parse.toolResults parsed)) ->
  exists rows st',
    executeEntry now parsed st = (Returned tt, st')
    /\ map (field (tableNamed "tool_use_results") "id") rows
       = map (fun r => SText (idOf r)) (Parse.toolResults parsed)
    /\ adds rows (db st) (db st')
    /\ result st'
       = tally (length (withMessage now [parsed]))
           (length (Parse.toolResults parsed)) (result st).
Proof.
  intros (He & Hs & Hm & Hu & Ha & Hv) Hparents Hnew Hids.
  unfold executeEntry. rewrite He. cbn [forEach]. rewrite bind_run, ret_run.
  rewrite bind_run, (ensureSessionRecord_known _ _ Hs). rewrite bind_run.
  assert (Hrest : forall s, db s = db st ->
    exists rows st',
    (forEach (Parse.toolUses parsed) (fun toolUse =>
       found ← existsById "tool_uses" (ToolUse.id toolUse);
       if (found : bool) then mret tt
       else
         insertToolUseRecord toolUse (SessionRecord.id (Parse.session parsed)) ;;
         bump "toolUsesInserted") ;;
     forEach (Parse.toolResults parsed) (fun toolResult =>
       found ← existsById "tool_use_results" (ToolResult.id toolResult);
       if (found : bool) then mret tt
       else
         insertToolResultRecord toolResult
           (SessionRecord.id (Parse.session parsed)) ;;
         bump "toolResultsInserted") ;;
     forEach (Parse.attachments parsed) (fun attachment =>
       found ← existsById "attachments" (AttachmentRecord.id attachment);
       if (found : bool) then mret tt
       else insertAttachmentRecord attachment ;; bump "attachmentsInserted") ;;
     match Parse.envInfo parsed with
     | Some envInfo =>
         found ← existsById "env_info" (EnvInfoRecord.id envInfo);
         if (found : bool) then mret tt
         else insertEnvInfoRecord envInfo ;; bump "envInfoInserted"
     | None => mret tt
     end) s = (Returned tt, st')
    /\ map (field (tableNamed "tool_use_results") "id") rows
       = map (fun r => SText (idOf r)) (Parse.toolResults parsed)
    /\ adds rows (db s) (db st')
    /\ result st' = tally 0 (length (Parse.toolResults parsed)) (result s)).
  { intros s Hs'.
    rewrite bind_run,
      (forEach_skips (fun x d => stored "tool_uses" (ToolUse.id x) d));
      [|intros x u Hx; by apply checked_skip|by rewrite Hs'].
    rewrite bind_run.
    destruct (results_inserted (SessionRecord.id (Parse.session parsed))
                (Parse.toolResults parsed) s)
      as (rows & s1 & Hloop & Hrows & Hadds & Hres);
      [by rewrite Hs'..|done|].
    rewrite Hloop. exists rows, s1.
    pose proof (adds_extends _ _ _ Hadds) as Hext. rewrite Hs' in Hext.
    rewrite bind_run,
      (forEach_skips (fun x d => stored "attachments" (AttachmentRecord.id x) d));
      [|intros x u Hx; by apply checked_skip|].
    2:{ eapply Forall_impl; [exact Ha|]. intros x Hx. by eapply stored_mono. }
    split; [|done].
    destruct (Parse.envInfo parsed) as [e|]; [|done].
    apply checked_skip. eapply stored_mono; [done|]. by apply Hv. }
  unfold withMessage.
  destruct (messageToInsert now parsed) as [m|] eqn:Hmsg.
  - rewrite bind_run, (existsById_stored _ _ _ (Hm now m Hmsg)).
    change (bump "messagesUpdated" st)
      with (Returned tt, (bump "messagesUpdated" st).2).
    destruct (Hrest (bump "messagesUpdated" st).2 eq_refl)
      as (rows & st' & Hrun & Hrows & Hadds & Hres).
    exists rows, st'. rewrite Hrun.
    rewrite filter_cons_True by (cbn beta; rewrite Hmsg; eauto).
    repeat split; try done; try apply Hadds.
    rewrite Hres. unfold tally. cbn. f_equal; lia.
  - rewrite ret_run. destruct (Hrest st eq_refl)
      as (rows & st' & Hrun & Hrows & Hadds & Hres).
    exists rows, st'. rewrite Hrun.
    rewrite filter_cons_False by (cbn beta; rewrite Hmsg; by intros [? ?]).
    by repeat split; try apply Hadds.
Qed.

Lemma ids_apart {A} (f : row -> sqlval) (g : A -> sqlval) rows xs v :
  map f rows = map g xs -> (forall x, x ∈ xs -> g x <> v) ->
  Forall (fun row => f row <> v) rows.
Proof.
  intros Hmap Hxs. apply Forall_forall. intros row Hrow Heq.
  assert (Hin : f row ∈ map g xs)
    by (rewrite <- Hmap; by apply list_elem_of_fmap_2).
  apply list_elem_of_fmap in Hin as (x & Hx & Hin).
  apply (Hxs x Hin). congruence.
Qed.

(** The loop of the batch over such entries. *)
Lemma batch_entries_reparsed now ps : forall st,
  Forall (fun parsed => storedButResults parsed (db st)) ps ->
  Forall (fun r => parentsStored r (db st)) (resultsOf ps) ->
  Forall (fun r => newId r (db st)) (resultsOf ps) ->
  NoDup (map idOf (resultsOf ps)) ->
  exists rows st',
    forEach ps (fun parsed => tryCatch (executeEntry now parsed) pushError) st
    = (Returned tt, st')
    /\ map (field (tableNamed "tool_use_results") "id") rows
       = map (fun r => SText (idOf r)) (resultsOf ps)
    /\ adds rows (db st) (db st')
    /\ result st'
       = tally (length (withMessage now ps)) (length (resultsOf ps)) (result st).
Proof.
  induction ps as [|p ps IH]; intros st Hstored Hparents Hnew Hids.
  { exists [], st. cbn [forEach]. rewrite ret_run.
    repeat split; try done; [by rewrite app_nil_r|by rewrite tally_none]. }
  apply Forall_cons in Hstored as [Hp Hstored].
  unfold resultsOf in *. cbn [flat_map] in *.
  apply Forall_app in Hparents as [Hparents1 Hparents].
  apply Forall_app in Hnew as [Hnew1 Hnew].
  rewrite map_app in Hids. apply NoDup_app in Hids as (Hids1 & Hapart & Hids).
  destruct (executeEntry_reparsed now p st Hp Hparents1 Hnew1 Hids1)
    as (rows1 & st1 & Hrun & Hrows1 & Hadds1 & Hres1).
  pose proof (adds_extends _ _ _ Hadds1) as Hext.
  destruct (IH st1) as (rows & st' & Hloop & Hrows & Hadds & Hres).
  - eapply Forall_impl; [exact Hstored|]. intros x Hx.
    by eapply storedButResults_extends.
  - eapply Forall_impl; [exact Hparents|]. intros x Hx.
    by eapply parentsStored_adds.
  - apply Forall_forall. intros x Hx. eapply newId_adds; [exact Hadds1| |].
    + eapply ids_apart; [exact Hrows1|]. intros r Hr [= Heq].
      apply (Hapart (idOf r)); [by apply list_elem_of_fmap_2|].
      rewrite Heq. by apply list_elem_of_fmap_2.
    + rewrite Forall_forall in Hnew. by apply Hnew.
  - done.
  - exists (rows1 ++ rows), st'. cbn [forEach]. rewrite bind_run.
    unfold tryCatch at 1. rewrite Hrun, Hloop.
    split; [done|]. split; [by rewrite !map_app, Hrows1, Hrows|].
    split; [by eapply adds_trans|].
    rewrite Hres, Hres1, tally_tally, length_app. f_equal.
    unfold withMessage.
    destruct (messageToInsert now p) as [m|] eqn:Hmsg.
    + rewrite !filter_cons_True by (cbn beta; rewrite Hmsg; eauto).
      by rewrite filter_nil.
    + rewrite !filter_cons_False by (cbn beta; rewrite Hmsg; by intros [? ?]).
      by rewrite filter_nil.
Qed.
End Again.

(** A file synced again has its tool results stored again.  When all of
    a batch but its tool results is in the store (sessions, messages,
    tool uses, as after a first run), and its tool results carry ids the
    store does not hold (the parser draws new ones each time) and name
    tool uses and messages that are there, [executeParsedEntries] passes
    over what is there and inserts every tool result: the summary counts
    no message or tool use inserted, one tool result inserted for each
    result of the batch, and no error; [tool_use_results] grows by one
    row for each, with the new ids and in order, and the other tables
    are as they were. *)
Theorem resync_stores_every_tool_result_again now parsedEntries w :
  Forall (fun parsed => Resync.storedButResults parsed w.1) parsedEntries ->
  Forall (fun r => Resync.parentsStored r w.1) (Resync.resultsOf parsedEntries) ->
  Forall (fun r => Resync.newId r w.1) (Resync.resultsOf parsedEntries) ->
  NoDup (map Resync.idOf (Resync.resultsOf parsedEntries)) ->
  exists rows w',
    Executor.executeParsedEntries now parsedEntries w
    = (Returned
         (Executor.mkResult 0 (length (withMessage now parsedEntries)) 0
            (length (Resync.resultsOf parsedEntries)) 0 0 []), w')
    /\ Resync.adds rows w.1 w'.1
    /\ map (Sqlite.field (StoreProps.tableNamed "tool_use_results") "id") rows
       = map (fun r => Sqlite.SText (Resync.idOf r))
           (Resync.resultsOf parsedEntries).
Proof.
  intros Hstored Hparents Hnew Hids.
  destruct (batch_entries_reparsed now parsedEntries
              (Executor.mkSt w.1 w.2 Executor.emptyResult)
              Hstored Hparents Hnew Hids)
    as (rows & st1 & Hloop & Hrows & Hadds & Hres).
  assert (Hbatch : exists st',
    Executor.batch now parsedEntries (Executor.mkSt w.1 w.2 Executor.emptyResult)
    = (Returned tt, st')
    /\ Executor.db st' = Executor.db st1
    /\ Executor.result st' = Executor.result st1).
  { unfold Executor.batch. rewrite bind_run, Hloop.
    unfold Executor.logBatchSummary. destruct (0 <? _)%nat; eauto. }
  destruct Hbatch as (st' & Hbatch & Hdb & Hresult).
  exists rows, (Executor.db st', Executor.auditLog st').
  rewrite (executeParsedEntries_batch now parsedEntries w st' Hbatch).
  rewrite Hresult, Hres. cbn [fst]. rewrite Hdb.
  split; [reflexivity|]. by split.
Qed.

Ltac each_record := repeat (first [by apply Forall_nil | apply Forall_cons_2]).
Ltac in_store :=
  first
    [ eexists; split; vm_compute; reflexivity
    | eexists _, _; split; [vm_compute; reflexivity|];
      split; [vm_compute; reflexivity|]; vm_compute; eauto ].

Lemma second_sync_of_two_lines_stores_the_result_again :
  exists rows w',
    Executor.executeParsedEntries (js "T1") Resync.secondParse
      (Scenario.firstRun Scenario.inOrderBatch).2
    = (Returned
         (Executor.mkResult 0 (length (withMessage (js "T1") Resync.secondParse)) 0
            (length (Resync.resultsOf Resync.secondParse)) 0 0 []), w')
    /\ Resync.adds rows (Scenario.firstRun Scenario.inOrderBatch).2.1 w'.1
    /\ map (Sqlite.field (StoreProps.tableNamed "tool_use_results") "id") rows
       = map (fun r => Sqlite.SText (Resync.idOf r))
           (Resync.resultsOf Resync.secondParse).
Proof.
  apply (resync_stores_every_tool_result_again (js "T1") Resync.secondParse
           (Scenario.firstRun Scenario.inOrderBatch).2).
  - let ps := eval vm_compute in Resync.secondParse in
    change Resync.secondParse with ps.
    let w := eval vm_compute in (Scenario.firstRun Scenario.inOrderBatch).2.1 in
    change (Scenario.firstRun Scenario.inOrderBatch).2.1 with w.
    each_record; (split; [reflexivity|]); (split; [in_store|]);
      (split; [intros now m H; vm_compute in H; injection H as <-; in_store|]);
      (split; [each_record; in_store|]); (split; [each_record; in_store|]);
      intros e H; vm_compute in H; discriminate.
  - let ps := eval vm_compute in (Resync.resultsOf Resync.secondParse) in
    change (Resync.resultsOf Resync.secondParse) with ps.
    let w := eval vm_compute in (Scenario.firstRun Scenario.inOrderBatch).2.1 in
    change (Scenario.firstRun Scenario.inOrderBatch).2.1 with w.
    each_record.
    split; [eexists; split; [reflexivity|]; split; [discriminate|];
            vm_compute; reflexivity|].
    split; [eexists; split; [reflexivity|]; split; [discriminate|];
            vm_compute; reflexivity|].
    repeat split; eexists; vm_compute; reflexivity.
  - let ps := eval vm_compute in (Resync.resultsOf Resync.secondParse) in
    change (Resync.resultsOf Resync.secondParse) with ps.
    let w := eval vm_compute in (Scenario.firstRun Scenario.inOrderBatch).2.1 in
    change (Scenario.firstRun Scenario.inOrderBatch).2.1 with w.
    each_record. split; [reflexivity|]. split; [discriminate|].
    vm_compute. reflexivity.
  - vm_compute. apply NoDup_singleton.
Defined.

(** ** A small file, read whole *)

Section Whole.
Variable uuidv4 : nat -> jsstring.
Variable JSON_parse : jsstring -> outcome json.

Lemma mapM_usable lines :
  forallb (Pipeline.usable JSON_parse) lines = true ->
  exists entries,
    mapM JSON_parse lines = Returned entries
    /\ Forall (fun entry => entry <> JNull) entries
    /\ length entries = length lines.
Proof.
  induction lines as [|line lines IH]; [by exists []|].
  cbn [forallb]. intros [Hline Hrest]%andb_true_iff.
  destruct (IH Hrest) as (entries & Hmap & Hall & Hlen).
  unfold Pipeline.usable in Hline.
  destruct (JSON_parse line) as [entry|e] eqn:Hparse; [|done].
  exists (entry :: entries). cbn [mapM]. rewrite Hparse, bind_Returned, Hmap.
  split; [done|]. split; [|cbn; by rewrite Hlen].
  constructor; [|done]. intros ->. done.
Qed.

Lemma mapM_unusable lines :
  forallb (Pipeline.usable JSON_parse) lines = false ->
  match mapM JSON_parse lines with
  | Returned entries => Exists (fun entry => entry = JNull) entries
  | Thrown _ => True
  end.
Proof.
  induction lines as [|line lines IH]; [done|].
  cbn [forallb mapM]. intros Hno.
  destruct (JSON_parse line) as [entry|e] eqn:Hparse; [|done].
  rewrite bind_Returned.
  destruct (Pipeline.usable JSON_parse line) eqn:Hline.
  - cbn [andb] in Hno. specialize (IH Hno).
    destruct (mapM JSON_parse lines) as [entries|e]; [|done].
    cbn. by apply Exists_cons_tl.
  - unfold Pipeline.usable in Hline. rewrite Hparse in Hline.
    destruct (mapM JSON_parse lines) as [entries|e]; [|done].
    cbn. apply Exists_cons_hd. by destruct entry.
Qed.

Lemma parseMultipleEntries_null now entries sessionPath n :
  Exists (fun entry => entry = JNull) entries ->
  exists e n',
    Parse.parseMultipleEntries uuidv4 now entries sessionPath n = (Thrown e, n').
Proof.
  intros Hnull.
  destruct (Parse.parseMultipleEntries uuidv4 now entries sessionPath n)
    as [[ps|e] n'] eqn:Hps; [|eauto].
  exfalso. apply parseMultipleEntries_inv in Hps.
  induction Hps as [|entry parsed l l' (k & k' & Hp) _ IH].
  - by apply Exists_nil in Hnull.
  - apply Exists_cons in Hnull as [->|Hnull]; [|by apply IH].
    destruct (parseAndTransform_null uuidv4 now sessionPath k) as [e He].
    congruence.
Qed.

Lemma parseMultipleEntries_present now entries sessionPath : forall n,
  Forall (fun entry => entry <> JNull) entries ->
  exists parsedEntries n',
    Parse.parseMultipleEntries uuidv4 now entries sessionPath n
    = (Returned parsedEntries, n')
    /\ length parsedEntries = length entries.
Proof.
  intros n Hall. revert n.
  induction Hall as [|entry rest Hentry _ IH]; intros n;
    cbn [Parse.parseMultipleEntries]; [by exists [], n|].
  destruct (parseAndTransform_present uuidv4 now entry sessionPath n Hentry)
    as (p & m & ->).
  destruct (IH m) as (ps & n' & -> & Hlen). exists (p :: ps), n'.
  split; [done|]. cbn. by rewrite Hlen.
Qed.
End Whole.

(** A file read whole is stored whole or not at all.  [processJsonlFile]
    decodes every non-blank line of a small file before it parses any,
    and parses every entry before it stores any.  So when each non-blank
    line decodes to something other than [null], the entries of all the
    lines are run as one batch; and when one line does not (it is not
    JSON, or it is the text [null]), nothing of the file reaches the
    store or the audit log, however many good lines it has. *)
Theorem small_file_is_stored_whole_or_not_at_all
    (uuidv4 : nat -> jsstring) (JSON_parse : jsstring -> outcome json)
    now filePath content n w :
  let lines := Pipeline.linesOf content in
  if forallb (Pipeline.usable JSON_parse) lines then
    exists entries parsedEntries n',
      mapM JSON_parse lines = Returned entries
      /\ Parse.parseMultipleEntries uuidv4 now entries filePath n
         = (Returned parsedEntries, n')
      /\ length parsedEntries = length lines
      /\ Pipeline.processJsonlFile uuidv4 JSON_parse now filePath content n w
         = ((Executor.executeParsedEntries now parsedEntries w).2, n')
  else
    (Pipeline.processJsonlFile uuidv4 JSON_parse now filePath content n w).1 = w.
Proof.
  cbn zeta. unfold Pipeline.processJsonlFile.
  destruct (forallb _ _) eqn:Hlines.
  - destruct (mapM_usable JSON_parse _ Hlines) as (entries & Hmap & Hall & Hlen).
    destruct (parseMultipleEntries_present uuidv4 now entries filePath n Hall)
      as (ps & n' & Hps & Hlen').
    exists entries, ps, n'. rewrite Hmap, Hps.
    repeat split; try done; congruence.
  - pose proof (mapM_unusable JSON_parse _ Hlines) as Hbad.
    destruct (mapM JSON_parse _) as [entries|e]; [|done].
    destruct (parseMultipleEntries_null uuidv4 now entries filePath n Hbad)
      as (e & n' & ->).
    done.
Qed.

(** ** The text of a stored message *)

Section Visible.

Lemma trimStart_blank s :
  Forall (fun c => isWhiteSpace c = true) s -> trimStart s = [].
Proof. induction 1 as [|c s Hc _ IH]; [done|]. cbn. by rewrite Hc. Qed.

Lemma trimStart_nil s :
  trimStart s = [] -> Forall (fun c => isWhiteSpace c = true) s.
Proof.
  induction s as [|c s IH]; [done|]. cbn.
  destruct (isWhiteSpace c) eqn:Hc; [|done]. intros H. constructor; auto.
Qed.

Lemma trimStart_head s c r : trimStart s = c :: r -> isWhiteSpace c = false.
Proof.
  induction s as [|c' s IH]; [done|]. cbn.
  destruct (isWhiteSpace c') eqn:Hc; [done|]. by intros [= <- _].
Qed.

Lemma trimStart_suffix s : Forall (fun c => c ∈ s) (trimStart s).
Proof.
  induction s as [|c s IH]; [done|]. cbn. destruct (isWhiteSpace c).
  - eapply Forall_impl; [exact IH|]. intros x Hx. by apply list_elem_of_further.
  - apply Forall_forall. auto.
Qed.

(** A string is not blank exactly when it has a character that is not
    white space. *)
Lemma nonBlank_visible s :
  MessageClassifier.nonBlank s = true
  <-> Exists (fun c => isWhiteSpace c = false) s.
Proof.
  unfold MessageClassifier.nonBlank, trim, trimEnd. split.
  - intros H. destruct (trimStart s) as [|c r] eqn:Hs; [done|].
    apply Exists_exists. exists c. split; [|by eapply trimStart_head].
    pose proof (trimStart_suffix s) as Hsuf. rewrite Hs in Hsuf.
    by apply Forall_cons in Hsuf as [Hc _].
  - intros H. destruct (trimStart s) as [|c r] eqn:Hs.
    + apply trimStart_nil in Hs. apply Exists_exists in H as (x & Hx & Hws).
      rewrite Forall_forall in Hs. specialize (Hs x Hx). congruence.
    + apply trimStart_head in Hs. cbn [rev].
      rewrite (trimStart_app (rev r) [c]);
        [|intros c' r' [= <- _]; exact Hs].
      rewrite rev_app_distr. done.
Qed.

Lemma join_visible (P : N -> Prop) sep parts part :
  part ∈ parts -> Exists P part -> Exists P (join sep parts).
Proof.
  intros Hin Hpart. induction parts as [|x parts IH]; [by apply elem_of_nil in Hin|].
  apply elem_of_cons in Hin as [<-|Hin].
  - destruct parts; [done|]. cbn [join]. apply Exists_app. by left.
  - specialize (IH Hin). destruct parts as [|y parts]; [by apply elem_of_nil in Hin|].
    cbn [join] in *. apply Exists_app. right. apply Exists_app. by right.
Qed.

Lemma someM_true {A} (f : A -> outcome bool) xs :
  ToolExtractor.someM f xs = Returned true ->
  exists x, x ∈ xs /\ f x = Returned true.
Proof.
  induction xs as [|x xs IH]; [done|]. cbn [ToolExtractor.someM].
  destruct (f x) as [[]|e] eqn:Hx; [| |done]; rewrite bind_Returned.
  - intros _. exists x. split; [apply list_elem_of_here|done].
  - intros H. destruct (IH H) as (y & Hy & Hfy). exists y.
    split; [by apply list_elem_of_further|done].
Qed.

Lemma textItems_elem items texts item text :
  MessageClassifier.textItems items = Returned texts ->
  item ∈ items ->
  isStr (getPropOpt "type" (Some item)) "text" = true ->
  getPropOpt "text" (Some item) = text -> truthy text = true ->
  text ∈ texts.
Proof.
  revert texts. induction items as [|x items IH]; intros texts Htexts Hin Hty Htext Ht;
    [by apply elem_of_nil in Hin|].
  cbn [MessageClassifier.textItems] in Htexts.
  destruct (getProp "type" (Some x)) as [ty|e] eqn:Hx; [|done].
  rewrite bind_Returned in Htexts.
  destruct (MessageClassifier.textItems items) as [r|e]; [|done].
  rewrite bind_Returned in Htexts.
  assert (Hpresent : x <> JNull) by (by intros ->).
  rewrite (getProp_present _ x Hpresent) in Hx. injection Hx as <-.
  apply elem_of_cons in Hin as [->|Hin].
  - rewrite Hty, Htext, Ht in Htexts. injection Htexts as <-.
    apply list_elem_of_here.
  - specialize (IH r eq_refl Hin Hty Htext Ht).
    destruct (isStr _ "text"); [|by injection Htexts as <-].
    destruct (truthy _); injection Htexts as <-; [|done].
    by apply list_elem_of_further.
Qed.

(** An entry with text content has a text that is not blank. *)
Lemma text_content_visible entry s :
  MessageClassifier.hasNonToolTextContent entry = Returned true ->
  MessageClassifier.getTextContent entry = Returned s ->
  MessageClassifier.nonBlank s = true.
Proof.
  unfold MessageClassifier.hasNonToolTextContent, MessageClassifier.getTextContent.
  destruct (ToolExtractor.messageContent entry) as [content|e]; [|done].
  rewrite !bind_Returned. destruct (negb (truthy content)); [done|].
  destruct content as [[| | |t|items|]|]; try done.
  - intros [= H] [= <-]. exact H.
  - intros Hsome. apply someM_true in Hsome as (item & Hin & Hitem).
    destruct (MessageClassifier.textItems items) as [texts|e] eqn:Htexts; [|done].
    rewrite bind_Returned. intros [= <-].
    destruct (getProp "type" (Some item)) as [ty|e] eqn:Hty; [|done].
    rewrite bind_Returned in Hitem.
    assert (Hpresent : item <> JNull) by (by intros ->).
    rewrite (getProp_present _ item Hpresent) in Hty. injection Hty as <-.
    destruct (isStr _ "text") eqn:Htype; [|done].
    rewrite (getProp_present "text" item Hpresent), bind_Returned in Hitem.
    destruct (truthy (getPropOpt "text" (Some item))) eqn:Htruthy; [|done].
    destruct (getPropOpt "text" (Some item)) as [[| | |t| |]|] eqn:Htext; try done.
    injection Hitem as Hvisible.
    pose proof (textItems_elem items texts item _ Htexts Hin Htype Htext Htruthy)
      as Hmember.
    apply nonBlank_visible. apply nonBlank_visible in Hvisible.
    unfold joinValues. eapply join_visible; [|exact Hvisible].
    change t with ((fun v : value => match v with
                                     | None | Some JNull => []
                                     | Some j => ToStringJson j
                                     end) (Some (JStr t))).
    by apply list_elem_of_fmap_2.
Qed.
End Visible.

(** The text of a stored message.  A message record the parser makes
    for an entry of type user has a [userText] that is not blank (it has
    a character that is not white space) and no [assistantText]; one for
    an entry of type assistant has an [assistantText] that is not blank
    and no [userText]; a record of any other type (system, summary,
    unknown) has neither, whatever text the entry has. *)
Theorem stored_text_is_on_the_side_of_its_type_and_not_blank
    (uuidv4 : nat -> jsstring) now entry sessionPath n parsed n' m :
  Parse.parseAndTransform uuidv4 now entry sessionPath n = (Returned parsed, n') ->
  Parse.message parsed = Some m ->
  (MessageRecord.type m = str "user" ->
     MessageRecord.assistantText m = null
     /\ exists s, MessageRecord.userText m = Some (JStr s)
                  /\ MessageClassifier.nonBlank s = true)
  /\ (MessageRecord.type m = str "assistant" ->
        MessageRecord.userText m = null
        /\ exists s, MessageRecord.assistantText m = Some (JStr s)
                     /\ MessageClassifier.nonBlank s = true)
  /\ (MessageRecord.type m <> str "user" ->
      MessageRecord.type m <> str "assistant" ->
      MessageRecord.userText m = null /\ MessageRecord.assistantText m = null).
Proof.
  intros Hparse Hm.
  apply parseAndTransform_inv in Hparse as [H|(e & id & _ & ->)]; [|done].
  apply parseBody_inv in H
    as (c & u & r & t & env & Hc & _ & _ & Ht & _ & _ & _ & _ & _ & _ & Hskip
        & Hmsg).
  destruct (Parse.shouldSkipMessage parsed); [congruence|].
  destruct Hmsg as (m' & Hmap & Hm'). rewrite Hm in Hm'. injection Hm' as <-.
  apply classifyMessage_inv in Hc as (Hentry & Horig & _ & _ & _ & _ & Htext).
  unfold SchemaMapper.mapToMessageRecord in Hmap. rewrite Horig in Hmap.
  rewrite !(getProp_present _ entry Hentry) in Hmap.
  cbn [mbind outcome_bind mret outcome_ret] in Hmap. injection Hmap as <-.
  cbn [MessageRecord.type MessageRecord.userText MessageRecord.assistantText].
  unfold MessageClassifier.extractMessageText in Ht.
  destruct (MessageClassifier.getTextContent entry) as [text|e'] eqn:Hget;
    [|done].
  rewrite bind_Returned in Ht.
  symmetry in Hskip. apply negb_false_iff in Hskip.
  unfold MessageClassifier.shouldStoreAsMessage in Hskip.
  assert (Hvisible : MessageClassifier.hasTextContent c = true ->
            orElse (Some (JStr text)) null = Some (JStr text)
            /\ MessageClassifier.nonBlank text = true).
  { intros Hhas. rewrite Hhas in Htext.
    pose proof (text_content_visible entry text Htext Hget) as Hv.
    split; [|done]. unfold MessageClassifier.nonBlank, trim, trimEnd in Hv.
    by destruct text. }
  destruct (MessageClassifier.type c) eqn:Hty;
    cbn [SchemaMapper.mapMessageType] in *;
    rewrite ?bool_decide_eq_true_2 in Ht, Hskip by done;
    rewrite ?bool_decide_eq_false_2 in Ht, Hskip by done;
    cbn [orb] in Ht, Hskip; injection Ht as <-; cbn [fst snd];
    (split; [intros H|split; [intros H|intros Hnu Hna]]);
    first
      [ by vm_compute in H
      | by destruct Hnu
      | by destruct Hna
      | done
      | destruct (MessageClassifier.hasTextContent c); [|done];
        destruct (Hvisible eq_refl) as [-> Hv]; split; [done|]; by exists text ].
Qed.

Lemma assistant_line_keeps_its_text :
  (MessageRecord.type (Scenario2.messageOf Scenario.toolUseLine) = str "user" ->
     MessageRecord.assistantText (Scenario2.messageOf Scenario.toolUseLine) = null
     /\ exists s,
          MessageRecord.userText (Scenario2.messageOf Scenario.toolUseLine)
          = Some (JStr s)
          /\ MessageClassifier.nonBlank s = true)
  /\ (MessageRecord.type (Scenario2.messageOf Scenario.toolUseLine)
      = str "assistant" ->
        MessageRecord.userText (Scenario2.messageOf Scenario.toolUseLine) = null
        /\ exists s,
             MessageRecord.assistantText (Scenario2.messageOf Scenario.toolUseLine)
             = Some (JStr s)
             /\ MessageClassifier.nonBlank s = true)
  /\ (MessageRecord.type (Scenario2.messageOf Scenario.toolUseLine) <> str "user" ->
      MessageRecord.type (Scenario2.messageOf Scenario.toolUseLine)
      <> str "assistant" ->
      MessageRecord.userText (Scenario2.messageOf Scenario.toolUseLine) = null
      /\ MessageRecord.assistantText (Scenario2.messageOf Scenario.toolUseLine)
         = null).
Proof.
  apply (stored_text_is_on_the_side_of_its_type_and_not_blank
           Scenario.sequentialIds (js "T0") Scenario.toolUseLine (js "/p") 0
           (Scenario2.parsedLine Scenario.toolUseLine) 0).
  - vm_compute. reflexivity.
  - vm_compute. reflexivity.
Defined.

(** ** The rate limiter: the status of a client *)

Section Status.
Import RateLimit.
Import RateLimitOps.
Local Open Scope Z_scope.

(** After a check with the configured budget, the status says what the
    check answered. *)
Lemma check_status t c l :
  settled l c ->
  let r := checkSlidingWindow t c None l in
  limited (getStatus c r.2) = negb (allowed r.1)
  /\ Some (remainingNow (getStatus c r.2)) = remaining r.1
  /\ settled r.2 c
  /\ rateLimitPerMinute r.2 = rateLimitPerMinute l.
Proof.
  intros Hsettled. cbn zeta. unfold checkSlidingWindow.
  fold (windowEntry t c l). set (e := windowEntry t c l).
  assert (He : blocked e = true -> rateLimitPerMinute l <= count e).
  { subst e. unfold windowEntry. destruct (clients l !! c) as [e0|] eqn:Hc;
      [|done].
    destruct (windowSize <? t - windowStart e0); [done|]. by apply Hsettled. }
  destruct (blocked e && _) eqn:Hblocked.
  - apply andb_true_iff in Hblocked as [Hb _]. specialize (He Hb).
    unfold getStatus, settled.
    cbn [fst snd setEntry clients rateLimitPerMinute allowed remaining negb].
    rewrite lookup_insert_eq.
    cbn [limited remainingNow].
    split; [by rewrite Hb|]. split; [f_equal; lia|]. split; [|done].
    intros e' [= <-]. done.
  - destruct (Z.leb_spec (rateLimitPerMinute l) (count e)) as [Hfull|Hroom].
    + unfold getStatus, settled.
      cbn [fst snd setEntry clients rateLimitPerMinute allowed remaining negb].
      rewrite lookup_insert_eq.
      cbn [limited remainingNow blocked count].
      split; [done|]. split; [f_equal; lia|]. split; [|done].
      intros e' [= <-]. done.
    + assert (Hfree : blocked e = false).
      { destruct (blocked e); [|done]. specialize (He eq_refl). lia. }
      unfold getStatus, settled.
      cbn [fst snd setEntry clients rateLimitPerMinute allowed remaining negb].
      rewrite lookup_insert_eq.
      cbn [limited remainingNow blocked count].
      split; [by rewrite Hfree|]. split; [f_equal; lia|]. split; [|done].
      intros e' [= <-]. cbn. congruence.
Qed.

Lemma requests_status c times : forall l,
  settled l c ->
  let r := requests c None times l in
  settled r.2 c
  /\ rateLimitPerMinute r.2 = rateLimitPerMinute l
  /\ forall d, last r.1 = Some d ->
       limited (getStatus c r.2) = negb (allowed d)
       /\ Some (remainingNow (getStatus c r.2)) = remaining d.
Proof.
  induction times as [|t times IH]; intros l Hsettled; [done|].
  cbn zeta. cbn [requests].
  destruct (check_status t c l Hsettled) as (Hlim & Hrem & Hs1 & Hrate1).
  cbn zeta in *.
  destruct (checkSlidingWindow t c None l) as [d1 l1]. cbn [fst snd] in *.
  destruct (IH l1 Hs1) as (Hs & Hrate & Hlast). cbn zeta in *.
  destruct (requests c None times l1) as [ds l2] eqn:Hreq. cbn [fst snd] in *.
  split; [done|]. split; [congruence|].
  intros d Hd. destruct times as [|t' times'].
  - cbn in Hreq. injection Hreq as <- <-. cbn in Hd. injection Hd as <-. done.
  - apply Hlast. destruct ds as [|d' ds'].
    + cbn [requests] in Hreq.
      destruct (checkSlidingWindow t' c None l1), (requests c None times' _).
      done.
    + exact Hd.
Qed.
End Status.

(** The status of a client says what its last check answered.  For a
    client new to the limiter whose requests are all checked against the
    configured budget, after any number of requests at any times
    [getStatus] reports [limited] exactly when the last request was
    denied, and as [remaining] the number the last answer carried. *)
Theorem status_agrees_with_the_last_answer c times l :
  RateLimit.clients l !! c = None ->
  forall d, last (RateLimit.requests c None times l).1 = Some d ->
    RateLimitOps.limited
      (RateLimitOps.getStatus c (RateLimit.requests c None times l).2)
    = negb (RateLimit.allowed d)
    /\ Some (RateLimitOps.remainingNow
               (RateLimitOps.getStatus c (RateLimit.requests c None times l).2))
       = RateLimit.remaining d.
Proof.
  intros Hnew d Hd.
  destruct (requests_status c times l) as (_ & _ & Hlast); [|by apply Hlast].
  intros e He. congruence.
Qed.

Lemma status_after_three_requests_on_a_budget_of_two :
  RateLimitOps.limited
    (RateLimitOps.getStatus (js "client")
       (RateLimit.requests (js "client") None
          [1700000000000; 1700000001000; 1700000002000]%Z
          (RateLimit.mkLimiter 2 ∅)).2)
  = negb (RateLimit.allowed (RateLimit.mkDecision false (Some 58%Z) (Some 0%Z)))
  /\ Some (RateLimitOps.remainingNow
             (RateLimitOps.getStatus (js "client")
                (RateLimit.requests (js "client") None
                   [1700000000000; 1700000001000; 1700000002000]%Z
                   (RateLimit.mkLimiter 2 ∅)).2))
     = RateLimit.remaining (RateLimit.mkDecision false (Some 58%Z) (Some 0%Z)).
Proof.
  apply (status_agrees_with_the_last_answer (js "client")
           [1700000000000; 1700000001000; 1700000002000]%Z
           (RateLimit.mkLimiter 2 ∅)).
  - reflexivity.
  - vm_compute. reflexivity.
Defined.
(** ** Tool-result carriers: the results in the store *)

Section Stored.
Import Sqlite Executor StoreProps Resync Carrier.

Lemma keeps_ensureSessionRecord table session :
  table <> "sessions"%string -> keeps table (ensureSessionRecord session).
Proof.
  intros Hne. unfold ensureSessionRecord.
  apply keeps_bind; [by apply keeps_run|]. intros n.
  destruct (0 <? n)%nat; [apply keeps_log|apply keeps_ret].
Qed.

Lemma keeps_message table message :
  table <> "messages"%string ->
  keeps table
    (found ← existsById "messages" (MessageRecord.id message);
     if (found : bool) then bump "messagesUpdated"
     else insertMessageRecord message ;; bump "messagesInserted").
Proof.
  intros Hne. apply keeps_bind; [apply keeps_existsById|].
  intros []; [apply keeps_updateResult|].
  apply keeps_bind; [|intros _; apply keeps_updateResult].
  unfold insertMessageRecord. apply keeps_bind; [by apply keeps_run|].
  intros _. apply keeps_log.
Qed.

Lemma keeps_toolResults table sid xs :
  table <> "tool_use_results"%string ->
  keeps table (forEach xs (fun toolResult =>
    found ← existsById "tool_use_results" (ToolResult.id toolResult);
    if (found : bool) then mret tt
    else insertToolResultRecord toolResult sid ;; bump "toolResultsInserted")).
Proof.
  intros Hne. apply keeps_forEach. intros x.
  apply keeps_checked; [|apply keeps_updateResult].
  unfold insertToolResultRecord. apply keeps_bind; [by apply keeps_run|].
  intros _. apply keeps_log.
Qed.

Lemma keeps_envInfo table env :
  table <> "env_info"%string ->
  keeps table
    match env with
    | Some envInfo =>
        found ← existsById "env_info" (EnvInfoRecord.id envInfo);
        if (found : bool) then mret tt
        else insertEnvInfoRecord envInfo ;; bump "envInfoInserted"
    | None => mret tt
    end.
Proof.
  intros Hne. destruct env; [|apply keeps_ret].
  apply keeps_checked; [|apply keeps_updateResult].
  unfold insertEnvInfoRecord. apply keeps_bind; [by apply keeps_run|].
  intros _. apply keeps_ret.
Qed.

Lemma hasKey_last t c v r (db : DB) :
  v <> SNull -> field t c r = v ->
  forall db', rowsOf (tname t) db' = rowsOf (tname t) db ++ [r] ->
  hasKey t c v db' = true.
Proof.
  intros Hv Hr db' Hrows. unfold hasKey. rewrite Hrows.
  destruct v; [done| |]; rewrite existsb_app; cbn;
    rewrite Hr, bool_decide_eq_true_2 by done; by rewrite orb_true_r.
Qed.

(** The run of the executor on a parsed carrier whose tool uses are in
    the store writes its results after the placeholder, and leaves the
    tool uses alone. *)
Lemma executeEntry_carrier_results now sid path uuid record rest env errs st r st' :
  uuid <> [] ->
  sessionsConsistent (db st) -> noMessage uuid (db st) ->
  Forall (fun x => ToolResult.messageId x = Some (JStr uuid)) (record :: rest) ->
  Forall (fun x => toolUseStored x (db st)) (record :: rest) ->
  Forall (fun x => newId x (db st)) (record :: rest) ->
  NoDup (map idOf (record :: rest)) ->
  executeEntry now
    (Parse.mkParsed
       (SessionRecord.mk (Some (JStr sid)) (Some (JStr sid)) (Some (JStr path)))
       None [] (record :: rest) [] env true errs) st = (r, st') ->
  exists rows,
    rowsOf "tool_use_results" (db st')
    = rowsOf "tool_use_results" (db st) ++ rows
    /\ Forall2 rowOf (record :: rest) rows
    /\ rowsOf "tool_uses" (db st') = rowsOf "tool_uses" (db st).
Proof.
  intros Hfilled Hcons Hnone Hmsg Huses Hnew Hids. unfold executeEntry.
  cbn [Parse.errors Parse.session Parse.toolUses Parse.toolResults
       Parse.attachments Parse.envInfo].
  rewrite bind_run, forEach_pushError. rewrite bind_run.
  match goal with |- context [ensureSessionRecord _ ?s] => set (s1 := s) end.
  destruct (ensureSessionRecord_session sid path s1 Hcons)
    as (s2 & Hens & Hkeep & Hsession).
  rewrite Hens.
  pose proof (fun table H => keeps_ensureSessionRecord table _ H _ _ _ Hens)
    as Hkeep2.
  assert (messageToInsert now
            (Parse.mkParsed
               (SessionRecord.mk (Some (JStr sid)) (Some (JStr sid))
                  (Some (JStr path)))
               None [] (record :: rest) [] env true errs)
          = Some (placeholderMessage now (Some (JStr uuid))
                    (SessionRecord.mk (Some (JStr sid)) (Some (JStr sid))
                       (Some (JStr path))))) as ->.
  { unfold messageToInsert. cbn.
    rewrite (Forall_inv Hmsg). by destruct uuid. }
  assert (Hnone2 : noMessage uuid (db s2)).
  { intros t Ht. etrans; [|exact (Hnone t Ht)]. apply hasKey_rows.
    by rewrite (findTable_name _ _ Ht). }
  destruct (insert_placeholder now uuid sid path s2 Hnone2 Hsession)
    as (s3 & Hins & Hrows).
  pose proof (fun table H => keeps_message table _ H _ _ _ Hins) as Hkeep3.
  rewrite bind_run, Hins. cbv beta iota.
  assert (Hsame : forall table, table <> "sessions"%string ->
            table <> "messages"%string ->
            rowsOf table (db s3) = rowsOf table (db st)).
  { intros table H1 H2. rewrite (Hkeep3 table H2), (Hkeep2 table H1). done. }
  assert (Hparents : Forall (fun x => parentsStored x (db s3)) (record :: rest)).
  { apply Forall_forall. intros x Hx.
    pose proof (proj1 (Forall_forall _ _) Hmsg x Hx) as Hm.
    pose proof (proj1 (Forall_forall _ _) Huses x Hx)
      as ((k & Hk & Hkne & Hku) & Hbinds).
    split; [|split; [|exact Hbinds]].
    - exists k. repeat split; [done..|]. etrans; [|exact Hku].
      apply hasKey_rows. by apply Hsame.
    - exists uuid. repeat split; [done..|].
      apply (hasKey_last _ _ _ (placeholderRow uuid sid now path) (db s2));
        [done|reflexivity|exact Hrows]. }
  assert (Hnew3 : Forall (fun x => newId x (db s3)) (record :: rest)).
  { eapply Forall_impl; [exact Hnew|]. intros x (Hid & Hne & Hfresh).
    repeat split; [done..|]. etrans; [|exact Hfresh].
    apply hasKey_rows. by apply Hsame. }
  destruct (results_inserted_rows (Some (JStr sid)) (record :: rest) s3
              Hparents Hnew3 Hids)
    as (rows & s4 & Hloop & Hrowsof & [Hadd Hothers] & _).
  cbn [forEach] in *.
  cbn [SessionRecord.id].
  rewrite bind_run, ret_run, bind_run, Hloop, bind_run, ret_run.
  intros Hrest. exists rows.
  rewrite (keeps_envInfo "tool_use_results" env ltac:(done) _ _ _ Hrest).
  rewrite (keeps_envInfo "tool_uses" env ltac:(done) _ _ _ Hrest).
  rewrite Hadd, (Hothers "tool_uses"%string) by done.
  rewrite !Hsame by done. done.
Qed.

Lemma batch_single_tables now parsed st st' :
  batch now [parsed] st = (Returned tt, st') ->
  exists r s1,
    executeEntry now parsed st = (r, s1)
    /\ forall table, rowsOf table (db st') = rowsOf table (db s1).
Proof.
  unfold batch. cbn [forEach]. rewrite !bind_run. unfold tryCatch.
  destruct (executeEntry now parsed st) as [[[]|e] s1]; cbn [pushError updateResult];
    rewrite ret_run; unfold logBatchSummary; destruct (_ <? _)%nat;
    intros [= <-]; eauto.
Qed.
Lemma ids_shift (g : nat -> jsstring) len :
  map g (seq 0 (S len)) = g 0%nat :: map (g ∘ S) (seq 0 len).
Proof. cbn [seq map]. by rewrite <- seq_shift, map_map. Qed.

Lemma orElse_twice (v : value) : orElse (orElse v null) null = orElse v null.
Proof. unfold orElse. by destruct (truthy v) eqn:Hv; [rewrite Hv|]. Qed.

(** The records of a carrier, one by one: each names the entry and the
    tool use of its fragment, has the identifier made for it, and is
    written as the row of its fragment. *)
Lemma carrier_records entry uuid db items : forall g : nat -> jsstring,
  getPropOpt "uuid" (Some entry) = Some (JStr uuid) ->
  Forall isResultFragment items ->
  Forall (fun item => answersStoredToolUse item db) items ->
  Forall (fun id => id <> []
                    /\ hasKey (tableNamed "tool_use_results") "id" (SText id) db
                       = false)
    (map g (seq 0 (length items))) ->
  let records :=
    map SchemaMapper.mapToToolResultRecord
      (imap (fun k => toolResultOf entry (g k)) items) in
  Forall (fun x => ToolResult.messageId x = Some (JStr uuid)) records
  /\ Forall (fun x => toolUseStored x db) records
  /\ Forall (fun x => newId x db) records
  /\ map idOf records = map g (seq 0 (length items))
  /\ forall rows, Forall2 rowOf records rows ->
       Forall2 (resultRow uuid) items rows.
Proof.
  intros g Huuid Hitems. revert g.
  induction Hitems as [|item items [Htool [s Hs]] _ IH];
    intros g Hstored Hfresh; cbn zeta.
  { cbn [imap map]. repeat split; try done. intros rows H. by inversion H. }
  apply Forall_cons in Hstored as [((k & Hk & Hkne & Hku) & Herr) Hstored].
  cbn [length] in Hfresh. rewrite ids_shift in Hfresh.
  apply Forall_cons in Hfresh as [[Hne Hnew] Hfresh].
  destruct (IH (g ∘ S) Hstored Hfresh) as (Hm & Hu & Hn & Hi & Hr).
  cbn zeta in *. cbn [imap map length]. rewrite ids_shift.
  assert (Hout : ToolResult.output
                   (SchemaMapper.mapToToolResultRecord
                      (toolResultOf entry (g 0%nat) item))
                 = if bool_decide (s = []) then null else Some (JStr s)).
  { unfold toolResultOf, outputOf.
    cbn [SchemaMapper.mapToToolResultRecord ToolResult.output]. rewrite Hs.
    by destruct s. }
  split; [by constructor|]. split.
  { constructor; [|exact Hu]. split.
    - exists k. by repeat split.
    - rewrite Hout. unfold toolResultOf.
      cbn [SchemaMapper.mapToToolResultRecord ToolResult.outputMimeType
             ToolResult.error ToolResult.errorType].
      rewrite orElse_twice.
      repeat split; [|by exists SNull|exact Herr|by exists SNull].
      destruct s; [by exists SNull|by eexists]. }
  split.
  { constructor; [|exact Hn]. split; [reflexivity|]. split; [exact Hne|exact Hnew]. }
  split; [f_equal; exact Hi|].
  intros rows Hrows. inversion Hrows as [|x row xs rows' Hrow Hrest]; subst.
  constructor; [|by apply Hr].
  destruct Hrow as (_ & (k' & Hk' & Hfk) & (m & Hm' & Hfm) & (o & Ho & Hfo)).
  unfold toolResultOf in Hk', Hm'.
  cbn [SchemaMapper.mapToToolResultRecord ToolResult.toolUseId
         ToolResult.messageId] in Hk', Hm'.
  rewrite Huuid in Hm'. injection Hm' as <-.
  split; [by exists k'|]. split; [done|].
  intros s' Hs'. rewrite Hs in Hs'. injection Hs' as <-.
  rewrite Hfo. rewrite Hout in Ho.
  destruct s; cbn in Ho; by injection Ho as <-.
Qed.
End Stored.

(** C4, as amended. An entry of type [user] with an id, whose content
    list is not empty and holds only [tool_result] fragments with a
    string content, parses to no message record and to one ToolResult
    record per fragment, each with the [tool_use_id] of its fragment, the
    id of the entry as [messageId], and as output the content string of
    the fragment or, for the empty string, [null].  Run on a store with
    consistent sessions and no message of that id, the executor returns
    and adds to the messages exactly one row: the placeholder with the id
    of the entry, the type [tool_message] and no text.  When moreover the
    tool uses the fragments name are in the store (and the identifiers
    made for the results are new), it adds to the tool results one row
    per fragment, in order, with the [tool_use_id], the id of the entry
    and the output of the record; the foreign keys of these rows resolve
    in the store it leaves, the one to the message by the placeholder;
    and the summary counts one message and as many results as there are
    fragments. *)
Theorem tool_result_carrier_is_stored_as_placeholder
    (uuidv4 : nat -> jsstring) now now' entry sessionPath uuid sid items n w :
  getPropOpt "type" (Some entry) = str "user" ->
  getPropOpt "uuid" (Some entry) = Some (JStr uuid) -> uuid <> [] ->
  getPropOpt "sessionId" (Some entry) = Some (JStr sid) ->
  ToolExtractor.messageContent entry = Returned (Some (JArr items)) ->
  items <> [] -> Forall isResultFragment items ->
  sessionsConsistent w.1 -> noMessage uuid w.1 ->
  exists parsed n' r w',
    Parse.parseAndTransform uuidv4 now entry sessionPath n = (Returned parsed, n')
    /\ Parse.message parsed = None
    /\ Forall2 (carries uuid) items (Parse.toolResults parsed)
    /\ Executor.executeParsedEntries now' [parsed] w = (Returned r, w')
    /\ Sqlite.rowsOf "messages" w'.1
       = Sqlite.rowsOf "messages" w.1 ++ [placeholderRow uuid sid now' sessionPath]
    /\ Executor.messagesInserted r = 1%nat
    /\ (Forall (fun item => Carrier.answersStoredToolUse item w.1) items ->
        Carrier.freshIds (Carrier.idsFrom uuidv4 n (length items)) w.1 ->
        exists rows,
          Sqlite.rowsOf "tool_use_results" w'.1
          = Sqlite.rowsOf "tool_use_results" w.1 ++ rows
          /\ Forall2 (Carrier.resultRow uuid) items rows
          /\ Forall (fun row =>
                       Sqlite.foreignKeysHold
                         (StoreProps.tableNamed "tool_use_results") row w'.1
                       = true)
               rows
          /\ Executor.toolResultsInserted r = length items).
Proof.
  intros Htype Huuid Hfilled Hsid Hcontent Hsome Hitems Hcons Hnone.
  destruct (carrier_parsed uuidv4 now entry sessionPath uuid sid items
              Htype Huuid Hfilled Hsid Hcontent Hitems n) as (env & errs & Hparse).
  pose proof (carries_fragments entry uuid (fun k => uuidv4 (n + k)%nat) items Huuid)
    as Hcarries.
  match type of Hparse with
  | _ = (Returned ?parsed, _) =>
      destruct (batch_returns now' [parsed]
                  (Executor.mkSt w.1 w.2 Executor.emptyResult)) as [st' Hbatch]
  end.
  eexists _, _, _, _. split; [exact Hparse|]. split; [done|].
  split; [exact Hcarries|].
  split; [exact (executeParsedEntries_batch _ _ _ _ Hbatch)|].
  cbn [fst].
  assert (Hstart : Laws.accounted (fun table => length (Sqlite.rowsOf table w.1))
                     (Executor.mkSt w.1 w.2 Executor.emptyResult)).
  { unfold Laws.accounted. repeat constructor; cbn; lia. }
  pose proof (accounted_batch _ now' _ _ _ _ Hstart Hbatch) as Hacc.
  unfold Laws.accounted, Laws.counters in Hacc.
  apply Forall_cons in Hacc as [Hmessages Hacc].
  apply Forall_cons in Hacc as [_ Hacc].
  apply Forall_cons in Hacc as [Hresults _].
  cbn [fst snd] in Hmessages, Hresults.
  destruct (batch_single_tables _ _ _ _ Hbatch) as (r & s1 & Hentry & Htables).
  destruct items as [|item rest]; [done|].
  cbn [imap map] in Hentry.
  assert (Hplace :
    Sqlite.rowsOf "messages" (Executor.db st')
    = Sqlite.rowsOf "messages" w.1 ++ [placeholderRow uuid sid now' sessionPath]).
  { rewrite Htables.
    refine (executeEntry_carrier _ _ _ uuid _ _ _ _
              (Executor.mkSt w.1 w.2 Executor.emptyResult) _ _ _
              Hfilled Hcons Hnone Hentry).
    exact Huuid. }
  split; [exact Hplace|]. split.
  { rewrite Hplace, length_app in Hmessages. cbn [length] in Hmessages. lia. }
  intros Hstored [Hdup Hfresh].
  destruct (carrier_records entry uuid w.1 (item :: rest)
              (fun k => uuidv4 (n + k)%nat) Huuid Hitems Hstored Hfresh)
    as (Hm & Hu & Hn & Hi & Hr).
  cbn zeta in *. cbn [imap map] in Hm, Hu, Hn, Hi, Hr.
  destruct (executeEntry_carrier_results now' sid sessionPath uuid _ _ env errs
              (Executor.mkSt w.1 w.2 Executor.emptyResult) r s1
              Hfilled Hcons Hnone Hm Hu Hn)
    as (rows & Hrows & Hrowsof & Huses).
  { cbn [map]. rewrite Hi. exact Hdup. }
  { exact Hentry. }
  exists rows. rewrite !Htables.
  split; [exact Hrows|]. split; [by apply Hr|].
  split.
  - apply Hr in Hrowsof. clear -Hrowsof Hstored Huses Hplace Htables Hfilled.
    cbn [Executor.db] in *.
    induction Hrowsof as [|x row xs rows' ((k & Hk & Hfk) & Hfm & _) _ IH];
      [done|].
    apply Forall_cons in Hstored as [((k' & Hk' & Hkne & Hku) & _) Hstored].
    constructor; [|by apply IH].
    rewrite Hk in Hk'. injection Hk' as <-.
    unfold Sqlite.foreignKeysHold.
    change (Sqlite.foreignKeys (StoreProps.tableNamed "tool_use_results"))
      with [Sqlite.mkFK "toolUseId" "tool_uses" "id";
            Sqlite.mkFK "messageId" "messages" "id"].
    cbn [forallb Sqlite.fk_column Sqlite.fk_parentTable Sqlite.fk_parentColumn].
    rewrite Hfk, Hfm.
    change (Sqlite.findTable "tool_uses")
      with (Some (StoreProps.tableNamed "tool_uses")).
    change (Sqlite.findTable "messages")
      with (Some (StoreProps.tableNamed "messages")).
    cbv beta iota.
    rewrite (hasKey_rows _ _ _ w.1 (Executor.db st'))
      by (rewrite Htables; exact Huses).
    rewrite Hku.
    rewrite (hasKey_last (StoreProps.tableNamed "messages") "id"
               (Sqlite.SText uuid)
               (placeholderRow uuid sid now' sessionPath) w.1
               ltac:(done) eq_refl (Executor.db st') Hplace).
    done.
  - rewrite Htables, Hrows, length_app in Hresults.
    apply Forall2_length in Hrowsof.
    cbn [length Executor.db] in *.
    rewrite length_map, length_imap in Hrowsof. lia.
Qed.

(** The result line of the specification, run on the store its tool-use
    line has left. *)
Lemma tool_result_line_is_stored_as_placeholder :
  exists parsed n' r w' rows,
    Parse.parseAndTransform Scenario.sequentialIds (js "T0")
      Scenario.toolResultLine (js "/p") 0 = (Returned parsed, n')
    /\ Parse.message parsed = None
    /\ Forall2 (carries (js "m2")) (Scenario.contentOf Scenario.toolResultLine)
         (Parse.toolResults parsed)
    /\ Executor.executeParsedEntries (js "T1") [parsed] Carrier.storeWithToolUse
       = (Returned r, w')
    /\ Sqlite.rowsOf "messages" w'.1
       = Sqlite.rowsOf "messages" Carrier.storeWithToolUse.1
         ++ [placeholderRow (js "m2") (js "s1") (js "T1") (js "/p")]
    /\ Executor.messagesInserted r = 1%nat
    /\ Sqlite.rowsOf "tool_use_results" w'.1
       = Sqlite.rowsOf "tool_use_results" Carrier.storeWithToolUse.1 ++ rows
    /\ Forall2 (Carrier.resultRow (js "m2"))
         (Scenario.contentOf Scenario.toolResultLine) rows
    /\ Forall (fun row =>
                 Sqlite.foreignKeysHold
                   (StoreProps.tableNamed "tool_use_results") row w'.1 = true)
         rows
    /\ Executor.toolResultsInserted r = 1%nat.
Proof.
  destruct (tool_result_carrier_is_stored_as_placeholder Scenario.sequentialIds
              (js "T0") (js "T1") Scenario.toolResultLine (js "/p") (js "m2")
              (js "s1") (Scenario.contentOf Scenario.toolResultLine) 0
              Carrier.storeWithToolUse)
    as (parsed & n' & r & w' & Hparse & Hmsg & Hcarries & Hrun & Hmessages
        & Hone & Hresults).
  - reflexivity.
  - reflexivity.
  - discriminate.
  - reflexivity.
  - reflexivity.
  - discriminate.
  - repeat constructor. by eexists.
  - intros t Ht. vm_compute in Ht. injection Ht as <-.
    vm_compute. repeat constructor.
  - intros t Ht. vm_compute in Ht. by injection Ht as <-.
  - destruct Hresults as (rows & Hrows & Hfields & Hkeys & Hcount).
    + apply Forall_cons_2; [|by apply Forall_nil]. split.
      * exists (js "toolu_1"). split; [reflexivity|].
        split; [discriminate|by vm_compute].
      * by exists Sqlite.SNull.
    + change (Carrier.idsFrom _ _ _) with [Scenario.sequentialIds 0].
      split; [apply NoDup_singleton|].
      apply Forall_cons_2; [|by apply Forall_nil].
      split; [discriminate|by vm_compute].
    + exists parsed, n', r, w', rows.
      exact (conj Hparse (conj Hmsg (conj Hcarries (conj Hrun (conj Hmessages
               (conj Hone (conj Hrows (conj Hfields (conj Hkeys Hcount))))))))).
Defined.

(** C4, the claim as written fails in two ways.  For a fragment whose
    content is the empty string the record made from it has the output
    [null], not the content string.  And the result line of the
    specification, run on a store that does not have the tool use it
    answers, leaves the placeholder and no tool result: the insert of the
    result is refused by the foreign key to the tool uses, which the
    placeholder does not resolve. *)
Lemma carrier_output_null_and_result_refused :
  (exists parsed n' item record,
     Parse.parseAndTransform Scenario.sequentialIds (js "T0")
       Scenario.emptyResultLine (js "/p") 0 = (Returned parsed, n')
     /\ Scenario.contentOf Scenario.emptyResultLine = [item]
     /\ isToolResultItem item = true
     /\ getPropOpt "content" (Some item) = Some (JStr [])
     /\ Parse.toolResults parsed = [record]
     /\ ToolResult.output record = null
     /\ ToolResult.output record <> Some (JStr []))
  /\ (exists r w',
        Scenario.firstRun (Scenario.parsedBatch [Scenario.toolResultLine])
        = (Returned r, w')
        /\ Sqlite.rowsOf "messages" w'.1
           = [placeholderRow (js "m2") (js "s1") (js "T0") (js "/p")]
        /\ Sqlite.rowsOf "tool_use_results" w'.1 = []
        /\ Executor.toolResultsInserted r = 0%nat
        /\ map message (Executor.errors r)
           = [js "FOREIGN KEY constraint failed"]).
Proof.
  split.
  - eexists _, _, _, _. repeat split; try (vm_compute; reflexivity).
    vm_compute. discriminate.
  - eexists _, _. split; [vm_compute; reflexivity|]. by vm_compute.
Qed.
